(** * YouTube data harvester: normaliser, transformers, API client,
      warehouse gateway and migration loop

    A shallow embedding of [data_processor.py], [youtube_api_handler.py],
    [database_manager.py] and of the "Data Warehousing" branch of [app.py],
    with the properties of the harvest-normalise-load pipeline proved over
    it.

    Python values are embedded as follows.  A [str] is a [string]: a
    sequence of code points below 256, on which the class [\d] of [re] is
    exactly the ten characters '0'..'9'.  An [int] is a [Z].  A [dict] with
    string keys is an association list in insertion order.  An exception
    that leaves a function is a [Raise] outcome; what Streamlit shows
    ([st.error], [st.warning], [st.info], [st.success]) is a list of
    diagnostics returned next to the result.  The methods of the API client
    are the bodies that run on a cache miss: the [st.cache_data]
    memoisation around them is not part of the embedding. *)

From Stdlib Require Import ZArith String Ascii Bool Lia PeanoNat List Sorted.
Import ListNotations.

Local Open Scope string_scope.
Local Open Scope Z_scope.

(** ** Python values and outcomes *)

(** What a cell of a record or of a data frame holds. [CNaN] is the filler
    pandas puts where a record has no value for a column. *)
Inductive cell : Type :=
| CNone
| CNaN
| CInt (z : Z)
| CStr (s : string)
| CDate (y m d : Z).

Inductive exn : Type :=
| KeyError (key : string)
| TypeError (what : string)
| ValueError (what : string)
| HttpError (status : Z) (text : string)
| DatabaseError (what : string).

Inductive outcome (A : Type) : Type :=
| Return (a : A)
| Raise (e : exn).
Arguments Return {A} a.
Arguments Raise {A} e.

Definition bind {A B} (m : outcome A) (f : A -> outcome B) : outcome B :=
  match m with
  | Return a => f a
  | Raise e => Raise e
  end.

Declare Scope py_scope.
Delimit Scope py_scope with py.
Notation "x <- m ;; k" := (bind m (fun x => k))
  (at level 61, m at next level, right associativity) : py_scope.

(** ** Duration normaliser ([data_processor.parse_duration]) *)

Module Duration.

Definition is_digit (c : ascii) : bool :=
  let n := nat_of_ascii c in (48 <=? n)%nat && (n <=? 57)%nat.

Definition digit_value (c : ascii) : Z := Z.of_nat (nat_of_ascii c) - 48.

(** [int(x)] on a string of decimal digits. *)
Fixpoint int_acc (acc : Z) (s : string) : Z :=
  match s with
  | EmptyString => acc
  | String c s' => int_acc (10 * acc + digit_value c) s'
  end.

Definition int (s : string) : Z := int_acc 0 s.

(** The fragment of [re] patterns that [duration_re] is written in. *)
Inductive regex : Type :=
| RChar (c : ascii)          (* a literal character *)
| RDigits (g : nat)          (* [(\d+)], capturing group number [g] *)
| RSeq (r1 r2 : regex)       (* concatenation *)
| ROpt (r : regex).          (* [(?: r )?], greedy *)

(** [match.groups()]: one entry per capturing group, [None] for a group
    that took no part in the match. *)
Definition groups : Type := list (option string).

Fixpoint set_group (g : nat) (v : string) (gs : groups) : groups :=
  match gs, g with
  | [], _ => []
  | _ :: gs', O => Some v :: gs'
  | x :: gs', S g' => x :: set_group g' v gs'
  end.

(** A backtracking matcher in continuation-passing style: [k] is the rest
    of the pattern, and a [None] from it makes the matcher try its next
    alternative.  [\d+] is greedy: the longest run first, then shorter
    ones. *)
Fixpoint rdigits {A} (s : string) (k : string -> string -> option A)
  : option A :=
  match s with
  | EmptyString => None
  | String c s' =>
      if is_digit c then
        match rdigits s' (fun ds rest => k (String c ds) rest) with
        | Some a => Some a
        | None => k (String c EmptyString) s'
        end
      else None
  end.

Fixpoint rmatch {A} (r : regex) (s : string) (gs : groups)
  (k : string -> groups -> option A) : option A :=
  match r with
  | RChar c =>
      match s with
      | String c' s' => if Ascii.eqb c c' then k s' gs else None
      | EmptyString => None
      end
  | RDigits g => rdigits s (fun ds rest => k rest (set_group g ds gs))
  | RSeq r1 r2 => rmatch r1 s gs (fun s' gs' => rmatch r2 s' gs' k)
  | ROpt r' =>
      match rmatch r' s gs k with
      | Some a => Some a
      | None => k s gs
      end
  end.

(** [pattern.match(s)]: anchored at the start of [s] only; the match may
    end anywhere.  The result is the groups and the unmatched rest. *)
Definition re_match (r : regex) (ngroups : nat) (s : string)
  : option (groups * string) :=
  rmatch r s (repeat None ngroups) (fun rest gs => Some (gs, rest)).

Definition unit_field (g : nat) (c : ascii) : regex :=
  ROpt (RSeq (RDigits g) (RChar c)).

(** [re.compile(r'P(?:(\d+)D)?T(?:(\d+)H)?(?:(\d+)M)?(?:(\d+)S)?')] *)
Definition duration_re : regex :=
  RSeq (RChar "P")
    (RSeq (unit_field 0 "D")
       (RSeq (RChar "T")
          (RSeq (unit_field 1 "H")
             (RSeq (unit_field 2 "M") (unit_field 3 "S"))))).

(** [int(x) if x else 0] *)
Definition int_or_zero (x : option string) : Z :=
  match x with
  | Some (String c s) => int (String c s)
  | Some EmptyString => 0
  | None => 0
  end.

Definition parse_duration (duration_str : cell) : Z :=
  match duration_str with
  | CStr s =>
      match re_match duration_re 4 s with
      | None => 0
      | Some (gs, _) =>
          let days := int_or_zero (nth 0 gs None) in
          let hours := int_or_zero (nth 1 gs None) in
          let minutes := int_or_zero (nth 2 gs None) in
          let seconds := int_or_zero (nth 3 gs None) in
          (days * 24 * 3600) + (hours * 3600) + (minutes * 60) + seconds
      end
  | _ => 0
  end.

(** *** Well-formed durations, as the specification writes them *)

(** The four optional fields of "P[n]DT[n]H[n]M[n]S", each a string of
    digits when present. *)
Record fields : Type := mkFields {
  f_days : option string;
  f_hours : option string;
  f_minutes : option string;
  f_seconds : option string
}.

Fixpoint all_digits (s : string) : bool :=
  match s with
  | EmptyString => true
  | String c s' => is_digit c && all_digits s'
  end.

Definition number (s : string) : bool :=
  match s with
  | EmptyString => false
  | String _ _ => all_digits s
  end.

Definition wf_field (o : option string) : bool :=
  match o with
  | None => true
  | Some ds => number ds
  end.

Definition wf_fields (f : fields) : bool :=
  wf_field (f_days f) && wf_field (f_hours f)
  && wf_field (f_minutes f) && wf_field (f_seconds f).

Definition render_field (o : option string) (c : ascii) : string :=
  match o with
  | None => ""
  | Some ds => ds ++ String c ""
  end.

Definition render (f : fields) : string :=
  "P" ++ render_field (f_days f) "D" ++ "T" ++ render_field (f_hours f) "H"
  ++ render_field (f_minutes f) "M" ++ render_field (f_seconds f) "S".

Definition field_value (o : option string) : Z :=
  match o with
  | None => 0
  | Some ds => int ds
  end.

Definition total_seconds (f : fields) : Z :=
  field_value (f_days f) * 86400 + field_value (f_hours f) * 3600
  + field_value (f_minutes f) * 60 + field_value (f_seconds f).

Definition starts_with_digit (s : string) : bool :=
  match s with
  | EmptyString => false
  | String c _ => is_digit c
  end.

(** *** A deterministic reading of the pattern, used in the proofs *)

Fixpoint span_digits (s : string) : string * string :=
  match s with
  | EmptyString => ("", "")
  | String c s' =>
      if is_digit c then
        let (ds, rest) := span_digits s' in (String c ds, rest)
      else ("", s)
  end.

(** One optional field at the head of [s]: the digits and the rest when
    the field is there, nothing consumed when it is not. *)
Definition scan_field (c : ascii) (s : string) : option string * string :=
  match span_digits s with
  | (String d ds, String c' rest) =>
      if Ascii.eqb c c' then (Some (String d ds), rest) else (None, s)
  | _ => (None, s)
  end.

Definition scan (s : string) : option (fields * string) :=
  match s with
  | String "P" s1 =>
      let (d, s2) := scan_field "D" s1 in
      match s2 with
      | String "T" s3 =>
          let (h, s4) := scan_field "H" s3 in
          let (m, s5) := scan_field "M" s4 in
          let (sec, s6) := scan_field "S" s5 in
          Some (mkFields d h m sec, s6)
      | _ => None
      end
  | _ => None
  end.

(** The continuation "then the letter [c]" of a run of digits. *)
Definition then_char {A} (c : ascii) (k : string -> string -> option A)
  (ds rest : string) : option A :=
  match rest with
  | String c' r => if Ascii.eqb c c' then k ds r else None
  | EmptyString => None
  end.

Definition hms_re : regex :=
  RSeq (unit_field 1 "H") (RSeq (unit_field 2 "M") (unit_field 3 "S")).

Definition final : string -> groups -> option (groups * string) :=
  fun rest gs => Some (gs, rest).

Definition groups_of (f : fields) : groups :=
  [f_days f; f_hours f; f_minutes f; f_seconds f].

(** A field followed by what comes after it. *)
Definition field_then (o : option string) (c : ascii) (tail : string) : string :=
  match o with
  | None => tail
  | Some ds => ds ++ String c tail
  end.

(** The character that follows the first run of digits of a string that
    starts with a digit. *)
Definition next_letter (s : string) : option ascii :=
  match span_digits s with
  | (String _ _, String c _) => Some c
  | _ => None
  end.

Definition suffix (b a : string) : Prop := exists p, a = p ++ b.

End Duration.

(** ** Records and data frames ([pandas], as far as the program uses it) *)

Module Frame.
Local Open Scope list_scope.

(** A Python [dict] with string keys, in insertion order. *)
Definition record : Type := list (string * cell).

Fixpoint lookup (k : string) (r : record) : option cell :=
  match r with
  | [] => None
  | (k', v) :: r' => if String.eqb k k' then Some v else lookup k r'
  end.

(** [r[k]] *)
Definition getitem (r : record) (k : string) : outcome cell :=
  match lookup k r with
  | Some v => Return v
  | None => Raise (KeyError k)
  end.

Definition mem (k : string) (ks : list string) : bool :=
  existsb (String.eqb k) ks.

(** A frame: its column labels, and one record per row that has a value
    for every column. *)
Record DataFrame : Type := mkFrame {
  columns : list string;
  rows : list record
}.

(** [pd.DataFrame()] *)
Definition empty_frame : DataFrame := mkFrame [] [].

(** [df.empty]: no row or no column. *)
Definition empty (df : DataFrame) : bool :=
  match columns df, rows df with
  | [], _ => true
  | _, [] => true
  | _, _ => false
  end.

(** [len(df)] *)
Definition len (df : DataFrame) : Z := Z.of_nat (length (rows df)).

(** The columns of [pd.DataFrame(list_of_dicts)]: the keys of the records
    in order of first appearance. *)
Fixpoint add_keys (cols : list string) (r : record) : list string :=
  match r with
  | [] => cols
  | (k, _) :: r' => add_keys (if mem k cols then cols else cols ++ [k]) r'
  end.

Definition columns_of (l : list record) : list string :=
  fold_left add_keys l [].

(** A record laid out on the columns, [NaN] where it has no value. *)
Definition cell_at (r : record) (c : string) : cell :=
  match lookup c r with
  | Some v => v
  | None => CNaN
  end.

Definition reindex (cols : list string) (r : record) : record :=
  map (fun c => (c, cell_at r c)) cols.

(** [pd.DataFrame(l)] for a list of dicts. *)
Definition pd_DataFrame (l : list record) : DataFrame :=
  let cols := columns_of l in
  mkFrame cols (map (reindex cols) l).

(** [df[c]] *)
Definition getcol (df : DataFrame) (c : string) : outcome (list cell) :=
  if mem c (columns df)
  then Return (map (fun r => cell_at r c) (rows df))
  else Raise (KeyError c).

Definition set_cell (c : string) (v : cell) (r : record) : record :=
  map (fun kv => if String.eqb (fst kv) c then (fst kv, v) else kv) r.

(** [df[c] = values]: an existing column is overwritten where it stands,
    a new one is added last. *)
Definition setcol (df : DataFrame) (c : string) (values : list cell)
  : DataFrame :=
  if mem c (columns df)
  then mkFrame (columns df)
         (map (fun rv => set_cell c (snd rv) (fst rv))
            (combine (rows df) values))
  else mkFrame (columns df ++ [c])
         (map (fun rv => fst rv ++ [(c, snd rv)])
            (combine (rows df) values)).

Definition del_cell (c : string) (r : record) : record :=
  filter (fun kv => negb (String.eqb (fst kv) c)) r.

(** [df.drop(columns=[c])] *)
Definition drop (df : DataFrame) (c : string) : outcome DataFrame :=
  if mem c (columns df)
  then Return (mkFrame (filter (fun k => negb (String.eqb k c)) (columns df))
                 (map (del_cell c) (rows df)))
  else Raise (KeyError c).

(** Every row has a value for every column and for nothing else. *)
Definition wf_frame (df : DataFrame) : Prop :=
  Forall (fun r => map fst r = columns df) (rows df).

End Frame.

(** ** Record transformers ([data_processor.process_*_data]) *)

Module Transformer.
Import Frame.
Local Open Scope list_scope.
Local Open Scope py_scope.

Section WithDates.

(** [pd.to_datetime(column).dt.date]: the conversion of a whole column of
    timestamps to calendar dates is pandas' own and is left abstract.  It
    either raises or yields a column of the same length. *)
Variable to_dates : list cell -> outcome (list cell).

(** [process_channel_data]: a falsy argument ([None], an empty dict)
    gives the empty frame, any other dict a frame of one row. *)
Definition process_channel_data (channel_details : option record)
  : DataFrame :=
  match channel_details with
  | None => empty_frame
  | Some [] => empty_frame
  | Some d => pd_DataFrame [d]
  end.

Definition process_video_data (video_details_list : option (list record))
  : outcome DataFrame :=
  match video_details_list with
  | None => Return empty_frame
  | Some [] => Return empty_frame
  | Some l =>
      let df := pd_DataFrame l in
      published <- getcol df "published_date" ;;
      dates <- to_dates published ;;
      let df := setcol df "published_date" dates in
      durations <- getcol df "duration" ;;
      let df := setcol df "duration_seconds"
                  (map (fun v => CInt (Duration.parse_duration v)) durations) in
      (* Drop the original ISO duration string if not needed *)
      drop df "duration"
  end.

Definition process_comment_data (comments_list : option (list record))
  : outcome DataFrame :=
  match comments_list with
  | None => Return empty_frame
  | Some [] => Return empty_frame
  | Some l =>
      let df := pd_DataFrame l in
      published <- getcol df "published_date" ;;
      dates <- to_dates published ;;
      Return (setcol df "published_date" dates)
  end.

End WithDates.

(** The number written in the [n] characters of [s] from [start] on. *)
Definition digits_at (s : string) (start n : nat) : option Z :=
  let t := String.substring start n s in
  if (Nat.eqb (String.length t) n && Duration.number t)%bool
  then Some (Duration.int t) else None.

(** A converter for the timestamps the API sends, "YYYY-MM-DDThh:mm:ssZ":
    the date is read off the first ten characters, [None] and [NaN] stay
    missing, anything else raises.  It stands for pandas' converter in the
    examples. *)
Definition iso_date (v : cell) : outcome cell :=
  match v with
  | CNone => Return CNone
  | CNaN => Return CNaN
  | CStr s =>
      match digits_at s 0 4, String.get 4 s, digits_at s 5 2,
            String.get 7 s, digits_at s 8 2 with
      | Some y, Some "-"%char, Some m, Some "-"%char, Some d =>
          Return (CDate y m d)
      | _, _, _, _, _ => Raise (ValueError "time data does not match format")
      end
  | _ => Raise (TypeError "not convertible to datetime")
  end.

Fixpoint iso_dates (col : list cell) : outcome (list cell) :=
  match col with
  | [] => Return []
  | v :: col' =>
      d <- iso_date v ;;
      ds <- iso_dates col' ;;
      Return (d :: ds)
  end.

End Transformer.

(** ** The outside world: calls made and diagnostics shown *)

(** What Streamlit is asked to show.  The text is the fixed part of the
    message. *)
Inductive diag : Type :=
| st_error (msg : string)
| st_warning (msg : string)
| st_info (msg : string)
| st_success (msg : string)
| st_subheader (msg : string).

(** The calls that leave the program, in the order they are made: the
    four list operations of the video API and the three write operations
    of the warehouse gateway. *)
Inductive call : Type :=
| ChannelsList (id : cell)
| PlaylistItemsList (playlistId : cell) (pageToken : option string)
| VideosList (ids : list string)
| CommentThreadsList (videoId : cell) (maxResults : Z)
    (pageToken : option string)
| InsertChannels (df : Frame.DataFrame)
| InsertVideos (df : Frame.DataFrame)
| InsertComments (df : Frame.DataFrame).

Record world : Type := mkWorld {
  calls : list call;
  shown : list diag
}.

Definition log_call (c : call) (w : world) : world :=
  mkWorld (List.app (calls w) [c]) (shown w).

Definition show (d : diag) (w : world) : world :=
  mkWorld (calls w) (List.app (shown w) [d]).

(** ** API client ([youtube_api_handler.YouTubeAPIHandler]) *)

Module Api.
Import Frame.
Local Open Scope list_scope.

(** A channel resource as [channels().list] returns it with
    [part="snippet,statistics,contentDetails"]; the statistics may be
    missing. *)
Record channel_item : Type := mkChannelItem {
  ci_id : string;
  ci_title : string;
  ci_subscriberCount : option Z;
  ci_videoCount : option Z;
  ci_uploads : string
}.

(** A video resource as [videos().list] returns it with
    [part="snippet,statistics,contentDetails"]; the statistics and the
    duration may be missing. *)
Record video_item : Type := mkVideoItem {
  vi_id : string;
  vi_channelId : string;
  vi_title : string;
  vi_publishedAt : string;
  vi_viewCount : option Z;
  vi_likeCount : option Z;
  vi_commentCount : option Z;
  vi_duration : option string
}.

(** A comment thread as [commentThreads().list] returns it with
    [part="snippet"]. *)
Record thread_item : Type := mkThreadItem {
  ti_id : string;
  ti_authorDisplayName : string;
  ti_textDisplay : string;
  ti_publishedAt : string
}.

(** The upstream service.  A playlist or video id is whatever value the
    caller passes.  Each operation answers the request it is sent
    with a page of items or with an exception; the first argument is the
    number of calls that left the program before this one, so that the
    answer may depend on everything that happened so far. *)
Record upstream : Type := mkUpstream {
  channels_list :
    nat -> cell -> outcome (list channel_item);
  playlistItems_list :
    nat -> cell -> option string -> outcome (list string * option string);
  videos_list :
    nat -> list string -> outcome (list video_item);
  commentThreads_list :
    nat -> cell -> Z -> option string
    -> outcome (list thread_item * option string)
}.

(** [not next_page_token] *)
Definition no_token (t : option string) : bool :=
  match t with
  | None => true
  | Some EmptyString => true
  | Some (String _ _) => false
  end.

Definition opt_int (o : option Z) : cell :=
  match o with
  | Some z => CInt z
  | None => CInt 0
  end.

Definition opt_str (o : option string) : cell :=
  match o with
  | Some s => CStr s
  | None => CNone
  end.

(** *** [get_channel_details] *)

Definition channel_info (channel_data : channel_item) : record :=
  [ ("channel_id", CStr (ci_id channel_data));
    ("channel_name", CStr (ci_title channel_data));
    ("subscribers", opt_int (ci_subscriberCount channel_data));
    ("total_videos", opt_int (ci_videoCount channel_data));
    ("uploads_playlist_id", CStr (ci_uploads channel_data)) ].

Definition get_channel_details (up : upstream) (channel_id : cell)
  (w : world) : option record * world :=
  let n := length (calls w) in
  let w := log_call (ChannelsList channel_id) w in
  match channels_list up n channel_id with
  | Return [] => (None, show (st_error "No channel found for ID") w)
  | Return (channel_data :: _) => (Some (channel_info channel_data), w)
  | Raise (HttpError _ _) =>
      (None, show (st_error "YouTube API Error (Channel Details)") w)
  | Raise _ => (None, show (st_error "An unexpected error occurred") w)
  end.

(** *** [get_playlist_video_ids] *)

Fixpoint playlist_loop (fuel : nat) (up : upstream) (playlist_id : cell)
  (next_page_token : option string) (video_ids : list string) (w : world)
  : option (outcome (list string) * world) :=
  match fuel with
  | O => None
  | S fuel' =>
      let n := length (calls w) in
      let w := log_call (PlaylistItemsList playlist_id next_page_token) w in
      match playlistItems_list up n playlist_id next_page_token with
      | Raise e => Some (Raise e, w)
      | Return (items, next) =>
          let video_ids := video_ids ++ items in
          if no_token next then Some (Return video_ids, w)
          else playlist_loop fuel' up playlist_id next video_ids w
      end
  end.

Definition get_playlist_video_ids (fuel : nat) (up : upstream)
  (playlist_id : cell) (w : world) : option (list string * world) :=
  match playlist_loop fuel up playlist_id None [] w with
  | None => None
  | Some (Return video_ids, w) => Some (video_ids, w)
  | Some (Raise (HttpError _ _), w) =>
      Some ([], show (st_error "YouTube API Error (Playlist Items)") w)
  | Some (Raise _, w) =>
      Some ([], show (st_error "An unexpected error occurred") w)
  end.

(** *** [get_video_details] *)

Definition video_details (item : video_item) : record :=
  [ ("video_id", CStr (vi_id item));
    ("channel_id", CStr (vi_channelId item));
    ("title", CStr (vi_title item));
    ("published_date", CStr (vi_publishedAt item));
    ("views", opt_int (vi_viewCount item));
    ("likes", opt_int (vi_likeCount item));
    ("comments_count", opt_int (vi_commentCount item));
    ("duration", opt_str (vi_duration item)) ].

(** [range(0, n, 50)] *)
Definition batch_starts (n : nat) : list nat :=
  map (fun k => (50 * k)%nat) (seq 0 ((n + 49) / 50)).

(** [l[i:j]] for [0 <= i <= j] *)
Definition slice {A} (l : list A) (i j : nat) : list A :=
  firstn (j - i) (skipn i l).

(** One turn of the loop over the batches.  The request carries the ids
    of the batch; the program joins them with commas. *)
Definition video_batch (up : upstream) (video_ids : list string)
  (st : list record * world) (i : nat) : list record * world :=
  let (video_details_list, w) := st in
  let batch_ids := slice video_ids i (i + 50) in
  let n := length (calls w) in
  let w := log_call (VideosList batch_ids) w in
  match videos_list up n batch_ids with
  | Return items => (video_details_list ++ map video_details items, w)
  | Raise (HttpError _ _) =>
      (video_details_list,
       show (st_error "YouTube API Error (Video Details batch)") w)
  | Raise _ =>
      (video_details_list,
       show (st_error "An unexpected error occurred during video details fetch") w)
  end.

Definition get_video_details (up : upstream) (video_ids : list string)
  (w : world) : list record * world :=
  match video_ids with
  | [] => ([], w)
  | _ :: _ =>
      fold_left (video_batch up video_ids)
        (batch_starts (length video_ids)) ([], w)
  end.

(** The batches [get_video_details] cuts a list of ids into. *)
Definition batches (video_ids : list string) : list (list string) :=
  map (fun i => slice video_ids i (i + 50)) (batch_starts (length video_ids)).

(** The records of one batch sent as call number [n]: those of the items
    returned, none when the call raises. *)
Definition batch_records (up : upstream) (n : nat) (batch : list string)
  : list record :=
  match videos_list up n batch with
  | Return items => map video_details items
  | Raise _ => []
  end.

(** The records of consecutive batches, the first sent as call number
    [n]. *)
Fixpoint batches_records (up : upstream) (n : nat)
  (bs : list (list string)) : list record :=
  match bs with
  | [] => []
  | b :: bs' => batch_records up n b ++ batches_records up (S n) bs'
  end.

(** *** [get_comments_of_video] *)

Definition comment_info (video_id : cell) (item : thread_item) : record :=
  [ ("comment_id", CStr (ti_id item));
    ("video_id", video_id);
    ("author", CStr (ti_authorDisplayName item));
    ("comment_text", CStr (ti_textDisplay item));
    ("published_date", CStr (ti_publishedAt item)) ].

(** The loop over the items of one page, with its [break]. *)
Fixpoint page_items (video_id : cell) (max_results : Z)
  (items : list thread_item) (comments_list : list record) (collected : Z)
  : list record * Z :=
  match items with
  | [] => (comments_list, collected)
  | item :: items' =>
      let comments_list := comments_list ++ [comment_info video_id item] in
      let collected := collected + 1 in
      if collected >=? max_results then (comments_list, collected)
      else page_items video_id max_results items' comments_list collected
  end.

Fixpoint comments_loop (fuel : nat) (up : upstream) (video_id : cell)
  (max_results : Z) (next_page_token : option string)
  (comments_list : list record) (collected : Z) (w : world)
  : option (outcome (list record) * world) :=
  if collected <? max_results then
    match fuel with
    | O => None
    | S fuel' =>
        let n := length (calls w) in
        let page_size := Z.min 100 (max_results - collected) in
        let w :=
          log_call (CommentThreadsList video_id page_size next_page_token) w in
        match commentThreads_list up n video_id page_size next_page_token with
        | Raise e => Some (Raise e, w)
        | Return (items, next) =>
            let (comments_list, collected) :=
              page_items video_id max_results items comments_list collected in
            if no_token next then Some (Return comments_list, w)
            else comments_loop fuel' up video_id max_results next
                   comments_list collected w
        end
    end
  else Some (Return comments_list, w).

(** [needle in hay] *)
Fixpoint contains (needle hay : string) : bool :=
  String.prefix needle hay ||
  match hay with
  | EmptyString => false
  | String _ hay' => contains needle hay'
  end.

(** The handler of [get_comments_of_video]: what is shown for an
    exception that reached it.  [text] stands for [str(e)]. *)
Definition comments_failure (video_id : cell) (e : exn) : diag :=
  match e with
  | HttpError status text =>
      if (status =? 403) && contains "commentsDisabled" text
      then st_warning "Comments are disabled for video ID"
      else st_error "YouTube API Error (Comments)"
  | _ => st_error "An unexpected error occurred during comments fetch"
  end.

Definition get_comments_of_video (fuel : nat) (up : upstream)
  (video_id : cell) (max_results : Z) (w : world)
  : option (outcome (list record) * world) :=
  match comments_loop fuel up video_id max_results None [] 0 w with
  | None => None
  | Some (Return comments_list, w) => Some (Return comments_list, w)
  | Some (Raise e, w) =>
      Some (Return [], show (comments_failure video_id e) w)
  end.

(** An upstream that never sends an empty page together with a
    continuation token. *)
Definition productive (up : upstream) (video_id : cell) : Prop :=
  forall n m tok items next,
    commentThreads_list up n video_id m tok = Return (items, next) ->
    no_token next = false -> items <> [].

End Api.

(** ** Warehouse gateway ([database_manager.DatabaseManager]) *)

Module Warehouse.
Import Frame.
Local Open Scope list_scope.
Local Open Scope py_scope.

(** *** The schema *)

(** The mapped classes.  The primary key of a stored row is a string;
    every other attribute holds whatever cell the row was given, [None]
    when it was given none. *)
Record Channel : Type := mkChannel {
  ch_channel_id : string;
  ch_channel_name : cell;
  ch_subscribers : cell;
  ch_total_videos : cell;
  ch_uploads_playlist_id : cell
}.

Record Video : Type := mkVideo {
  v_video_id : string;
  v_channel_id : cell;        (* foreign key to channels.channel_id *)
  v_title : cell;
  v_published_date : cell;
  v_views : cell;
  v_likes : cell;
  v_comments_count : cell;
  v_duration_seconds : cell
}.

Record Comment : Type := mkComment {
  c_comment_id : string;
  c_video_id : cell;          (* foreign key to videos.video_id *)
  c_author : cell;
  c_comment_text : cell;
  c_published_date : cell
}.

Definition Channel_columns : list string :=
  ["channel_id"; "channel_name"; "subscribers"; "total_videos";
   "uploads_playlist_id"].

Definition Video_columns : list string :=
  ["video_id"; "channel_id"; "title"; "published_date"; "views"; "likes";
   "comments_count"; "duration_seconds"].

Definition Comment_columns : list string :=
  ["comment_id"; "video_id"; "author"; "comment_text"; "published_date"].

(** The three tables. *)
Record tables : Type := mkTables {
  channels : list Channel;
  videos : list Video;
  comments : list Comment
}.

(** What the program cannot see of the storage engine: whether it can be
    reached, and the checks it applies to the columns of a row it is asked
    to store (lengths, ranges), which depend on the server and its mode.
    The keys are checked below. *)
Record engine : Type := mkEngine {
  reachable : bool;
  accepts_channel : Channel -> bool;
  accepts_video : Video -> bool;
  accepts_comment : Comment -> bool
}.

(** *** Mapped objects from rows *)

(** An attribute of an object made from the keywords [d]: the value given,
    [None] otherwise. *)
Definition attr (d : record) (k : string) : cell :=
  match lookup k d with
  | Some v => v
  | None => CNone
  end.

(** A mapped class refuses a keyword that is not one of its attributes. *)
Definition check_keywords (cols : list string) (d : record) : outcome unit :=
  match find (fun kv => negb (mem (fst kv) cols)) d with
  | Some (k, _) => Raise (TypeError k)
  | None => Return tt
  end.

(** [Channel] made from the keywords [row.to_dict()], as it reaches the
    table: a row whose key is not a string is refused when it is flushed. *)
Definition new_Channel (d : record) : outcome Channel :=
  _ <- check_keywords Channel_columns d ;;
  match attr d "channel_id" with
  | CStr k =>
      Return (mkChannel k (attr d "channel_name") (attr d "subscribers")
                (attr d "total_videos") (attr d "uploads_playlist_id"))
  | _ => Raise (DatabaseError "primary key")
  end.

Definition new_Video (d : record) : outcome Video :=
  _ <- check_keywords Video_columns d ;;
  match attr d "video_id" with
  | CStr k =>
      Return (mkVideo k (attr d "channel_id") (attr d "title")
                (attr d "published_date") (attr d "views") (attr d "likes")
                (attr d "comments_count") (attr d "duration_seconds"))
  | _ => Raise (DatabaseError "primary key")
  end.

Definition new_Comment (d : record) : outcome Comment :=
  _ <- check_keywords Comment_columns d ;;
  match attr d "comment_id" with
  | CStr k =>
      Return (mkComment k (attr d "video_id") (attr d "author")
                (attr d "comment_text") (attr d "published_date"))
  | _ => Raise (DatabaseError "primary key")
  end.

(** *** Queries and constraints *)

(** [session.query(Cls).filter_by(key=k).first()] *)
Definition query {R} (key : R -> string) (k : cell) (table : list R)
  : option R :=
  match k with
  | CStr s => find (fun r => String.eqb (key r) s) table
  | _ => None
  end.

(** A foreign key: null, or the key of a row of the parent table. *)
Definition references {R} (key : R -> string) (ref : cell) (parent : list R)
  : bool :=
  match ref with
  | CNone => true
  | CStr s => existsb (fun r => String.eqb (key r) s) parent
  | _ => false
  end.

(** The row of key [key r] overwritten where it stands. *)
Definition overwrite {R} (key : R -> string) (r : R) (table : list R)
  : list R :=
  map (fun x => if String.eqb (key x) (key r) then r else x) table.

(** Every statement needs the engine. *)
Definition connect (eng : engine) : outcome unit :=
  if reachable eng then Return tt else Raise (DatabaseError "connection").

Definition flush (ok : bool) (what : string) : outcome unit :=
  if ok then Return tt else Raise (DatabaseError what).

(** *** [insert_channel_data] *)

(** The body of the loop over the rows, on the state of the session. *)
Definition upsert_channel (eng : engine) (t : tables) (row : record)
  : outcome tables :=
  k <- getitem row "channel_id" ;;
  _ <- connect eng ;;
  match query ch_channel_id k (channels t) with
  | Some existing_channel =>
      (* Update existing channel data *)
      name <- getitem row "channel_name" ;;
      subs <- getitem row "subscribers" ;;
      total <- getitem row "total_videos" ;;
      uploads <- getitem row "uploads_playlist_id" ;;
      let channel :=
        mkChannel (ch_channel_id existing_channel) name subs total uploads in
      _ <- flush (accepts_channel eng channel) "channels" ;;
      Return (mkTables (overwrite ch_channel_id channel (channels t))
                (videos t) (comments t))
  | None =>
      channel <- new_Channel row ;;
      _ <- flush (accepts_channel eng channel) "channels" ;;
      Return (mkTables (channels t ++ [channel]) (videos t) (comments t))
  end.

(** The rows in order, each on the state the previous one left. *)
Fixpoint for_rows (body : tables -> record -> outcome tables)
  (rows : list record) (t : tables) : outcome tables :=
  match rows with
  | [] => Return t
  | row :: rows' => t' <- body t row ;; for_rows body rows' t'
  end.

(** One call of the gateway: nothing for an empty frame; otherwise a
    session in which the rows are processed and committed together, or
    rolled back together when anything raises. *)
Definition insert_channel_data (eng : engine) (df : DataFrame)
  (st : tables * world) : tables * world :=
  let (t, w) := st in
  if empty df then (t, w)
  else
    let w := log_call (InsertChannels df) w in
    match for_rows (upsert_channel eng) (rows df) t with
    | Return t' => (t', show (st_success "Inserted/updated channel(s).") w)
    | Raise _ => (t, show (st_error "Error inserting channel data") w)
    end.

(** *** [insert_video_data] *)

Definition upsert_video (eng : engine) (t : tables) (row : record)
  : outcome tables :=
  k <- getitem row "video_id" ;;
  _ <- connect eng ;;
  match query v_video_id k (videos t) with
  | Some existing_video =>
      (* Update existing video data *)
      title <- getitem row "title" ;;
      views <- getitem row "views" ;;
      likes <- getitem row "likes" ;;
      count <- getitem row "comments_count" ;;
      secs <- getitem row "duration_seconds" ;;
      published <- getitem row "published_date" ;;
      let video :=
        mkVideo (v_video_id existing_video) (v_channel_id existing_video)
          title published views likes count secs in
      _ <- flush (accepts_video eng video) "videos" ;;
      Return (mkTables (channels t) (overwrite v_video_id video (videos t))
                (comments t))
  | None =>
      video <- new_Video row ;;
      _ <- flush (references ch_channel_id (v_channel_id video) (channels t))
             "fk_channel_id_videos" ;;
      _ <- flush (accepts_video eng video) "videos" ;;
      Return (mkTables (channels t) (videos t ++ [video]) (comments t))
  end.

Definition insert_video_data (eng : engine) (df : DataFrame)
  (st : tables * world) : tables * world :=
  let (t, w) := st in
  if empty df then (t, w)
  else
    let w := log_call (InsertVideos df) w in
    match for_rows (upsert_video eng) (rows df) t with
    | Return t' => (t', show (st_success "Inserted/updated video(s).") w)
    | Raise _ => (t, show (st_error "Error inserting video data") w)
    end.

(** *** [insert_comment_data] *)

Definition insert_comment (eng : engine) (t : tables) (row : record)
  : outcome tables :=
  k <- getitem row "comment_id" ;;
  _ <- connect eng ;;
  match query c_comment_id k (comments t) with
  | Some existing_comment => Return t
  | None =>
      (* Only insert if comment does not exist *)
      comment <- new_Comment row ;;
      _ <- flush (references v_video_id (c_video_id comment) (videos t))
             "fk_video_id_comments" ;;
      _ <- flush (accepts_comment eng comment) "comments" ;;
      Return (mkTables (channels t) (videos t) (comments t ++ [comment]))
  end.

Definition insert_comment_data (eng : engine) (df : DataFrame)
  (st : tables * world) : tables * world :=
  let (t, w) := st in
  if empty df then (t, w)
  else
    let w := log_call (InsertComments df) w in
    match for_rows (insert_comment eng) (rows df) t with
    | Return t' => (t', show (st_success "Inserted new comment(s).") w)
    | Raise _ => (t, show (st_error "Error inserting comment data") w)
    end.

(** *** Properties of a store *)

(** Every video refers to a stored channel and every comment to a stored
    video. *)
Definition referential_integrity (t : tables) : Prop :=
  Forall (fun v => references ch_channel_id (v_channel_id v) (channels t) = true)
    (videos t) /\
  Forall (fun c => references v_video_id (c_video_id c) (videos t) = true)
    (comments t).

(** How many rows of a table have the key [k]. *)
Definition count_key {R} (key : R -> string) (k : string) (table : list R)
  : nat :=
  length (filter (fun r => String.eqb (key r) k) table).

(** The specification's upsert of one row: overwrite the row of the same
    key where it stands, or add the row. *)
Definition put {R} (key : R -> string) (table : list R) (r : R) : list R :=
  match find (fun x => String.eqb (key x) (key r)) table with
  | Some _ => overwrite key r table
  | None => table ++ [r]
  end.

(** The last of the rows [rs] that has the key [k]. *)
Definition last_write {R} (key : R -> string) (k : string) (rs : list R)
  : option R :=
  find (fun r => String.eqb (key r) k) (rev rs).

(** The stored form of the rows the API client builds. *)
Definition Channel_of (c : Api.channel_item) : Channel :=
  mkChannel (Api.ci_id c) (CStr (Api.ci_title c))
    (Api.opt_int (Api.ci_subscriberCount c))
    (Api.opt_int (Api.ci_videoCount c)) (CStr (Api.ci_uploads c)).

(** The columns of the frame made of the video records of the API client,
    before the transformer renames the duration. *)
Definition raw_video_columns : list string :=
  ["video_id"; "channel_id"; "title"; "published_date"; "views"; "likes";
   "comments_count"; "duration"].

Definition Video_of (item : Api.video_item) (date : cell) : Video :=
  mkVideo (Api.vi_id item) (CStr (Api.vi_channelId item))
    (CStr (Api.vi_title item)) date
    (Api.opt_int (Api.vi_viewCount item))
    (Api.opt_int (Api.vi_likeCount item))
    (Api.opt_int (Api.vi_commentCount item))
    (CInt (Duration.parse_duration (Api.opt_str (Api.vi_duration item)))).

Definition Comment_of (video_id : cell) (item : Api.thread_item)
  (date : cell) : Comment :=
  mkComment (Api.ti_id item) video_id (CStr (Api.ti_authorDisplayName item))
    (CStr (Api.ti_textDisplay item)) date.

(** The row the transformer makes of a video record of the API client,
    given the date its timestamp converts to. *)
Definition video_row (item : Api.video_item) (date : cell) : record :=
  [ ("video_id", CStr (Api.vi_id item));
    ("channel_id", CStr (Api.vi_channelId item));
    ("title", CStr (Api.vi_title item));
    ("published_date", date);
    ("views", Api.opt_int (Api.vi_viewCount item));
    ("likes", Api.opt_int (Api.vi_likeCount item));
    ("comments_count", Api.opt_int (Api.vi_commentCount item));
    ("duration_seconds",
     CInt (Duration.parse_duration (Api.opt_str (Api.vi_duration item)))) ].

Definition comment_row (video_id : cell) (item : Api.thread_item)
  (date : cell) : record :=
  [ ("comment_id", CStr (Api.ti_id item));
    ("video_id", video_id);
    ("author", CStr (Api.ti_authorDisplayName item));
    ("comment_text", CStr (Api.ti_textDisplay item));
    ("published_date", date) ].

End Warehouse.

(** ** The migration of the collected data ([app.py], "Data Warehousing") *)

Module App.
Import Frame Transformer Api Warehouse.
Local Open Scope list_scope.

(** What is collected for one channel:
    [{'channel_info': {}, 'videos': [], 'comments': []}]. *)
Record staged : Type := mkStaged {
  s_channel_info : record;
  s_videos : list record;
  s_comments : list record
}.

(** [st.session_state['collected_channels_data']]: a dict from channel id
    to what is collected for it, in insertion order. *)
Definition staging : Type := list (string * staged).

(** The state a run of the script works on: the staging collection, the
    warehouse, the calls made and the diagnostics shown so far, and the
    three counters of the migration. *)
Record session : Type := mkSession {
  collected_channels_data : staging;
  store : tables;
  out : world;
  total_channels_migrated : Z;
  total_videos_migrated : Z;
  total_comments_migrated : Z
}.

(** A step of the script: it may run out of fuel (inside a pagination
    loop of the API client), end with an exception, which stops the
    script with the state as it is, or go on. *)
Definition M (A : Type) : Type := session -> option (outcome A * session).

Definition ret {A} (a : A) : M A := fun s => Some (Return a, s).

Definition mbind {A B} (m : M A) (f : A -> M B) : M B :=
  fun s =>
    match m s with
    | None => None
    | Some (Raise e, s') => Some (Raise e, s')
    | Some (Return a, s') => f a s'
    end.

Declare Scope app_scope.
Delimit Scope app_scope with app.
Notation "x <- m ;; k" := (mbind m (fun x => k))
  (at level 61, m at next level, right associativity) : app_scope.
Notation "m ;; k" := (mbind m (fun _ => k))
  (at level 61, right associativity) : app_scope.
Local Open Scope app_scope.

(** An expression that may raise. *)
Definition lift {A} (o : outcome A) : M A := fun s => Some (o, s).

Definition with_out (w : world) (s : session) : session :=
  mkSession (collected_channels_data s) (store s) w
    (total_channels_migrated s) (total_videos_migrated s)
    (total_comments_migrated s).

Definition st_show (d : diag) : M unit :=
  fun s => Some (Return tt, with_out (show d (out s)) s).

(** A call of the API client that needs no fuel. *)
Definition api {A} (f : world -> A * world) : M A :=
  fun s => let (a, w) := f (out s) in Some (Return a, with_out w s).

(** A call of the API client that pages. *)
Definition api_paged {A} (f : world -> option (A * world)) : M A :=
  fun s =>
    match f (out s) with
    | None => None
    | Some (a, w) => Some (Return a, with_out w s)
    end.

(** A call of the warehouse gateway. *)
Definition gateway (f : tables * world -> tables * world) : M unit :=
  fun s =>
    let (t, w) := f (store s, out s) in
    Some (Return tt,
          mkSession (collected_channels_data s) t w
            (total_channels_migrated s) (total_videos_migrated s)
            (total_comments_migrated s)).

Definition with_staging (c : staging) (s : session) : session :=
  mkSession c (store s) (out s)
    (total_channels_migrated s) (total_videos_migrated s)
    (total_comments_migrated s).

(** [collected_channels_data[channel_id] = data] for a key that is there. *)
Definition store_entry (channel_id : string) (data : staged) : M unit :=
  fun s =>
    Some (Return tt,
          with_staging
            (map (fun kv => if String.eqb (fst kv) channel_id
                            then (fst kv, data) else kv)
               (collected_channels_data s)) s).

Definition count_channels (n : Z) : M unit :=
  fun s =>
    Some (Return tt,
          mkSession (collected_channels_data s) (store s) (out s)
            (total_channels_migrated s + n) (total_videos_migrated s)
            (total_comments_migrated s)).

Definition count_videos (n : Z) : M unit :=
  fun s =>
    Some (Return tt,
          mkSession (collected_channels_data s) (store s) (out s)
            (total_channels_migrated s) (total_videos_migrated s + n)
            (total_comments_migrated s)).

Definition count_comments (n : Z) : M unit :=
  fun s =>
    Some (Return tt,
          mkSession (collected_channels_data s) (store s) (out s)
            (total_channels_migrated s) (total_videos_migrated s)
            (total_comments_migrated s + n)).

(** [bool(d)] for a dict or a list. *)
Definition truthy {A} (l : list A) : bool :=
  match l with
  | [] => false
  | _ :: _ => true
  end.

Section Migration.

Variable fuel : nat.
Variable eng : engine.
Variable up : upstream.
Variable to_dates : list cell -> outcome (list cell).

(** The loop that fetches the comments of the videos one after the other.
    [current_comments_data] is the very list that is staged for the
    channel, so each [extend] shows in the staging collection. *)
Fixpoint fetch_comments (channel_id : string) (data : staged)
  (video_details : list record) : M staged :=
  match video_details with
  | [] => ret data
  | video_det :: rest =>
      video_id <- lift (getitem video_det "video_id") ;;
      fetched <- api_paged (get_comments_of_video fuel up video_id 100) ;;
      comments_for_video <- lift fetched ;;
      let data :=
        mkStaged (s_channel_info data) (s_videos data)
          (s_comments data ++ comments_for_video) in
      store_entry channel_id data ;;
      fetch_comments channel_id data rest
  end.

(** 1. Process and insert channel data *)
Definition insert_channel_step (data : staged) : M unit :=
  let df_channel := process_channel_data (Some (s_channel_info data)) in
  if empty df_channel then ret tt
  else gateway (insert_channel_data eng df_channel) ;;
       count_channels (len df_channel).

(** 2. Fetch and insert video data (if not already fetched during
    collection) *)
Definition fill_videos (channel_id : string) (data : staged) : M staged :=
  if negb (truthy (s_videos data)) && truthy (s_channel_info data)
  then
    st_show (st_info "Fetching videos during migration...") ;;
    playlist_id <- lift (getitem (s_channel_info data) "uploads_playlist_id") ;;
    video_ids <- api_paged (get_playlist_video_ids fuel up playlist_id) ;;
    current_videos_data <- api (get_video_details up video_ids) ;;
    (* Update session state with newly fetched videos *)
    let data :=
      mkStaged (s_channel_info data) current_videos_data (s_comments data) in
    store_entry channel_id data ;;
    ret data
  else ret data.

Definition insert_videos_step (data : staged) : M unit :=
  df_videos <- lift (process_video_data to_dates (Some (s_videos data))) ;;
  if empty df_videos then ret tt
  else gateway (insert_video_data eng df_videos) ;;
       count_videos (len df_videos).

(** 3. Fetch and insert comments for videos (if not already fetched) *)
Definition fill_comments (channel_id : string) (data : staged) : M staged :=
  if negb (truthy (s_comments data)) && truthy (s_videos data)
  then
    st_show (st_info "Fetching comments during migration (Quota intensive!)...") ;;
    data <- fetch_comments channel_id data (s_videos data) ;;
    (* Update session state with newly fetched comments *)
    store_entry channel_id data ;;
    ret data
  else ret data.

Definition insert_comments_step (data : staged) : M unit :=
  df_comments <- lift (process_comment_data to_dates (Some (s_comments data))) ;;
  if empty df_comments then ret tt
  else gateway (insert_comment_data eng df_comments) ;;
       count_comments (len df_comments).

(** The body of [for channel_id, data in collected_channels_data.items()]. *)
Definition migrate_channel (channel_id : string) (data : staged) : M unit :=
  _ <- lift (getitem (s_channel_info data) "channel_name") ;;
  st_show (st_subheader "Migrating data for channel") ;;
  insert_channel_step data ;;
  data <- fill_videos channel_id data ;;
  insert_videos_step data ;;
  data <- fill_comments channel_id data ;;
  insert_comments_step data.

Fixpoint for_channels (items : staging) : M unit :=
  match items with
  | [] => ret tt
  | (channel_id, data) :: rest =>
      migrate_channel channel_id data ;; for_channels rest
  end.

(** What runs when "Migrate All Collected Data to SQL Database" is
    pressed. *)
Definition migrate : M unit :=
  fun s =>
    (for_channels (collected_channels_data s) ;;
     st_show (st_success "Migration complete!") ;;
     st_show (st_info "Total Channels migrated") ;;
     st_show (st_info "Total Videos migrated") ;;
     st_show (st_info "Total Comments migrated") ;;
     (* Clear the temporary collected data from session state after
        successful migration *)
     (fun s => Some (Return tt, with_staging [] s)) ;;
     st_show (st_info "Temporary collected data cleared from app's memory."))
      (mkSession (collected_channels_data s) (store s) (out s) 0 0 0).

End Migration.

(** What is staged for a channel with its videos and the comments of
    those videos, as the API client builds the records. *)
Definition consistent_entry (c : channel_item) (items : list video_item)
  (cs : list (string * thread_item)) : staged :=
  mkStaged (channel_info c) (map video_details items)
    (map (fun p => comment_info (CStr (fst p)) (snd p)) cs).

(** A channel harvested with videos and comments. *)
Record harvest : Type := mkHarvest {
  h_channel : channel_item;
  h_videos : list video_item;
  h_comments : list (string * thread_item)
}.

(** The videos are the channel's and the comments are on those videos. *)
Definition consistent (h : harvest) : Prop :=
  h_videos h <> [] /\ h_comments h <> [] /\
  (forall it, In it (h_videos h) -> vi_channelId it = ci_id (h_channel h)) /\
  (forall p, In p (h_comments h) -> In (fst p) (map vi_id (h_videos h))).

Definition staged_of (h : harvest) : string * staged :=
  (ci_id (h_channel h),
   consistent_entry (h_channel h) (h_videos h) (h_comments h)).

(** The store holds a row for the channel, for each of the videos and for
    each of the comments. *)
Definition stored (h : harvest) (t : tables) : Prop :=
  In (ci_id (h_channel h)) (map ch_channel_id (channels t)) /\
  (forall it, In it (h_videos h) ->
     In (vi_id it) (map v_video_id (videos t))) /\
  (forall p, In p (h_comments h) ->
     In (ti_id (snd p)) (map c_comment_id (comments t))).

(** Every key stored in [t] is stored in [t']. *)
Definition stores_more (t t' : tables) : Prop :=
  (forall k, In k (map ch_channel_id (channels t)) ->
             In k (map ch_channel_id (channels t'))) /\
  (forall k, In k (map v_video_id (videos t)) ->
             In k (map v_video_id (videos t'))) /\
  (forall k, In k (map c_comment_id (comments t)) ->
             In k (map c_comment_id (comments t'))).

Definition is_error (d : diag) : Prop :=
  match d with
  | st_error _ => True
  | _ => False
  end.

(** The write calls of a log, by the table they write: 0 for channels,
    1 for videos, 2 for comments. *)
Definition ranks (cs : list call) : list nat :=
  flat_map (fun c =>
    match c with
    | InsertChannels _ => [0%nat]
    | InsertVideos _ => [1%nat]
    | InsertComments _ => [2%nat]
    | _ => []
    end) cs.

(** A call of the API client, as opposed to a write of the gateway. *)
Definition api_call (c : call) : Prop :=
  match c with
  | InsertChannels _ | InsertVideos _ | InsertComments _ => False
  | _ => True
  end.

(** What the write calls made for one staged channel carry: the frame of
    its channel info, the frame of its video records (the staged ones when
    there are any), the frame of its comment records (likewise). *)
Definition writes_of (to_dates : list cell -> outcome (list cell))
  (data : staged) (c : call) : Prop :=
  match c with
  | InsertChannels df =>
      df = process_channel_data (Some (s_channel_info data))
  | InsertVideos df =>
      exists vs, process_video_data to_dates (Some vs) = Return df /\
                 (s_videos data <> [] -> vs = s_videos data)
  | InsertComments df =>
      exists cs, process_comment_data to_dates (Some cs) = Return df /\
                 (s_comments data <> [] -> cs = s_comments data)
  | _ => True
  end.

(** A stretch of the log whose writes go to tables [lo] to [hi - 1], to
    each at most once, in that order, and carry [carry]. *)
Definition stage (carry : call -> Prop) (lo hi : nat) (cs : list call)
  : Prop :=
  StronglySorted Nat.lt (ranks cs) /\
  Forall (fun k => (lo <= k < hi)%nat) (ranks cs) /\
  Forall carry cs.

(** The log of a run over the staged channels: one stretch per channel,
    in the order of the staging collection, up to where the run ended. *)
Inductive segmented (seg : staged -> list call -> Prop)
  : staging -> list call -> Prop :=
| segmented_end : forall items, segmented seg items []
| segmented_channel : forall channel_id data items cs rest,
    seg data cs ->
    segmented seg items rest ->
    segmented seg ((channel_id, data) :: items) (cs ++ rest).

(** [m] adds to the log a stretch that satisfies [Q], and what it returns
    satisfies [P]. *)
Definition logs {A} (Q : list call -> Prop) (P : A -> Prop) (m : M A)
  : Prop :=
  forall s r s',
    m s = Some (r, s') ->
    exists cs, calls (out s') = calls (out s) ++ cs /\ Q cs /\
               forall a, r = Return a -> P a.

(** [m] keeps the property [I] of the store. *)
Definition keeps {A} (I : tables -> Prop) (m : M A) : Prop :=
  forall s r s', m s = Some (r, s') -> I (store s) -> I (store s').

End App.

(** ** Sample data *)

Module Examples.
Import Frame Transformer Api Warehouse App.
Local Open Scope list_scope.

Definition UC1 : channel_item :=
  mkChannelItem "UC1" "First channel" (Some 10) (Some 2) "UU1".

(** The same channel harvested again, renamed and with new counts. *)
Definition UC1_later : channel_item :=
  mkChannelItem "UC1" "First channel (renamed)" (Some 12) (Some 3) "UU1".

Definition UC2 : channel_item :=
  mkChannelItem "UC2" "Second channel" None (Some 1) "UU2".

Definition v1 : video_item :=
  mkVideoItem "v1" "UC1" "A video" "2023-01-01T00:00:00Z"
    (Some 100) (Some 7) None (Some "PT5M").

Definition t1 : thread_item :=
  mkThreadItem "c1" "bob" "first" "2023-01-02T10:00:00Z".

(** A video record that lacks its publication date. *)
Definition undated_video : record :=
  [("video_id", CStr "v9"); ("duration", CStr "PT1M")].

(** [n] different one-character ids, from the exclamation mark on. *)
Definition some_ids (n : nat) : list string :=
  map (fun k => String (ascii_of_nat (33 + k)) "") (seq 0 n).

Definition item_of_id (id : string) : video_item :=
  mkVideoItem id "UC1" "A video" "2023-01-01T00:00:00Z" None None None None.

Definition page_of_seven : list thread_item :=
  map (fun k => mkThreadItem (String (ascii_of_nat (65 + k)) "") "bob" "hi"
                  "2023-01-02T10:00:00Z") (seq 0 7).

(** An upstream with one channel, one video with one comment. *)
Definition small_upstream : upstream :=
  mkUpstream
    (fun _ _ => Return [UC1])
    (fun _ _ _ => Return (["v1"], None))
    (fun _ _ => Return [v1])
    (fun _ _ _ _ => Return ([t1], None)).

(** An upstream whose second call fails, and which otherwise returns one
    video per id asked for. *)
Definition second_call_fails : upstream :=
  mkUpstream
    (fun _ _ => Return [UC1])
    (fun _ _ _ => Return ([], None))
    (fun n batch =>
       if Nat.eqb n 1 then Raise (HttpError 500 "backendError")
       else Return (map item_of_id batch))
    (fun _ _ _ _ => Return ([], None)).

(** An upstream that sends seven comments on every page, always with a
    continuation token. *)
Definition endless_comments : upstream :=
  mkUpstream
    (fun _ _ => Return [UC1])
    (fun _ _ _ => Return ([], None))
    (fun _ _ => Return [])
    (fun _ _ _ _ => Return (page_of_seven, Some "more")).

(** An upstream on which comments are disabled. *)
Definition comments_disabled : upstream :=
  mkUpstream
    (fun _ _ => Return [UC1])
    (fun _ _ _ => Return ([], None))
    (fun _ _ => Return [])
    (fun _ _ _ _ =>
       Raise (HttpError 403 "<HttpError 403 commentsDisabled>")).

Definition nothing_yet : world := mkWorld [] [].

Definition empty_store : tables := mkTables [] [] [].

(** An engine that is reachable and accepts every row. *)
Definition accepting : engine :=
  mkEngine true (fun _ => true) (fun _ => true) (fun _ => true).

(** An engine that cannot be reached. *)
Definition unreachable : engine :=
  mkEngine false (fun _ => true) (fun _ => true) (fun _ => true).

(** One channel staged with its video and the comment of that video. *)
Definition one_channel_staged : staging :=
  [("UC1", mkStaged (channel_info UC1) [video_details v1]
             [comment_info (CStr "v1") t1])].

Definition fresh_session (c : staging) : session :=
  mkSession c empty_store nothing_yet 0 0 0.

(** A store that holds the channel, the video and the comment. *)
Definition loaded_store : tables :=
  mkTables [Channel_of UC1]
    [mkVideo "v1" (CStr "UC1") (CStr "A video") (CDate 2023 1 1)
       (CInt 100) (CInt 7) (CInt 0) (CInt 300)]
    [mkComment "c1" (CStr "v1") (CStr "bob") (CStr "first") (CDate 2023 1 2)].

(** The stored comment sent again with another author and text. *)
Definition c1_altered : DataFrame :=
  mkFrame Comment_columns
    [[("comment_id", CStr "c1"); ("video_id", CStr "v1");
      ("author", CStr "eve"); ("comment_text", CStr "edited");
      ("published_date", CDate 2024 5 5)]].

End Examples.
(** ** The collection of channel data ([app.py], "Data Collection") *)

Module Collect.
Import Frame Transformer Api Warehouse App.
Local Open Scope list_scope.
Local Open Scope app_scope.

(** What the widgets of the page return on one run of the script: the
    text typed in, whether the button was pressed, and the two check
    boxes.  The header, the spinners, [st.write], [st.json], the rule,
    the progress bar and [st.dataframe] only display what they are given;
    what the page shows is followed through its messages. *)
Record widgets : Type := mkWidgets {
  channel_id_input : string;
  fetch_button : bool;
  videos_box : bool;
  comments_box : bool
}.

(** [st.session_state['collected_channels_data']] *)
Definition get_staging : M staging :=
  fun s => Some (Return (collected_channels_data s), s).

(** [collected_channels_data[k] = data] for a key that is not there: the
    entry is added last. *)
Definition add_entry (k : string) (data : staged) : M unit :=
  fun s =>
    Some (Return tt, with_staging (collected_channels_data s ++ [(k, data)]) s).

(** [collected_channels_data[k][field] = v]: the entry of key [k] is
    changed where it stands; a key that is not there raises. *)
Definition update_entry (k : string) (f : staged -> staged) : M unit :=
  fun s =>
    if mem k (map fst (collected_channels_data s))
    then Some (Return tt,
               with_staging
                 (map (fun kv => if String.eqb (fst kv) k
                                 then (fst kv, f (snd kv)) else kv)
                    (collected_channels_data s)) s)
    else Some (Raise (KeyError k), s).

(** [df[labels]] for a list of labels. *)
Definition select (df : DataFrame) (labels : list string)
  : outcome DataFrame :=
  if forallb (fun c => mem c (columns df)) labels
  then Return (mkFrame labels (map (reindex labels) (rows df)))
  else Raise (KeyError "not in index").

Section Page.

Variable fuel : nat.
Variable up : upstream.

(** The loop over the fetched videos; [all_comments] is a list of its
    own, staged only once the loop is over. *)
Fixpoint fetch_all_comments (video_details : list record)
  (all_comments : list record) : M (list record) :=
  match video_details with
  | [] => ret all_comments
  | vid_det :: rest =>
      video_id <- lift (getitem vid_det "video_id") ;;
      fetched <- api_paged (get_comments_of_video fuel up video_id 100) ;;
      comments <- lift fetched ;;
      fetch_all_comments rest (all_comments ++ comments)
  end.

(** What runs under the first check box. *)
Definition fetch_videos_now (ui : widgets) (channel_info : record)
  : M unit :=
  _ <- lift (getitem channel_info "channel_name") ;;
  playlist_id <- lift (getitem channel_info "uploads_playlist_id") ;;
  video_ids <- api_paged (get_playlist_video_ids fuel up playlist_id) ;;
  _ <- lift (getitem channel_info "channel_name") ;;
  st_show (st_info "Found videos") ;;
  if truthy video_ids then
    video_details <- api (get_video_details up video_ids) ;;
    update_entry (channel_id_input ui)
      (fun data => mkStaged (s_channel_info data) video_details
                     (s_comments data)) ;;
    st_show (st_success "Fetched details for videos.") ;;
    if comments_box ui then
      all_comments <- fetch_all_comments video_details [] ;;
      update_entry (channel_id_input ui)
        (fun data => mkStaged (s_channel_info data) (s_videos data)
                       all_comments) ;;
      st_show (st_success "Fetched comments in total.")
    else ret tt
  else st_show (st_warning "No videos found for this channel's uploads playlist.").

(** What runs under [if st.button("Fetch Channel Data")]. *)
Definition fetch_channel_data (ui : widgets) : M unit :=
  if fetch_button ui then
    match channel_id_input ui with
    | String _ _ =>
        channel_info <-
          api (get_channel_details up (CStr (channel_id_input ui))) ;;
        match channel_info with
        | Some (kv :: d) =>
            let channel_info := kv :: d in
            _ <- lift (getitem channel_info "channel_name") ;;
            st_show (st_success "Fetched channel") ;;
            (* Store the fetched channel information in session state *)
            collected <- get_staging ;;
            (if mem (channel_id_input ui) (map fst collected) then
               st_show (st_info "Channel already in temporary collection. Updating details.") ;;
               update_entry (channel_id_input ui)
                 (fun data => mkStaged channel_info (s_videos data)
                                (s_comments data))
             else
               add_entry (channel_id_input ui) (mkStaged channel_info [] [])) ;;
            _ <- lift (getitem channel_info "channel_name") ;;
            if videos_box ui then fetch_videos_now ui channel_info
            else ret tt
        | _ => st_show (st_error "Could not fetch channel details.")
        end
    | EmptyString =>
        st_show (st_warning "Please enter a YouTube Channel ID to fetch data.")
    end
  else ret tt.

(** The summary under the form. *)
Definition show_collected : M unit :=
  st_show (st_subheader "Channels Collected for Warehousing (In App's Memory):") ;;
  collected <- get_staging ;;
  if truthy collected then
    let df_channels_temp :=
      pd_DataFrame (map (fun kv => s_channel_info (snd kv)) collected) in
    _ <- lift (select df_channels_temp
                 ["channel_name"; "subscribers"; "total_videos"]) ;;
    if 10 <=? Z.of_nat (length collected)
    then st_show (st_warning "You have collected data for 10 channels.")
    else ret tt
  else st_show (st_info "No channels collected yet.").

(** One run of the script on the page. *)
Definition data_collection (ui : widgets) : M unit :=
  fetch_channel_data ui ;; show_collected.

End Page.

(** An entry as the page stages it: the record of a channel, records of
    videos, records of comments on videos. *)
Definition harvested_entry (data : staged) : Prop :=
  exists c items cs, data = consistent_entry c items cs.

(** A staging collection with one entry per key, each as the page stages
    it. *)
Definition harvested (c : staging) : Prop :=
  NoDup (map fst c) /\ Forall (fun kv => harvested_entry (snd kv)) c.

(** The staging collection is well formed, holds the key [k], and has
    the keys [keys]. *)
Definition staged_under (k : string) (keys : list string) (c : staging)
  : Prop :=
  harvested c /\ mem k (map fst c) = true /\ map fst c = keys.

(** The entry staged under [k]. *)
Definition entry (k : string) (c : staging) : option staged :=
  match find (fun kv => String.eqb (fst kv) k) c with
  | Some kv => Some (snd kv)
  | None => None
  end.

End Collect.

(** ** The choice of a channel and the generated query ([app.py], "Data
       Analysis") *)

Module Analysis.
Import Frame Api App.

(** *** The operations of [str] the page uses *)

(** [str.upper] on one character.  The texts it is applied to are the
    queries of [analysis_queries], which are ASCII. *)
Definition upper_char (c : ascii) : ascii :=
  let n := nat_of_ascii c in
  if ((97 <=? n) && (n <=? 122))%nat then ascii_of_nat (n - 32) else c.

Fixpoint upper (s : string) : string :=
  match s with
  | EmptyString => EmptyString
  | String c s' => String (upper_char c) (upper s')
  end.

(** [str.isspace] on one character: tab to carriage return, the four
    separators, the space, NEL and the no-break space. *)
Definition isspace (c : ascii) : bool :=
  let n := nat_of_ascii c in
  (((9 <=? n) && (n <=? 13)) || ((28 <=? n) && (n <=? 32))
   || (n =? 133) || (n =? 160))%nat.

Fixpoint lstrip (s : string) : string :=
  match s with
  | EmptyString => EmptyString
  | String c s' => if isspace c then lstrip s' else s
  end.

Fixpoint rstrip (s : string) : string :=
  match s with
  | EmptyString => EmptyString
  | String c s' =>
      match rstrip s' with
      | EmptyString => if isspace c then EmptyString else String c EmptyString
      | String c' t => String c (String c' t)
      end
  end.

(** [s.strip()] *)
Definition strip (s : string) : string := lstrip (rstrip s).

(** [s.find(sub)]: the lowest index at which [sub] starts, [-1] when
    there is none. *)
Fixpoint find (sub s : string) : Z :=
  if prefix sub s then 0
  else
    match s with
    | EmptyString => -1
    | String _ s' => let i := find sub s' in if i =? -1 then -1 else i + 1
    end.

(** [s[:i]] and [s[i:]] for [0 <= i]. *)
Definition slice_to (s : string) (i : Z) : string :=
  substring 0 (Z.to_nat i) s.

Definition slice_from (s : string) (i : Z) : string :=
  substring (Z.to_nat i) (String.length s - Z.to_nat i) s.

(** *** The predefined queries *)

Definition q_videos_and_channels : string :=
  "
            SELECT V.title AS video_title, C.channel_name
            FROM Videos V
            JOIN Channels C ON V.channel_id = C.channel_id
            ".

Definition q_most_videos : string :=
  "
            SELECT C.channel_name, C.total_videos
            FROM Channels C
            ORDER BY C.total_videos DESC
            ".

Definition q_top_viewed : string :=
  "
            SELECT V.title AS video_title, C.channel_name, V.views
            FROM Videos V
            JOIN Channels C ON V.channel_id = C.channel_id
            ORDER BY V.views DESC
            LIMIT 10
            ".

Definition q_comments_count : string :=
  "
            SELECT V.title AS video_title, V.comments_count
            FROM Videos V
            ".

Definition q_highest_likes : string :=
  "
            SELECT V.title AS video_title, C.channel_name, V.likes
            FROM Videos V
            JOIN Channels C ON C.channel_id = V.channel_id
            ORDER BY V.likes DESC
            ".

Definition q_likes_dislikes : string :=
  "
            SELECT title AS video_title, likes, 0 AS dislikes_placeholder -- YouTube API does not provide dislikes directly
            FROM Videos
            ".

Definition q_views_per_channel : string :=
  "
            SELECT C.channel_name, SUM(V.views) AS total_channel_views
            FROM Channels C
            JOIN Videos V ON C.channel_id = V.channel_id
            GROUP BY C.channel_name
            ORDER BY total_channel_views DESC
            ".

Definition q_published_2022 : string :=
  "
            SELECT DISTINCT C.channel_name
            FROM Channels C
            JOIN Videos V ON C.channel_id = V.channel_id
            WHERE YEAR(V.published_date) = 2022 -- Use YEAR() for MySQL. For PostgreSQL, use EXTRACT(YEAR FROM V.published_date)
            ".

Definition q_average_duration : string :=
  "
            SELECT C.channel_name, AVG(V.duration_seconds) AS average_video_duration_seconds
            FROM Channels C
            JOIN Videos V ON C.channel_id = V.channel_id
            GROUP BY C.channel_name
            ".

Definition q_highest_comments : string :=
  "
            SELECT V.title AS video_title, C.channel_name, V.comments_count
            FROM Videos V
            JOIN Channels C ON C.channel_id = V.channel_id
            ORDER BY V.comments_count DESC
            ".

(** [analysis_queries]: the descriptions shown in the select box, each
    with its query. *)
Definition analysis_queries : list (string * string) :=
  [ ("Names of all videos and their corresponding channels",
     q_videos_and_channels);
    ("Channels with the most videos",
     q_most_videos);
    ("Top 10 most viewed videos and their channels",
     q_top_viewed);
    ("Comments count per video and video names",
     q_comments_count);
    ("Videos with the highest likes and their channels",
     q_highest_likes);
    ("Total likes and dislikes for each video and video names",
     q_likes_dislikes);
    ("Total views per channel and channel names",
     q_views_per_channel);
    ("Channels with videos published in 2022",
     q_published_2022);
    ("Average duration of all videos in each channel",
     q_average_duration);
    ("Videos with the highest comments and their channels",
     q_highest_comments) ].

(** *** The channel filter *)

(** The alias the filter names: [C], or [V] when the query reads the
    videos under that alias and does not join the channels. *)
Definition alias_of (query_upper : string) : string :=
  if contains "FROM VIDEOS V" query_upper
     && negb (contains "JOIN CHANNELS C" query_upper)
  then "V" else "C".

(** [bool(s)] for an optional string: [None] and the empty string are
    falsy. *)
Definition truthy_str (o : option string) : bool :=
  match o with
  | Some (String _ _) => true
  | _ => false
  end.

Definition is_all_channels (name : option string) : bool :=
  match name with
  | Some s => String.eqb s "All Channels"
  | None => false
  end.

(** What the page does to [full_query] between the select boxes and
    [st.code]. *)
Definition channel_filter (full_query : string)
  (selected_channel_name selected_channel_id : option string) : string :=
  match selected_channel_id with
  | Some id =>
      if negb (is_all_channels selected_channel_name)
         && truthy_str selected_channel_id then
        let query_upper := upper full_query in
        let insert_point :=
          if contains "GROUP BY" query_upper then find "GROUP BY" query_upper
          else if contains "ORDER BY" query_upper
               then find "ORDER BY" query_upper
               else -1 in
        let alias := alias_of query_upper in
        if negb (insert_point =? -1) then
          strip (slice_to full_query insert_point)
          ++ " WHERE " ++ alias ++ ".channel_id = '" ++ id ++ "' "
          ++ strip (slice_from full_query insert_point)
        else if contains "WHERE" query_upper then
          full_query ++ " AND " ++ alias ++ ".channel_id = '" ++ id ++ "'"
        else
          full_query ++ " WHERE " ++ alias ++ ".channel_id = '" ++ id ++ "'"
      else full_query
  | None => full_query
  end.

(** *** The choice of a channel *)

(** A row of [session.query(Channel.channel_name, Channel.channel_id)]:
    the name, which may be null, and the id. *)
Definition name_row : Type := (option string * string)%type.

(** [get_all_channel_names]; [all] stands for what [.all()] gives: the
    rows, in the order the engine sends them, or an exception. *)
Definition get_all_channel_names (all : outcome (list name_row)) (w : world)
  : list name_row * world :=
  match all with
  | Return channels => (channels, w)
  | Raise _ => ([], show (st_error "Error fetching channel names") w)
  end.

Definition key_eqb (a b : option string) : bool :=
  match a, b with
  | Some x, Some y => String.eqb x y
  | None, None => true
  | _, _ => false
  end.

(** [d[k] = v] *)
Fixpoint dict_set (k : option string) (v : string) (d : list name_row)
  : list name_row :=
  match d with
  | [] => [(k, v)]
  | (k', v') :: d' =>
      if key_eqb k k' then (k', v) :: d' else (k', v') :: dict_set k v d'
  end.

(** [d.get(k)] *)
Fixpoint dict_get (k : option string) (d : list name_row) : option string :=
  match d with
  | [] => None
  | (k', v) :: d' => if key_eqb k k' then Some v else dict_get k d'
  end.

(** [{ch['name']: ch['id'] for ch in all_channels}] *)
Definition channel_names_map (all_channels : list name_row) : list name_row :=
  fold_left (fun d ch => dict_set (fst ch) (snd ch) d) all_channels [].

Fixpoint insert_sorted (x : string) (l : list string) : list string :=
  match l with
  | [] => [x]
  | y :: l' => if String.leb x y then x :: l else y :: insert_sorted x l'
  end.

Fixpoint strings_of (keys : list (option string)) : option (list string) :=
  match keys with
  | [] => Some []
  | Some s :: keys' =>
      match strings_of keys' with
      | Some l => Some (s :: l)
      | None => None
      end
  | None :: _ => None
  end.

(** [sorted(keys)]: strings sort by code point; [None] cannot be compared
    with anything, so a list of two keys or more that holds it raises. *)
Definition sorted_keys (keys : list (option string))
  : outcome (list (option string)) :=
  match keys with
  | [] => Return keys
  | [_] => Return keys
  | _ =>
      match strings_of keys with
      | Some l => Return (map Some (fold_right insert_sorted [] l))
      | None => Raise (TypeError "'<' not supported")
      end
  end.

Record selection : Type := mkSelection {
  selected_channel_name : option string;
  selected_channel_id : option string
}.

(** The select box of the channels; [choice] is the position the user
    picks, the first one when nothing is picked. *)
Definition select_channel (all_channels : list name_row) (choice : nat)
  (w : world) : outcome selection * world :=
  if truthy all_channels then
    let names_map := channel_names_map all_channels in
    match sorted_keys (map fst names_map) with
    | Return names =>
        let options := Some "All Channels" :: names in
        let name := nth choice options (Some "All Channels") in
        (Return (mkSelection name (dict_get name names_map)), w)
    | Raise e => (Raise e, w)
    end
  else
    (Return (mkSelection (Some "All Channels") None),
     show (st_warning "No channels found in the database.") w).

(** The page down to [st.code(full_query)]: the query it generates. *)
Definition generated_query (all : outcome (list name_row))
  (channel_choice query_choice : nat) (w : world) : outcome string * world :=
  let (all_channels, w) := get_all_channel_names all w in
  match select_channel all_channels channel_choice w with
  | (Return sel, w) =>
      let description :=
        nth query_choice (map fst analysis_queries)
          "Names of all videos and their corresponding channels" in
      match List.find (fun kv => String.eqb (fst kv) description)
              analysis_queries
      with
      | Some (_, full_query) =>
          (Return (channel_filter full_query (selected_channel_name sel)
                     (selected_channel_id sel)), w)
      | None => (Raise (KeyError description), w)
      end
  | (Raise e, w) => (Raise e, w)
  end.

(** The keyword the filter is put in front of: the first GROUP BY when
    there is one, else the first ORDER BY when there is one. *)
Definition grouping (query_upper : string) : option string :=
  if contains "GROUP BY" query_upper then Some "GROUP BY"
  else if contains "ORDER BY" query_upper then Some "ORDER BY"
  else None.

(** The first and the last character of a text are not white space. *)
Definition starts_nonspace (s : string) : bool :=
  match s with
  | EmptyString => false
  | String c _ => negb (isspace c)
  end.

Fixpoint ends_nonspace (s : string) : bool :=
  match s with
  | EmptyString => false
  | String c EmptyString => negb (isspace c)
  | String _ s' => ends_nonspace s'
  end.

(** The id of the last of the rows that bear a name. *)
Definition id_of_last (name : option string) (rows : list name_row)
  : option string :=
  option_map snd (List.find (fun r => key_eqb name (fst r)) (rev rows)).

(** The query declares the alias: it reads the videos as [V] or the
    channels as [C]. *)
Definition declares (alias query_upper : string) : bool :=
  if String.eqb alias "V" then contains "VIDEOS V" query_upper
  else contains "CHANNELS C" query_upper.

End Analysis.

(** ** Runs of the paged requests of the API client *)

Module Paging.
Import Frame Api.
Local Open Scope list_scope.

(** A page of playlist items: the video ids and the token of the next
    page. *)
Definition page : Type := (list string * option string)%type.

(** From call number [n] on, the upstream answers the requests for the
    playlist with the pages [pages], each carrying the token under which
    the next one is asked for, and then with [last]. *)
Fixpoint answers (up : upstream) (playlist_id : cell) (n : nat)
  (tok : option string) (pages : list page) (last : outcome page) : Prop :=
  match pages with
  | [] => playlistItems_list up n playlist_id tok = last
  | p :: rest =>
      playlistItems_list up n playlist_id tok = Return p /\
      no_token (snd p) = false /\
      answers up playlist_id (S n) (snd p) rest last
  end.

(** The requests that ask for those pages and for the answer after
    them, the first under the token [tok]. *)
Fixpoint requests (playlist_id : cell) (tok : option string)
  (pages : list page) : list call :=
  match pages with
  | [] => [PlaylistItemsList playlist_id tok]
  | p :: rest =>
      PlaylistItemsList playlist_id tok :: requests playlist_id (snd p) rest
  end.

(** What [get_playlist_video_ids] shows for an exception. *)
Definition playlist_failure (e : exn) : diag :=
  match e with
  | HttpError _ _ => st_error "YouTube API Error (Playlist Items)"
  | _ => st_error "An unexpected error occurred"
  end.

(** The upstream never ends a playlist: every page carries a token. *)
Definition endless (up : upstream) (playlist_id : cell) : Prop :=
  forall n tok, exists items next,
    playlistItems_list up n playlist_id tok = Return (items, next) /\
    no_token next = false.

(** The items the upstream sends for consecutive batches of video ids,
    the first sent as call number [n]; a batch whose call raises gives
    none. *)
Fixpoint batches_items (up : upstream) (n : nat) (bs : list (list string))
  : list video_item :=
  match bs with
  | [] => []
  | b :: bs' =>
      match videos_list up n b with
      | Return items => items
      | Raise _ => []
      end ++ batches_items up (S n) bs'
  end.

End Paging.

(** ** Views of the stored rows *)

Module Stored.
Import Frame Warehouse.
Local Open Scope list_scope.

(** The id of a stored video with the channel it belongs to. *)
Definition id_and_channel (v : Video) : string * cell :=
  (v_video_id v, v_channel_id v).

End Stored.

(** ** Properties of the steps of a run of the script *)

Module Runs.
Import Frame Api Warehouse App.
Local Open Scope list_scope.

(** [m] never ends with an exception, and what it returns satisfies
    [P]. *)
Definition returns {A} (P : A -> Prop) (m : M A) : Prop :=
  forall s r s', m s = Some (r, s') -> exists a, r = Return a /\ P a.

(** From a state that satisfies [P], [m] never ends with an exception,
    and what it returns and the state it leaves satisfy [Q]. *)
Definition triple {A} (P : session -> Prop) (m : M A)
  (Q : A -> session -> Prop) : Prop :=
  forall s r s',
    P s -> m s = Some (r, s') -> exists a, r = Return a /\ Q a s'.

(** [m] comes to an end from every state, with a result or with an
    exception. *)
Definition total {A} (m : M A) : Prop :=
  forall s, exists r s', m s = Some (r, s').

(** [m] leaves the keys of the staging collection as they are, in
    order. *)
Definition keeps_keys {A} (m : M A) : Prop :=
  forall s r s',
    m s = Some (r, s') ->
    map fst (collected_channels_data s') = map fst (collected_channels_data s).

(** Two states of the script that may differ in the warehouse and in
    what has been shown, and in nothing else. *)
Definition same_run (s1 s2 : session) : Prop :=
  collected_channels_data s1 = collected_channels_data s2 /\
  calls (out s1) = calls (out s2) /\
  total_channels_migrated s1 = total_channels_migrated s2 /\
  total_videos_migrated s1 = total_videos_migrated s2 /\
  total_comments_migrated s1 = total_comments_migrated s2.

(** Two runs end alike: both run out of fuel, or both end with the same
    result or the same exception in states that differ in the warehouse
    and in what has been shown only. *)
Definition same_end {A} (x1 x2 : option (outcome A * session)) : Prop :=
  match x1, x2 with
  | Some (r1, s1), Some (r2, s2) => r1 = r2 /\ same_run s1 s2
  | None, None => True
  | _, _ => False
  end.

(** [m1] and [m2] do the same but for the warehouse and for what they
    show. *)
Definition blind {A} (m1 m2 : M A) : Prop :=
  forall s1 s2, same_run s1 s2 -> same_end (m1 s1) (m2 s2).

(** When [m] returns, it has added [n] to the count of the channels
    migrated. *)
Definition adds_channels {A} (n : Z) (m : M A) : Prop :=
  forall s a s',
    m s = Some (Return a, s') ->
    total_channels_migrated s' = total_channels_migrated s + n.

(** Every staged channel has its videos and its comments. *)
Definition complete (c : staging) : Prop :=
  Forall (fun kv => s_videos (snd kv) <> [] /\ s_comments (snd kv) <> []) c.

End Runs.

(** ** Further sample data *)

Module Scenarios.
Import Frame Transformer Api Warehouse App.
Local Open Scope list_scope.

(** A video record that lacks its duration. *)
Definition untimed_video : record :=
  [("video_id", CStr "v9"); ("published_date", CStr "2023-01-01T00:00:00Z")].

(** A comment record whose date is not a timestamp. *)
Definition badly_dated_comment : record :=
  [("comment_id", CStr "c9"); ("published_date", CStr "yesterday")].

(** An upstream that knows two channels and sends the one asked for. *)
Definition two_channels : upstream :=
  mkUpstream
    (fun _ id =>
       match id with
       | CStr "UC1" => Return [Examples.UC1]
       | CStr "UC2" => Return [Examples.UC2]
       | _ => Return []
       end)
    (fun _ _ _ => Return ([], None))
    (fun _ _ => Return [])
    (fun _ _ _ _ => Return ([], None)).

(** An upstream whose playlist has two pages. *)
Definition two_pages : upstream :=
  mkUpstream
    (fun _ _ => Return [Examples.UC1])
    (fun _ _ tok =>
       match tok with
       | None => Return (["v1"; "v2"], Some "page2")
       | Some _ => Return (["v3"], None)
       end)
    (fun _ batch => Return (map Examples.item_of_id batch))
    (fun _ _ _ _ => Return ([], None)).

(** The same playlist when the request for its second page fails. *)
Definition second_page_fails : upstream :=
  mkUpstream
    (fun _ _ => Return [Examples.UC1])
    (fun _ _ tok =>
       match tok with
       | None => Return (["v1"; "v2"], Some "page2")
       | Some _ => Raise (HttpError 500 "backendError")
       end)
    (fun _ batch => Return (map Examples.item_of_id batch))
    (fun _ _ _ _ => Return ([], None)).

(** An upstream that sends a token with every page of a playlist. *)
Definition endless_playlist : upstream :=
  mkUpstream
    (fun _ _ => Return [Examples.UC1])
    (fun _ _ _ => Return (["v1"], Some "more"))
    (fun _ _ => Return [])
    (fun _ _ _ _ => Return ([], None)).

(** The stored video harvested again, with new counts and under another
    channel, one that is not stored. *)
Definition v1_moved_row : record :=
  [("video_id", CStr "v1"); ("channel_id", CStr "UC9");
   ("title", CStr "A video (edited)");
   ("published_date", CDate 2023 1 1); ("views", CInt 250);
   ("likes", CInt 9); ("comments_count", CInt 1);
   ("duration_seconds", CInt 300)].

Definition v1_moved : DataFrame := mkFrame Video_columns [v1_moved_row].

(** Two new videos, the second of a channel that is not stored. *)
Definition one_orphan_video : DataFrame :=
  mkFrame Video_columns
    [[("video_id", CStr "v2"); ("channel_id", CStr "UC1");
      ("title", CStr "Second"); ("published_date", CDate 2023 2 1);
      ("views", CInt 1); ("likes", CInt 0); ("comments_count", CInt 0);
      ("duration_seconds", CInt 60)];
     [("video_id", CStr "v3"); ("channel_id", CStr "UC9");
      ("title", CStr "Third"); ("published_date", CDate 2023 3 1);
      ("views", CInt 1); ("likes", CInt 0); ("comments_count", CInt 0);
      ("duration_seconds", CInt 60)]].

(** Two new comments, the second on a video that is not stored. *)
Definition one_orphan_comment : DataFrame :=
  mkFrame Comment_columns
    [[("comment_id", CStr "c2"); ("video_id", CStr "v1");
      ("author", CStr "ann"); ("comment_text", CStr "second");
      ("published_date", CDate 2023 1 3)];
     [("comment_id", CStr "c3"); ("video_id", CStr "v7");
      ("author", CStr "ann"); ("comment_text", CStr "third");
      ("published_date", CDate 2023 1 4)]].

(** A new comment and the stored one. *)
Definition two_comments : DataFrame :=
  mkFrame Comment_columns
    [[("comment_id", CStr "c2"); ("video_id", CStr "v1");
      ("author", CStr "ann"); ("comment_text", CStr "second");
      ("published_date", CDate 2023 1 3)];
     [("comment_id", CStr "c1"); ("video_id", CStr "v1");
      ("author", CStr "bob"); ("comment_text", CStr "first");
      ("published_date", CDate 2023 1 2)]].

(** A date converter that accepts every column: what is not a timestamp
    becomes a missing date. *)
Definition lenient_dates (col : list cell) : outcome (list cell) :=
  Return (map (fun v => match iso_date v with
                        | Return d => d
                        | Raise _ => CNaN
                        end) col).

(** A channel staged with a video record that lacks its date. *)
Definition undated_staged : staging :=
  [("UC1", mkStaged (channel_info Examples.UC1) [Examples.undated_video] [])].

(** Two stored channels that bear one name. *)
Definition namesakes : list Analysis.name_row :=
  [(Some "Same name", "UC1"); (Some "Same name", "UC2")].

End Scenarios.

(** * Properties *)

(** ** The duration normaliser *)

Module DurationFacts.
Import Duration.


Lemma span_digits_head s d ds rest :
  span_digits s = (String d ds, rest) ->
  exists s', s = String d s' /\ is_digit d = true /\ span_digits s' = (ds, rest).
Proof.
  destruct s as [|c s']; simpl; [discriminate|].
  destruct (is_digit c) eqn:Hc; [|discriminate].
  destruct (span_digits s') as [ds' rest'] eqn:E.
  intros H; injection H as -> -> ->. eauto.
Qed.

Lemma span_digits_nil s rest :
  span_digits s = ("", rest) -> s = rest /\ starts_with_digit s = false.
Proof.
  destruct s as [|c s']; simpl.
  - intros H; injection H as <-; auto.
  - destruct (is_digit c) eqn:Hc.
    + destruct (span_digits s'); discriminate.
    + intros H; injection H as <-; auto.
Qed.

Lemma span_digits_app s ds rest :
  span_digits s = (ds, rest) -> s = ds ++ rest /\ all_digits ds = true /\ starts_with_digit rest = false.
Proof.
  revert ds rest; induction s as [|c s' IH]; simpl; intros ds rest H.
  - injection H as <- <-; auto.
  - destruct (is_digit c) eqn:Hc.
    + destruct (span_digits s') as [ds' rest'] eqn:E.
      injection H as <- <-. destruct (IH _ _ eq_refl) as (-> & Hd & Hr).
      simpl; rewrite Hc, Hd; auto.
    + injection H as <- <-; simpl; rewrite Hc; auto.
Qed.

Lemma span_digits_spec ds rest :
  all_digits ds = true -> starts_with_digit rest = false ->
  span_digits (ds ++ rest) = (ds, rest).
Proof.
  induction ds as [|c ds IH]; simpl; intros Hd Hr.
  - destruct rest as [|c r]; simpl in *; [reflexivity|]. now rewrite Hr.
  - apply andb_true_iff in Hd as [Hc Hd]. now rewrite Hc, IH.
Qed.

Lemma rdigits_then_char {A} (c : ascii) (s : string) :
  is_digit c = false ->
  forall k : string -> string -> option A,
  rdigits s (then_char c k) =
  match span_digits s with
  | (String d ds, rest) => then_char c k (String d ds) rest
  | _ => None
  end.
Proof.
  intros Hc. induction s as [|a s' IH]; intros k; simpl; [reflexivity|].
  destruct (is_digit a) eqn:Ha; [|reflexivity].
  change (fun ds rest => then_char c k (String a ds) rest)
    with (then_char c (fun ds r => k (String a ds) r)).
  rewrite IH. destruct (span_digits s') as [ds rest] eqn:E.
  destruct ds as [|d ds].
  - apply span_digits_nil in E as [-> _]. reflexivity.
  - apply span_digits_head in E as (s'' & -> & Hd & _).
    unfold then_char at 1 3.
    destruct rest as [|c' r]; simpl.
    + destruct (Ascii.eqb c d) eqn:Ecd; [|reflexivity].
      apply Ascii.eqb_eq in Ecd; congruence.
    + destruct (Ascii.eqb c c'); [|].
      * destruct (k _ r); [reflexivity|].
        destruct (Ascii.eqb c d) eqn:Ecd; [|reflexivity].
        apply Ascii.eqb_eq in Ecd; congruence.
      * destruct (Ascii.eqb c d) eqn:Ecd; [|reflexivity].
        apply Ascii.eqb_eq in Ecd; congruence.
Qed.

Lemma rmatch_unit_field {A} g c s gs (k : string -> groups -> option A) :
  is_digit c = false ->
  rmatch (unit_field g c) s gs k =
  match scan_field c s with
  | (Some ds, rest) =>
      match k rest (set_group g ds gs) with
      | Some a => Some a
      | None => k s gs
      end
  | (None, _) => k s gs
  end.
Proof.
  intros Hc. unfold unit_field, scan_field.
  change (rmatch (ROpt (RSeq (RDigits g) (RChar c))) s gs k)
    with (match rdigits s (then_char c (fun ds r => k r (set_group g ds gs))) with
          | Some a => Some a
          | None => k s gs
          end).
  rewrite (rdigits_then_char c s Hc).
  destruct (span_digits s) as [ds rest].
  destruct ds as [|d ds]; [reflexivity|].
  unfold then_char. destruct rest as [|c' r]; [reflexivity|].
  destruct (Ascii.eqb c c'); reflexivity.
Qed.

Lemma scan_field_some c s ds rest :
  scan_field c s = (Some ds, rest) ->
  s = ds ++ String c rest /\ number ds = true.
Proof.
  unfold scan_field. destruct (span_digits s) as [ds' r] eqn:E.
  destruct ds' as [|d ds']; [discriminate|].
  destruct r as [|c' r]; [discriminate|].
  destruct (Ascii.eqb c c') eqn:Ec; [|discriminate].
  apply Ascii.eqb_eq in Ec as <-.
  intros H; injection H as <- <-.
  apply span_digits_app in E as (-> & Hd & _). auto.
Qed.

Lemma scan_field_none c s rest :
  scan_field c s = (None, rest) -> rest = s.
Proof.
  unfold scan_field. destruct (span_digits s) as [ds' r].
  destruct ds' as [|d ds']; [congruence|].
  destruct r as [|c' r]; [congruence|].
  destruct (Ascii.eqb c c'); congruence.
Qed.

Lemma rmatch_hms s3 d :
  rmatch hms_re s3 [d; None; None; None] final =
  (let (h, s4) := scan_field "H" s3 in
   let (m, s5) := scan_field "M" s4 in
   let (sec, s6) := scan_field "S" s5 in
   Some (groups_of (mkFields d h m sec), s6)).
Proof.
  unfold hms_re. cbn [rmatch].
  rewrite rmatch_unit_field by reflexivity.
  destruct (scan_field "H" s3) as [[h|] s4] eqn:EH.
  - rewrite rmatch_unit_field by reflexivity.
    destruct (scan_field "M" s4) as [[m|] s5] eqn:EM.
    + rewrite rmatch_unit_field by reflexivity.
      destruct (scan_field "S" s5) as [[sec|] s6] eqn:ES; [reflexivity|].
      apply scan_field_none in ES as ->. reflexivity.
    + apply scan_field_none in EM as ->.
      rewrite rmatch_unit_field by reflexivity.
      destruct (scan_field "S" s4) as [[sec|] s6] eqn:ES; [reflexivity|].
      apply scan_field_none in ES as ->. reflexivity.
  - apply scan_field_none in EH as ->.
    rewrite rmatch_unit_field by reflexivity.
    destruct (scan_field "M" s3) as [[m|] s5] eqn:EM.
    + rewrite rmatch_unit_field by reflexivity.
      destruct (scan_field "S" s5) as [[sec|] s6] eqn:ES; [reflexivity|].
      apply scan_field_none in ES as ->. reflexivity.
    + apply scan_field_none in EM as ->.
      rewrite rmatch_unit_field by reflexivity.
      destruct (scan_field "S" s3) as [[sec|] s6] eqn:ES; [reflexivity|].
      apply scan_field_none in ES as ->. reflexivity.
Qed.

Lemma rmatch_T s gs :
  rmatch (RSeq (RChar "T") hms_re) s gs final =
  match s with
  | String c s3 => if Ascii.eqb "T" c then rmatch hms_re s3 gs final else None
  | EmptyString => None
  end.
Proof. destruct s; reflexivity. Qed.

Lemma re_match_scan s :
  re_match duration_re 4 s =
  match scan s with
  | Some (f, rest) => Some (groups_of f, rest)
  | None => None
  end.
Proof.
  unfold re_match.
  change (rmatch duration_re s (repeat None 4) (fun rest gs => Some (gs, rest)))
    with (match s with
          | String c s1 =>
              if Ascii.eqb "P" c
              then rmatch (unit_field 0 "D") s1 [None; None; None; None]
                     (fun s' gs' => rmatch (RSeq (RChar "T") hms_re) s' gs' final)
              else None
          | EmptyString => None
          end).
  destruct s as [|p s1]; [reflexivity|].
  destruct (Ascii.eqb "P" p) eqn:Ep.
  2:{ destruct p as [[] [] [] [] [] [] [] []]; try reflexivity; discriminate. }
  apply Ascii.eqb_eq in Ep as <-.
  rewrite rmatch_unit_field by reflexivity.
  unfold scan.
  destruct (scan_field "D" s1) as [[d|] s2] eqn:ED.
  - cbn [set_group].
    assert (Hfall : rmatch (RSeq (RChar "T") hms_re) s1
                      [None; None; None; None] final = None).
    { apply scan_field_some in ED as [-> Hn].
      destruct d as [|c d]; [discriminate|]. simpl in Hn.
      apply andb_true_iff in Hn as [Hc _].
      rewrite rmatch_T. cbn [append].
      destruct (Ascii.eqb "T" c) eqn:E; [|reflexivity].
      apply Ascii.eqb_eq in E as <-. discriminate. }
    rewrite Hfall, rmatch_T. clear Hfall.
    destruct s2 as [|t s3]; [reflexivity|].
    destruct (Ascii.eqb "T" t) eqn:Et.
    + apply Ascii.eqb_eq in Et as <-.
      rewrite rmatch_hms.
      destruct (scan_field "H" s3) as [h s4].
      destruct (scan_field "M" s4) as [m s5].
      destruct (scan_field "S" s5) as [sec s6]. reflexivity.
    + destruct t as [[] [] [] [] [] [] [] []]; try reflexivity; discriminate.
  - apply scan_field_none in ED as ->.
    rewrite rmatch_T.
    destruct s1 as [|t s3]; [reflexivity|].
    destruct (Ascii.eqb "T" t) eqn:Et.
    + apply Ascii.eqb_eq in Et as <-.
      rewrite rmatch_hms.
      destruct (scan_field "H" s3) as [h s4].
      destruct (scan_field "M" s4) as [m s5].
      destruct (scan_field "S" s5) as [sec s6]. reflexivity.
    + destruct t as [[] [] [] [] [] [] [] []]; try reflexivity; discriminate.
Qed.


Lemma number_nonempty ds : number ds = true -> exists c ds', ds = String c ds' /\ is_digit c = true /\ all_digits ds = true.
Proof.
  destruct ds as [|c ds']; [discriminate|]. intros H. exists c, ds'. simpl in *.
  apply andb_true_iff in H as H'. destruct H'. auto.
Qed.

Lemma scan_field_hit c ds rest :
  number ds = true -> is_digit c = false ->
  scan_field c (ds ++ String c rest) = (Some ds, rest).
Proof.
  intros Hn Hc. unfold scan_field.
  destruct (number_nonempty _ Hn) as (d & ds' & -> & Hd & Hall).
  rewrite span_digits_spec by (simpl; auto).
  now rewrite Ascii.eqb_refl.
Qed.

Lemma scan_field_nodigit c s :
  starts_with_digit s = false -> scan_field c s = (None, s).
Proof.
  intros H. unfold scan_field. destruct s as [|a s']; [reflexivity|].
  simpl in *. now rewrite H.
Qed.

Lemma append_assoc (a b c : string) : (a ++ b) ++ c = a ++ (b ++ c).
Proof. induction a as [|x a IH]; simpl; [reflexivity|now rewrite IH]. Qed.

Lemma append_nil_r (a : string) : a ++ "" = a.
Proof. induction a as [|x a IH]; simpl; [reflexivity|now rewrite IH]. Qed.

Lemma render_field_then o c tail : render_field o c ++ tail = field_then o c tail.
Proof. destruct o as [ds|]; simpl; [|reflexivity]. now rewrite append_assoc. Qed.

Lemma render_app f rest :
  render f ++ rest =
  String "P" (field_then (f_days f) "D" (String "T"
    (field_then (f_hours f) "H" (field_then (f_minutes f) "M"
       (field_then (f_seconds f) "S" rest))))).
Proof.
  unfold render. cbn [append].
  rewrite !append_assoc. cbn [append].
  rewrite !append_assoc. f_equal.
  rewrite !render_field_then. f_equal. 
Qed.

Lemma wf_fields_inv f :
  wf_fields f = true ->
  wf_field (f_days f) = true /\ wf_field (f_hours f) = true /\
  wf_field (f_minutes f) = true /\ wf_field (f_seconds f) = true.
Proof.
  unfold wf_fields. rewrite !andb_true_iff. tauto.
Qed.

Lemma scan_field_next_letter c s :
  next_letter s <> Some c -> scan_field c s = (None, s).
Proof.
  unfold next_letter, scan_field.
  destruct (span_digits s) as [[|d ds] [|c' r]]; try reflexivity.
  intros H. destruct (Ascii.eqb c c') eqn:E; [|reflexivity].
  apply Ascii.eqb_eq in E. congruence.
Qed.

Lemma next_letter_some ds c tail :
  number ds = true -> is_digit c = false ->
  next_letter (ds ++ String c tail) = Some c.
Proof.
  intros Hn Hc. unfold next_letter.
  destruct (number_nonempty _ Hn) as (d & ds' & -> & Hd & Hall).
  now rewrite span_digits_spec by (simpl; auto).
Qed.

Lemma next_letter_nodigit s : starts_with_digit s = false -> next_letter s = None.
Proof.
  unfold next_letter. destruct s as [|a s]; simpl; [reflexivity|].
  now intros ->.
Qed.

Lemma scan_render f rest :
  wf_fields f = true -> starts_with_digit rest = false ->
  scan (render f ++ rest) = Some (f, rest).
Proof.
  intros Hwf Hrest. apply wf_fields_inv in Hwf as (Hd & Hh & Hm & Hs).
  rewrite render_app. destruct f as [d h m s]; cbn [f_days f_hours f_minutes f_seconds] in *.
  unfold scan.
  assert (HS : scan_field "S" (field_then s "S" rest) = (s, rest)).
  { destruct s as [ds|]; [now apply scan_field_hit|now apply scan_field_nodigit]. }
  assert (HM : scan_field "M" (field_then m "M" (field_then s "S" rest))
               = (m, field_then s "S" rest)).
  { destruct m as [ds|]; [now apply scan_field_hit|].
    apply scan_field_next_letter. cbn [field_then].
    destruct s as [ds|]; cbn [field_then].
    - rewrite next_letter_some by auto. discriminate.
    - rewrite next_letter_nodigit by auto. discriminate. }
  assert (HH : scan_field "H" (field_then h "H" (field_then m "M" (field_then s "S" rest)))
               = (h, field_then m "M" (field_then s "S" rest))).
  { destruct h as [ds|]; [now apply scan_field_hit|].
    apply scan_field_next_letter. cbn [field_then].
    destruct m as [ds|]; cbn [field_then].
    - rewrite next_letter_some by auto. discriminate.
    - destruct s as [ds|]; cbn [field_then].
      + rewrite next_letter_some by auto. discriminate.
      + rewrite next_letter_nodigit by auto. discriminate. }
  assert (HD : forall tail, scan_field "D" (field_then d "D" (String "T" tail))
               = (d, String "T" tail)).
  { intros tail. destruct d as [ds|]; [now apply scan_field_hit|].
    now apply scan_field_nodigit. }
  rewrite HD, HH, HM, HS. reflexivity.
Qed.

Lemma scan_sound s f rest :
  scan s = Some (f, rest) -> wf_fields f = true /\ s = render f ++ rest.
Proof.
  unfold scan. destruct s as [|p s1]; [discriminate|].
  destruct p as [[] [] [] [] [] [] [] []]; try discriminate.
  destruct (scan_field "D" s1) as [d s2] eqn:ED.
  destruct s2 as [|t s3]; [discriminate|].
  destruct t as [[] [] [] [] [] [] [] []]; try discriminate.
  destruct (scan_field "H" s3) as [h s4] eqn:EH.
  destruct (scan_field "M" s4) as [m s5] eqn:EM.
  destruct (scan_field "S" s5) as [sec s6] eqn:ES.
  intros H; injection H as <- <-.
  assert (Hf : forall c a o b, scan_field c a = (o, b) ->
            wf_field o = true /\ a = field_then o c b).
  { intros c a [ds|] b E.
    - apply scan_field_some in E as [-> Hn]. auto.
    - apply scan_field_none in E as ->. auto. }
  apply Hf in ED as [Wd ->], EH as [Wh ->], EM as [Wm ->], ES as [Ws ->].
  split.
  - unfold wf_fields; cbn. now rewrite Wd, Wh, Wm, Ws.
  - now rewrite render_app.
Qed.

Lemma int_or_zero_field_value o : int_or_zero o = field_value o.
Proof. destruct o as [[|c s]|]; reflexivity. Qed.

Lemma parse_duration_scan s :
  parse_duration (CStr s) =
  match scan s with
  | Some (f, _) => total_seconds f
  | None => 0
  end.
Proof.
  unfold parse_duration. rewrite re_match_scan.
  destruct (scan s) as [[f rest]|]; [|reflexivity].
  unfold groups_of, total_seconds. cbn [nth].
  rewrite !int_or_zero_field_value. lia.
Qed.

(** A string that begins with a well-formed duration is matched. *)
Lemma scan_prefix f rest :
  wf_fields f = true -> exists f' rest', scan (render f ++ rest) = Some (f', rest').
Proof.
  intros Hwf. apply wf_fields_inv in Hwf as (Hd & _).
  rewrite render_app. destruct f as [d h m s]; cbn [f_days f_hours f_minutes f_seconds] in *.
  unfold scan.
  assert (HD : forall tail, scan_field "D" (field_then d "D" (String "T" tail))
               = (d, String "T" tail)).
  { intros tail. destruct d as [ds|]; [now apply scan_field_hit|].
    now apply scan_field_nodigit. }
  rewrite HD.
  destruct (scan_field "H" _) as [h' s4].
  destruct (scan_field "M" s4) as [m' s5].
  destruct (scan_field "S" s5) as [s' s6]. eauto.
Qed.

Lemma suffix_refl a : suffix a a.
Proof. now exists "". Qed.

Lemma suffix_trans a b c : suffix a b -> suffix b c -> suffix a c.
Proof. intros [p ->] [q ->]. exists (q ++ p). now rewrite append_assoc. Qed.

Lemma scan_field_suffix c a o b : scan_field c a = (o, b) -> suffix b a.
Proof.
  destruct o as [ds|]; intros E.
  - apply scan_field_some in E as [-> _]. exists (ds ++ String c "").
    rewrite append_assoc. reflexivity.
  - apply scan_field_none in E as ->. apply suffix_refl.
Qed.

Lemma next_letter_field_then o c tail :
  wf_field o = true -> is_digit c = false ->
  next_letter (field_then o c tail) =
  match o with Some _ => Some c | None => next_letter tail end.
Proof.
  destruct o as [ds|]; simpl; [|reflexivity].
  intros; now apply next_letter_some.
Qed.

Lemma scan_field_hit_next c a ds b :
  scan_field c a = (Some ds, b) -> next_letter a = Some c.
Proof.
  unfold scan_field, next_letter.
  destruct (span_digits a) as [[|d ds'] [|c' r]]; try discriminate.
  destruct (Ascii.eqb c c') eqn:E; [|discriminate].
  apply Ascii.eqb_eq in E as ->. reflexivity.
Qed.

(** Scanning where a field of the rendering starts: either the scan stays
    in step with the rendering, or the field is absent and the scan has
    found the letter further on. *)
Lemma scan_field_sync c o tail o' b :
  wf_field o = true -> is_digit c = false ->
  scan_field c (field_then o c tail) = (o', b) ->
  (o' = o /\ b = tail) \/
  (o = None /\ suffix b tail /\ next_letter tail = Some c).
Proof.
  intros Hwf Hc E. destruct o as [ds|].
  - cbn [field_then] in E. rewrite scan_field_hit in E by auto.
    injection E as <- <-. auto.
  - cbn [field_then] in E. destruct o' as [ds|].
    + right. split; [reflexivity|]. split.
      * eapply scan_field_suffix; eauto.
      * eapply scan_field_hit_next; eauto.
    + left. apply scan_field_none in E as ->. auto.
Qed.

Lemma scan_longest f rest f' rest' :
  wf_fields f = true ->
  scan (render f ++ rest) = Some (f', rest') ->
  suffix rest' rest.
Proof.
  intros Hwf. apply wf_fields_inv in Hwf as (Hd & Hh & Hm & Hs).
  rewrite render_app. destruct f as [d h m s]; cbn [f_days f_hours f_minutes f_seconds] in *.
  unfold scan.
  assert (HD : forall tail, scan_field "D" (field_then d "D" (String "T" tail))
               = (d, String "T" tail)).
  { intros tail. destruct d as [ds|]; [now apply scan_field_hit|].
    now apply scan_field_nodigit. }
  rewrite HD.
  destruct (scan_field "H" _) as [h' s4] eqn:EH.
  destruct (scan_field "M" s4) as [m' s5] eqn:EM.
  destruct (scan_field "S" s5) as [s' s6] eqn:ES.
  intros H; injection H as <- <-.
  pose proof (scan_field_suffix _ _ _ _ EM) as SM.
  pose proof (scan_field_suffix _ _ _ _ ES) as SS.
  apply scan_field_sync in EH as [[_ ->]|(-> & Sf & Hn)]; auto.
  - apply scan_field_sync in EM as [[_ ->]|(-> & Sf & Hn)]; auto.
    + apply scan_field_sync in ES as [[_ ->]|(-> & Sf & Hn)]; auto.
      apply suffix_refl.
    + rewrite next_letter_field_then in Hn by auto.
      destruct s as [ds|]; [discriminate|]. cbn [field_then] in *.
      eapply suffix_trans; eauto.
  - rewrite next_letter_field_then in Hn by auto.
    destruct m as [ds|]; [discriminate|].
    rewrite next_letter_field_then in Hn by auto.
    destruct s as [ds|]; [discriminate|]. cbn [field_then] in *.
    eapply suffix_trans; [exact SS|]. eapply suffix_trans; eauto.
Qed.

Lemma render_not_prefix_free f s rest :
  wf_fields f = true -> scan s = Some (f, rest) -> rest <> "" ->
  forall g, wf_fields g = true -> render g <> s.
Proof.
  intros _ Hs Hrest g Hg E.
  pose proof (scan_render g "" Hg eq_refl) as H.
  rewrite append_nil_r, E, Hs in H. injection H as _ H. contradiction.
Qed.






End DurationFacts.

(** ** Data frames *)

Module FrameFacts.
Import Frame.
Local Open Scope list_scope.

Lemma mem_In c ks : mem c ks = true <-> In c ks.
Proof.
  unfold mem. rewrite existsb_exists. split.
  - intros (x & Hx & E). apply String.eqb_eq in E. now subst.
  - intros H. exists c. split; [exact H|apply String.eqb_refl].
Qed.

Lemma mem_false c ks : mem c ks = false <-> ~ In c ks.
Proof.
  rewrite <- mem_In. destruct (mem c ks); split; intros; congruence.
Qed.

Lemma lookup_None c r : ~ In c (map fst r) -> lookup c r = None.
Proof.
  induction r as [|[k v] r IH]; simpl; [reflexivity|].
  intros H. destruct (String.eqb c k) eqn:E.
  - apply String.eqb_eq in E. subst. tauto.
  - apply IH. tauto.
Qed.

Lemma map_fst_reindex cols r : map fst (reindex cols r) = cols.
Proof.
  unfold reindex. rewrite map_map. simpl. apply map_id.
Qed.

Lemma cell_at_reindex cols r c :
  In c cols -> cell_at (reindex cols r) c = cell_at r c.
Proof.
  unfold cell_at at 1. unfold reindex.
  induction cols as [|k cols IH]; simpl; [tauto|].
  intros H. destruct (String.eqb c k) eqn:E.
  - apply String.eqb_eq in E. now subst.
  - apply IH. destruct H as [H|H]; [|exact H].
    subst. now rewrite String.eqb_refl in E.
Qed.

Lemma wf_pd_DataFrame l : wf_frame (pd_DataFrame l).
Proof.
  unfold wf_frame, pd_DataFrame. simpl. apply Forall_forall.
  intros r Hr. apply in_map_iff in Hr as (r0 & <- & _).
  apply map_fst_reindex.
Qed.

Lemma length_rows_pd_DataFrame l : length (rows (pd_DataFrame l)) = length l.
Proof. unfold pd_DataFrame. cbn [rows]. apply length_map. Qed.

Lemma getcol_pd_DataFrame l c :
  In c (columns_of l) ->
  getcol (pd_DataFrame l) c = Return (map (fun r => cell_at r c) l).
Proof.
  intros H. unfold getcol, pd_DataFrame. simpl.
  apply mem_In in H as Hm. rewrite Hm. f_equal.
  rewrite map_map. apply map_ext. intros r. now apply cell_at_reindex.
Qed.

Lemma map_fst_set_cell c v r : map fst (set_cell c v r) = map fst r.
Proof.
  unfold set_cell. rewrite map_map. apply map_ext.
  intros [k x]. simpl. now destruct (String.eqb k c).
Qed.

Lemma cell_at_set_cell_other c v r c' :
  c' <> c -> cell_at (set_cell c v r) c' = cell_at r c'.
Proof.
  intros Hne. unfold cell_at.
  enough (E : lookup c' (set_cell c v r) = lookup c' r) by now rewrite E.
  induction r as [|[k x] r IH]; simpl; [reflexivity|].
  destruct (String.eqb k c) eqn:Ek; simpl.
  - apply String.eqb_eq in Ek. subst k.
    destruct (String.eqb c' c) eqn:E; [|exact IH].
    apply String.eqb_eq in E. contradiction.
  - now rewrite IH.
Qed.

Lemma cell_at_set_cell_same c v r :
  In c (map fst r) -> cell_at (set_cell c v r) c = v.
Proof.
  unfold cell_at.
  induction r as [|[k x] r IH]; simpl; [tauto|].
  intros H. destruct (String.eqb k c) eqn:Ek; simpl.
  - apply String.eqb_eq in Ek. subst k. now rewrite String.eqb_refl.
  - rewrite String.eqb_sym, Ek. apply IH.
    destruct H as [H|H]; [|exact H].
    subst. now rewrite String.eqb_refl in Ek.
Qed.

Lemma lookup_app c r r' :
  lookup c (r ++ r') =
  match lookup c r with Some v => Some v | None => lookup c r' end.
Proof.
  induction r as [|[k x] r IH]; simpl; [reflexivity|].
  now destruct (String.eqb c k).
Qed.

Lemma cell_at_app_new c v r :
  ~ In c (map fst r) -> cell_at (r ++ [(c, v)]) c = v.
Proof.
  intros H. unfold cell_at. rewrite lookup_app, lookup_None by exact H.
  simpl. now rewrite String.eqb_refl.
Qed.

Lemma cell_at_app_other c v r c' :
  c' <> c -> cell_at (r ++ [(c, v)]) c' = cell_at r c'.
Proof.
  intros Hne. unfold cell_at. rewrite lookup_app.
  destruct (lookup c' r); [reflexivity|]. simpl.
  destruct (String.eqb c' c) eqn:E; [|reflexivity].
  apply String.eqb_eq in E. contradiction.
Qed.

Lemma cell_at_del_cell_other c r c' :
  c' <> c -> cell_at (del_cell c r) c' = cell_at r c'.
Proof.
  intros Hne. unfold cell_at.
  enough (E : lookup c' (del_cell c r) = lookup c' r) by now rewrite E.
  induction r as [|[k x] r IH]; simpl; [reflexivity|].
  destruct (String.eqb k c) eqn:Ek; simpl.
  - apply String.eqb_eq in Ek. subst k.
    destruct (String.eqb c' c) eqn:E; [|exact IH].
    apply String.eqb_eq in E. contradiction.
  - now rewrite IH.
Qed.

Lemma map_combine_fst {A B C} (f : A -> C) (g : A * B -> A) (l : list A) (l' : list B) :
  length l' = length l ->
  (forall a b, f (g (a, b)) = f a) ->
  map (fun ab => f (g ab)) (combine l l') = map f l.
Proof.
  revert l'; induction l as [|a l IH]; intros [|b l'] Hl Hg; simpl in *;
    try discriminate; [reflexivity|].
  rewrite Hg. f_equal. apply IH; auto.
Qed.

Lemma length_rows_setcol df c values :
  length values = length (rows df) ->
  length (rows (setcol df c values)) = length (rows df).
Proof.
  intros H. unfold setcol. destruct (mem c (columns df)); simpl;
    rewrite length_map, length_combine, H; apply Nat.min_id.
Qed.

Lemma wf_setcol df c values :
  wf_frame df -> wf_frame (setcol df c values).
Proof.
  unfold wf_frame, setcol. intros H.
  destruct (mem c (columns df)) eqn:Hm; simpl; apply Forall_forall;
    intros r Hr; apply in_map_iff in Hr as ([r0 v] & <- & Hin);
    apply in_combine_l in Hin;
    rewrite Forall_forall in H; specialize (H _ Hin); simpl.
  - now rewrite map_fst_set_cell.
  - rewrite map_app, H. reflexivity.
Qed.

Lemma columns_setcol_In df c values c' :
  In c' (columns (setcol df c values)) <-> In c' (columns df) \/ c' = c.
Proof.
  unfold setcol. destruct (mem c (columns df)) eqn:Hm; simpl.
  - apply mem_In in Hm. split; [auto|]. intros [H|H]; [auto|now subst].
  - rewrite in_app_iff. simpl. intuition.
Qed.

Lemma getcol_setcol_other df c values c' :
  c' <> c -> length values = length (rows df) ->
  getcol (setcol df c values) c' = getcol df c'.
Proof.
  intros Hne Hlen. unfold getcol.
  assert (Hm : mem c' (columns (setcol df c values)) = mem c' (columns df)).
  { destruct (mem c' (columns df)) eqn:E.
    - apply mem_In, columns_setcol_In. left. now apply mem_In.
    - apply mem_false. rewrite columns_setcol_In. apply mem_false in E. tauto. }
  rewrite Hm. destruct (mem c' (columns df)); [|reflexivity]. f_equal.
  unfold setcol. destruct (mem c (columns df)); simpl; rewrite map_map.
  - apply (map_combine_fst (fun r => cell_at r c')
             (fun rv => set_cell c (snd rv) (fst rv))); auto.
    intros a b. simpl. now apply cell_at_set_cell_other.
  - apply (map_combine_fst (fun r => cell_at r c')
             (fun rv => fst rv ++ [(c, snd rv)])); auto.
    intros a b. simpl. now apply cell_at_app_other.
Qed.

Lemma getcol_setcol_same df c values :
  wf_frame df -> length values = length (rows df) ->
  getcol (setcol df c values) c = Return values.
Proof.
  intros Hwf Hlen. unfold getcol.
  assert (Hm : mem c (columns (setcol df c values)) = true).
  { apply mem_In, columns_setcol_In. now right. }
  rewrite Hm. clear Hm. f_equal. unfold setcol, wf_frame in *.
  destruct (mem c (columns df)) eqn:E; simpl; rewrite map_map;
    revert values Hlen; induction (rows df) as [|r rs IH];
    intros [|v values] Hlen; simpl in *; try discriminate; try reflexivity;
    inversion Hwf as [|? ? Hr Hrs]; subst; f_equal; auto.
  - apply cell_at_set_cell_same. rewrite Hr. now apply mem_In.
  - apply cell_at_app_new. rewrite Hr. now apply mem_false.
Qed.

Lemma drop_spec df c :
  In c (columns df) ->
  exists df',
    drop df c = Return df' /\
    ~ In c (columns df') /\
    length (rows df') = length (rows df) /\
    (forall c', c' <> c -> getcol df' c' = getcol df c').
Proof.
  intros H. unfold drop. apply mem_In in H as Hm. rewrite Hm.
  eexists. split; [reflexivity|]. simpl. repeat split.
  - rewrite filter_In. intros [_ E]. now rewrite String.eqb_refl in E.
  - apply length_map.
  - intros c' Hne. unfold getcol. simpl.
    assert (E : mem c' (filter (fun k => negb (String.eqb k c)) (columns df))
                = mem c' (columns df)).
    { destruct (mem c' (columns df)) eqn:E'.
      - apply mem_In, filter_In. split; [now apply mem_In|].
        destruct (String.eqb c' c) eqn:Ec; [|reflexivity].
        apply String.eqb_eq in Ec. contradiction.
      - apply mem_false. rewrite filter_In. apply mem_false in E'. tauto. }
    rewrite E. destruct (mem c' (columns df)); [|reflexivity]. f_equal.
    rewrite map_map. apply map_ext. intros r. now apply cell_at_del_cell_other.
Qed.

End FrameFacts.

(** ** The record transformers *)

Module TransformerFacts.
Import Frame FrameFacts Transformer.
Local Open Scope list_scope.

Lemma iso_dates_length col : forall out,
  iso_dates col = Return out -> length out = length col.
Proof.
  induction col as [|v col IH]; simpl; intros out H.
  - now injection H as <-.
  - destruct (iso_date v) as [d|e]; simpl in H; [|discriminate].
    destruct (iso_dates col) as [ds|e]; simpl in H; [|discriminate].
    injection H as <-. simpl. now rewrite (IH ds eq_refl).
Qed.

Section WithDates.

Variable to_dates : list cell -> outcome (list cell).
Hypothesis to_dates_length : forall col out,
  to_dates col = Return out -> length out = length col.

Lemma process_video_data_rows (l : list record) (dates : list cell) :
  l <> [] ->
  In "published_date" (columns_of l) ->
  In "duration" (columns_of l) ->
  to_dates (map (fun r => cell_at r "published_date") l) = Return dates ->
  exists df,
    process_video_data to_dates (Some l) = Return df /\
    length (rows df) = length l /\
    ~ In "duration" (columns df) /\
    getcol df "published_date" = Return dates /\
    getcol df "duration_seconds" =
      Return (map (fun r => CInt (Duration.parse_duration (cell_at r "duration"))) l).
Proof.
  intros Hne Hp Hd Hdates.
  destruct l as [|r0 l0]; [contradiction|]. set (l := r0 :: l0) in *.
  unfold process_video_data. fold l.
  rewrite (getcol_pd_DataFrame l _ Hp). cbn [bind].
  rewrite Hdates. cbn [bind].
  pose proof (to_dates_length _ _ Hdates) as Hlen. rewrite length_map in Hlen.
  set (df0 := pd_DataFrame l).
  assert (Hrows0 : length (rows df0) = length l)
    by apply length_rows_pd_DataFrame.
  assert (Hwf0 : wf_frame df0) by apply wf_pd_DataFrame.
  set (df1 := setcol df0 "published_date" dates).
  assert (Hlen1 : length (rows df1) = length l).
  { unfold df1. rewrite length_rows_setcol; congruence. }
  assert (Hwf1 : wf_frame df1) by now apply wf_setcol.
  assert (Hdur1 : getcol df1 "duration"
                  = Return (map (fun r => cell_at r "duration") l)).
  { unfold df1. rewrite getcol_setcol_other by (congruence || discriminate).
    now apply getcol_pd_DataFrame. }
  rewrite Hdur1. cbn [bind].
  set (secs := map (fun v => CInt (Duration.parse_duration v))
                 (map (fun r => cell_at r "duration") l)).
  assert (Hsecs : length secs = length (rows df1)).
  { unfold secs. rewrite !length_map. congruence. }
  set (df2 := setcol df1 "duration_seconds" secs).
  assert (Hin2 : In "duration" (columns df2)).
  { unfold df2. apply columns_setcol_In. left.
    unfold df1. apply columns_setcol_In. left. exact Hd. }
  destruct (drop_spec df2 "duration" Hin2) as (df & -> & Hnot & Hrows & Hcols).
  exists df. split; [reflexivity|]. repeat split.
  - rewrite Hrows. unfold df2. rewrite length_rows_setcol; congruence.
  - exact Hnot.
  - rewrite Hcols by discriminate. unfold df2.
    rewrite getcol_setcol_other by (exact Hsecs || discriminate).
    unfold df1. apply getcol_setcol_same; [exact Hwf0|congruence].
  - rewrite Hcols by discriminate. unfold df2.
    rewrite getcol_setcol_same by assumption.
    unfold secs. now rewrite map_map.
Qed.

Lemma process_comment_data_rows (l : list record) (dates : list cell) :
  l <> [] ->
  In "published_date" (columns_of l) ->
  to_dates (map (fun r => cell_at r "published_date") l) = Return dates ->
  exists df,
    process_comment_data to_dates (Some l) = Return df /\
    length (rows df) = length l /\
    getcol df "published_date" = Return dates /\
    (forall c, c <> "published_date" -> In c (columns_of l) ->
       getcol df c = Return (map (fun r => cell_at r c) l)).
Proof.
  intros Hne Hp Hdates.
  destruct l as [|r0 l0]; [contradiction|]. set (l := r0 :: l0) in *.
  unfold process_comment_data. fold l.
  rewrite (getcol_pd_DataFrame l _ Hp). cbn [bind].
  rewrite Hdates. cbn [bind].
  pose proof (to_dates_length _ _ Hdates) as Hlen. rewrite length_map in Hlen.
  assert (Hrows0 : length (rows (pd_DataFrame l)) = length l)
    by apply length_rows_pd_DataFrame.
  eexists. split; [reflexivity|]. repeat split.
  - rewrite length_rows_setcol; congruence.
  - apply getcol_setcol_same; [apply wf_pd_DataFrame|congruence].
  - intros c Hc Hin. rewrite getcol_setcol_other by congruence.
    now apply getcol_pd_DataFrame.
Qed.

Lemma process_video_data_raises (l : list record) :
  l <> [] ->
  (~ In "published_date" (columns_of l) ->
   process_video_data to_dates (Some l) = Raise (KeyError "published_date")) /\
  (forall e, In "published_date" (columns_of l) ->
   to_dates (map (fun r => cell_at r "published_date") l) = Raise e ->
   process_video_data to_dates (Some l) = Raise e) /\
  (forall dates, In "published_date" (columns_of l) ->
   to_dates (map (fun r => cell_at r "published_date") l) = Return dates ->
   ~ In "duration" (columns_of l) ->
   process_video_data to_dates (Some l) = Raise (KeyError "duration")).
Proof.
  intros Hne. destruct l as [|r0 l0]; [contradiction|]. set (l := r0 :: l0) in *.
  unfold process_video_data. fold l. repeat split.
  - intros H. unfold getcol. apply mem_false in H.
    cbn [pd_DataFrame columns]. now rewrite H.
  - intros e Hp He. rewrite (getcol_pd_DataFrame l _ Hp). cbn [bind].
    now rewrite He.
  - intros dates Hp Hdates Hd. rewrite (getcol_pd_DataFrame l _ Hp). cbn [bind].
    rewrite Hdates. cbn [bind].
    pose proof (to_dates_length _ _ Hdates) as Hlen. rewrite length_map in Hlen.
    rewrite getcol_setcol_other;
      [|discriminate|rewrite length_rows_pd_DataFrame; congruence].
    unfold getcol. apply mem_false in Hd.
    cbn [pd_DataFrame columns]. now rewrite Hd.
Qed.

Lemma process_comment_data_raises (l : list record) :
  l <> [] ->
  (~ In "published_date" (columns_of l) ->
   process_comment_data to_dates (Some l) = Raise (KeyError "published_date")) /\
  (forall e, In "published_date" (columns_of l) ->
   to_dates (map (fun r => cell_at r "published_date") l) = Raise e ->
   process_comment_data to_dates (Some l) = Raise e).
Proof.
  intros Hne. destruct l as [|r0 l0]; [contradiction|]. set (l := r0 :: l0) in *.
  unfold process_comment_data. fold l. repeat split.
  - intros H. unfold getcol. apply mem_false in H.
    cbn [pd_DataFrame columns]. now rewrite H.
  - intros e Hp He. rewrite (getcol_pd_DataFrame l _ Hp). cbn [bind].
    now rewrite He.
Qed.

End WithDates.

Lemma process_channel_data_rows (d : record) :
  d <> [] ->
  length (rows (process_channel_data (Some d))) = 1%nat /\
  (forall c v, lookup c d = Some v ->
     getcol (process_channel_data (Some d)) c = Return [v]).
Proof.
  intros Hne. destruct d as [|kv d]; [contradiction|].
  change (process_channel_data (Some (kv :: d))) with (pd_DataFrame [kv :: d]).
  set (d0 := kv :: d).
  split; [apply length_rows_pd_DataFrame|]. intros c v Hl.
  assert (Hin : In c (columns_of [d0])).
  { unfold columns_of. cbn [fold_left].
    assert (G : forall r cols, (In c cols \/ lookup c r <> None) -> In c (add_keys cols r)).
    { induction r as [|[k x] r IH]; simpl; intros cols [H|H]; auto; try congruence.
      - apply IH. left. destruct (mem k cols); [auto|]. apply in_app_iff; auto.
      - destruct (String.eqb c k) eqn:E.
        + apply String.eqb_eq in E. subst k. apply IH. left.
          destruct (mem c cols) eqn:Em; [now apply mem_In|].
          apply in_app_iff. right. now left.
        + apply IH. now right. }
    apply G. right. congruence. }
  rewrite (getcol_pd_DataFrame [d0] c Hin). cbn [map]. unfold cell_at. now rewrite Hl.
Qed.





End TransformerFacts.

(** ** The API client *)

Module ApiFacts.
Import Frame Api.
Local Open Scope list_scope.
Local Open Scope nat_scope.

(** *** Batching of [get_video_details] *)

Lemma firstn_add_skipn {A} (a b : nat) (l : list A) :
  firstn a l ++ firstn b (skipn a l) = firstn (a + b) l.
Proof.
  revert l; induction a as [|a IH]; intros l; simpl; [reflexivity|].
  destruct l as [|x l]; simpl.
  - now rewrite firstn_nil.
  - now rewrite IH.
Qed.

Lemma skipn_add {A} (a b : nat) (l : list A) :
  skipn (a + b) l = skipn b (skipn a l).
Proof.
  revert l; induction a as [|a IH]; intros l; simpl; [reflexivity|].
  destruct l as [|x l]; simpl; [now rewrite skipn_nil|apply IH].
Qed.

Lemma slice_50 {A} (l : list A) (i : nat) :
  slice l i (i + 50) = firstn 50 (skipn i l).
Proof. unfold slice. f_equal. lia. Qed.

Lemma concat_slices (ids : list string) (m start : nat) :
  concat (map (fun i => slice ids i (i + 50))
            (map (fun k => 50 * k) (seq start m)))
  = firstn (50 * m) (skipn (50 * start) ids).
Proof.
  revert start; induction m as [|m IH]; intros start.
  - simpl. reflexivity.
  - cbn [seq map concat]. rewrite IH, slice_50.
    replace (50 * S start) with (50 * start + 50) by lia.
    rewrite skipn_add, firstn_add_skipn. f_equal. lia.
Qed.

Lemma concat_batches ids : concat (batches ids) = ids.
Proof.
  unfold batches, batch_starts. rewrite concat_slices. simpl skipn.
  apply firstn_all2.
  pose proof (Nat.div_mod_eq (length ids + 49) 50) as H.
  pose proof (Nat.mod_upper_bound (length ids + 49) 50). lia.
Qed.

Lemma batches_sizes ids :
  Forall (fun b => 1 <= length b <= 50) (batches ids).
Proof.
  unfold batches, batch_starts. apply Forall_forall. intros b Hb.
  apply in_map_iff in Hb as (i & <- & Hi).
  apply in_map_iff in Hi as (k & <- & Hk). apply in_seq in Hk.
  rewrite slice_50, length_firstn, length_skipn.
  pose proof (Nat.div_mod_eq (length ids + 49) 50) as H.
  pose proof (Nat.mod_upper_bound (length ids + 49) 50). lia.
Qed.

Lemma fold_video_batch up ids starts : forall acc w,
  let r := fold_left (video_batch up ids) starts (acc, w) in
  calls (snd r)
    = calls w ++ map (fun i => VideosList (slice ids i (i + 50))) starts /\
  fst r
    = acc ++ batches_records up (length (calls w))
               (map (fun i => slice ids i (i + 50)) starts).
Proof.
  induction starts as [|i starts IH]; intros acc w; cbn zeta.
  - simpl. now rewrite !app_nil_r.
  - cbn [fold_left map batches_records].
    unfold video_batch at 2 4. unfold batch_records.
    set (b := slice ids i (i + 50)).
    destruct (videos_list up (length (calls w)) b) as [items|e].
    + specialize (IH (acc ++ map video_details items)
                     (log_call (VideosList b) w)). cbn zeta in IH.
      destruct IH as [IH1 IH2]. rewrite IH1, IH2. simpl calls.
      rewrite length_app, Nat.add_1_r, <- !app_assoc. auto.
    + assert (G : forall msg,
        let r := fold_left (video_batch up ids) starts
                   (acc, show (st_error msg) (log_call (VideosList b) w)) in
        calls (snd r) = calls w ++ VideosList b
            :: map (fun i => VideosList (slice ids i (i + 50))) starts /\
        fst r = acc ++ [] ++ batches_records up (S (length (calls w)))
                  (map (fun i => slice ids i (i + 50)) starts)).
      { intros msg. specialize (IH acc
          (show (st_error msg) (log_call (VideosList b) w))).
        cbn zeta in *. destruct IH as [IH1 IH2]. rewrite IH1, IH2. simpl calls.
        rewrite length_app, Nat.add_1_r, <- !app_assoc. auto. }
      destruct e; apply G.
Qed.

Lemma get_video_details_calls up ids w :
  calls (snd (get_video_details up ids w))
    = calls w ++ map VideosList (batches ids) /\
  fst (get_video_details up ids w)
    = batches_records up (length (calls w)) (batches ids).
Proof.
  unfold get_video_details. destruct ids as [|v ids].
  - simpl. now rewrite app_nil_r.
  - pose proof (fold_video_batch up (v :: ids)
                  (batch_starts (length (v :: ids))) [] w) as H.
    cbn zeta in H. unfold batches. now rewrite map_map.
Qed.





(** *** The cap and the failure paths of [get_comments_of_video] *)

Local Open Scope Z_scope.

Lemma page_items_spec vid max items : forall cl c,
  Z.of_nat (length cl) = c -> c < max ->
  let r := page_items vid max items cl c in
  Z.of_nat (length (fst r)) = snd r /\ snd r <= max /\ c <= snd r /\
  (items <> [] -> c < snd r).
Proof.
  induction items as [|it items IH]; intros cl c Hc Hlt; cbn zeta.
  - simpl. repeat split; try lia. congruence.
  - cbn [page_items].
    destruct (c + 1 >=? max) eqn:E.
    + simpl. rewrite length_app. simpl. repeat split; try lia.
    + assert (Hlt' : c + 1 < max) by lia.
      assert (Hc' : Z.of_nat (length (cl ++ [comment_info vid it])) = c + 1).
      { rewrite length_app. simpl. lia. }
      specialize (IH _ _ Hc' Hlt'). cbn zeta in IH.
      destruct IH as (H1 & H2 & H3 & _). repeat split; try lia.
Qed.

Lemma page_items_full vid max items : forall cl c,
  c < max -> max - c <= Z.of_nat (length items) ->
  page_items vid max items cl c
  = (cl ++ map (comment_info vid) (firstn (Z.to_nat (max - c)) items), max).
Proof.
  induction items as [|it items IH]; intros cl c Hlt Hlen.
  - simpl in Hlen. lia.
  - cbn [page_items].
    replace (Z.to_nat (max - c)) with (S (Z.to_nat (max - (c + 1)))) by lia.
    cbn [firstn map].
    destruct (c + 1 >=? max) eqn:E.
    + replace (Z.to_nat (max - (c + 1))) with O by lia.
      simpl. f_equal. lia.
    + rewrite IH.
      * now rewrite <- app_assoc.
      * lia.
      * simpl length in Hlen. lia.
Qed.

Lemma comments_loop_cap up vid max fuel : forall tok cl c w l w',
  Z.of_nat (length cl) = c -> c <= Z.max 0 max ->
  comments_loop fuel up vid max tok cl c w = Some (Return l, w') ->
  Z.of_nat (length l) <= Z.max 0 max.
Proof.
  induction fuel as [|fuel IH]; intros tok cl c w l w' Hc Hle H.
  - simpl in H. destruct (c <? max); [discriminate|].
    injection H as <- _. lia.
  - cbn [comments_loop] in H. destruct (c <? max) eqn:E.
    2:{ injection H as <- _. lia. }
    destruct (commentThreads_list up _ vid _ tok) as [[items next]|e];
      [|discriminate].
    pose proof (page_items_spec vid max items cl c Hc ltac:(lia)) as P.
    cbn zeta in P.
    destruct (page_items vid max items cl c) as [cl' c']. simpl in P.
    destruct P as (P1 & P2 & _).
    destruct (no_token next).
    + injection H as <- _. lia.
    + eapply IH; [exact P1| |exact H]. lia.
Qed.

Lemma comments_loop_terminates up vid max :
  productive up vid ->
  forall fuel tok cl c w,
  Z.of_nat (length cl) = c ->
  (Z.to_nat (max - c) <= fuel)%nat ->
  exists r w', comments_loop fuel up vid max tok cl c w = Some (r, w').
Proof.
  intros Hprod. induction fuel as [|fuel IH]; intros tok cl c w Hc Hf.
  - simpl. destruct (c <? max) eqn:E; [lia|eauto].
  - cbn [comments_loop]. destruct (c <? max) eqn:E; [|eauto].
    destruct (commentThreads_list up _ vid _ tok) as [[items next]|e] eqn:Ea;
      [|eauto].
    pose proof (page_items_spec vid max items cl c Hc ltac:(lia)) as P.
    cbn zeta in P.
    destruct (page_items vid max items cl c) as [cl' c']. simpl in P.
    destruct P as (P1 & P2 & P3 & P4).
    destruct (no_token next) eqn:En; [eauto|].
    apply IH; [exact P1|].
    specialize (P4 (Hprod _ _ _ _ _ Ea En)). lia.
Qed.

(** C5.  For a non-negative [max_results], [get_comments_of_video] never
    returns more than [max_results] records, whatever the upstream sends
    and however long it keeps sending continuation tokens.  It returns,
    within [max_results] calls, whenever the upstream sends no empty page
    with a token.  When the first page alone holds [max_results] items or
    more, the result is the first [max_results] of them and no second call
    is made, whether or not the page carries a token. *)
Theorem get_comments_of_video_cap (up : upstream) (video_id : cell)
  (max_results : Z) (w : world) :
  0 <= max_results ->
  (forall fuel r w',
     get_comments_of_video fuel up video_id max_results w = Some (r, w') ->
     exists l, r = Return l /\ Z.of_nat (length l) <= max_results) /\
  (productive up video_id ->
   exists r w',
     get_comments_of_video (Z.to_nat max_results) up video_id max_results w
     = Some (r, w')) /\
  (forall fuel items next,
     0 < max_results ->
     commentThreads_list up (length (calls w)) video_id
       (Z.min 100 max_results) None = Return (items, next) ->
     max_results <= Z.of_nat (length items) ->
     get_comments_of_video (S fuel) up video_id max_results w
     = Some (Return (map (comment_info video_id)
                       (firstn (Z.to_nat max_results) items)),
             log_call (CommentThreadsList video_id (Z.min 100 max_results)
                         None) w)).
Proof.
  intros Hmax. split; [|split].
  - intros fuel r w' H. unfold get_comments_of_video in H.
    destruct (comments_loop fuel up video_id max_results None [] 0 w)
      as [[[l|e] w1]|] eqn:E; [| |discriminate].
    + injection H as <- _. exists l. split; [reflexivity|].
      pose proof (comments_loop_cap up video_id max_results fuel None [] 0
                    w l w1 eq_refl (Z.le_max_l 0 max_results) E). lia.
    + injection H as <- _. exists []. split; [reflexivity|]. simpl. lia.
  - intros Hprod. unfold get_comments_of_video.
    destruct (comments_loop_terminates up video_id max_results Hprod
                (Z.to_nat max_results) None [] 0 w eq_refl ltac:(lia))
      as (r & w' & ->).
    destruct r as [l|e]; eauto.
  - intros fuel items next Hpos Hpage Hlen.
    unfold get_comments_of_video. cbn [comments_loop].
    assert (E : (0 <? max_results) = true) by lia. rewrite E.
    rewrite Z.sub_0_r, Hpage.
    rewrite page_items_full by lia. rewrite Z.sub_0_r. cbn [app].
    destruct (no_token next); [reflexivity|].
    destruct fuel; simpl; rewrite Z.ltb_irrefl; reflexivity.
Qed.


Lemma get_comments_of_video_cap_witness :
  exists r w' l,
    get_comments_of_video 20 Examples.endless_comments (CStr "v1") 10
      Examples.nothing_yet = Some (r, w') /\
    r = Return l /\ Z.of_nat (length l) <= 10.
Proof.
  destruct (get_comments_of_video 20 Examples.endless_comments (CStr "v1") 10
              Examples.nothing_yet) as [[r w']|] eqn:E;
    [|vm_compute in E; discriminate E].
  destruct (proj1 (get_comments_of_video_cap Examples.endless_comments
                     (CStr "v1") 10 Examples.nothing_yet
                     (proj1 (Z.leb_le 0 10) eq_refl)) 20%nat r w' E)
    as (l & Hl & Hle).
  exists r, w', l. auto.
Defined.

Local Close Scope Z_scope.

Lemma nth_error_lt {A} (l : list A) k x :
  nth_error l k = Some x -> k < length l.
Proof. intros H. apply nth_error_Some. congruence. Qed.

Lemma comments_loop_log up vid max fuel : forall tok cl c w res w',
  comments_loop fuel up vid max tok cl c w = Some (res, w') ->
  (exists more, calls w' = calls w ++ more) /\
  shown w' = shown w /\
  (forall k m t e,
     length (calls w) <= k ->
     nth_error (calls w') k = Some (CommentThreadsList vid m t) ->
     commentThreads_list up k vid m t = Raise e ->
     res = Raise e).
Proof.
  induction fuel as [|fuel IH]; intros tok cl c w res w' H.
  - simpl in H. destruct (Z.ltb c max); [discriminate|].
    injection H as <- <-. split; [exists []; now rewrite app_nil_r|].
    split; [reflexivity|]. intros k m t e Hk Hn _.
    apply nth_error_lt in Hn. lia.
  - cbn [comments_loop] in H. destruct (Z.ltb c max).
    2:{ injection H as <- <-. split; [exists []; now rewrite app_nil_r|].
        split; [reflexivity|]. intros k m t e Hk Hn _.
        apply nth_error_lt in Hn. lia. }
    set (m0 := Z.min 100 (max - c)) in *.
    set (w1 := log_call (CommentThreadsList vid m0 tok) w) in *.
    assert (Hhere : forall (calls' : list call) k m t e,
              (exists more, calls' = calls w1 ++ more) ->
              k = length (calls w) ->
              nth_error calls' k = Some (CommentThreadsList vid m t) ->
              commentThreads_list up k vid m t = Raise e ->
              commentThreads_list up (length (calls w)) vid m0 tok = Raise e).
    { intros calls' k m t e [more ->] -> Hn He.
      unfold w1 in Hn. simpl in Hn.
      rewrite <- app_assoc, nth_error_app2, Nat.sub_diag in Hn by lia.
      simpl in Hn. injection Hn as <- <-. exact He. }
    destruct (commentThreads_list up (length (calls w)) vid m0 tok)
      as [[items next]|e0] eqn:Ea.
    + destruct (page_items vid max items cl c) as [cl' c'].
      destruct (no_token next).
      * injection H as <- <-. split; [exists [CommentThreadsList vid m0 tok]; reflexivity|].
        split; [reflexivity|]. intros k m t e Hk Hn He.
        assert (k = length (calls w)).
        { apply nth_error_lt in Hn. unfold w1 in Hn. simpl in Hn.
          rewrite length_app in Hn. simpl in Hn. lia. }
        pose proof (Hhere (calls w1) k m t e
                      (ex_intro _ [] (eq_sym (app_nil_r _))) H Hn He).
        discriminate.
      * apply IH in H as ([more Hmore] & Hs & Hr).
        assert (Hpre : exists more', calls w' = calls w1 ++ more') by eauto.
        split.
        { exists (CommentThreadsList vid m0 tok :: more). rewrite Hmore.
          unfold w1. simpl. now rewrite <- app_assoc. }
        split; [exact Hs|].
        intros k m t e Hk Hn He.
        destruct (Nat.eq_dec k (length (calls w))) as [Ek|Ek].
        { pose proof (Hhere (calls w') k m t e Hpre Ek Hn He). discriminate. }
        apply (Hr k m t e); auto. unfold w1. simpl.
        rewrite length_app. simpl. lia.
    + injection H as <- <-. split; [exists [CommentThreadsList vid m0 tok]; reflexivity|].
      split; [reflexivity|]. intros k m t e Hk Hn He.
      assert (k = length (calls w)).
      { apply nth_error_lt in Hn. unfold w1 in Hn. simpl in Hn.
        rewrite length_app in Hn. simpl in Hn. lia. }
      pose proof (Hhere (calls w1) k m t e
                    (ex_intro _ [] (eq_sym (app_nil_r _))) H Hn He).
      congruence.
Qed.





End ApiFacts.

(** ** The warehouse gateway *)

Module WarehouseFacts.
Import Frame FrameFacts Api Warehouse.
Local Open Scope list_scope.
Local Open Scope nat_scope.

(** *** Tables keyed by a string *)

Section Table.

Context {R : Type}.
Variable key : R -> string.

Local Abbreviation has k := (fun r : R => String.eqb (key r) k).

Lemma find_key_In k (tbl : list R) :
  find (has k) tbl = None <-> ~ In k (map key tbl).
Proof.
  induction tbl as [|x tbl IH]; simpl; [tauto|].
  destruct (String.eqb (key x) k) eqn:E.
  - apply String.eqb_eq in E. split; [discriminate|tauto].
  - rewrite IH. apply String.eqb_neq in E. tauto.
Qed.

Lemma find_key_Some k (tbl : list R) r :
  find (has k) tbl = Some r -> key r = k /\ In r tbl.
Proof.
  intros H. apply find_some in H as [H1 H2].
  apply String.eqb_eq in H2. auto.
Qed.

Lemma map_key_overwrite r (tbl : list R) :
  map key (overwrite key r tbl) = map key tbl.
Proof.
  unfold overwrite. rewrite map_map. apply map_ext_in. intros x _.
  destruct (String.eqb (key x) (key r)) eqn:E; [|reflexivity].
  apply String.eqb_eq in E. congruence.
Qed.

Lemma find_overwrite k r (tbl : list R) :
  find (has k) (overwrite key r tbl) =
  if String.eqb (key r) k
  then match find (has k) tbl with Some _ => Some r | None => None end
  else find (has k) tbl.
Proof.
  unfold overwrite. induction tbl as [|x tbl IH]; simpl.
  - now destruct (String.eqb (key r) k).
  - destruct (String.eqb (key x) (key r)) eqn:Exr.
    + apply String.eqb_eq in Exr. rewrite Exr.
      destruct (String.eqb (key r) k) eqn:Erk; [reflexivity|exact IH].
    + destruct (String.eqb (key x) k) eqn:Exk.
      * destruct (String.eqb (key r) k) eqn:Erk; [|reflexivity].
        apply String.eqb_eq in Exk, Erk. apply String.eqb_neq in Exr.
        congruence.
      * exact IH.
Qed.

Lemma find_app k (tbl tbl' : list R) :
  find (has k) (tbl ++ tbl') =
  match find (has k) tbl with
  | Some r => Some r
  | None => find (has k) tbl'
  end.
Proof.
  induction tbl as [|x tbl IH]; simpl; [reflexivity|].
  now destruct (String.eqb (key x) k).
Qed.

Lemma find_put k r (tbl : list R) :
  find (has k) (put key tbl r) =
  if String.eqb (key r) k then Some r else find (has k) tbl.
Proof.
  unfold put. destruct (find (has (key r)) tbl) as [x|] eqn:E.
  - rewrite find_overwrite.
    destruct (String.eqb (key r) k) eqn:Erk; [|reflexivity].
    apply String.eqb_eq in Erk. subst k. now rewrite E.
  - rewrite find_app. simpl.
    destruct (String.eqb (key r) k) eqn:Erk.
    + apply String.eqb_eq in Erk. subst k. now rewrite E.
    + now destruct (find (has k) tbl).
Qed.

Lemma map_key_put r (tbl : list R) :
  map key (put key tbl r) =
  if existsb (String.eqb (key r)) (map key tbl)
  then map key tbl else map key tbl ++ [key r].
Proof.
  unfold put. destruct (find (has (key r)) tbl) as [x|] eqn:E.
  - rewrite map_key_overwrite.
    apply find_key_Some in E as [E1 E2].
    assert (H : existsb (String.eqb (key r)) (map key tbl) = true).
    { apply existsb_exists. exists (key r). split; [|apply String.eqb_refl].
      rewrite <- E1. now apply in_map. }
    now rewrite H.
  - apply find_key_In in E.
    assert (H : existsb (String.eqb (key r)) (map key tbl) = false).
    { apply Bool.not_true_is_false. intros H. apply E.
      apply existsb_exists in H as (k & Hk & Ek).
      apply String.eqb_eq in Ek. now subst. }
    rewrite H, map_app. reflexivity.
Qed.

Lemma NoDup_put r (tbl : list R) :
  NoDup (map key tbl) -> NoDup (map key (put key tbl r)).
Proof.
  intros H. rewrite map_key_put.
  destruct (existsb (String.eqb (key r)) (map key tbl)) eqn:E; [exact H|].
  apply NoDup_app; [exact H|repeat constructor; simpl; tauto|].
  intros k Hk [<-|[]].
  assert (existsb (String.eqb (key r)) (map key tbl) = true); [|congruence].
  apply existsb_exists. exists (key r). split; [exact Hk|apply String.eqb_refl].
Qed.

Lemma In_key_put k r (tbl : list R) :
  In k (map key (put key tbl r)) <-> In k (map key tbl) \/ k = key r.
Proof.
  rewrite map_key_put.
  destruct (existsb (String.eqb (key r)) (map key tbl)) eqn:E.
  - apply existsb_exists in E as (k' & Hk' & Ek').
    apply String.eqb_eq in Ek'. subst k'.
    split; [auto|]. intros [H|H]; [exact H|now subst].
  - rewrite in_app_iff. simpl. intuition.
Qed.

Lemma NoDup_fold_put rs : forall tbl : list R,
  NoDup (map key tbl) -> NoDup (map key (fold_left (put key) rs tbl)).
Proof.
  induction rs as [|r rs IH]; intros tbl H; simpl; [exact H|].
  apply IH. now apply NoDup_put.
Qed.

Lemma In_key_fold_put k rs : forall tbl : list R,
  In k (map key (fold_left (put key) rs tbl)) <->
  In k (map key tbl) \/ In k (map key rs).
Proof.
  induction rs as [|r rs IH]; intros tbl; simpl; [tauto|].
  rewrite IH, In_key_put. intuition.
Qed.

Lemma find_fold_put k rs : forall tbl : list R,
  find (has k) (fold_left (put key) rs tbl) =
  match last_write key k rs with
  | Some r => Some r
  | None => find (has k) tbl
  end.
Proof.
  unfold last_write.
  induction rs as [|r rs IH]; intros tbl; simpl; [reflexivity|].
  rewrite IH, find_app, find_put. simpl.
  destruct (find (has k) (rev rs)); [reflexivity|].
  now destruct (String.eqb (key r) k).
Qed.

(** When every key written is already stored, the keys stay in place. *)
Lemma map_key_fold_put_stored rs : forall tbl : list R,
  (forall r, In r rs -> In (key r) (map key tbl)) ->
  map key (fold_left (put key) rs tbl) = map key tbl.
Proof.
  induction rs as [|r rs IH]; intros tbl H; simpl; [reflexivity|].
  assert (E : map key (put key tbl r) = map key tbl).
  { rewrite map_key_put.
    assert (Hex : existsb (String.eqb (key r)) (map key tbl) = true).
    { apply existsb_exists. exists (key r).
      split; [apply H; now left|apply String.eqb_refl]. }
    now rewrite Hex. }
  rewrite IH; [exact E|]. intros r' Hr'. rewrite E. apply H. now right.
Qed.

(** Two tables with the same keys in the same order, none repeated, and
    the same row under every key are the same table. *)
Lemma table_ext : forall t1 t2 : list R,
  NoDup (map key t1) ->
  map key t1 = map key t2 ->
  (forall k, find (has k) t1 = find (has k) t2) ->
  t1 = t2.
Proof.
  induction t1 as [|x t1 IH]; intros [|y t2] Hnd Hk Hf; simpl in *;
    try discriminate; [reflexivity|].
  injection Hk as Hxy Hk. inversion Hnd as [|? ? Hx Hnd']; subst.
  pose proof (Hf (key x)) as H0. rewrite <- Hxy in H0.
  rewrite String.eqb_refl in H0. injection H0 as <-.
  f_equal. apply IH; auto. intros k. specialize (Hf k).
  destruct (String.eqb (key x) k) eqn:E; [|exact Hf].
  apply String.eqb_eq in E. subst k.
  transitivity (@None R).
  - apply find_key_In. exact Hx.
  - symmetry. apply find_key_In. now rewrite <- Hk.
Qed.

Lemma fold_put_idempotent rs (tbl : list R) :
  NoDup (map key tbl) ->
  fold_left (put key) rs (fold_left (put key) rs tbl)
  = fold_left (put key) rs tbl.
Proof.
  intros Hnd. set (t1 := fold_left (put key) rs tbl).
  apply table_ext.
  - apply NoDup_fold_put. now apply NoDup_fold_put.
  - apply map_key_fold_put_stored. intros r Hr.
    apply In_key_fold_put. right. now apply in_map.
  - intros k. rewrite find_fold_put. unfold t1. rewrite find_fold_put.
    now destruct (last_write key k rs).
Qed.

Lemma count_key_NoDup k (tbl : list R) :
  NoDup (map key tbl) -> In k (map key tbl) -> count_key key k tbl = 1.
Proof.
  unfold count_key. induction tbl as [|x tbl IH]; simpl; [tauto|].
  intros Hnd Hin. inversion Hnd as [|? ? Hx Hnd']; subst.
  destruct (String.eqb (key x) k) eqn:E.
  - apply String.eqb_eq in E. subst k. simpl. f_equal.
    assert (G : forall l : list R, ~ In (key x) (map key l) ->
                length (filter (has (key x)) l) = 0).
    { induction l as [|y l IHl]; simpl; [reflexivity|]. intros H.
      destruct (String.eqb (key y) (key x)) eqn:Ey.
      - apply String.eqb_eq in Ey. tauto.
      - apply IHl. tauto. }
    now apply G.
  - apply IH; [exact Hnd'|]. destruct Hin as [Hin|Hin]; [|exact Hin].
    apply String.eqb_neq in E. congruence.
Qed.

End Table.


(** *** [insert_channel_data] *)

Lemma columns_of_channel_infos (l : list channel_item) :
  l <> [] -> columns_of (map channel_info l) = Channel_columns.
Proof.
  destruct l as [|c l]; [congruence|]. intros _.
  unfold columns_of. cbn [map fold_left].
  change (add_keys [] (channel_info c)) with Channel_columns.
  induction l as [|c' l IH]; [reflexivity|]. cbn [map fold_left].
  change (add_keys Channel_columns (channel_info c')) with Channel_columns.
  exact IH.
Qed.

Lemma frame_of_channel_infos (l : list channel_item) :
  l <> [] ->
  pd_DataFrame (map channel_info l)
  = mkFrame Channel_columns (map channel_info l).
Proof.
  intros H. unfold pd_DataFrame. rewrite columns_of_channel_infos by exact H.
  f_equal. rewrite map_map. apply map_ext. intros c. reflexivity.
Qed.

Lemma upsert_channel_put eng t (c : channel_item) :
  reachable eng = true ->
  accepts_channel eng (Channel_of c) = true ->
  upsert_channel eng t (channel_info c)
  = Return (mkTables (put ch_channel_id (channels t) (Channel_of c))
              (videos t) (comments t)).
Proof.
  intros Hr Ha. unfold upsert_channel, connect, put.
  cbn [getitem lookup channel_info String.eqb Ascii.eqb Bool.eqb bind query].
  rewrite Hr. cbn [bind].
  change (ch_channel_id (Channel_of c)) with (ci_id c).
  destruct (find (fun r => String.eqb (ch_channel_id r) (ci_id c)) (channels t))
    as [existing|] eqn:E.
  - apply find_key_Some in E as [E _].
    cbv [getitem lookup String.eqb Ascii.eqb Bool.eqb bind].
    rewrite E. change (mkChannel (ci_id c) _ _ _ _) with (Channel_of c).
    rewrite Ha. reflexivity.
  - change (new_Channel (channel_info c)) with (Return (Channel_of c)).
    cbn [bind]. rewrite Ha. reflexivity.
Qed.

Lemma for_rows_upsert_channels eng (l : list channel_item) : forall t,
  reachable eng = true ->
  Forall (fun c => accepts_channel eng (Channel_of c) = true) l ->
  for_rows (upsert_channel eng) (map channel_info l) t
  = Return (mkTables
              (fold_left (put ch_channel_id) (map Channel_of l) (channels t))
              (videos t) (comments t)).
Proof.
  induction l as [|c l IH]; intros t Hr Ha; cbn [map for_rows fold_left].
  - now destruct t.
  - inversion Ha as [|? ? Hc Hl]; subst.
    rewrite upsert_channel_put by assumption. cbn [bind].
    rewrite IH by assumption. reflexivity.
Qed.

Lemma insert_channel_data_put eng (l : list channel_item) t w :
  reachable eng = true ->
  Forall (fun c => accepts_channel eng (Channel_of c) = true) l ->
  fst (insert_channel_data eng (pd_DataFrame (map channel_info l)) (t, w))
  = mkTables (fold_left (put ch_channel_id) (map Channel_of l) (channels t))
      (videos t) (comments t).
Proof.
  intros Hr Ha. destruct l as [|c l].
  - simpl. now destruct t.
  - rewrite frame_of_channel_infos by discriminate.
    unfold insert_channel_data.
    change (empty (mkFrame Channel_columns (map channel_info (c :: l))))
      with false. cbv iota. cbn [rows].
    rewrite for_rows_upsert_channels by assumption. reflexivity.
Qed.

(** C6.  On a reachable store that accepts the rows,
    [insert_channel_data] upserts by primary key: the table it leaves is
    the one obtained by taking the rows in order and, for each, overwriting
    the stored row of the same channel id where it stands, or adding the
    row when there is none.  After the call there is exactly one row for
    every channel id of the row set, holding the last row written for that
    id; other rows are as they were; and a second call with the same row
    set leaves the store as the first call left it. *)
Theorem insert_channel_data_idempotent_upsert (eng : engine)
  (l : list channel_item) (t : tables) (w : world) :
  reachable eng = true ->
  Forall (fun c => accepts_channel eng (Channel_of c) = true) l ->
  NoDup (map ch_channel_id (channels t)) ->
  let df := pd_DataFrame (map channel_info l) in
  let st1 := insert_channel_data eng df (t, w) in
  let st2 := insert_channel_data eng df st1 in
  channels (fst st1)
    = fold_left (put ch_channel_id) (map Channel_of l) (channels t) /\
  videos (fst st1) = videos t /\ comments (fst st1) = comments t /\
  NoDup (map ch_channel_id (channels (fst st1))) /\
  (forall c, In c l ->
     count_key ch_channel_id (ci_id c) (channels (fst st1)) = 1) /\
  (forall k,
     query ch_channel_id (CStr k) (channels (fst st1)) =
     match last_write ch_channel_id k (map Channel_of l) with
     | Some r => Some r
     | None => query ch_channel_id (CStr k) (channels t)
     end) /\
  fst st2 = fst st1.
Proof.
  intros Hr Ha Hnd. cbn zeta.
  destruct (insert_channel_data eng (pd_DataFrame (map channel_info l)) (t, w))
    as [t1 w1] eqn:E1.
  pose proof (insert_channel_data_put eng l t w Hr Ha) as H1.
  rewrite E1 in H1. cbn [fst] in *. subst t1. cbn [channels videos comments].
  assert (Hnd1 : NoDup (map ch_channel_id
            (fold_left (put ch_channel_id) (map Channel_of l) (channels t))))
    by now apply NoDup_fold_put.
  repeat split; auto.
  - intros c Hc. apply count_key_NoDup; [exact Hnd1|].
    apply In_key_fold_put. right. rewrite map_map.
    change (ci_id c) with (ch_channel_id (Channel_of c)).
    now apply (in_map (fun x => ch_channel_id (Channel_of x))).
  - intros k. unfold query. apply find_fold_put.
  - rewrite (insert_channel_data_put eng l _ w1 Hr Ha).
    cbn [channels videos comments].
    now rewrite fold_put_idempotent.
Qed.



Lemma insert_channel_data_idempotent_upsert_witness :
  let df := pd_DataFrame (map channel_info
              [Examples.UC1; Examples.UC2; Examples.UC1_later]) in
  let st1 := insert_channel_data Examples.accepting df
               (Examples.empty_store, Examples.nothing_yet) in
  let st2 := insert_channel_data Examples.accepting df st1 in
  fst st2 = fst st1 /\
  count_key ch_channel_id "UC1" (channels (fst st1)) = 1 /\
  query ch_channel_id (CStr "UC1") (channels (fst st1))
    = Some (Channel_of Examples.UC1_later).
Proof.
  cbn zeta.
  destruct (insert_channel_data_idempotent_upsert Examples.accepting
              [Examples.UC1; Examples.UC2; Examples.UC1_later]
              Examples.empty_store Examples.nothing_yet eq_refl
              (Forall_cons _ eq_refl (Forall_cons _ eq_refl
                 (Forall_cons _ eq_refl (Forall_nil _))))
              (NoDup_nil _))
    as (_ & _ & _ & _ & Hcount & Hq & Hidem).
  split; [exact Hidem|]. split.
  - apply (Hcount Examples.UC1). now left.
  - rewrite Hq. reflexivity.
Defined.

(** *** [insert_comment_data] *)

Lemma bind_Return {A B} (m : outcome A) (f : A -> outcome B) b :
  bind m f = Return b -> exists a, m = Return a /\ f a = Return b.
Proof. destruct m as [a|e]; simpl; [eauto|discriminate]. Qed.

Lemma flush_Return ok what u : flush ok what = Return u -> ok = true.
Proof. unfold flush. destruct ok; [reflexivity|discriminate]. Qed.

Lemma new_Comment_key d c :
  new_Comment d = Return c ->
  attr d "comment_id" = CStr (c_comment_id c).
Proof.
  unfold new_Comment. intros H. apply bind_Return in H as (_ & _ & H).
  destruct (attr d "comment_id"); try discriminate.
  now injection H as <-.
Qed.

Lemma getitem_attr d k v : getitem d k = Return v -> attr d k = v.
Proof.
  unfold getitem, attr. destruct (lookup k d); [|discriminate].
  now intros H; injection H as <-.
Qed.

Lemma insert_comment_appends eng t row t' :
  insert_comment eng t row = Return t' ->
  channels t' = channels t /\ videos t' = videos t /\
  (comments t' = comments t \/
   exists c, comments t' = comments t ++ [c] /\
             ~ In (c_comment_id c) (map c_comment_id (comments t)) /\
             new_Comment row = Return c /\
             references v_video_id (c_video_id c) (videos t) = true /\
             accepts_comment eng c = true).
Proof.
  unfold insert_comment. intros H.
  apply bind_Return in H as (k & Hk & H).
  apply bind_Return in H as (_ & _ & H).
  destruct (query c_comment_id k (comments t)) as [existing|] eqn:Eq.
  - injection H as <-. auto.
  - apply bind_Return in H as (c & Hc & H).
    apply bind_Return in H as (u1 & Hfk & H).
    apply bind_Return in H as (u2 & Hacc & H).
    injection H as <-. cbn [channels videos comments].
    split; [reflexivity|]. split; [reflexivity|]. right. exists c.
    apply flush_Return in Hfk, Hacc.
    repeat split; auto.
    apply new_Comment_key in Hc. apply getitem_attr in Hk.
    rewrite Hk in Hc. rewrite Hc in Eq. unfold query in Eq.
    now apply find_key_In in Eq.
Qed.

Lemma for_rows_insert_comment_appends eng rs : forall t t',
  for_rows (insert_comment eng) rs t = Return t' ->
  NoDup (map c_comment_id (comments t)) ->
  channels t' = channels t /\ videos t' = videos t /\
  NoDup (map c_comment_id (comments t')) /\
  exists added, comments t' = comments t ++ added.
Proof.
  induction rs as [|row rs IH]; intros t t' H Hnd; cbn [for_rows] in H.
  - injection H as <-. repeat split; auto. exists []. now rewrite app_nil_r.
  - apply bind_Return in H as (t1 & H1 & H).
    apply insert_comment_appends in H1 as (Hc & Hv & Hm).
    assert (Hnd1 : NoDup (map c_comment_id (comments t1))).
    { destruct Hm as [->|(c & -> & Hnew & _)]; [exact Hnd|].
      rewrite map_app. apply NoDup_app; [exact Hnd|repeat constructor; simpl; tauto|].
      simpl. intros k Hk [<-|[]]. contradiction. }
    destruct (IH _ _ H Hnd1) as (Hc' & Hv' & Hnd' & added & Ha).
    repeat split; try congruence.
    destruct Hm as [E|(c & E & _)]; rewrite E in Ha.
    + now exists added.
    + exists (c :: added). now rewrite Ha, <- app_assoc.
Qed.

(** C7.  [insert_comment_data] only ever adds rows.  Whatever frame it is
    given and whatever the engine does, the comments stored before the call
    are still stored after it, unchanged and in place, followed by the rows
    the call added, and no comment id is stored twice: a stored comment is
    returned unchanged by a query for its id, whatever the payload that
    came with that id, and the number of rows with its id stays 1.  Row by
    row, a row whose comment id is stored changes nothing, and a row whose
    comment id is not stored is added when it passes the checks of the
    engine. *)
Theorem insert_comment_data_append_only (eng : engine) (df : DataFrame)
  (t : tables) (w : world) :
  NoDup (map c_comment_id (comments t)) ->
  let t' := fst (insert_comment_data eng df (t, w)) in
  (exists added, comments t' = comments t ++ added) /\
  NoDup (map c_comment_id (comments t')) /\
  channels t' = channels t /\ videos t' = videos t /\
  (forall c, In c (comments t) ->
     query c_comment_id (CStr (c_comment_id c)) (comments t')
       = query c_comment_id (CStr (c_comment_id c)) (comments t) /\
     count_key c_comment_id (c_comment_id c) (comments t') = 1) /\
  (forall row k,
     reachable eng = true ->
     getitem row "comment_id" = Return (CStr k) ->
     (In k (map c_comment_id (comments t)) ->
      insert_comment eng t row = Return t) /\
     (~ In k (map c_comment_id (comments t)) ->
      forall c,
        new_Comment row = Return c ->
        references v_video_id (c_video_id c) (videos t) = true ->
        accepts_comment eng c = true ->
        insert_comment eng t row
        = Return (mkTables (channels t) (videos t) (comments t ++ [c])))).
Proof.
  intros Hnd. cbn zeta.
  assert (H : let t' := fst (insert_comment_data eng df (t, w)) in
              channels t' = channels t /\ videos t' = videos t /\
              NoDup (map c_comment_id (comments t')) /\
              exists added, comments t' = comments t ++ added).
  { cbn zeta. unfold insert_comment_data.
    assert (Hsame : channels t = channels t /\ videos t = videos t /\
              NoDup (map c_comment_id (comments t)) /\
              exists added, comments t = comments t ++ added).
    { repeat split; auto. exists []. now rewrite app_nil_r. }
    destruct (empty df); [exact Hsame|].
    destruct (for_rows (insert_comment eng) (rows df) t) as [t1|e] eqn:E;
      cbn [fst]; [|exact Hsame].
    now apply (for_rows_insert_comment_appends eng (rows df)). }
  cbn zeta in H. destruct H as (Hc & Hv & Hnd' & added & Ha).
  split; [now exists added|]. split; [exact Hnd'|].
  split; [exact Hc|]. split; [exact Hv|]. split.
  - intros c Hin. split.
    + unfold query. rewrite Ha, find_app.
      destruct (find _ (comments t)) as [x|] eqn:E; [reflexivity|].
      apply find_key_In in E. destruct E. now apply in_map.
    + apply count_key_NoDup; [exact Hnd'|].
      rewrite Ha, map_app. apply in_app_iff. left. now apply in_map.
  - intros row k Hr Hk. unfold insert_comment, connect.
    rewrite Hk, Hr. cbn [bind query]. split.
    + intros Hin.
      destruct (find _ (comments t)) as [x|] eqn:E; [reflexivity|].
      apply find_key_In in E. contradiction.
    + intros Hnot c Hnew Hfk Hacc.
      apply find_key_In in Hnot. rewrite Hnot, Hnew. cbn [bind].
      rewrite Hfk, Hacc. reflexivity.
Qed.



Lemma insert_comment_data_append_only_witness :
  let t' := fst (insert_comment_data Examples.accepting Examples.c1_altered
                   (Examples.loaded_store, Examples.nothing_yet)) in
  query c_comment_id (CStr "c1") (comments t')
    = Some (mkComment "c1" (CStr "v1") (CStr "bob") (CStr "first")
              (CDate 2023 1 2)) /\
  count_key c_comment_id "c1" (comments t') = 1.
Proof.
  cbn zeta.
  destruct (insert_comment_data_append_only Examples.accepting
              Examples.c1_altered Examples.loaded_store Examples.nothing_yet
              (NoDup_cons "c1" (fun H : In "c1" [] => H) (NoDup_nil _)))
    as (_ & _ & _ & _ & Hstored & _).
  destruct (Hstored (mkComment "c1" (CStr "v1") (CStr "bob") (CStr "first")
                       (CDate 2023 1 2)) (or_introl eq_refl)) as [Hq Hc].
  split; [exact Hq|exact Hc].
Defined.

(** *** Referential integrity *)

Lemma references_In {R} (key : R -> string) (s : string) (parent : list R) :
  references key (CStr s) parent = true <-> In s (map key parent).
Proof.
  unfold references. rewrite existsb_exists. split.
  - intros (r & Hr & E). apply String.eqb_eq in E. subst s. now apply in_map.
  - intros H. apply in_map_iff in H as (r & <- & Hr).
    exists r. split; [exact Hr|apply String.eqb_refl].
Qed.

Lemma references_mono {R} (key : R -> string) ref (p p' : list R) :
  (forall k, In k (map key p) -> In k (map key p')) ->
  references key ref p = true -> references key ref p' = true.
Proof.
  intros Hsub. destruct ref; try (simpl; congruence).
  rewrite !references_In. apply Hsub.
Qed.

Lemma for_rows_keeps (I : tables -> Prop) body :
  (forall t row t', body t row = Return t' -> I t -> I t') ->
  forall rs t t', for_rows body rs t = Return t' -> I t -> I t'.
Proof.
  intros Hb. induction rs as [|row rs IH]; intros t t' H Ht;
    cbn [for_rows] in H.
  - now injection H as <-.
  - apply bind_Return in H as (t1 & H1 & H). eauto.
Qed.

Lemma upsert_channel_integrity eng t row t' :
  upsert_channel eng t row = Return t' ->
  referential_integrity t -> referential_integrity t'.
Proof.
  unfold upsert_channel. intros H [RV RC].
  apply bind_Return in H as (k & _ & H).
  apply bind_Return in H as (_ & _ & H).
  assert (G : forall chs',
            (forall k, In k (map ch_channel_id (channels t)) ->
                       In k (map ch_channel_id chs')) ->
            referential_integrity (mkTables chs' (videos t) (comments t))).
  { intros chs' Hsub. split; cbn [channels videos comments]; [|exact RC].
    eapply Forall_impl; [|exact RV]. intros v. now apply references_mono. }
  destruct (query ch_channel_id k (channels t)) as [existing|].
  - apply bind_Return in H as (name & _ & H).
    apply bind_Return in H as (subs & _ & H).
    apply bind_Return in H as (total & _ & H).
    apply bind_Return in H as (uploads & _ & H).
    apply bind_Return in H as (_ & _ & H). injection H as <-.
    apply G. intros k'. now rewrite map_key_overwrite.
  - apply bind_Return in H as (c & _ & H).
    apply bind_Return in H as (_ & _ & H). injection H as <-.
    apply G. intros k' Hk'. rewrite map_app. apply in_app_iff. now left.
Qed.

Lemma upsert_video_integrity eng t row t' :
  upsert_video eng t row = Return t' ->
  referential_integrity t -> referential_integrity t'.
Proof.
  unfold upsert_video. intros H [RV RC].
  apply bind_Return in H as (k & _ & H).
  apply bind_Return in H as (_ & _ & H).
  destruct (query v_video_id k (videos t)) as [existing|] eqn:Eq.
  - apply bind_Return in H as (title & _ & H).
    apply bind_Return in H as (views & _ & H).
    apply bind_Return in H as (likes & _ & H).
    apply bind_Return in H as (count & _ & H).
    apply bind_Return in H as (secs & _ & H).
    apply bind_Return in H as (published & _ & H).
    apply bind_Return in H as (_ & _ & H). injection H as <-.
    assert (Hex : In existing (videos t)).
    { unfold query in Eq. destruct k; try discriminate.
      now apply find_key_Some in Eq. }
    split; cbn [channels videos comments].
    + unfold overwrite. apply Forall_forall. intros v Hv.
      apply in_map_iff in Hv as (x & <- & Hx).
      rewrite Forall_forall in RV.
      destruct (String.eqb (v_video_id x) _); cbn [v_channel_id]; auto.
    + eapply Forall_impl; [|exact RC]. intros c.
      apply references_mono. intros k'. now rewrite map_key_overwrite.
  - apply bind_Return in H as (v & _ & H).
    apply bind_Return in H as (u & Hfk & H).
    apply bind_Return in H as (_ & _ & H). injection H as <-.
    apply flush_Return in Hfk.
    split; cbn [channels videos comments].
    + apply Forall_app. split; [exact RV|]. now repeat constructor.
    + eapply Forall_impl; [|exact RC]. intros c.
      apply references_mono. intros k' Hk'.
      rewrite map_app. apply in_app_iff. now left.
Qed.

Lemma insert_comment_integrity eng t row t' :
  insert_comment eng t row = Return t' ->
  referential_integrity t -> referential_integrity t'.
Proof.
  intros H [RV RC].
  apply insert_comment_appends in H as (Hc & Hv & Hm).
  split; rewrite ?Hc, ?Hv; [exact RV|].
  destruct Hm as [->|(c & -> & _ & _ & Hfk & _)]; [exact RC|].
  apply Forall_app. split; [exact RC|]. now repeat constructor.
Qed.

Lemma insert_channel_data_integrity eng df t w :
  referential_integrity t ->
  referential_integrity (fst (insert_channel_data eng df (t, w))).
Proof.
  intros H. unfold insert_channel_data. destruct (empty df); [exact H|].
  destruct (for_rows _ _ _) as [t'|e] eqn:E; [|exact H]. cbn [fst].
  eapply for_rows_keeps; [|exact E|exact H].
  intros. eapply upsert_channel_integrity; eauto.
Qed.

Lemma insert_video_data_integrity eng df t w :
  referential_integrity t ->
  referential_integrity (fst (insert_video_data eng df (t, w))).
Proof.
  intros H. unfold insert_video_data. destruct (empty df); [exact H|].
  destruct (for_rows _ _ _) as [t'|e] eqn:E; [|exact H]. cbn [fst].
  eapply for_rows_keeps; [|exact E|exact H].
  intros. eapply upsert_video_integrity; eauto.
Qed.

Lemma insert_comment_data_integrity eng df t w :
  referential_integrity t ->
  referential_integrity (fst (insert_comment_data eng df (t, w))).
Proof.
  intros H. unfold insert_comment_data. destruct (empty df); [exact H|].
  destruct (for_rows _ _ _) as [t'|e] eqn:E; [|exact H]. cbn [fst].
  eapply for_rows_keeps; [|exact E|exact H].
  intros. eapply insert_comment_integrity; eauto.
Qed.


(** *** Keys are never removed *)

Lemma upsert_channel_keys eng t row t' :
  upsert_channel eng t row = Return t' ->
  (forall k, In k (map ch_channel_id (channels t)) ->
             In k (map ch_channel_id (channels t'))) /\
  videos t' = videos t /\ comments t' = comments t.
Proof.
  unfold upsert_channel. intros H.
  apply bind_Return in H as (k & _ & H).
  apply bind_Return in H as (_ & _ & H).
  destruct (query ch_channel_id k (channels t)) as [existing|].
  - apply bind_Return in H as (name & _ & H).
    apply bind_Return in H as (subs & _ & H).
    apply bind_Return in H as (total & _ & H).
    apply bind_Return in H as (uploads & _ & H).
    apply bind_Return in H as (_ & _ & H). injection H as <-.
    cbn [channels videos comments]. rewrite map_key_overwrite. auto.
  - apply bind_Return in H as (c & _ & H).
    apply bind_Return in H as (_ & _ & H). injection H as <-.
    cbn [channels videos comments]. rewrite map_app.
    repeat split; auto. intros k' Hk'. apply in_app_iff. now left.
Qed.

Lemma upsert_video_keys eng t row t' :
  upsert_video eng t row = Return t' ->
  channels t' = channels t /\
  (forall k, In k (map v_video_id (videos t)) ->
             In k (map v_video_id (videos t'))) /\
  comments t' = comments t.
Proof.
  unfold upsert_video. intros H.
  apply bind_Return in H as (k & _ & H).
  apply bind_Return in H as (_ & _ & H).
  destruct (query v_video_id k (videos t)) as [existing|].
  - apply bind_Return in H as (title & _ & H).
    apply bind_Return in H as (views & _ & H).
    apply bind_Return in H as (likes & _ & H).
    apply bind_Return in H as (count & _ & H).
    apply bind_Return in H as (secs & _ & H).
    apply bind_Return in H as (published & _ & H).
    apply bind_Return in H as (_ & _ & H). injection H as <-.
    cbn [channels videos comments]. rewrite map_key_overwrite. auto.
  - apply bind_Return in H as (v & _ & H).
    apply bind_Return in H as (_ & _ & H).
    apply bind_Return in H as (_ & _ & H). injection H as <-.
    cbn [channels videos comments]. rewrite map_app.
    repeat split; auto. intros k' Hk'. apply in_app_iff. now left.
Qed.

End WarehouseFacts.

(** ** The frames of the records the API client builds *)

Module RowFacts.
Import Frame FrameFacts Transformer Api Warehouse WarehouseFacts.
Local Open Scope list_scope.
Local Open Scope nat_scope.

Lemma columns_of_video_details (items : list video_item) :
  items <> [] -> columns_of (map video_details items) = raw_video_columns.
Proof.
  destruct items as [|it items]; [congruence|]. intros _.
  unfold columns_of. cbn [map fold_left].
  change (add_keys [] (video_details it)) with raw_video_columns.
  induction items as [|it' items IH]; [reflexivity|]. cbn [map fold_left].
  change (add_keys raw_video_columns (video_details it'))
    with raw_video_columns.
  exact IH.
Qed.

Lemma frame_of_video_details (items : list video_item) :
  items <> [] ->
  pd_DataFrame (map video_details items)
  = mkFrame raw_video_columns (map video_details items).
Proof.
  intros H. unfold pd_DataFrame. rewrite columns_of_video_details by exact H.
  f_equal. rewrite map_map. apply map_ext. intros it. reflexivity.
Qed.

Lemma video_rows_eq (items : list video_item) : forall dates,
  length dates = length items ->
  let rows1 :=
    map (fun rv => set_cell "published_date" (snd rv) (fst rv))
      (combine (map video_details items) dates) in
  map (del_cell "duration")
    (map (fun rv => fst rv ++ [("duration_seconds", snd rv)])
       (combine rows1
          (map (fun v => CInt (Duration.parse_duration v))
             (map (fun r => cell_at r "duration") rows1))))
  = map (fun p => video_row (fst p) (snd p)) (combine items dates).
Proof.
  induction items as [|it items IH]; intros [|d dates] Hlen;
    try discriminate; [reflexivity|].
  cbn zeta in *. cbn [map combine]. f_equal.
  apply IH. simpl in Hlen. congruence.
Qed.

Lemma process_video_data_of_items to_dates (items : list video_item) dates :
  items <> [] ->
  to_dates (map (fun it => CStr (vi_publishedAt it)) items) = Return dates ->
  length dates = length items ->
  process_video_data to_dates (Some (map video_details items))
  = Return (mkFrame Video_columns
              (map (fun p => video_row (fst p) (snd p)) (combine items dates))).
Proof.
  intros Hne Hdates Hlen.
  assert (E : exists r rs, map video_details items = r :: rs).
  { destruct items; [contradiction|]. simpl. eauto. }
  destruct E as (r & rs & E). unfold process_video_data. rewrite E, <- E.
  rewrite frame_of_video_details by exact Hne.
  unfold getcol at 1. cbn [columns rows mem existsb String.eqb Ascii.eqb Bool.eqb orb
                           raw_video_columns bind].
  rewrite map_map.
  rewrite (map_ext (fun x => cell_at (video_details x) "published_date")
                   (fun it => CStr (vi_publishedAt it))) by reflexivity.
  rewrite Hdates. cbn [bind].
  unfold setcol at 2. cbn [columns rows mem existsb String.eqb Ascii.eqb Bool.eqb orb
                           raw_video_columns].
  unfold getcol. cbn [columns rows mem existsb String.eqb Ascii.eqb Bool.eqb orb
                      raw_video_columns bind].
  unfold setcol. cbn [columns rows mem existsb String.eqb Ascii.eqb Bool.eqb orb
                      raw_video_columns app].
  unfold drop. cbn [columns rows mem existsb String.eqb Ascii.eqb Bool.eqb orb
                    filter negb].
  cbn [bind]. f_equal. f_equal. now apply video_rows_eq.
Qed.


Lemma columns_of_comment_infos (cs : list (string * thread_item)) :
  cs <> [] ->
  columns_of (map (fun p => comment_info (CStr (fst p)) (snd p)) cs)
  = Comment_columns.
Proof.
  destruct cs as [|p cs]; [congruence|]. intros _.
  unfold columns_of. cbn [map fold_left].
  change (add_keys [] (comment_info (CStr (fst p)) (snd p))) with Comment_columns.
  induction cs as [|p' cs IH]; [reflexivity|]. cbn [map fold_left].
  change (add_keys Comment_columns (comment_info (CStr (fst p')) (snd p')))
    with Comment_columns.
  exact IH.
Qed.

Lemma comment_rows_eq (cs : list (string * thread_item)) : forall dates,
  length dates = length cs ->
  map (fun rv => set_cell "published_date" (snd rv) (fst rv))
    (combine (map (fun p => comment_info (CStr (fst p)) (snd p)) cs) dates)
  = map (fun q => comment_row (CStr (fst (fst q))) (snd (fst q)) (snd q))
      (combine cs dates).
Proof.
  induction cs as [|p cs IH]; intros [|d dates] Hlen;
    try discriminate; [reflexivity|].
  cbn [map combine]. f_equal. apply IH. simpl in Hlen. congruence.
Qed.

Lemma process_comment_data_of_items to_dates
  (cs : list (string * thread_item)) dates :
  cs <> [] ->
  to_dates (map (fun p => CStr (ti_publishedAt (snd p))) cs) = Return dates ->
  length dates = length cs ->
  process_comment_data to_dates
    (Some (map (fun p => comment_info (CStr (fst p)) (snd p)) cs))
  = Return (mkFrame Comment_columns
              (map (fun q => comment_row (CStr (fst (fst q))) (snd (fst q)) (snd q))
                 (combine cs dates))).
Proof.
  intros Hne Hdates Hlen.
  assert (E : exists r rs,
            map (fun p => comment_info (CStr (fst p)) (snd p)) cs = r :: rs).
  { destruct cs; [contradiction|]. simpl. eauto. }
  destruct E as (r & rs & E). unfold process_comment_data. rewrite E, <- E.
  unfold pd_DataFrame. rewrite columns_of_comment_infos by exact Hne.
  rewrite map_map.
  rewrite (map_ext (fun x => reindex Comment_columns
                               (comment_info (CStr (fst x)) (snd x)))
                   (fun p => comment_info (CStr (fst p)) (snd p))) by reflexivity.
  unfold getcol. cbn [columns rows mem existsb String.eqb Ascii.eqb Bool.eqb orb
                      Comment_columns bind].
  rewrite map_map.
  rewrite (map_ext (fun x => cell_at (comment_info (CStr (fst x)) (snd x))
                               "published_date")
                   (fun p => CStr (ti_publishedAt (snd p)))) by reflexivity.
  rewrite Hdates. cbn [bind].
  unfold setcol. cbn [columns rows mem existsb String.eqb Ascii.eqb Bool.eqb orb
                      Comment_columns].
  f_equal. f_equal. now apply comment_rows_eq.
Qed.

(** *** The gateway on these frames *)

Section Accepting.

Variable eng : engine.
Hypothesis eng_reachable : reachable eng = true.
Hypothesis eng_accepts_video : forall v, accepts_video eng v = true.
Hypothesis eng_accepts_comment : forall c, accepts_comment eng c = true.

Lemma upsert_video_row t (it : video_item) (d : cell) :
  In (vi_channelId it) (map ch_channel_id (channels t)) ->
  exists t',
    upsert_video eng t (video_row it d) = Return t' /\
    channels t' = channels t /\ comments t' = comments t /\
    In (vi_id it) (map v_video_id (videos t')) /\
    (forall k, In k (map v_video_id (videos t)) ->
               In k (map v_video_id (videos t'))).
Proof.
  intros Hfk. unfold upsert_video, connect.
  cbn [getitem lookup video_row String.eqb Ascii.eqb Bool.eqb bind query].
  rewrite eng_reachable. cbn [bind].
  destruct (find (fun r => String.eqb (v_video_id r) (vi_id it)) (videos t))
    as [existing|] eqn:E.
  - cbv [getitem lookup String.eqb Ascii.eqb Bool.eqb bind].
    rewrite eng_accepts_video. eexists. split; [reflexivity|].
    cbn [channels videos comments]. rewrite map_key_overwrite.
    repeat split; auto.
    apply find_key_Some in E as [E1 E2]. rewrite <- E1. now apply in_map.
  - change (new_Video (video_row it d)) with (Return (Video_of it d)).
    cbn [bind]. change (v_channel_id (Video_of it d)) with (CStr (vi_channelId it)).
    apply references_In in Hfk. rewrite Hfk. cbn [flush bind].
    rewrite eng_accepts_video. eexists. split; [reflexivity|].
    cbn [channels videos comments]. rewrite map_app. repeat split; auto.
    + apply in_app_iff. right. now left.
    + intros k Hk. apply in_app_iff. now left.
Qed.

Lemma for_rows_video_rows (ps : list (video_item * cell)) : forall t,
  (forall p, In p ps ->
     In (vi_channelId (fst p)) (map ch_channel_id (channels t))) ->
  exists t',
    for_rows (upsert_video eng)
      (map (fun p => video_row (fst p) (snd p)) ps) t = Return t' /\
    channels t' = channels t /\ comments t' = comments t /\
    (forall p, In p ps -> In (vi_id (fst p)) (map v_video_id (videos t'))) /\
    (forall k, In k (map v_video_id (videos t)) ->
               In k (map v_video_id (videos t'))).
Proof.
  induction ps as [|p ps IH]; intros t Hfk; cbn [map for_rows].
  - exists t. repeat split; auto. intros p [].
  - destruct (upsert_video_row t (fst p) (snd p) (Hfk p (or_introl eq_refl)))
      as (t1 & -> & Hc1 & Hm1 & Hin1 & Hmono1). cbn [bind].
    destruct (IH t1) as (t' & -> & Hc & Hm & Hin & Hmono).
    { intros q Hq. rewrite Hc1. apply Hfk. now right. }
    exists t'. split; [reflexivity|]. repeat split; try congruence.
    + intros q [<-|Hq]; auto.
    + auto.
Qed.

Lemma upsert_comment_row t (vid : string) (it : thread_item) (d : cell) :
  In vid (map v_video_id (videos t)) ->
  exists t',
    insert_comment eng t (comment_row (CStr vid) it d) = Return t' /\
    channels t' = channels t /\ videos t' = videos t /\
    In (ti_id it) (map c_comment_id (comments t')) /\
    (forall k, In k (map c_comment_id (comments t)) ->
               In k (map c_comment_id (comments t'))).
Proof.
  intros Hfk. unfold insert_comment, connect.
  cbn [getitem lookup comment_row String.eqb Ascii.eqb Bool.eqb bind query].
  rewrite eng_reachable. cbn [bind].
  destruct (find (fun r => String.eqb (c_comment_id r) (ti_id it)) (comments t))
    as [existing|] eqn:E.
  - exists t. repeat split; auto.
    apply find_key_Some in E as [E1 E2]. rewrite <- E1. now apply in_map.
  - change (new_Comment (comment_row (CStr vid) it d))
      with (Return (Comment_of (CStr vid) it d)).
    cbn [bind]. change (c_video_id (Comment_of (CStr vid) it d)) with (CStr vid).
    apply references_In in Hfk. rewrite Hfk. cbn [flush bind].
    rewrite eng_accepts_comment. eexists. split; [reflexivity|].
    cbn [channels videos comments]. rewrite map_app. repeat split; auto.
    + apply in_app_iff. right. now left.
    + intros k Hk. apply in_app_iff. now left.
Qed.

Lemma for_rows_comment_rows (qs : list ((string * thread_item) * cell)) :
  forall t,
  (forall q, In q qs -> In (fst (fst q)) (map v_video_id (videos t))) ->
  exists t',
    for_rows (insert_comment eng)
      (map (fun q => comment_row (CStr (fst (fst q))) (snd (fst q)) (snd q))
         qs) t = Return t' /\
    channels t' = channels t /\ videos t' = videos t /\
    (forall q, In q qs ->
       In (ti_id (snd (fst q))) (map c_comment_id (comments t'))) /\
    (forall k, In k (map c_comment_id (comments t)) ->
               In k (map c_comment_id (comments t'))).
Proof.
  induction qs as [|q qs IH]; intros t Hfk; cbn [map for_rows].
  - exists t. repeat split; auto. intros q [].
  - destruct (upsert_comment_row t (fst (fst q)) (snd (fst q)) (snd q)
                (Hfk q (or_introl eq_refl)))
      as (t1 & -> & Hc1 & Hv1 & Hin1 & Hmono1). cbn [bind].
    destruct (IH t1) as (t' & -> & Hc & Hv & Hin & Hmono).
    { intros q' Hq'. rewrite Hv1. apply Hfk. now right. }
    exists t'. split; [reflexivity|]. repeat split; try congruence.
    + intros q' [<-|Hq']; auto.
    + auto.
Qed.

End Accepting.

End RowFacts.

(** ** The migration *)

Module AppFacts.
Import Frame FrameFacts Transformer Api ApiFacts Warehouse WarehouseFacts
  RowFacts App.
Local Open Scope list_scope.
Local Open Scope nat_scope.

(** *** The log of the API client *)

Lemma playlist_loop_calls up pid fuel : forall tok ids w r w',
  playlist_loop fuel up pid tok ids w = Some (r, w') ->
  exists cs, calls w' = calls w ++ cs /\ Forall api_call cs.
Proof.
  induction fuel as [|fuel IH]; intros tok ids w r w' H; [discriminate|].
  cbn [playlist_loop] in H.
  set (w1 := log_call (PlaylistItemsList pid tok) w) in *.
  assert (H1 : forall cs, Forall api_call cs ->
            Forall api_call (PlaylistItemsList pid tok :: cs)).
  { intros cs Hcs. constructor; [exact I|exact Hcs]. }
  destruct (playlistItems_list up _ pid tok) as [[items next]|e].
  - destruct (no_token next).
    + injection H as _ <-. exists [PlaylistItemsList pid tok]. auto.
    + apply IH in H as (cs & -> & Hcs).
      exists (PlaylistItemsList pid tok :: cs). simpl.
      rewrite <- app_assoc. auto.
  - injection H as _ <-. exists [PlaylistItemsList pid tok]. auto.
Qed.

Lemma get_playlist_video_ids_calls fuel up pid w ids w' :
  get_playlist_video_ids fuel up pid w = Some (ids, w') ->
  exists cs, calls w' = calls w ++ cs /\ Forall api_call cs.
Proof.
  unfold get_playlist_video_ids.
  destruct (playlist_loop fuel up pid None [] w) as [[[l|e] w1]|] eqn:E;
    [| |discriminate]; apply playlist_loop_calls in E as (cs & Hc & Hcs).
  - intros H; injection H as _ <-. eauto.
  - intros H. exists cs. split; [|exact Hcs].
    destruct e; injection H as _ <-; exact Hc.
Qed.

Lemma comments_loop_calls up vid max fuel : forall tok cl c w r w',
  comments_loop fuel up vid max tok cl c w = Some (r, w') ->
  exists cs, calls w' = calls w ++ cs /\ Forall api_call cs.
Proof.
  induction fuel as [|fuel IH]; intros tok cl c w r w' H.
  - simpl in H. destruct (Z.ltb c max); [discriminate|].
    injection H as _ <-. exists []. now rewrite app_nil_r.
  - cbn [comments_loop] in H. destruct (Z.ltb c max).
    2:{ injection H as _ <-. exists []. now rewrite app_nil_r. }
    set (c0 := CommentThreadsList vid (Z.min 100 (max - c)) tok) in *.
    assert (H1 : forall cs, Forall api_call cs -> Forall api_call (c0 :: cs)).
    { intros cs Hcs. constructor; [exact I|exact Hcs]. }
    destruct (commentThreads_list up _ vid _ tok) as [[items next]|e].
    + destruct (page_items vid max items cl c) as [cl' c'].
      destruct (no_token next).
      * injection H as _ <-. exists [c0]. auto.
      * apply IH in H as (cs & -> & Hcs). exists (c0 :: cs). simpl.
        rewrite <- app_assoc. auto.
    + injection H as _ <-. exists [c0]. auto.
Qed.

Lemma get_comments_of_video_calls fuel up vid max w r w' :
  get_comments_of_video fuel up vid max w = Some (r, w') ->
  (exists l, r = Return l) /\
  exists cs, calls w' = calls w ++ cs /\ Forall api_call cs.
Proof.
  unfold get_comments_of_video.
  destruct (comments_loop fuel up vid max None [] 0%Z w)
    as [[[l|e] w1]|] eqn:E; [| |discriminate];
    apply comments_loop_calls in E as (cs & Hc & Hcs);
    intros H; injection H as <- <-; eauto.
Qed.


(** *** Stretches of the log *)

Lemma ranks_app c1 c2 : ranks (c1 ++ c2) = ranks c1 ++ ranks c2.
Proof. unfold ranks. apply flat_map_app. Qed.

Lemma ranks_api cs : Forall api_call cs -> ranks cs = [].
Proof.
  induction 1 as [|c cs Hc _ IH]; [reflexivity|].
  unfold ranks in *. cbn [flat_map]. rewrite IH.
  destruct c; simpl in *; tauto.
Qed.

Lemma StronglySorted_lt_app (mid : nat) l1 l2 :
  StronglySorted Nat.lt l1 -> StronglySorted Nat.lt l2 ->
  Forall (fun k => k < mid) l1 -> Forall (fun k => mid <= k) l2 ->
  StronglySorted Nat.lt (l1 ++ l2).
Proof.
  intros H1 H2 Hlt Hge. induction H1 as [|a l1 Hs IH Ha]; simpl; [exact H2|].
  inversion Hlt as [|? ? Hamid Hlt']; subst.
  constructor; [now apply IH|].
  apply Forall_app. split; [exact Ha|].
  eapply Forall_impl; [|exact Hge]. simpl. intros k Hk. lia.
Qed.

Section Stage.

Variable carry : call -> Prop.
Hypothesis carry_api : forall c, api_call c -> carry c.

Lemma stage_nil lo hi : stage carry lo hi [].
Proof. repeat split; constructor. Qed.

Lemma stage_api lo hi cs : Forall api_call cs -> stage carry lo hi cs.
Proof.
  intros H. unfold stage. rewrite (ranks_api cs H).
  repeat split; try constructor.
  eapply Forall_impl; [|exact H]. exact carry_api.
Qed.

Lemma stage_weaken lo hi lo' hi' cs :
  lo' <= lo -> hi <= hi' -> stage carry lo hi cs -> stage carry lo' hi' cs.
Proof.
  intros Hlo Hhi (H1 & H2 & H3). repeat split; auto.
  eapply Forall_impl; [|exact H2]. simpl. intros k Hk. lia.
Qed.

Lemma stage_app lo mid hi c1 c2 :
  lo <= mid <= hi ->
  stage carry lo mid c1 -> stage carry mid hi c2 ->
  stage carry lo hi (c1 ++ c2).
Proof.
  intros Hm (S1 & B1 & F1) (S2 & B2 & F2). unfold stage.
  rewrite ranks_app. repeat split.
  - apply (StronglySorted_lt_app mid); auto.
    + eapply Forall_impl; [|exact B1]. simpl. intros k Hk. lia.
    + eapply Forall_impl; [|exact B2]. simpl. intros k Hk. lia.
  - apply Forall_app. split.
    + eapply Forall_impl; [|exact B1]. simpl. intros k Hk. lia.
    + eapply Forall_impl; [|exact B2]. simpl. intros k Hk. lia.
  - apply Forall_app. auto.
Qed.

Lemma stage_write k c : ranks [c] = [k] -> carry c -> stage carry k (S k) [c].
Proof.
  intros Hr Hc. unfold stage. rewrite Hr. split; [|split].
  - repeat constructor.
  - constructor; [lia|constructor].
  - constructor; [exact Hc|constructor].
Qed.

End Stage.

(** *** Rules for the steps of the script *)

Lemma logs_ret {A} (Q : list call -> Prop) (P : A -> Prop) a :
  Q [] -> P a -> logs Q P (ret a).
Proof.
  intros HQ HP s r s' H. injection H as <- <-. exists [].
  rewrite app_nil_r. repeat split; auto. intros a' E. now injection E as <-.
Qed.

Lemma logs_lift {A} (Q : list call -> Prop) (P : A -> Prop) (o : outcome A) :
  Q [] -> (forall a, o = Return a -> P a) -> logs Q P (lift o).
Proof.
  intros HQ HP s r s' H. injection H as <- <-. exists [].
  rewrite app_nil_r. repeat split; auto.
Qed.

Lemma logs_bind {A B} (Q1 Q2 Q : list call -> Prop) (P1 : A -> Prop)
  (P2 : B -> Prop) (m : M A) (f : A -> M B) :
  logs Q1 P1 m ->
  (forall a, P1 a -> logs Q2 P2 (f a)) ->
  (forall c1, Q1 c1 -> Q c1) ->
  (forall c1 c2, Q1 c1 -> Q2 c2 -> Q (c1 ++ c2)) ->
  logs Q P2 (mbind m f).
Proof.
  intros Hm Hf Hw Happ s r s' H. unfold mbind in H.
  destruct (m s) as [[[a|e] s1]|] eqn:E; [| |discriminate].
  - destruct (Hm _ _ _ E) as (c1 & Hc1 & HQ1 & HP1).
    destruct (Hf a (HP1 a eq_refl) _ _ _ H) as (c2 & Hc2 & HQ2 & HP2).
    exists (c1 ++ c2). rewrite Hc2, Hc1, app_assoc. auto.
  - injection H as <- <-.
    destruct (Hm _ _ _ E) as (c1 & Hc1 & HQ1 & _).
    exists c1. repeat split; auto. discriminate.
Qed.

Lemma logs_quiet {A} (Q : list call -> Prop) (P : A -> Prop) (m : M A) :
  Q [] ->
  (forall s r s', m s = Some (r, s') ->
     calls (out s') = calls (out s) /\ forall a, r = Return a -> P a) ->
  logs Q P m.
Proof.
  intros HQ H s r s' E. destruct (H _ _ _ E) as [Hc HP].
  exists []. rewrite app_nil_r. auto.
Qed.

Lemma logs_st_show Q d : Q [] -> logs Q (fun _ : unit => True) (st_show d).
Proof.
  intros HQ. apply logs_quiet; [exact HQ|].
  intros s r s' E. injection E as <- <-. auto.
Qed.

Lemma logs_store_entry Q cid data :
  Q [] -> logs Q (fun _ : unit => True) (store_entry cid data).
Proof.
  intros HQ. apply logs_quiet; [exact HQ|].
  intros s r s' E. injection E as <- <-. auto.
Qed.

Lemma logs_api {A} (Q : list call -> Prop) (P : A -> Prop)
  (f : world -> A * world) :
  (forall w a w', f w = (a, w') ->
     exists cs, calls w' = calls w ++ cs /\ Q cs /\ P a) ->
  logs Q P (api f).
Proof.
  intros Hf s r s' E. unfold api in E.
  destruct (f (out s)) as [a w'] eqn:Ef. injection E as <- <-.
  destruct (Hf _ _ _ Ef) as (cs & Hc & HQ & HP).
  exists cs. simpl. repeat split; auto. intros a' Ea. now injection Ea as <-.
Qed.

Lemma logs_api_paged {A} (Q : list call -> Prop) (P : A -> Prop)
  (f : world -> option (A * world)) :
  (forall w a w', f w = Some (a, w') ->
     exists cs, calls w' = calls w ++ cs /\ Q cs /\ P a) ->
  logs Q P (api_paged f).
Proof.
  intros Hf s r s' E. unfold api_paged in E.
  destruct (f (out s)) as [[a w']|] eqn:Ef; [|discriminate].
  injection E as <- <-.
  destruct (Hf _ _ _ Ef) as (cs & Hc & HQ & HP).
  exists cs. simpl. repeat split; auto. intros a' Ea. now injection Ea as <-.
Qed.

Lemma logs_gateway (Q : list call -> Prop)
  (f : tables * world -> tables * world) :
  (forall t w t' w', f (t, w) = (t', w') ->
     exists cs, calls w' = calls w ++ cs /\ Q cs) ->
  logs Q (fun _ : unit => True) (gateway f).
Proof.
  intros Hf s r s' E. unfold gateway in E.
  destruct (f (store s, out s)) as [t' w'] eqn:Ef. injection E as <- <-.
  destruct (Hf _ _ _ _ Ef) as (cs & Hc & HQ).
  exists cs. simpl. auto.
Qed.

Lemma logs_count Q (m : M unit) :
  Q [] ->
  (forall s, exists s', m s = Some (Return tt, s') /\ out s' = out s) ->
  logs Q (fun _ : unit => True) m.
Proof.
  intros HQ Hm. apply logs_quiet; [exact HQ|].
  intros s r s' E. destruct (Hm s) as (s1 & E1 & Ho).
  rewrite E1 in E. injection E as <- <-. now rewrite Ho.
Qed.

Lemma insert_channel_data_calls eng df t w :
  calls (snd (insert_channel_data eng df (t, w)))
  = calls w ++ (if empty df then [] else [InsertChannels df]).
Proof.
  unfold insert_channel_data. destruct (empty df).
  - simpl. now rewrite app_nil_r.
  - destruct (for_rows _ _ _); reflexivity.
Qed.

Lemma insert_video_data_calls eng df t w :
  calls (snd (insert_video_data eng df (t, w)))
  = calls w ++ (if empty df then [] else [InsertVideos df]).
Proof.
  unfold insert_video_data. destruct (empty df).
  - simpl. now rewrite app_nil_r.
  - destruct (for_rows _ _ _); reflexivity.
Qed.

Lemma insert_comment_data_calls eng df t w :
  calls (snd (insert_comment_data eng df (t, w)))
  = calls w ++ (if empty df then [] else [InsertComments df]).
Proof.
  unfold insert_comment_data. destruct (empty df).
  - simpl. now rewrite app_nil_r.
  - destruct (for_rows _ _ _); reflexivity.
Qed.


(** *** The log of one channel *)

Lemma writes_of_api to_dates data c : api_call c -> writes_of to_dates data c.
Proof. destruct c; simpl; tauto. Qed.

Section Channel.

Variable fuel : nat.
Variable eng : engine.
Variable up : upstream.
Variable to_dates : list cell -> outcome (list cell).
Variable data0 : staged.

Local Abbreviation carry := (writes_of to_dates data0).

Lemma stage_here lo hi : stage carry lo hi [].
Proof. apply stage_nil. Qed.

Lemma truthy_false {A} (l : list A) : truthy l = false -> l = [].
Proof. destruct l; [reflexivity|discriminate]. Qed.

Lemma insert_channel_step_logs :
  logs (stage carry 0 1) (fun _ => True) (insert_channel_step eng data0).
Proof.
  unfold insert_channel_step.
  destruct (empty (process_channel_data (Some (s_channel_info data0)))) eqn:E.
  - apply logs_ret; [apply stage_here|exact I].
  - eapply logs_bind with (Q1 := stage carry 0 1) (Q2 := stage carry 1 1)
                          (P1 := fun _ => True).
    + apply logs_gateway. intros t w t' w' H.
      pose proof (insert_channel_data_calls eng
                    (process_channel_data (Some (s_channel_info data0))) t w) as Hc.
      rewrite H, E in Hc. eexists. split; [exact Hc|].
      apply stage_write; [reflexivity|reflexivity].
    + intros _ _. apply logs_count; [apply stage_here|].
      intros s. eexists. split; reflexivity.
    + auto.
    + intros c1 c2 H1 H2. eapply stage_app; [|exact H1|]; [lia|].
      eapply stage_weaken; [| |exact H2]; lia.
Qed.

Lemma fill_videos_logs cid :
  logs (stage carry 1 1)
    (fun d => s_comments d = s_comments data0 /\
              (s_videos data0 <> [] -> s_videos d = s_videos data0))
    (fill_videos fuel up cid data0).
Proof.
  unfold fill_videos.
  destruct (negb (truthy (s_videos data0)) && truthy (s_channel_info data0))
    eqn:E.
  2:{ apply logs_ret; [apply stage_here|auto]. }
  apply andb_true_iff in E as [E _]. apply negb_true_iff, truthy_false in E.
  assert (Happ : forall c1 c2, stage carry 1 1 c1 -> stage carry 1 1 c2 ->
                   stage carry 1 1 (c1 ++ c2)).
  { intros c1 c2 H1 H2. eapply stage_app; eauto. }
  eapply logs_bind with (Q1 := stage carry 1 1) (Q2 := stage carry 1 1);
    [apply logs_st_show, stage_here| |auto|exact Happ].
  intros _ _.
  eapply logs_bind with (Q1 := stage carry 1 1) (Q2 := stage carry 1 1)
                        (P1 := fun _ => True);
    [apply logs_lift; [apply stage_here|auto]| |auto|exact Happ].
  intros playlist_id _.
  eapply logs_bind with (Q1 := stage carry 1 1) (Q2 := stage carry 1 1)
                        (P1 := fun _ => True); [| |auto|exact Happ].
  { apply logs_api_paged. intros w ids w' H.
    apply get_playlist_video_ids_calls in H as (cs & Hc & Hcs).
    exists cs. split; [exact Hc|]. split; [|exact I].
    apply stage_api; [apply writes_of_api|exact Hcs]. }
  intros video_ids _.
  eapply logs_bind with (Q1 := stage carry 1 1) (Q2 := stage carry 1 1)
                        (P1 := fun _ => True); [| |auto|exact Happ].
  { apply logs_api. intros w recs w' H.
    pose proof (get_video_details_calls up video_ids w) as [Hc _].
    rewrite H in Hc. simpl in Hc. eexists. split; [exact Hc|].
    split; [|exact I]. apply stage_api; [apply writes_of_api|].
    apply Forall_forall. intros c Hin.
    apply in_map_iff in Hin as (b & <- & _). exact I. }
  intros current_videos_data _.
  eapply logs_bind with (Q1 := stage carry 1 1) (Q2 := stage carry 1 1)
                        (P1 := fun _ => True);
    [apply logs_store_entry, stage_here| |auto|exact Happ].
  intros _ _. apply logs_ret; [apply stage_here|].
  simpl. split; [reflexivity|]. intros H. contradiction.
Qed.

Lemma insert_videos_step_logs d :
  (s_videos data0 <> [] -> s_videos d = s_videos data0) ->
  logs (stage carry 1 2) (fun _ => True) (insert_videos_step eng to_dates d).
Proof.
  intros Hd. unfold insert_videos_step.
  eapply logs_bind with (Q1 := stage carry 1 1) (Q2 := stage carry 1 2)
    (P1 := fun df => process_video_data to_dates (Some (s_videos d)) = Return df).
  - apply logs_lift; [apply stage_here|auto].
  - intros df Hdf. destruct (empty df) eqn:E.
    + apply logs_ret; [apply stage_here|exact I].
    + eapply logs_bind with (Q1 := stage carry 1 2) (Q2 := stage carry 2 2)
                            (P1 := fun _ => True).
      * apply logs_gateway. intros t w t' w' H.
        pose proof (insert_video_data_calls eng df t w) as Hc.
        rewrite H, E in Hc. eexists. split; [exact Hc|].
        apply stage_write; [reflexivity|]. simpl. eauto.
      * intros _ _. apply logs_count; [apply stage_here|].
        intros s. eexists. split; reflexivity.
      * auto.
      * intros c1 c2 H1 H2. eapply stage_app; [|exact H1|]; [lia|].
        eapply stage_weaken; [| |exact H2]; lia.
  - intros c1 H1. eapply stage_weaken; [| |exact H1]; lia.
  - intros c1 c2 H1 H2. eapply stage_app; [|exact H1|exact H2]. lia.
Qed.

Lemma fetch_comments_logs cid vids : forall d,
  logs (stage carry 2 2) (fun _ => True) (fetch_comments fuel up cid d vids).
Proof.
  assert (Happ : forall c1 c2, stage carry 2 2 c1 -> stage carry 2 2 c2 ->
                   stage carry 2 2 (c1 ++ c2)).
  { intros c1 c2 H1 H2. eapply stage_app; eauto. }
  induction vids as [|v vids IH]; intros d; cbn [fetch_comments].
  - apply logs_ret; [apply stage_here|exact I].
  - eapply logs_bind with (Q1 := stage carry 2 2) (Q2 := stage carry 2 2)
                          (P1 := fun _ => True);
      [apply logs_lift; [apply stage_here|auto]| |auto|exact Happ].
    intros video_id _.
    eapply logs_bind with (Q1 := stage carry 2 2) (Q2 := stage carry 2 2)
                          (P1 := fun _ => True); [| |auto|exact Happ].
    { apply logs_api_paged. intros w r w' H.
      apply get_comments_of_video_calls in H as (_ & cs & Hc & Hcs).
      exists cs. split; [exact Hc|]. split; [|exact I].
      apply stage_api; [apply writes_of_api|exact Hcs]. }
    intros fetched _.
    eapply logs_bind with (Q1 := stage carry 2 2) (Q2 := stage carry 2 2)
                          (P1 := fun _ => True);
      [apply logs_lift; [apply stage_here|auto]| |auto|exact Happ].
    intros comments_for_video _.
    eapply logs_bind with (Q1 := stage carry 2 2) (Q2 := stage carry 2 2)
                          (P1 := fun _ => True);
      [apply logs_store_entry, stage_here| |auto|exact Happ].
    intros _ _. apply IH.
Qed.

Lemma fill_comments_logs cid d :
  s_comments d = s_comments data0 ->
  logs (stage carry 2 2)
    (fun d' => s_comments data0 <> [] -> s_comments d' = s_comments data0)
    (fill_comments fuel up cid d).
Proof.
  intros Hd. unfold fill_comments.
  destruct (negb (truthy (s_comments d)) && truthy (s_videos d)) eqn:E.
  2:{ apply logs_ret; [apply stage_here|auto]. }
  apply andb_true_iff in E as [E _]. apply negb_true_iff, truthy_false in E.
  assert (Happ : forall c1 c2, stage carry 2 2 c1 -> stage carry 2 2 c2 ->
                   stage carry 2 2 (c1 ++ c2)).
  { intros c1 c2 H1 H2. eapply stage_app; eauto. }
  assert (Hvac : forall d' : staged,
            s_comments data0 <> [] -> s_comments d' = s_comments data0).
  { intros d' H. rewrite <- Hd, E in H. contradiction. }
  eapply logs_bind with (Q1 := stage carry 2 2) (Q2 := stage carry 2 2);
    [apply logs_st_show, stage_here| |auto|exact Happ].
  intros _ _.
  eapply logs_bind with (Q1 := stage carry 2 2) (Q2 := stage carry 2 2)
                        (P1 := fun _ => True);
    [apply fetch_comments_logs| |auto|exact Happ].
  intros d1 _.
  eapply logs_bind with (Q1 := stage carry 2 2) (Q2 := stage carry 2 2)
                        (P1 := fun _ => True);
    [apply logs_store_entry, stage_here| |auto|exact Happ].
  intros _ _. apply logs_ret; [apply stage_here|apply Hvac].
Qed.

Lemma insert_comments_step_logs d :
  (s_comments data0 <> [] -> s_comments d = s_comments data0) ->
  logs (stage carry 2 3) (fun _ => True) (insert_comments_step eng to_dates d).
Proof.
  intros Hd. unfold insert_comments_step.
  eapply logs_bind with (Q1 := stage carry 2 2) (Q2 := stage carry 2 3)
    (P1 := fun df => process_comment_data to_dates (Some (s_comments d)) = Return df).
  - apply logs_lift; [apply stage_here|auto].
  - intros df Hdf. destruct (empty df) eqn:E.
    + apply logs_ret; [apply stage_here|exact I].
    + eapply logs_bind with (Q1 := stage carry 2 3) (Q2 := stage carry 3 3)
                            (P1 := fun _ => True).
      * apply logs_gateway. intros t w t' w' H.
        pose proof (insert_comment_data_calls eng df t w) as Hc.
        rewrite H, E in Hc. eexists. split; [exact Hc|].
        apply stage_write; [reflexivity|]. simpl. eauto.
      * intros _ _. apply logs_count; [apply stage_here|].
        intros s. eexists. split; reflexivity.
      * auto.
      * intros c1 c2 H1 H2. eapply stage_app; [|exact H1|]; [lia|].
        eapply stage_weaken; [| |exact H2]; lia.
  - intros c1 H1. eapply stage_weaken; [| |exact H1]; lia.
  - intros c1 c2 H1 H2. eapply stage_app; [|exact H1|exact H2]. lia.
Qed.

Lemma migrate_channel_logs cid :
  logs (stage carry 0 3) (fun _ => True)
    (migrate_channel fuel eng up to_dates cid data0).
Proof.
  unfold migrate_channel.
  eapply logs_bind with (Q1 := stage carry 0 0) (Q2 := stage carry 0 3)
                        (P1 := fun _ => True).
  { apply logs_lift; [apply stage_here|auto]. }
  2:{ intros c1 H1. eapply stage_weaken; [| |exact H1]; lia. }
  2:{ intros c1 c2 H1 H2. eapply stage_app; [|exact H1|exact H2]. lia. }
  intros _ _.
  eapply logs_bind with (Q1 := stage carry 0 0) (Q2 := stage carry 0 3)
                        (P1 := fun _ => True).
  { apply logs_st_show, stage_here. }
  2:{ intros c1 H1. eapply stage_weaken; [| |exact H1]; lia. }
  2:{ intros c1 c2 H1 H2. eapply stage_app; [|exact H1|exact H2]. lia. }
  intros _ _.
  eapply logs_bind with (Q1 := stage carry 0 1) (Q2 := stage carry 1 3)
                        (P1 := fun _ => True).
  { apply insert_channel_step_logs. }
  2:{ intros c1 H1. eapply stage_weaken; [| |exact H1]; lia. }
  2:{ intros c1 c2 H1 H2. eapply stage_app; [|exact H1|exact H2]. lia. }
  intros _ _.
  eapply logs_bind with (Q1 := stage carry 1 1) (Q2 := stage carry 1 3).
  { apply fill_videos_logs. }
  2:{ intros c1 H1. eapply stage_weaken; [| |exact H1]; lia. }
  2:{ intros c1 c2 H1 H2. eapply stage_app; [|exact H1|exact H2]. lia. }
  intros d1 [Hc1 Hv1].
  eapply logs_bind with (Q1 := stage carry 1 2) (Q2 := stage carry 2 3)
                        (P1 := fun _ => True).
  { now apply insert_videos_step_logs. }
  2:{ intros c1 H1. eapply stage_weaken; [| |exact H1]; lia. }
  2:{ intros c1 c2 H1 H2. eapply stage_app; [|exact H1|exact H2]. lia. }
  intros _ _.
  eapply logs_bind with (Q1 := stage carry 2 2) (Q2 := stage carry 2 3).
  { now apply fill_comments_logs. }
  2:{ intros c1 H1. eapply stage_weaken; [| |exact H1]; lia. }
  2:{ intros c1 c2 H1 H2. eapply stage_app; [|exact H1|exact H2]. lia. }
  intros d2 Hc2. now apply insert_comments_step_logs.
Qed.

End Channel.



(** *** A channel staged with its own videos and their comments *)

Lemma mbind_Return {A B} (m : M A) (f : A -> M B) s a s1 :
  m s = Some (Return a, s1) -> mbind m f s = f a s1.
Proof. intros H. unfold mbind. now rewrite H. Qed.

Lemma in_combine_fst {A B} (x : A) (l : list A) : forall l' : list B,
  length l' = length l -> In x l -> exists y, In (x, y) (combine l l').
Proof.
  induction l as [|a l IH]; intros [|b l'] Hlen Hin; simpl in *;
    try discriminate; [contradiction|].
  destruct Hin as [->|Hin].
  - exists b. now left.
  - destruct (IH l' ltac:(congruence) Hin) as (y & Hy). exists y. now right.
Qed.

Lemma combine_nonempty {A B} (l : list A) (l' : list B) :
  length l' = length l -> l <> [] -> exists p ps, combine l l' = p :: ps.
Proof.
  destruct l as [|a l]; [congruence|]. destruct l' as [|b l']; [discriminate|].
  simpl. eauto.
Qed.

Section Nominal.

Variable fuel : nat.
Variable eng : engine.
Variable up : upstream.
Variable to_dates : list cell -> outcome (list cell).

Hypothesis eng_reachable : reachable eng = true.
Hypothesis eng_accepts_video : forall v, accepts_video eng v = true.
Hypothesis eng_accepts_comment : forall c, accepts_comment eng c = true.

Variable c : channel_item.
Variable items : list video_item.
Variable cs : list (string * thread_item).
Variables dv dc : list cell.

Hypothesis eng_accepts_channel : accepts_channel eng (Channel_of c) = true.
Hypothesis items_nonempty : items <> [].
Hypothesis cs_nonempty : cs <> [].
Hypothesis videos_of_channel :
  forall it, In it items -> vi_channelId it = ci_id c.
Hypothesis comments_of_videos :
  forall p, In p cs -> In (fst p) (map vi_id items).
Hypothesis video_dates :
  to_dates (map (fun it => CStr (vi_publishedAt it)) items) = Return dv.
Hypothesis video_dates_length : length dv = length items.
Hypothesis comment_dates :
  to_dates (map (fun p => CStr (ti_publishedAt (snd p))) cs) = Return dc.
Hypothesis comment_dates_length : length dc = length cs.

Lemma insert_channel_step_nominal s :
  exists s1,
    insert_channel_step eng (consistent_entry c items cs) s
    = Some (Return tt, s1) /\
    collected_channels_data s1 = collected_channels_data s /\
    shown (out s1)
    = shown (out s) ++ [st_success "Inserted/updated channel(s)."] /\
    In (ci_id c) (map ch_channel_id (channels (store s1))) /\
    (forall k, In k (map v_video_id (videos (store s))) ->
               In k (map v_video_id (videos (store s1)))) /\
    (forall k, In k (map c_comment_id (comments (store s))) ->
               In k (map c_comment_id (comments (store s1)))).
Proof.
  unfold insert_channel_step. cbn [consistent_entry s_channel_info].
  change (process_channel_data (Some (channel_info c)))
    with (mkFrame Channel_columns [channel_info c]).
  change (empty (mkFrame Channel_columns [channel_info c])) with false.
  cbv iota. unfold mbind, gateway, count_channels, insert_channel_data.
  change (empty (mkFrame Channel_columns [channel_info c])) with false.
  cbv iota. cbn [rows for_rows].
  rewrite upsert_channel_put by assumption. cbn [bind].
  eexists. split; [reflexivity|]. cbn. repeat split; auto.
  apply In_key_put. now right.
Qed.

Lemma insert_videos_step_nominal s :
  In (ci_id c) (map ch_channel_id (channels (store s))) ->
  exists s1,
    insert_videos_step eng to_dates (consistent_entry c items cs) s
    = Some (Return tt, s1) /\
    collected_channels_data s1 = collected_channels_data s /\
    shown (out s1)
    = shown (out s) ++ [st_success "Inserted/updated video(s)."] /\
    channels (store s1) = channels (store s) /\
    (forall it, In it items ->
       In (vi_id it) (map v_video_id (videos (store s1)))) /\
    (forall k, In k (map c_comment_id (comments (store s))) ->
               In k (map c_comment_id (comments (store s1)))).
Proof.
  intros Hch. unfold insert_videos_step.
  cbn [consistent_entry s_videos].
  rewrite (process_video_data_of_items to_dates items dv) by assumption.
  unfold mbind at 1. cbn [lift].
  destruct (combine_nonempty items dv video_dates_length items_nonempty)
    as (p & ps & Ecomb).
  set (df := mkFrame Video_columns
               (map (fun p => video_row (fst p) (snd p)) (combine items dv))).
  assert (Hempty : empty df = false).
  { unfold df, empty. cbn [columns rows Video_columns]. now rewrite Ecomb. }
  rewrite Hempty.
  destruct (for_rows_video_rows eng eng_reachable eng_accepts_video
              (combine items dv) (store s))
    as (t' & Hrows & Hc & Hm & Hin & _).
  { intros [it d] Hq. apply in_combine_l in Hq. cbn [fst].
    now rewrite (videos_of_channel _ Hq). }
  unfold mbind, gateway, count_videos, insert_video_data.
  rewrite Hempty. fold df. cbn [rows].
  change (rows df) with (map (fun p => video_row (fst p) (snd p)) (combine items dv)).
  rewrite Hrows.
  eexists. split; [reflexivity|]. cbn. repeat split; auto.
  - intros it Hit.
    destruct (in_combine_fst it items dv video_dates_length Hit) as (d & Hd).
    exact (Hin (it, d) Hd).
  - now rewrite Hm.
Qed.

Lemma insert_comments_step_nominal s :
  (forall it, In it items ->
     In (vi_id it) (map v_video_id (videos (store s)))) ->
  exists s1,
    insert_comments_step eng to_dates (consistent_entry c items cs) s
    = Some (Return tt, s1) /\
    collected_channels_data s1 = collected_channels_data s /\
    shown (out s1)
    = shown (out s) ++ [st_success "Inserted new comment(s)."] /\
    channels (store s1) = channels (store s) /\
    videos (store s1) = videos (store s) /\
    (forall p, In p cs ->
       In (ti_id (snd p)) (map c_comment_id (comments (store s1)))).
Proof.
  intros Hvid. unfold insert_comments_step.
  cbn [consistent_entry s_comments].
  rewrite (process_comment_data_of_items to_dates cs dc) by assumption.
  unfold mbind at 1. cbn [lift].
  destruct (combine_nonempty cs dc comment_dates_length cs_nonempty)
    as (p & ps & Ecomb).
  set (df := mkFrame Comment_columns
               (map (fun q => comment_row (CStr (fst (fst q))) (snd (fst q))
                                (snd q)) (combine cs dc))).
  assert (Hempty : empty df = false).
  { unfold df, empty. cbn [columns rows Comment_columns]. now rewrite Ecomb. }
  rewrite Hempty.
  destruct (for_rows_comment_rows eng eng_reachable eng_accepts_comment
              (combine cs dc) (store s))
    as (t' & Hrows & Hc & Hv & Hin & _).
  { intros [q d] Hq. apply in_combine_l in Hq. cbn [fst].
    apply comments_of_videos in Hq. apply in_map_iff in Hq as (it & <- & Hit).
    now apply Hvid. }
  unfold mbind, gateway, count_comments, insert_comment_data.
  rewrite Hempty. fold df. cbn [rows].
  change (rows df)
    with (map (fun q => comment_row (CStr (fst (fst q))) (snd (fst q)) (snd q))
            (combine cs dc)).
  rewrite Hrows.
  eexists. split; [reflexivity|]. cbn. repeat split; auto.
  intros q Hq.
  destruct (in_combine_fst q cs dc comment_dates_length Hq) as (d & Hd).
  exact (Hin (q, d) Hd).
Qed.

Lemma fill_videos_staged cid s :
  fill_videos fuel up cid (consistent_entry c items cs) s
  = Some (Return (consistent_entry c items cs), s).
Proof.
  unfold fill_videos. cbn [consistent_entry s_videos s_channel_info].
  destruct items; [contradiction|]. reflexivity.
Qed.

Lemma fill_comments_staged cid s :
  fill_comments fuel up cid (consistent_entry c items cs) s
  = Some (Return (consistent_entry c items cs), s).
Proof.
  unfold fill_comments. cbn [consistent_entry s_videos s_comments].
  destruct cs; [contradiction|]. reflexivity.
Qed.

(** Each of the three writes of a channel staged with its own videos and
    their comments commits: when a row is written, the row it refers to
    is stored. *)
Lemma migrate_channel_nominal cid s :
  exists s',
    migrate_channel fuel eng up to_dates cid (consistent_entry c items cs) s
    = Some (Return tt, s') /\
    collected_channels_data s' = collected_channels_data s /\
    shown (out s')
    = shown (out s) ++
      [ st_subheader "Migrating data for channel";
        st_success "Inserted/updated channel(s).";
        st_success "Inserted/updated video(s).";
        st_success "Inserted new comment(s)." ] /\
    In (ci_id c) (map ch_channel_id (channels (store s'))) /\
    (forall it, In it items ->
       In (vi_id it) (map v_video_id (videos (store s')))) /\
    (forall p, In p cs ->
       In (ti_id (snd p)) (map c_comment_id (comments (store s')))).
Proof.
  unfold migrate_channel.
  rewrite (mbind_Return _ _ s (CStr (ci_title c)) s) by reflexivity.
  set (s0 := with_out (show (st_subheader "Migrating data for channel") (out s)) s).
  rewrite (mbind_Return _ _ s tt s0) by reflexivity.
  destruct (insert_channel_step_nominal s0) as (s1 & E1 & Hst1 & Hsh1 & Hch1 & _).
  rewrite (mbind_Return _ _ _ _ _ E1).
  rewrite (mbind_Return _ _ _ _ _ (fill_videos_staged cid s1)).
  destruct (insert_videos_step_nominal s1 Hch1)
    as (s2 & E2 & Hst2 & Hsh2 & Hch2 & Hv2 & _).
  rewrite (mbind_Return _ _ _ _ _ E2).
  rewrite (mbind_Return _ _ _ _ _ (fill_comments_staged cid s2)).
  destruct (insert_comments_step_nominal s2 Hv2)
    as (s3 & E3 & Hst3 & Hsh3 & Hch3 & Hv3 & Hc3).
  exists s3. split; [exact E3|]. repeat split.
  - now rewrite Hst3, Hst2, Hst1.
  - rewrite Hsh3, Hsh2, Hsh1. unfold s0. cbn. now rewrite <- !app_assoc.
  - now rewrite Hch3, Hch2.
  - intros it Hit. rewrite Hv3. now apply Hv2.
  - exact Hc3.
Qed.

End Nominal.


(** *** Keys over a run *)

Lemma stores_more_refl t : stores_more t t.
Proof. repeat split; auto. Qed.

Lemma stores_more_trans t1 t2 t3 :
  stores_more t1 t2 -> stores_more t2 t3 -> stores_more t1 t3.
Proof. intros (A1 & B1 & C1) (A2 & B2 & C2). repeat split; auto. Qed.

Lemma insert_channel_data_keys eng df t w :
  stores_more t (fst (insert_channel_data eng df (t, w))).
Proof.
  unfold insert_channel_data. destruct (empty df); [apply stores_more_refl|].
  destruct (for_rows _ _ _) as [t'|e] eqn:E; [|apply stores_more_refl].
  cbn [fst].
  apply (for_rows_keeps (stores_more t) (upsert_channel eng)) with (rs := rows df) (t := t);
    [|exact E|apply stores_more_refl].
  intros t1 row t2 H H1. apply (stores_more_trans _ t1); [exact H1|].
  apply upsert_channel_keys in H as (Hc & Hv & Hm).
  unfold stores_more. rewrite Hv, Hm. auto.
Qed.

Lemma insert_video_data_keys eng df t w :
  stores_more t (fst (insert_video_data eng df (t, w))).
Proof.
  unfold insert_video_data. destruct (empty df); [apply stores_more_refl|].
  destruct (for_rows _ _ _) as [t'|e] eqn:E; [|apply stores_more_refl].
  cbn [fst].
  apply (for_rows_keeps (stores_more t) (upsert_video eng)) with (rs := rows df) (t := t);
    [|exact E|apply stores_more_refl].
  intros t1 row t2 H H1. apply (stores_more_trans _ t1); [exact H1|].
  apply upsert_video_keys in H as (Hc & Hv & Hm).
  unfold stores_more. rewrite Hc, Hm. auto.
Qed.

Lemma insert_comment_data_keys eng df t w :
  stores_more t (fst (insert_comment_data eng df (t, w))).
Proof.
  unfold insert_comment_data. destruct (empty df); [apply stores_more_refl|].
  destruct (for_rows _ _ _) as [t'|e] eqn:E; [|apply stores_more_refl].
  cbn [fst].
  apply (for_rows_keeps (stores_more t) (insert_comment eng)) with (rs := rows df) (t := t);
    [|exact E|apply stores_more_refl].
  intros t1 row t2 H H1. apply (stores_more_trans _ t1); [exact H1|].
  apply insert_comment_appends in H as (Hc & Hv & Hm).
  unfold stores_more. rewrite Hc, Hv. repeat split; auto.
  destruct Hm as [->|(c & -> & _)]; [auto|].
  intros k Hk. rewrite map_app. apply in_app_iff. now left.
Qed.

(** *** The log and the store over a whole run *)

Lemma keeps_bind {A B} (I : tables -> Prop) (m : M A) (f : A -> M B) :
  keeps I m -> (forall a, keeps I (f a)) -> keeps I (mbind m f).
Proof.
  intros Hm Hf s r s' H Hs. unfold mbind in H.
  destruct (m s) as [[[a|e] s1]|] eqn:E; [| |discriminate].
  - eapply Hf; [exact H|]. eapply Hm; eauto.
  - injection H as <- <-. eapply Hm; eauto.
Qed.

Lemma keeps_quiet {A} (I : tables -> Prop) (m : M A) :
  (forall s r s', m s = Some (r, s') -> store s' = store s) -> keeps I m.
Proof. intros H s r s' E Hs. now rewrite (H _ _ _ E). Qed.

Lemma keeps_ret {A} I (a : A) : keeps I (ret a).
Proof. apply keeps_quiet. intros s r s' E. now injection E as <- <-. Qed.

Lemma keeps_lift {A} I (o : outcome A) : keeps I (lift o).
Proof. apply keeps_quiet. intros s r s' E. now injection E as <- <-. Qed.

Lemma keeps_st_show I d : keeps I (st_show d).
Proof. apply keeps_quiet. intros s r s' E. now injection E as <- <-. Qed.

Lemma keeps_store_entry I cid data : keeps I (store_entry cid data).
Proof. apply keeps_quiet. intros s r s' E. now injection E as <- <-. Qed.

Lemma keeps_api {A} I (f : world -> A * world) : keeps I (api f).
Proof.
  apply keeps_quiet. intros s r s' E. unfold api in E.
  destruct (f (out s)). now injection E as <- <-.
Qed.

Lemma keeps_api_paged {A} I (f : world -> option (A * world)) :
  keeps I (api_paged f).
Proof.
  apply keeps_quiet. intros s r s' E. unfold api_paged in E.
  destruct (f (out s)) as [[a w]|]; [|discriminate]. now injection E as <- <-.
Qed.

Lemma keeps_gateway (I : tables -> Prop) f :
  (forall t w, I t -> I (fst (f (t, w)))) -> keeps I (gateway f).
Proof.
  intros Hf s r s' E Hs. unfold gateway in E.
  specialize (Hf (store s) (out s) Hs).
  destruct (f (store s, out s)) as [t' w']. now injection E as <- <-.
Qed.

Create HintDb keeps.

#[local] Hint Resolve keeps_ret keeps_lift keeps_st_show keeps_store_entry
  keeps_api keeps_api_paged : keeps.

Section Run.

Variable fuel : nat.
Variable eng : engine.
Variable up : upstream.
Variable to_dates : list cell -> outcome (list cell).

Lemma fetch_comments_keeps I cid vids : forall d,
  keeps I (fetch_comments fuel up cid d vids).
Proof.
  induction vids as [|v vids IH]; intros d; cbn [fetch_comments].
  - apply keeps_ret.
  - repeat (apply keeps_bind; [auto with keeps|intros]). apply IH.
Qed.

Section Invariant.

Variable I : tables -> Prop.
Hypothesis I_channels : forall df t w,
  I t -> I (fst (insert_channel_data eng df (t, w))).
Hypothesis I_videos : forall df t w,
  I t -> I (fst (insert_video_data eng df (t, w))).
Hypothesis I_comments : forall df t w,
  I t -> I (fst (insert_comment_data eng df (t, w))).

Lemma migrate_channel_keeps cid data :
  keeps I (migrate_channel fuel eng up to_dates cid data).
Proof.
  assert (Hcount : forall m : M unit,
            (forall s, exists s', m s = Some (Return tt, s') /\
                                  store s' = store s) ->
            keeps I m).
  { intros m Hm. apply keeps_quiet. intros s r s' E.
    destruct (Hm s) as (s1 & E1 & Hs). rewrite E1 in E.
    now injection E as <- <-. }
  unfold migrate_channel.
  apply keeps_bind; [auto with keeps|intros _].
  apply keeps_bind; [auto with keeps|intros _].
  apply keeps_bind.
  { unfold insert_channel_step. destruct (empty _); [apply keeps_ret|].
    apply keeps_bind.
    - apply keeps_gateway. intros. now apply I_channels.
    - intros _. apply Hcount. intros s. eexists. split; reflexivity. }
  intros _. apply keeps_bind.
  { unfold fill_videos. destruct (_ && _); [|apply keeps_ret].
    repeat (apply keeps_bind; [auto with keeps|intros]). apply keeps_ret. }
  intros d1. apply keeps_bind.
  { unfold insert_videos_step. apply keeps_bind; [auto with keeps|intros df].
    destruct (empty df); [apply keeps_ret|]. apply keeps_bind.
    - apply keeps_gateway. intros. now apply I_videos.
    - intros _. apply Hcount. intros s. eexists. split; reflexivity. }
  intros _. apply keeps_bind.
  { unfold fill_comments. destruct (_ && _); [|apply keeps_ret].
    apply keeps_bind; [auto with keeps|intros _].
    apply keeps_bind; [apply fetch_comments_keeps|intros d2].
    apply keeps_bind; [auto with keeps|intros _]. apply keeps_ret. }
  intros d2.
  unfold insert_comments_step. apply keeps_bind; [auto with keeps|intros df].
  destruct (empty df); [apply keeps_ret|]. apply keeps_bind.
  - apply keeps_gateway. intros. now apply I_comments.
  - intros _. apply Hcount. intros s. eexists. split; reflexivity.
Qed.

Lemma for_channels_keeps items :
  keeps I (for_channels fuel eng up to_dates items).
Proof.
  induction items as [|[cid data] items IH]; cbn [for_channels].
  - apply keeps_ret.
  - apply keeps_bind; [apply migrate_channel_keeps|intros _; exact IH].
Qed.

End Invariant.

Lemma for_channels_integrity items :
  keeps referential_integrity (for_channels fuel eng up to_dates items).
Proof.
  apply for_channels_keeps; intros.
  - now apply insert_channel_data_integrity.
  - now apply insert_video_data_integrity.
  - now apply insert_comment_data_integrity.
Qed.

Lemma for_channels_stores_more t0 items :
  keeps (stores_more t0) (for_channels fuel eng up to_dates items).
Proof.
  apply for_channels_keeps; intros df t w H;
    (eapply stores_more_trans; [exact H|]).
  - apply insert_channel_data_keys.
  - apply insert_video_data_keys.
  - apply insert_comment_data_keys.
Qed.

Lemma for_channels_logs items :
  logs (segmented (fun data cs => stage (writes_of to_dates data) 0 3 cs) items)
    (fun _ => True) (for_channels fuel eng up to_dates items).
Proof.
  induction items as [|[cid data] items IH]; cbn [for_channels].
  - apply logs_ret; [constructor|exact I].
  - eapply logs_bind with (P1 := fun _ => True).
    + apply migrate_channel_logs.
    + intros _ _. exact IH.
    + intros c1 H1. rewrite <- (app_nil_r c1).
      constructor; [exact H1|constructor].
    + intros c1 c2 H1 H2. now constructor.
Qed.

(** The steps after the loop make no call and leave the store alone. *)
Lemma migrate_unfold s r s' :
  migrate fuel eng up to_dates s = Some (r, s') ->
  exists r1 s1,
    for_channels fuel eng up to_dates (collected_channels_data s)
      (mkSession (collected_channels_data s) (store s) (out s) 0 0 0)
    = Some (r1, s1) /\
    calls (out s') = calls (out s1) /\ store s' = store s1 /\
    (forall e, r1 = Raise e ->
       r = Raise e /\ collected_channels_data s' = collected_channels_data s1) /\
    (r1 = Return tt -> r = Return tt /\ collected_channels_data s' = []).
Proof.
  unfold migrate. intros H. unfold mbind at 1 in H.
  destruct (for_channels fuel eng up to_dates (collected_channels_data s) _)
    as [[[[]|e] s1]|] eqn:E; [| |discriminate].
  - exists (Return tt), s1. split; [reflexivity|].
    cbv [mbind st_show with_out with_staging] in H.
    injection H as <- <-. cbn. repeat split; auto; discriminate.
  - injection H as <- <-. exists (Raise e), s1. split; [reflexivity|].
    repeat split; auto; discriminate.
Qed.

End Run.



(** *** A run over channels staged with their own videos and comments *)

Lemma stored_more h t t' : stored h t -> stores_more t t' -> stored h t'.
Proof.
  intros (A & B & C) (A' & B' & C'). repeat split; auto.
Qed.

Section NominalRun.

Variable fuel : nat.
Variable eng : engine.
Variable up : upstream.
Variable to_dates : list cell -> outcome (list cell).

Hypothesis eng_reachable : reachable eng = true.
Hypothesis eng_accepts_channel : forall c, accepts_channel eng c = true.
Hypothesis eng_accepts_video : forall v, accepts_video eng v = true.
Hypothesis eng_accepts_comment : forall c, accepts_comment eng c = true.
Hypothesis to_dates_total : forall col,
  exists out, to_dates col = Return out /\ length out = length col.

Lemma for_channels_nominal hs :
  Forall consistent hs ->
  forall s,
  exists s',
    for_channels fuel eng up to_dates (map staged_of hs) s
    = Some (Return tt, s') /\
    collected_channels_data s' = collected_channels_data s /\
    (exists ds, shown (out s') = shown (out s) ++ ds /\
                Forall (fun d => ~ is_error d) ds) /\
    Forall (fun h => stored h (store s')) hs.
Proof.
  induction 1 as [|h hs Hh Hhs IH]; intros s; cbn [map for_channels].
  - exists s. repeat split; auto. exists []. now rewrite app_nil_r.
  - destruct Hh as (Hv & Hc & Hown & Hon).
    destruct (to_dates_total
                (map (fun it => CStr (vi_publishedAt it)) (h_videos h)))
      as (dv & Hdv & Hlv).
    destruct (to_dates_total
                (map (fun p => CStr (ti_publishedAt (snd p))) (h_comments h)))
      as (dc & Hdc & Hlc).
    rewrite length_map in Hlv, Hlc.
    destruct (migrate_channel_nominal fuel eng up to_dates eng_reachable
                eng_accepts_video eng_accepts_comment (h_channel h)
                (h_videos h) (h_comments h) dv dc (eng_accepts_channel _)
                Hv Hc Hown Hon Hdv Hlv Hdc Hlc (ci_id (h_channel h)) s)
      as (s1 & E1 & Hst1 & Hsh1 & Hch1 & Hv1 & Hc1).
    unfold staged_of at 1. cbn [fst snd].
    rewrite (mbind_Return _ _ _ _ _ E1).
    destruct (IH s1) as (s' & E & Hst & (ds & Hsh & Hds) & Hall).
    exists s'. split; [exact E|]. split; [congruence|]. split.
    + eexists. split.
      * rewrite Hsh, Hsh1, <- app_assoc. reflexivity.
      * apply Forall_app. split; [|exact Hds].
        repeat constructor; simpl; tauto.
    + constructor; [|exact Hall].
      apply (stored_more h (store s1)); [repeat split; auto|].
      exact (for_channels_stores_more fuel eng up to_dates (store s1)
               _ _ _ _ E (stores_more_refl _)).
Qed.

Lemma migrate_nominal hs s :
  Forall consistent hs ->
  collected_channels_data s = map staged_of hs ->
  exists s',
    migrate fuel eng up to_dates s = Some (Return tt, s') /\
    collected_channels_data s' = [] /\
    (exists ds, shown (out s') = shown (out s) ++ ds /\
                Forall (fun d => ~ is_error d) ds) /\
    Forall (fun h => stored h (store s')) hs.
Proof.
  intros Hhs Hst. unfold migrate. rewrite Hst.
  destruct (for_channels_nominal hs Hhs
              (mkSession (map staged_of hs) (store s) (out s) 0 0 0))
    as (s1 & E & _ & (ds & Hsh & Hds) & Hall).
  rewrite (mbind_Return _ _ _ _ _ E).
  eexists. split; [reflexivity|]. cbn. split; [reflexivity|]. split.
  - eexists. split.
    + rewrite Hsh. cbn. rewrite <- !app_assoc. reflexivity.
    + apply Forall_app. split; [exact Hds|].
      repeat constructor; simpl; tauto.
  - exact Hall.
Qed.

End NominalRun.



(** C1 fails on the code.  With one channel staged, with its video and
    comment, and a warehouse that cannot be reached, each of the three
    gateway calls rolls back and shows its error, the run goes on to
    "Migration complete!", and the staging collection is cleared although
    nothing was stored. *)
Lemma migrate_clears_staging_after_failed_load :
  exists s',
    migrate 5 Examples.unreachable Examples.small_upstream iso_dates
      (Examples.fresh_session Examples.one_channel_staged)
    = Some (Return tt, s') /\
    collected_channels_data s' = [] /\
    store s' = Examples.empty_store /\
    shown (out s') =
      [ st_subheader "Migrating data for channel";
        st_error "Error inserting channel data";
        st_error "Error inserting video data";
        st_error "Error inserting comment data";
        st_success "Migration complete!";
        st_info "Total Channels migrated";
        st_info "Total Videos migrated";
        st_info "Total Comments migrated";
        st_info "Temporary collected data cleared from app's memory." ].
Proof. eexists. split; [vm_compute; reflexivity|]. repeat split. Qed.

End AppFacts.
(** * Further properties of the code *)

(** ** The range of the duration normaliser *)

Module NormaliserFacts.
Import Duration DurationFacts.

Lemma digit_value_nonneg c : is_digit c = true -> 0 <= digit_value c.
Proof.
  unfold is_digit, digit_value. cbv zeta. intros H.
  apply andb_true_iff in H as [H _]. apply Nat.leb_le in H. lia.
Qed.

Lemma int_acc_nonneg s : forall acc,
  all_digits s = true -> 0 <= acc -> 0 <= int_acc acc s.
Proof.
  induction s as [|c s IH]; intros acc Hs Hacc;
    cbn [int_acc all_digits] in *; [exact Hacc|].
  apply andb_true_iff in Hs as [Hc Hs]. apply IH; [exact Hs|].
  pose proof (digit_value_nonneg c Hc). lia.
Qed.

Lemma field_value_nonneg o : wf_field o = true -> 0 <= field_value o.
Proof.
  destruct o as [ds|]; simpl; [|lia]. intros H.
  apply number_nonempty in H as (c & ds' & -> & _ & H).
  apply int_acc_nonneg; [exact H|lia].
Qed.

Lemma total_seconds_nonneg f : wf_fields f = true -> 0 <= total_seconds f.
Proof.
  intros H. apply wf_fields_inv in H as (Hd & Hh & Hm & Hs).
  apply field_value_nonneg in Hd, Hh, Hm, Hs. unfold total_seconds. lia.
Qed.

Lemma contains_append needle a b :
  Api.contains needle b = true -> Api.contains needle (a ++ b) = true.
Proof.
  intros H. induction a as [|c a IH]; simpl; [exact H|].
  rewrite IH. apply orb_true_r.
Qed.

Lemma contains_prefix needle hay :
  prefix needle hay = true -> Api.contains needle hay = true.
Proof. intros H. destruct hay; cbn [Api.contains]; rewrite H; reflexivity. Qed.

Lemma contains_field_then needle o c tail :
  Api.contains needle tail = true ->
  Api.contains needle (field_then o c tail) = true.
Proof.
  intros H. destruct o as [ds|]; simpl; [|exact H].
  apply contains_append. simpl. rewrite H. apply orb_true_r.
Qed.

(** X1.  [parse_duration] never returns a negative number, and it
    returns 0 for everything but a string that starts with "P" and has a
    "T" further on: a duration given in days only ("P1D"), in weeks
    ("P2W") or in lower case ("pt5m") counts as 0 seconds. *)
Theorem parse_duration_range (v : cell) :
  0 <= parse_duration v /\
  (parse_duration v <> 0 ->
   exists s, v = CStr (String "P" s) /\ Api.contains "T" s = true).
Proof.
  split.
  - destruct v as [| |z|s|y m d]; try (simpl; lia).
    rewrite parse_duration_scan.
    destruct (scan s) as [[f rest]|] eqn:E; [|lia].
    apply scan_sound in E as [Hwf _]. now apply total_seconds_nonneg.
  - destruct v as [| |z|s|y m d]; try (simpl; congruence).
    rewrite parse_duration_scan.
    destruct (scan s) as [[f rest]|] eqn:E; [|congruence].
    intros _. apply scan_sound in E as [Hwf ->].
    rewrite render_app. eexists. split; [reflexivity|].
    apply contains_field_then, contains_prefix, prefix_correct.
    destruct (field_then _ _ _); reflexivity.
Qed.

Lemma parse_duration_range_witness :
  parse_duration (CStr "P1D") = 0 /\ parse_duration (CStr "P2W") = 0 /\
  parse_duration (CStr "pt5m") = 0 /\ 0 <= parse_duration (CStr "PT5M").
Proof.
  assert (Z : forall v,
            (forall s, v = CStr (String "P" s) -> Api.contains "T" s = false) ->
            parse_duration v = 0).
  { intros v H. destruct (Z.eq_dec (parse_duration v) 0) as [E|E]; [exact E|].
    destruct (proj2 (parse_duration_range v) E) as (s & Hv & Hc).
    rewrite (H s Hv) in Hc. discriminate. }
  split; [apply Z; intros s [= <-]; reflexivity|].
  split; [apply Z; intros s [= <-]; reflexivity|].
  split; [apply Z; intros s [=]|].
  apply (proj1 (parse_duration_range (CStr "PT5M"))).
Defined.

End NormaliserFacts.

(** ** The exceptions of the record transformers *)

Module TransformerErrors.
Import Frame FrameFacts Transformer TransformerFacts.
Local Open Scope list_scope.

Lemma lookup_In c r : lookup c r <> None <-> In c (map fst r).
Proof.
  induction r as [|[k v] r IH]; simpl; [tauto|].
  destruct (String.eqb_spec c k) as [->|Hn].
  - split; [auto|discriminate].
  - rewrite IH. split; [auto|]. intros [H|H]; [congruence|exact H].
Qed.

Lemma add_keys_In c r : forall cols,
  In c (add_keys cols r) <-> In c cols \/ In c (map fst r).
Proof.
  induction r as [|[k v] r IH]; intros cols; simpl; [tauto|].
  rewrite IH. destruct (mem k cols) eqn:E.
  - apply mem_In in E. split; [tauto|].
    intros [H|[H|H]]; subst; auto.
  - rewrite in_app_iff. simpl. tauto.
Qed.

Lemma fold_add_keys_In c l : forall cols,
  In c (fold_left add_keys l cols) <->
  In c cols \/ exists r, In r l /\ In c (map fst r).
Proof.
  induction l as [|r l IH]; intros cols; simpl.
  - split; [auto|]. intros [H|(r & [] & _)]. exact H.
  - rewrite IH, add_keys_In. split.
    + intros [[H|H]|(r' & H1 & H2)]; eauto.
    + intros [H|(r' & [->|H1] & H2)]; eauto.
Qed.

(** A label is a column of [pd.DataFrame(l)] exactly when some record of
    [l] has it as a key. *)
Lemma columns_of_In c l :
  In c (columns_of l) <-> exists r, In r l /\ lookup c r <> None.
Proof.
  unfold columns_of. rewrite fold_add_keys_In. split.
  - intros [[]|(r & H1 & H2)]. exists r. now rewrite lookup_In.
  - intros (r & H1 & H2). right. exists r. now rewrite <- lookup_In.
Qed.

Lemma columns_of_not_In c l :
  Forall (fun r => lookup c r = None) l -> ~ In c (columns_of l).
Proof.
  intros H Hin. apply columns_of_In in Hin as (r & Hr & Hl).
  rewrite Forall_forall in H. now apply Hl, H.
Qed.

Lemma conversion_raises_video to_dates l e :
  In "published_date" (columns_of l) ->
  to_dates (map (fun r => cell_at r "published_date") l) = Raise e ->
  process_video_data to_dates (Some l) = Raise e.
Proof.
  intros Hin He. destruct l as [|r0 l0]; [destruct Hin|].
  unfold process_video_data.
  rewrite (getcol_pd_DataFrame _ _ Hin). cbn [bind]. now rewrite He.
Qed.

Lemma conversion_raises_comment to_dates l e :
  In "published_date" (columns_of l) ->
  to_dates (map (fun r => cell_at r "published_date") l) = Raise e ->
  process_comment_data to_dates (Some l) = Raise e.
Proof.
  intros Hin He. destruct l as [|r0 l0]; [destruct Hin|].
  unfold process_comment_data.
  rewrite (getcol_pd_DataFrame _ _ Hin). cbn [bind]. now rewrite He.
Qed.

(** X2.  The exceptions of [process_video_data] and
    [process_comment_data] on a non-empty list of records.  When no
    record has the key "published_date", both raise
    [KeyError('published_date')].  When some record has it and the date
    conversion raises, both raise that exception.  When the dates
    convert and no record has the key "duration", [process_video_data]
    raises [KeyError('duration')]. *)
Theorem transformer_exceptions
  (to_dates : list cell -> outcome (list cell)) (l : list record) :
  l <> [] ->
  let published := map (fun r => cell_at r "published_date") l in
  (Forall (fun r => lookup "published_date" r = None) l ->
   process_video_data to_dates (Some l) = Raise (KeyError "published_date") /\
   process_comment_data to_dates (Some l) = Raise (KeyError "published_date")) /\
  (forall r e,
     In r l -> lookup "published_date" r <> None ->
     to_dates published = Raise e ->
     process_video_data to_dates (Some l) = Raise e /\
     process_comment_data to_dates (Some l) = Raise e) /\
  (forall r dates,
     In r l -> lookup "published_date" r <> None ->
     to_dates published = Return dates ->
     Forall (fun r => lookup "duration" r = None) l ->
     process_video_data to_dates (Some l) = Raise (KeyError "duration")).
Proof.
  intros Hne published.
  destruct (process_comment_data_raises to_dates l Hne) as (C1 & C2).
  destruct l as [|r0 l0]; [contradiction|]. set (l := r0 :: l0) in *.
  assert (V : forall o : outcome DataFrame,
            process_video_data to_dates (Some l) = o ->
            process_video_data to_dates (Some (r0 :: l0)) = o) by auto.
  split; [|split].
  - intros H. apply (columns_of_not_In "published_date") in H.
    split; [|auto]. apply V. unfold process_video_data, l, getcol.
    apply mem_false in H. cbn [pd_DataFrame columns]. fold l. now rewrite H.
  - intros r e Hr Hp He.
    assert (Hin : In "published_date" (columns_of l))
      by (apply columns_of_In; eauto).
    split; [|auto]. apply V. unfold process_video_data, l. fold l.
    rewrite (getcol_pd_DataFrame l _ Hin). cbn [bind].
    fold published. now rewrite He.
  - intros r dates Hr Hp Hd H.
    assert (Hin : In "published_date" (columns_of l))
      by (apply columns_of_In; eauto).
    apply (columns_of_not_In "duration") in H.
    apply V. unfold process_video_data, l. fold l.
    rewrite (getcol_pd_DataFrame l _ Hin). cbn [bind].
    fold published. rewrite Hd. cbn [bind].
    unfold getcol at 1, setcol. cbn [pd_DataFrame columns].
    apply mem_In in Hin. rewrite Hin. cbn [columns].
    apply mem_false in H. now rewrite H.
Qed.

Lemma transformer_exceptions_witness :
  process_video_data iso_dates (Some [Scenarios.untimed_video])
  = Raise (KeyError "duration") /\
  process_comment_data iso_dates (Some [Scenarios.badly_dated_comment])
  = Raise (ValueError "time data does not match format").
Proof.
  split.
  - refine (proj2 (proj2 (transformer_exceptions iso_dates
                            [Scenarios.untimed_video] _))
              Scenarios.untimed_video [CDate 2023 1 1] _ _ _ _).
    + discriminate.
    + left; reflexivity.
    + discriminate.
    + reflexivity.
    + repeat constructor.
  - refine (proj2 (proj1 (proj2 (transformer_exceptions iso_dates
                            [Scenarios.badly_dated_comment] _))
              Scenarios.badly_dated_comment _ _ _ _)).
    + discriminate.
    + left; reflexivity.
    + discriminate.
    + reflexivity.
Defined.

End TransformerErrors.

(** ** The API client: pagination and the shape of its records *)

Module ClientFacts.
Import Frame FrameFacts Transformer Api ApiFacts Warehouse WarehouseFacts
  RowFacts Paging.
Local Open Scope list_scope.
Local Open Scope nat_scope.

(** *** [get_channel_details] *)

(** X3.  A channel that [get_channel_details] returns is the first item
    the upstream sent, fetched with one call and without a diagnostic;
    a missing subscriber or video count is 0.  Passed through
    [process_channel_data] to [insert_channel_data] on a reachable store
    that accepts the row, it is stored under the id the upstream gave:
    the row of that id is overwritten where it stands, or the row is
    added. *)
Theorem fetched_channel_is_stored (up : upstream) (channel_id : cell)
  (w w1 : world) (info : record) :
  get_channel_details up channel_id w = (Some info, w1) ->
  exists c rest,
    channels_list up (length (calls w)) channel_id = Return (c :: rest) /\
    info = channel_info c /\
    w1 = log_call (ChannelsList channel_id) w /\
    forall eng t,
      reachable eng = true ->
      accepts_channel eng (Channel_of c) = true ->
      fst (insert_channel_data eng (process_channel_data (Some info)) (t, w1))
      = mkTables (put ch_channel_id (channels t) (Channel_of c))
          (videos t) (comments t).
Proof.
  unfold get_channel_details. intros H.
  destruct (channels_list up (length (calls w)) channel_id)
    as [[|c rest]|e] eqn:E.
  - discriminate.
  - injection H as <- <-. exists c, rest. repeat split.
    intros eng t Hr Ha.
    exact (insert_channel_data_put eng [c] t _ Hr
             (Forall_cons _ Ha (Forall_nil _))).
  - destruct e; discriminate.
Qed.

Lemma fetched_channel_is_stored_witness :
  fst (insert_channel_data Examples.accepting
         (process_channel_data (Some (channel_info Examples.UC2)))
         (Examples.loaded_store,
          log_call (ChannelsList (CStr "UC2")) Examples.nothing_yet))
  = mkTables [Channel_of Examples.UC1; Channel_of Examples.UC2]
      (videos Examples.loaded_store) (comments Examples.loaded_store).
Proof.
  destruct (fetched_channel_is_stored Scenarios.two_channels (CStr "UC2")
              Examples.nothing_yet _ _ eq_refl) as (c & rest & E & Hi & _ & H).
  injection E as <- _.
  exact (H Examples.accepting Examples.loaded_store eq_refl eq_refl).
Defined.

(** *** [get_playlist_video_ids] *)

Lemma playlist_loop_answers up pid pages : forall fuel tok ids w last,
  answers up pid (length (calls w)) tok pages last ->
  length pages < fuel ->
  let w' := mkWorld (calls w ++ requests pid tok pages) (shown w) in
  (forall items next,
     last = Return (items, next) -> no_token next = true ->
     playlist_loop fuel up pid tok ids w
     = Some (Return (ids ++ concat (map fst pages) ++ items), w')) /\
  (forall e, last = Raise e ->
     playlist_loop fuel up pid tok ids w = Some (Raise e, w')).
Proof.
  induction pages as [|p pages IH]; intros fuel tok ids w last Ha Hf w';
    (destruct fuel as [|fuel]; [inversion Hf|]); cbn [playlist_loop].
  - simpl in Ha. rewrite Ha. split.
    + intros items next -> Hn. rewrite Hn. simpl. reflexivity.
    + intros e ->. reflexivity.
  - destruct Ha as (Hp & Hn & Ha). rewrite Hp. destruct p as [items0 next0].
    simpl in Hn. rewrite Hn.
    specialize (IH fuel next0 (ids ++ items0)
                  (log_call (PlaylistItemsList pid tok) w) last).
    assert (L : length (calls (log_call (PlaylistItemsList pid tok) w))
                = S (length (calls w))).
    { simpl. rewrite length_app. simpl. lia. }
    rewrite L in IH. specialize (IH Ha ltac:(simpl in Hf; lia)).
    cbn zeta in IH. destruct IH as [IH1 IH2].
    assert (W : mkWorld
                  (calls (log_call (PlaylistItemsList pid tok) w)
                   ++ requests pid next0 pages)
                  (shown (log_call (PlaylistItemsList pid tok) w)) = w').
    { unfold w'. simpl. now rewrite <- app_assoc. }
    rewrite W in *. split.
    + intros items next Hl Ht. rewrite (IH1 items next Hl Ht).
      simpl. now rewrite <- !app_assoc.
    + intros e Hl. now rewrite (IH2 e Hl).
Qed.

(** X4.  [get_playlist_video_ids] follows the continuation tokens: the
    first request carries no token, each further request carries the
    token of the page before, and when a page comes without a token the
    result is the ids of all the pages, in the order they came.  Nothing
    is shown. *)
Theorem get_playlist_video_ids_follows_tokens (up : upstream)
  (playlist_id : cell) (w : world) (pages : list page)
  (items : list string) (next : option string) (fuel : nat) :
  answers up playlist_id (length (calls w)) None pages
    (Return (items, next)) ->
  no_token next = true ->
  length pages < fuel ->
  get_playlist_video_ids fuel up playlist_id w
  = Some (concat (map fst pages) ++ items,
          mkWorld (calls w ++ requests playlist_id None pages) (shown w)).
Proof.
  intros Ha Hn Hf. unfold get_playlist_video_ids.
  destruct (playlist_loop_answers up playlist_id pages fuel None [] w _ Ha Hf)
    as [H _].
  now rewrite (H items next eq_refl Hn).
Qed.

Lemma get_playlist_video_ids_follows_tokens_witness :
  get_playlist_video_ids 3 Scenarios.two_pages (CStr "UU1")
    Examples.nothing_yet
  = Some (["v1"; "v2"; "v3"],
          mkWorld [PlaylistItemsList (CStr "UU1") None;
                   PlaylistItemsList (CStr "UU1") (Some "page2")] []).
Proof.
  apply (get_playlist_video_ids_follows_tokens Scenarios.two_pages
           (CStr "UU1") Examples.nothing_yet [(["v1"; "v2"], Some "page2")]
           ["v3"] None 3).
  - simpl. repeat split.
  - reflexivity.
  - simpl. lia.
Defined.

(** X5.  When a request of [get_playlist_video_ids] raises, the ids of
    the pages fetched before it are dropped: the result is the empty
    list, with one error message, which names the API for an [HttpError]
    and is the general one for any other exception. *)
Theorem get_playlist_video_ids_drops_pages (up : upstream)
  (playlist_id : cell) (w : world) (pages : list page) (e : exn)
  (fuel : nat) :
  answers up playlist_id (length (calls w)) None pages (Raise e) ->
  length pages < fuel ->
  get_playlist_video_ids fuel up playlist_id w
  = Some ([],
          mkWorld (calls w ++ requests playlist_id None pages)
            (shown w ++ [playlist_failure e])).
Proof.
  intros Ha Hf. unfold get_playlist_video_ids.
  destruct (playlist_loop_answers up playlist_id pages fuel None [] w _ Ha Hf)
    as [_ H].
  rewrite (H e eq_refl). destruct e; reflexivity.
Qed.

Lemma get_playlist_video_ids_drops_pages_witness :
  get_playlist_video_ids 3 Scenarios.second_page_fails (CStr "UU1")
    Examples.nothing_yet
  = Some ([],
          mkWorld [PlaylistItemsList (CStr "UU1") None;
                   PlaylistItemsList (CStr "UU1") (Some "page2")]
            [st_error "YouTube API Error (Playlist Items)"]).
Proof.
  apply (get_playlist_video_ids_drops_pages Scenarios.second_page_fails
           (CStr "UU1") Examples.nothing_yet [(["v1"; "v2"], Some "page2")]
           (HttpError 500 "backendError") 3).
  - simpl. repeat split.
  - simpl. lia.
Defined.

(** X6.  [get_playlist_video_ids] has no bound of its own on the number
    of pages: against an upstream that sends a token with every page it
    never returns, however many requests it is allowed. *)
Theorem get_playlist_video_ids_unbounded (up : upstream) (playlist_id : cell) :
  endless up playlist_id ->
  forall fuel w, get_playlist_video_ids fuel up playlist_id w = None.
Proof.
  intros He fuel w. unfold get_playlist_video_ids.
  assert (H : forall fuel tok ids w,
            playlist_loop fuel up playlist_id tok ids w = None).
  { clear fuel w. induction fuel as [|fuel IH]; intros tok ids w;
      [reflexivity|]. cbn [playlist_loop].
    destruct (He (length (calls w)) tok) as (items & next & -> & ->).
    apply IH. }
  now rewrite H.
Qed.

Lemma get_playlist_video_ids_unbounded_witness :
  get_playlist_video_ids 1000 Scenarios.endless_playlist (CStr "UU1")
    Examples.nothing_yet = None.
Proof.
  apply get_playlist_video_ids_unbounded.
  intros n tok. exists ["v1"], (Some "more"). split; reflexivity.
Defined.

(** *** The records of [get_video_details] and [get_comments_of_video] *)

Lemma batches_records_items up bs : forall n,
  batches_records up n bs = map video_details (batches_items up n bs).
Proof.
  induction bs as [|b bs IH]; intros n;
    cbn [batches_records batches_items]; [reflexivity|].
  rewrite IH, map_app. unfold batch_records.
  now destruct (videos_list up n b).
Qed.

Lemma published_video_details items :
  map (fun r => cell_at r "published_date") (map video_details items)
  = map (fun it => CStr (vi_publishedAt it)) items.
Proof. rewrite map_map. reflexivity. Qed.



Lemma page_items_shape vid max items : forall cl c,
  exists taken,
    fst (page_items vid max items cl c) = cl ++ map (comment_info vid) taken.
Proof.
  induction items as [|it items IH]; intros cl c; cbn [page_items].
  - exists []. simpl. now rewrite app_nil_r.
  - destruct (c + 1 >=? max)%Z.
    + now exists [it].
    + destruct (IH (cl ++ [comment_info vid it]) (c + 1)%Z) as (taken & ->).
      exists (it :: taken). now rewrite <- app_assoc.
Qed.

Lemma comments_loop_shape up vid max fuel : forall tok cl c w l w' its0,
  comments_loop fuel up vid max tok cl c w = Some (Return l, w') ->
  cl = map (comment_info vid) its0 ->
  exists its, l = map (comment_info vid) its.
Proof.
  induction fuel as [|fuel IH]; intros tok cl c w l w' its0 H Hcl.
  - simpl in H. destruct (c <? max)%Z; [discriminate|].
    injection H as <- _. eauto.
  - cbn [comments_loop] in H. destruct (c <? max)%Z.
    2:{ injection H as <- _. eauto. }
    destruct (commentThreads_list up _ vid _ tok) as [[items next]|e];
      [|discriminate].
    destruct (page_items_shape vid max items cl c) as (taken & Hp).
    destruct (page_items vid max items cl c) as [cl' c']. simpl in Hp.
    assert (Hcl' : cl' = map (comment_info vid) (its0 ++ taken))
      by (now rewrite map_app, <- Hcl).
    destruct (no_token next).
    + injection H as <- _. eauto.
    + eapply IH; eauto.
Qed.

Lemma comment_rows_of_video (vid : string) its : forall dates : list cell,
  map (fun q => comment_row (CStr (fst (fst q))) (snd (fst q)) (snd q))
    (combine (map (pair vid) its) dates)
  = map (fun q => comment_row (CStr vid) (fst q) (snd q)) (combine its dates).
Proof.
  induction its as [|it its IH]; intros [|d dates]; simpl; try reflexivity.
  now rewrite IH.
Qed.

(** X8.  Every record [get_comments_of_video] returns is the record of a
    comment thread with all five fields, and its video id is the id the
    function was called with.  So [process_comment_data] indexes no
    missing column on them: it raises only what the date conversion
    raises, and otherwise gives a frame of the five columns of the
    comments table whose rows all refer to that video. *)
Theorem fetched_comments_fit_transformer (fuel : nat) (up : upstream)
  (video_id : string) (max_results : Z) (w w' : world)
  (r : outcome (list record))
  (to_dates : list cell -> outcome (list cell)) :
  get_comments_of_video fuel up (CStr video_id) max_results w = Some (r, w') ->
  exists its,
    let fetched := map (comment_info (CStr video_id)) its in
    let published := map (fun it => CStr (ti_publishedAt it)) its in
    r = Return fetched /\
    (its = [] ->
     process_comment_data to_dates (Some fetched) = Return empty_frame) /\
    (forall e, its <> [] -> to_dates published = Raise e ->
     process_comment_data to_dates (Some fetched) = Raise e) /\
    (forall dates, its <> [] -> to_dates published = Return dates ->
     length dates = length its ->
     process_comment_data to_dates (Some fetched)
     = Return (mkFrame Comment_columns
                 (map (fun q => comment_row (CStr video_id) (fst q) (snd q))
                    (combine its dates)))).
Proof.
  intros H. unfold get_comments_of_video in H.
  assert (S : exists its, r = Return (map (comment_info (CStr video_id)) its)).
  { destruct (comments_loop fuel up (CStr video_id) max_results None [] 0%Z w)
      as [[[l|e] w1]|] eqn:E; [| |discriminate].
    - injection H as <- _.
      destruct (comments_loop_shape _ _ _ _ _ _ _ _ _ _ [] E eq_refl)
        as (its & ->). eauto.
    - injection H as <- _. now exists []. }
  destruct S as (its & ->). exists its. cbn zeta.
  split; [reflexivity|].
  assert (Hmap : map (fun p => comment_info (CStr (fst p)) (snd p))
                   (map (pair video_id) its)
                 = map (comment_info (CStr video_id)) its)
    by (rewrite map_map; reflexivity).
  assert (Hne : its <> [] -> map (pair video_id) its <> [])
    by (destruct its; [congruence|discriminate]).
  split; [|split].
  - intros ->. reflexivity.
  - intros e Hi He. apply TransformerErrors.conversion_raises_comment.
    + rewrite <- Hmap, (columns_of_comment_infos _ (Hne Hi)). simpl. tauto.
    + rewrite map_map. exact He.
  - intros dates Hi Hd Hlen. rewrite <- Hmap.
    rewrite (process_comment_data_of_items to_dates (map (pair video_id) its)
               dates (Hne Hi)).
    + now rewrite comment_rows_of_video.
    + rewrite map_map. exact Hd.
    + now rewrite length_map.
Qed.

Lemma fetched_comments_fit_transformer_witness :
  exists its,
    get_comments_of_video 5 Examples.small_upstream (CStr "v1") 100
      Examples.nothing_yet
    = Some (Return (map (comment_info (CStr "v1")) its),
            log_call (CommentThreadsList (CStr "v1") 100 None)
              Examples.nothing_yet) /\
    (its = [] ->
     process_comment_data iso_dates
       (Some (map (comment_info (CStr "v1")) its)) = Return empty_frame).
Proof.
  destruct (fetched_comments_fit_transformer 5 Examples.small_upstream "v1"
              100 Examples.nothing_yet _ _ iso_dates eq_refl)
    as (its & Hr & He & _).
  exists its. split; [|exact He]. cbn zeta in Hr.
  change (Some (Return [comment_info (CStr "v1") Examples.t1],
                log_call (CommentThreadsList (CStr "v1") 100 None)
                  Examples.nothing_yet)
          = Some (Return (map (comment_info (CStr "v1")) its),
                log_call (CommentThreadsList (CStr "v1") 100 None)
                  Examples.nothing_yet)).
  now rewrite <- Hr.
Defined.

End ClientFacts.
(** ** The warehouse gateway on arbitrary frames *)

Module GatewayFacts.
Import Frame FrameFacts Api Warehouse WarehouseFacts Stored.
Local Open Scope list_scope.
Local Open Scope nat_scope.

Lemma for_rows_app body rs1 : forall rs2 t,
  for_rows body (rs1 ++ rs2) t
  = bind (for_rows body rs1 t) (for_rows body rs2).
Proof.
  induction rs1 as [|r rs1 IH]; intros rs2 t; cbn [app for_rows bind];
    [reflexivity|].
  destruct (body t r) as [t1|e]; cbn [bind]; [apply IH|reflexivity].
Qed.

Lemma connect_Return eng u : connect eng = Return u -> reachable eng = true.
Proof. unfold connect. destruct (reachable eng); [auto|discriminate]. Qed.

Lemma getitem_lookup d k v : getitem d k = Return v -> lookup k d = Some v.
Proof.
  unfold getitem. destruct (lookup k d); [|discriminate].
  now intros H; injection H as <-.
Qed.

Lemma new_Video_fields d v :
  new_Video d = Return v ->
  attr d "video_id" = CStr (v_video_id v) /\
  v_channel_id v = attr d "channel_id".
Proof.
  unfold new_Video. intros H. apply bind_Return in H as (_ & _ & H).
  destruct (attr d "video_id"); try discriminate.
  now injection H as <-.
Qed.

Lemma new_Channel_key d c :
  new_Channel d = Return c -> attr d "channel_id" = CStr (ch_channel_id c).
Proof.
  unfold new_Channel. intros H. apply bind_Return in H as (_ & _ & H).
  destruct (attr d "channel_id"); try discriminate.
  now injection H as <-.
Qed.

Lemma query_Some {R} (key : R -> string) k (tbl : list R) r :
  query key k tbl = Some r -> k = CStr (key r) /\ In r tbl.
Proof.
  unfold query. destruct k; try discriminate. intros H.
  apply find_key_Some in H as [<- H]. auto.
Qed.

Lemma NoDup_key_eq {R} (key : R -> string) (tbl : list R) x y :
  NoDup (map key tbl) -> In x tbl -> In y tbl -> key x = key y -> x = y.
Proof.
  induction tbl as [|z tbl IH]; simpl; intros Hnd Hx Hy E; [destruct Hx|].
  inversion Hnd as [|? ? Hni Hnd']; subst.
  destruct Hx as [->|Hx], Hy as [->|Hy]; auto.
  - exfalso. apply Hni. rewrite E. now apply in_map.
  - exfalso. apply Hni. rewrite <- E. now apply in_map.
Qed.

(** What one row does to the videos. *)
Lemma upsert_video_inv eng t row t' :
  upsert_video eng t row = Return t' ->
  reachable eng = true /\
  channels t' = channels t /\ comments t' = comments t /\
  exists k, lookup "video_id" row = Some (CStr k) /\
    ((exists old video,
        In old (videos t) /\ v_video_id old = k /\
        v_video_id video = k /\ v_channel_id video = v_channel_id old /\
        videos t' = overwrite v_video_id video (videos t)) \/
     (exists video,
        ~ In k (map v_video_id (videos t)) /\
        v_video_id video = k /\
        v_channel_id video = attr row "channel_id" /\
        references ch_channel_id (v_channel_id video) (channels t) = true /\
        videos t' = videos t ++ [video])).
Proof.
  unfold upsert_video. intros H.
  apply bind_Return in H as (k0 & Hk & H).
  apply bind_Return in H as (u & Hc & H).
  apply connect_Return in Hc. split; [exact Hc|].
  destruct (query v_video_id k0 (videos t)) as [old|] eqn:Eq.
  - apply bind_Return in H as (title & _ & H).
    apply bind_Return in H as (views & _ & H).
    apply bind_Return in H as (likes & _ & H).
    apply bind_Return in H as (count & _ & H).
    apply bind_Return in H as (secs & _ & H).
    apply bind_Return in H as (published & _ & H).
    apply bind_Return in H as (_ & _ & H). injection H as <-.
    cbn [channels videos comments].
    split; [reflexivity|]. split; [reflexivity|].
    apply query_Some in Eq as [-> Hin].
    exists (v_video_id old). split; [now apply getitem_lookup|].
    left.
    exists old, (mkVideo (v_video_id old) (v_channel_id old) title published
                   views likes count secs).
    repeat split; auto.
  - apply bind_Return in H as (v & Hv & H).
    apply bind_Return in H as (u1 & Hfk & H).
    apply bind_Return in H as (_ & _ & H). injection H as <-.
    cbn [channels videos comments].
    split; [reflexivity|]. split; [reflexivity|].
    apply flush_Return in Hfk.
    apply new_Video_fields in Hv as [Hid Hcid].
    apply getitem_attr in Hk as Hk'. rewrite Hid in Hk'. subst k0.
    exists (v_video_id v). split; [now apply getitem_lookup|].
    right. exists v. repeat split; auto.
    unfold query in Eq. now apply find_key_In in Eq.
Qed.

Lemma upsert_video_frame eng t row t' :
  upsert_video eng t row = Return t' ->
  NoDup (map v_video_id (videos t)) ->
  NoDup (map v_video_id (videos t')) /\
  exists added,
    map id_and_channel (videos t') = map id_and_channel (videos t) ++ added.
Proof.
  intros H Hnd.
  apply upsert_video_inv in H as (_ & _ & _ & k & _ & H).
  destruct H as [(old & video & Hin & Hold & Hid & Hcid & ->)
                |(video & Hni & Hid & _ & _ & ->)].
  - split; [now rewrite map_key_overwrite|].
    exists []. rewrite app_nil_r. unfold overwrite. rewrite map_map.
    apply map_ext_in. intros x Hx.
    destruct (String.eqb_spec (v_video_id x) (v_video_id video)) as [E|E];
      [|reflexivity].
    assert (x = old).
    { apply (NoDup_key_eq v_video_id (videos t)); auto. congruence. }
    subst x. unfold id_and_channel. congruence.
  - rewrite !map_app. split; [|now eexists].
    apply NoDup_app; [exact Hnd|repeat constructor; simpl; tauto|].
    simpl. intros k' Hk' [<-|[]]. congruence.
Qed.

Lemma for_rows_upsert_video_frame eng rs : forall t t',
  for_rows (upsert_video eng) rs t = Return t' ->
  NoDup (map v_video_id (videos t)) ->
  channels t' = channels t /\ comments t' = comments t /\
  NoDup (map v_video_id (videos t')) /\
  exists added,
    map id_and_channel (videos t') = map id_and_channel (videos t) ++ added.
Proof.
  induction rs as [|row rs IH]; intros t t' H Hnd; cbn [for_rows] in H.
  - injection H as <-. repeat split; auto. exists []. now rewrite app_nil_r.
  - apply bind_Return in H as (t1 & H1 & H).
    pose proof (upsert_video_inv _ _ _ _ H1) as (_ & Hc & Hm & _).
    apply upsert_video_frame in H1 as (Hnd1 & a1 & Ha1); [|exact Hnd].
    destruct (IH _ _ H Hnd1) as (Hc' & Hm' & Hnd' & a2 & Ha2).
    repeat split; try congruence.
    exists (a1 ++ a2). now rewrite Ha2, Ha1, app_assoc.
Qed.

(** X9.  [insert_video_data] writes to the videos table only, and on a
    table with one row per video id it never removes or moves a stored
    video and never changes the channel a stored video belongs to: for
    every frame and every engine, the ids and channel ids stored before
    the call are stored after it, in place, followed by those of the rows
    the call added, and no video id is stored twice. *)
Theorem insert_video_data_keeps_channel (eng : engine) (df : DataFrame)
  (t : tables) (w : world) :
  NoDup (map v_video_id (videos t)) ->
  let t' := fst (insert_video_data eng df (t, w)) in
  channels t' = channels t /\ comments t' = comments t /\
  NoDup (map v_video_id (videos t')) /\
  exists added,
    map id_and_channel (videos t') = map id_and_channel (videos t) ++ added.
Proof.
  intros Hnd. cbn zeta. unfold insert_video_data.
  assert (Same : channels t = channels t /\ comments t = comments t /\
                 NoDup (map v_video_id (videos t)) /\
                 exists added, map id_and_channel (videos t)
                               = map id_and_channel (videos t) ++ added).
  { repeat split; auto. exists []. now rewrite app_nil_r. }
  destruct (empty df); [exact Same|].
  destruct (for_rows _ _ _) as [t'|e] eqn:E; [|exact Same]. cbn [fst].
  now apply (for_rows_upsert_video_frame eng (rows df)).
Qed.

Lemma insert_video_data_keeps_channel_witness :
  map id_and_channel
    (videos (fst (insert_video_data Examples.accepting Scenarios.v1_moved
                    (Examples.loaded_store, Examples.nothing_yet))))
  = [("v1", CStr "UC1")].
Proof.
  destruct (insert_video_data_keeps_channel Examples.accepting
              Scenarios.v1_moved Examples.loaded_store Examples.nothing_yet)
    as (_ & _ & _ & added & H).
  - repeat constructor. simpl. tauto.
  - cbn zeta in H. reflexivity.
Defined.

(** X10.  A row of [insert_video_data] whose video id is stored updates
    the title, the date, the three counts and the duration of the stored
    video and nothing else: the row's own channel id is not read, so the
    video stays with the channel it was first stored under, even when
    the row names another channel or one that is not stored. *)
Theorem insert_video_data_update (eng : engine) (t : tables) (w : world)
  (cols : list string) (row : record) (k : string) (old : Video)
  (title published views likes count secs : cell) :
  cols <> [] ->
  reachable eng = true ->
  lookup "video_id" row = Some (CStr k) ->
  query v_video_id (CStr k) (videos t) = Some old ->
  lookup "title" row = Some title ->
  lookup "views" row = Some views ->
  lookup "likes" row = Some likes ->
  lookup "comments_count" row = Some count ->
  lookup "duration_seconds" row = Some secs ->
  lookup "published_date" row = Some published ->
  let video :=
    mkVideo k (v_channel_id old) title published views likes count secs in
  accepts_video eng video = true ->
  fst (insert_video_data eng (mkFrame cols [row]) (t, w))
  = mkTables (channels t) (overwrite v_video_id video (videos t))
      (comments t).
Proof.
  intros Hc Hr Hk Hq Ht Hv Hl Hn Hs Hp video Ha.
  unfold insert_video_data, empty. cbn [columns rows].
  destruct cols as [|c cols]; [contradiction|].
  cbn [for_rows]. unfold upsert_video, getitem, connect.
  rewrite Hk, Hr. cbn [bind]. rewrite Hq, Ht, Hv, Hl, Hn, Hs, Hp.
  cbn [bind].
  assert (Hid : v_video_id old = k).
  { apply query_Some in Hq as [Hq _]. now injection Hq. }
  rewrite Hid. fold video. rewrite Ha. reflexivity.
Qed.

Lemma insert_video_data_update_witness :
  fst (insert_video_data Examples.accepting Scenarios.v1_moved
         (Examples.loaded_store, Examples.nothing_yet))
  = mkTables (channels Examples.loaded_store)
      [mkVideo "v1" (CStr "UC1") (CStr "A video (edited)") (CDate 2023 1 1)
         (CInt 250) (CInt 9) (CInt 1) (CInt 300)]
      (comments Examples.loaded_store).
Proof.
  unfold Scenarios.v1_moved.
  exact (insert_video_data_update Examples.accepting Examples.loaded_store
           Examples.nothing_yet Video_columns Scenarios.v1_moved_row "v1"
           (mkVideo "v1" (CStr "UC1") (CStr "A video") (CDate 2023 1 1)
              (CInt 100) (CInt 7) (CInt 0) (CInt 300))
           (CStr "A video (edited)") (CDate 2023 1 1) (CInt 250) (CInt 9)
           (CInt 1) (CInt 300)
           ltac:(discriminate) eq_refl eq_refl eq_refl eq_refl eq_refl
           eq_refl eq_refl eq_refl eq_refl eq_refl).
Defined.

(** *** [insert_channel_data] on any frame *)

Lemma upsert_channel_frame eng t row t' :
  upsert_channel eng t row = Return t' ->
  NoDup (map ch_channel_id (channels t)) ->
  videos t' = videos t /\ comments t' = comments t /\
  NoDup (map ch_channel_id (channels t')) /\
  exists added,
    map ch_channel_id (channels t') = map ch_channel_id (channels t) ++ added.
Proof.
  unfold upsert_channel. intros H Hnd.
  apply bind_Return in H as (k0 & Hk & H).
  apply bind_Return in H as (u & _ & H).
  destruct (query ch_channel_id k0 (channels t)) as [old|] eqn:Eq.
  - apply bind_Return in H as (name & _ & H).
    apply bind_Return in H as (subs & _ & H).
    apply bind_Return in H as (total & _ & H).
    apply bind_Return in H as (uploads & _ & H).
    apply bind_Return in H as (_ & _ & H). injection H as <-.
    cbn [channels videos comments]. rewrite map_key_overwrite.
    repeat split; auto. exists []. now rewrite app_nil_r.
  - apply bind_Return in H as (c & Hc & H).
    apply bind_Return in H as (_ & _ & H). injection H as <-.
    cbn [channels videos comments]. rewrite map_app.
    split; [reflexivity|]. split; [reflexivity|]. split; [|now eexists].
    apply new_Channel_key in Hc. apply getitem_attr in Hk.
    rewrite Hk in Hc. rewrite Hc in Eq. unfold query in Eq.
    apply find_key_In in Eq.
    apply NoDup_app; [exact Hnd|repeat constructor; simpl; tauto|].
    simpl. intros k' Hk' [<-|[]]. contradiction.
Qed.

(** X11.  [insert_channel_data] writes to the channels table only and
    never removes or moves a stored channel: for every frame and every
    engine, on a table with one row per channel id, the ids stored
    before the call are stored after it, in place, followed by the ids
    the call added, no id is stored twice, and the videos and the
    comments are untouched. *)
Theorem insert_channel_data_keeps_ids (eng : engine) (df : DataFrame)
  (t : tables) (w : world) :
  NoDup (map ch_channel_id (channels t)) ->
  let t' := fst (insert_channel_data eng df (t, w)) in
  videos t' = videos t /\ comments t' = comments t /\
  NoDup (map ch_channel_id (channels t')) /\
  exists added,
    map ch_channel_id (channels t') = map ch_channel_id (channels t) ++ added.
Proof.
  intros Hnd. cbn zeta. unfold insert_channel_data.
  assert (Same : videos t = videos t /\ comments t = comments t /\
                 NoDup (map ch_channel_id (channels t)) /\
                 exists added, map ch_channel_id (channels t)
                               = map ch_channel_id (channels t) ++ added).
  { repeat split; auto. exists []. now rewrite app_nil_r. }
  destruct (empty df); [exact Same|].
  destruct (for_rows _ _ _) as [t'|e] eqn:E; [|exact Same]. cbn [fst].
  clear Same. revert t t' E Hnd.
  induction (rows df) as [|row rs IH]; intros t t' H Hnd; cbn [for_rows] in H.
  - injection H as <-. repeat split; auto. exists []. now rewrite app_nil_r.
  - apply bind_Return in H as (t1 & H1 & H).
    apply upsert_channel_frame in H1 as (Hv & Hm & Hnd1 & a1 & Ha1);
      [|exact Hnd].
    destruct (IH _ _ H Hnd1) as (Hv' & Hm' & Hnd' & a2 & Ha2).
    repeat split; try congruence.
    exists (a1 ++ a2). now rewrite Ha2, Ha1, app_assoc.
Qed.

Lemma insert_channel_data_keeps_ids_witness :
  map ch_channel_id
    (channels (fst (insert_channel_data Examples.accepting
                      (pd_DataFrame
                         [channel_info Examples.UC2;
                          channel_info Examples.UC1_later])
                      (Examples.loaded_store, Examples.nothing_yet))))
  = ["UC1"; "UC2"].
Proof.
  destruct (insert_channel_data_keeps_ids Examples.accepting
              (pd_DataFrame [channel_info Examples.UC2;
                             channel_info Examples.UC1_later])
              Examples.loaded_store Examples.nothing_yet)
    as (_ & _ & _ & added & H).
  - repeat constructor. simpl. tauto.
  - reflexivity.
Defined.

(** *** A refused row takes the batch with it *)

Lemma for_rows_upsert_video_new_keys eng rs : forall t t1,
  for_rows (upsert_video eng) rs t = Return t1 ->
  channels t1 = channels t /\
  forall k, In k (map v_video_id (videos t1)) ->
    In k (map v_video_id (videos t)) \/
    exists r, In r rs /\ lookup "video_id" r = Some (CStr k).
Proof.
  induction rs as [|row rs IH]; intros t t1 H; cbn [for_rows] in H.
  - injection H as <-. auto.
  - apply bind_Return in H as (t0 & H0 & H).
    apply upsert_video_inv in H0 as (_ & Hc & _ & k0 & Hk0 & Hcase).
    destruct (IH _ _ H) as (Hc1 & Hkeys). split; [congruence|].
    intros k Hk. destruct (Hkeys k Hk) as [Hin|(r & Hr & Hl)].
    + destruct Hcase as [(old & video & _ & _ & _ & _ & E)
                        |(video & _ & Hid & _ & _ & E)];
        rewrite E in Hin.
      * rewrite map_key_overwrite in Hin. auto.
      * rewrite map_app in Hin. apply in_app_iff in Hin as [Hin|[<-|[]]];
          [auto|]. right. exists row. split; [now left|congruence].
    + right. exists r. split; [now right|exact Hl].
Qed.

Lemma upsert_video_orphan eng t row k :
  lookup "video_id" row = Some (CStr k) ->
  ~ In k (map v_video_id (videos t)) ->
  references ch_channel_id (attr row "channel_id") (channels t) = false ->
  exists e, upsert_video eng t row = Raise e.
Proof.
  intros Hk Hni Hfk. unfold upsert_video, getitem, connect. rewrite Hk.
  cbn [bind]. destruct (reachable eng); cbn [bind]; [|eauto].
  unfold query. apply (find_key_In v_video_id) in Hni. rewrite Hni.
  destruct (new_Video row) as [v|e] eqn:Ev; cbn [bind]; [|eauto].
  apply new_Video_fields in Ev as [_ ->]. rewrite Hfk. cbn [flush bind].
  eauto.
Qed.

(** X12.  A batch of [insert_video_data] that holds a new video whose
    channel is not stored stores nothing: the rows before it in the
    batch are rolled back with it, the rows after it are not looked at,
    the store is left as it was and one error is shown. *)
Theorem insert_video_data_rolls_back (eng : engine) (df : DataFrame)
  (t : tables) (w : world) (rows1 rows2 : list record) (row : record)
  (k : string) :
  columns df <> [] ->
  rows df = rows1 ++ row :: rows2 ->
  lookup "video_id" row = Some (CStr k) ->
  ~ In k (map v_video_id (videos t)) ->
  Forall (fun r => lookup "video_id" r <> Some (CStr k)) rows1 ->
  references ch_channel_id (attr row "channel_id") (channels t) = false ->
  insert_video_data eng df (t, w)
  = (t, show (st_error "Error inserting video data")
          (log_call (InsertVideos df) w)).
Proof.
  intros Hc Hrows Hk Hni Hfresh Hfk. unfold insert_video_data, empty.
  destruct (columns df); [contradiction|]. rewrite Hrows.
  destruct (rows1 ++ row :: rows2) as [|r0 l0] eqn:E; [now destruct rows1|].
  rewrite <- E. clear E. rewrite for_rows_app.
  destruct (for_rows (upsert_video eng) rows1 t) as [t1|e] eqn:E1;
    cbn [bind]; [|reflexivity].
  apply for_rows_upsert_video_new_keys in E1 as (Hc1 & Hkeys).
  destruct (upsert_video_orphan eng t1 row k Hk) as (e & He).
  - intros Hin. destruct (Hkeys k Hin) as [H|(r & Hr & Hl)]; [auto|].
    rewrite Forall_forall in Hfresh. exact (Hfresh r Hr Hl).
  - now rewrite Hc1.
  - cbn [for_rows]. rewrite He. reflexivity.
Qed.

Lemma insert_video_data_rolls_back_witness :
  insert_video_data Examples.accepting Scenarios.one_orphan_video
    (Examples.loaded_store, Examples.nothing_yet)
  = (Examples.loaded_store,
     mkWorld [InsertVideos Scenarios.one_orphan_video]
       [st_error "Error inserting video data"]).
Proof.
  refine (insert_video_data_rolls_back Examples.accepting
            Scenarios.one_orphan_video Examples.loaded_store
            Examples.nothing_yet [_] [] _ "v3" _ eq_refl _ _ _ _).
  - discriminate.
  - reflexivity.
  - simpl. intros [H|[]]. discriminate.
  - repeat constructor. discriminate.
  - reflexivity.
Defined.

Lemma for_rows_insert_comment_new_keys eng rs : forall t t1,
  for_rows (insert_comment eng) rs t = Return t1 ->
  videos t1 = videos t /\
  forall k, In k (map c_comment_id (comments t1)) ->
    In k (map c_comment_id (comments t)) \/
    exists r, In r rs /\ lookup "comment_id" r = Some (CStr k).
Proof.
  induction rs as [|row rs IH]; intros t t1 H; cbn [for_rows] in H.
  - injection H as <-. auto.
  - apply bind_Return in H as (t0 & H0 & H).
    pose proof H0 as Hins. unfold insert_comment in Hins.
    apply bind_Return in Hins as (k0 & Hk0 & _).
    apply insert_comment_appends in H0 as (_ & Hv & Hcase).
    destruct (IH _ _ H) as (Hv1 & Hkeys). split; [congruence|].
    intros k Hk. destruct (Hkeys k Hk) as [Hin|(r & Hr & Hl)].
    + destruct Hcase as [E|(c & E & _ & Hc & _)]; rewrite E in Hin;
        [auto|].
      rewrite map_app in Hin. apply in_app_iff in Hin as [Hin|[<-|[]]];
        [auto|]. right. exists row. split; [now left|].
      apply new_Comment_key in Hc. apply getitem_attr in Hk0 as Ha.
      apply getitem_lookup in Hk0. congruence.
    + right. exists r. split; [now right|exact Hl].
Qed.

Lemma insert_comment_orphan eng t row k :
  lookup "comment_id" row = Some (CStr k) ->
  ~ In k (map c_comment_id (comments t)) ->
  references v_video_id (attr row "video_id") (videos t) = false ->
  exists e, insert_comment eng t row = Raise e.
Proof.
  intros Hk Hni Hfk. unfold insert_comment, getitem, connect. rewrite Hk.
  cbn [bind]. destruct (reachable eng); cbn [bind]; [|eauto].
  unfold query. apply (find_key_In c_comment_id) in Hni. rewrite Hni.
  destruct (new_Comment row) as [c|e] eqn:Ec; cbn [bind]; [|eauto].
  assert (Hv : c_video_id c = attr row "video_id").
  { unfold new_Comment in Ec. apply bind_Return in Ec as (_ & _ & Ec).
    destruct (attr row "comment_id"); try discriminate.
    now injection Ec as <-. }
  rewrite Hv, Hfk. cbn [flush bind]. eauto.
Qed.

(** X13.  A batch of [insert_comment_data] that holds a new comment on a
    video that is not stored stores nothing: the comments before it in
    the batch are rolled back with it, the store is left as it was and
    one error is shown. *)
Theorem insert_comment_data_rolls_back (eng : engine) (df : DataFrame)
  (t : tables) (w : world) (rows1 rows2 : list record) (row : record)
  (k : string) :
  columns df <> [] ->
  rows df = rows1 ++ row :: rows2 ->
  lookup "comment_id" row = Some (CStr k) ->
  ~ In k (map c_comment_id (comments t)) ->
  Forall (fun r => lookup "comment_id" r <> Some (CStr k)) rows1 ->
  references v_video_id (attr row "video_id") (videos t) = false ->
  insert_comment_data eng df (t, w)
  = (t, show (st_error "Error inserting comment data")
          (log_call (InsertComments df) w)).
Proof.
  intros Hc Hrows Hk Hni Hfresh Hfk. unfold insert_comment_data, empty.
  destruct (columns df); [contradiction|]. rewrite Hrows.
  destruct (rows1 ++ row :: rows2) as [|r0 l0] eqn:E; [now destruct rows1|].
  rewrite <- E. clear E. rewrite for_rows_app.
  destruct (for_rows (insert_comment eng) rows1 t) as [t1|e] eqn:E1;
    cbn [bind]; [|reflexivity].
  apply for_rows_insert_comment_new_keys in E1 as (Hv1 & Hkeys).
  destruct (insert_comment_orphan eng t1 row k Hk) as (e & He).
  - intros Hin. destruct (Hkeys k Hin) as [H|(r & Hr & Hl)]; [auto|].
    rewrite Forall_forall in Hfresh. exact (Hfresh r Hr Hl).
  - now rewrite Hv1.
  - cbn [for_rows]. rewrite He. reflexivity.
Qed.

Lemma insert_comment_data_rolls_back_witness :
  insert_comment_data Examples.accepting Scenarios.one_orphan_comment
    (Examples.loaded_store, Examples.nothing_yet)
  = (Examples.loaded_store,
     mkWorld [InsertComments Scenarios.one_orphan_comment]
       [st_error "Error inserting comment data"]).
Proof.
  refine (insert_comment_data_rolls_back Examples.accepting
            Scenarios.one_orphan_comment Examples.loaded_store
            Examples.nothing_yet [_] [] _ "c3" _ eq_refl _ _ _ _).
  - discriminate.
  - reflexivity.
  - simpl. intros [H|[]]. discriminate.
  - repeat constructor. discriminate.
  - reflexivity.
Defined.

(** *** A second call *)

Lemma insert_comment_settled eng t row t1 :
  insert_comment eng t row = Return t1 ->
  reachable eng = true /\
  (forall k, In k (map c_comment_id (comments t)) ->
             In k (map c_comment_id (comments t1))) /\
  exists k, lookup "comment_id" row = Some (CStr k) /\
            In k (map c_comment_id (comments t1)).
Proof.
  intros H. pose proof H as Hins. unfold insert_comment in Hins.
  apply bind_Return in Hins as (k0 & Hk0 & Hins).
  apply bind_Return in Hins as (u & Hc & Hins).
  apply connect_Return in Hc. split; [exact Hc|].
  apply insert_comment_appends in H as (_ & _ & Hcase).
  destruct (query c_comment_id k0 (comments t)) as [old|] eqn:Eq.
  - injection Hins as <-. split; [auto|].
    apply query_Some in Eq as [-> Hin].
    exists (c_comment_id old). split; [now apply getitem_lookup|].
    now apply in_map.
  - destruct Hcase as [E|(c & E & _ & Hnew & _)].
    + exfalso. apply bind_Return in Hins as (c & _ & Hins).
      apply bind_Return in Hins as (_ & _ & Hins).
      apply bind_Return in Hins as (_ & _ & Hins).
      injection Hins as <-. cbn [comments] in E.
      apply (f_equal (@length _)) in E. rewrite length_app in E.
      simpl in E. lia.
    + rewrite E, map_app. split.
      * intros k Hk. apply in_app_iff. now left.
      * exists (c_comment_id c). split.
        -- apply new_Comment_key in Hnew. apply getitem_attr in Hk0 as Ha.
           apply getitem_lookup in Hk0. congruence.
        -- apply in_app_iff. right. now left.
Qed.

Lemma for_rows_insert_comment_again eng rs : forall t t1 u,
  for_rows (insert_comment eng) rs t = Return t1 ->
  (forall k, In k (map c_comment_id (comments t1)) ->
             In k (map c_comment_id (comments u))) ->
  for_rows (insert_comment eng) rs u = Return u.
Proof.
  induction rs as [|row rs IH]; intros t t1 u H Hsub; cbn [for_rows] in *;
    [reflexivity|].
  apply bind_Return in H as (t0 & H0 & H).
  assert (Hmono : forall k, In k (map c_comment_id (comments t0)) ->
                            In k (map c_comment_id (comments t1))).
  { clear -H. revert t0 t1 H. induction rs as [|r rs IH]; intros t0 t1 H;
      cbn [for_rows] in H.
    - now injection H as <-.
    - apply bind_Return in H as (t2 & H2 & H).
      apply insert_comment_settled in H2 as (_ & Hm & _).
      intros k Hk. eapply IH; eauto. }
  apply insert_comment_settled in H0 as (Hr & _ & k & Hk & Hin).
  assert (Hu : insert_comment eng u row = Return u).
  { unfold insert_comment, getitem, connect. rewrite Hk, Hr. cbn [bind].
    unfold query.
    destruct (find _ (comments u)) eqn:Ef; [reflexivity|].
    apply (find_key_In c_comment_id) in Ef. exfalso. auto. }
  rewrite Hu. cbn [bind]. eapply IH; eauto.
Qed.

Lemma insert_comment_data_tables eng df t w :
  fst (insert_comment_data eng df (t, w))
  = if empty df then t
    else match for_rows (insert_comment eng) (rows df) t with
         | Return t' => t'
         | Raise _ => t
         end.
Proof.
  unfold insert_comment_data. destruct (empty df); [reflexivity|].
  now destruct (for_rows _ _ _).
Qed.

(** X14.  [insert_comment_data] is idempotent on every frame, every
    store and every engine: a second call with the same frame leaves the
    tables as the first call left them. *)
Theorem insert_comment_data_idempotent (eng : engine) (df : DataFrame)
  (t : tables) (w : world) :
  let st1 := insert_comment_data eng df (t, w) in
  fst (insert_comment_data eng df st1) = fst st1.
Proof.
  cbn zeta.
  destruct (insert_comment_data eng df (t, w)) as [t1 w1] eqn:E1.
  apply (f_equal fst) in E1. rewrite insert_comment_data_tables in E1.
  cbn [fst] in *. rewrite insert_comment_data_tables.
  destruct (empty df); [reflexivity|].
  destruct (for_rows (insert_comment eng) (rows df) t) as [t'|e] eqn:E.
  - subst t'.
    now rewrite (for_rows_insert_comment_again eng (rows df) t t1 t1 E).
  - subst t1. now rewrite E.
Qed.

End GatewayFacts.

(** ** The migration over harvested data *)

Module MigrationFacts.
Import Frame FrameFacts Transformer Api ApiFacts Warehouse WarehouseFacts
  RowFacts App AppFacts Collect Runs.
Local Open Scope list_scope.
Local Open Scope nat_scope.

(** *** Steps that do not raise *)

Lemma returns_ret {A} (P : A -> Prop) a : P a -> returns P (ret a).
Proof. intros HP s r s' H. injection H as <- <-. eauto. Qed.

Lemma returns_lift {A} (P : A -> Prop) (o : outcome A) a :
  o = Return a -> P a -> returns P (lift o).
Proof. intros -> HP s r s' H. injection H as <- <-. eauto. Qed.

Lemma returns_bind {A B} (P1 : A -> Prop) (P2 : B -> Prop) (m : M A)
  (f : A -> M B) :
  returns P1 m -> (forall a, P1 a -> returns P2 (f a)) ->
  returns P2 (mbind m f).
Proof.
  intros Hm Hf s r s' H. unfold mbind in H.
  destruct (m s) as [[[a|e] s1]|] eqn:E; [| |discriminate].
  - destruct (Hm _ _ _ E) as (a' & Ea & HP). injection Ea as <-.
    exact (Hf a HP _ _ _ H).
  - destruct (Hm _ _ _ E) as (a' & Ea & _). discriminate.
Qed.

Lemma returns_weaken {A} (P Q : A -> Prop) (m : M A) :
  (forall a, P a -> Q a) -> returns P m -> returns Q m.
Proof.
  intros HPQ Hm s r s' H. destruct (Hm _ _ _ H) as (a & -> & HP). eauto.
Qed.

Lemma returns_st_show d : returns (fun _ => True) (st_show d).
Proof. intros s r s' H. injection H as <- <-. eauto. Qed.

Lemma returns_store_entry cid data :
  returns (fun _ => True) (store_entry cid data).
Proof. intros s r s' H. injection H as <- <-. eauto. Qed.

Lemma returns_api {A} (P : A -> Prop) (f : world -> A * world) :
  (forall w, P (fst (f w))) -> returns P (api f).
Proof.
  intros Hf s r s' H. unfold api in H. specialize (Hf (out s)).
  destruct (f (out s)) as [a w']. injection H as <- <-. eauto.
Qed.

Lemma returns_api_paged {A} (P : A -> Prop)
  (f : world -> option (A * world)) :
  (forall w a w', f w = Some (a, w') -> P a) -> returns P (api_paged f).
Proof.
  intros Hf s r s' H. unfold api_paged in H.
  destruct (f (out s)) as [[a w']|] eqn:E; [|discriminate].
  injection H as <- <-. eauto.
Qed.

Lemma returns_gateway f : returns (fun _ => True) (gateway f).
Proof.
  intros s r s' H. unfold gateway in H.
  destruct (f (store s, out s)). injection H as <- <-. eauto.
Qed.

Lemma returns_write f (count : Z -> M unit) n :
  (forall s, exists s', count n s = Some (Return tt, s')) ->
  returns (fun _ => True) (mbind (gateway f) (fun _ => count n)).
Proof.
  intros Hc. eapply returns_bind; [apply returns_gateway|].
  intros _ _ s r s' H. destruct (Hc s) as (s1 & E). rewrite E in H.
  injection H as <- <-. eauto.
Qed.

Lemma get_comments_of_video_shape fuel up (vid : string) max w r w' :
  get_comments_of_video fuel up (CStr vid) max w = Some (r, w') ->
  exists its, r = Return (map (comment_info (CStr vid)) its).
Proof.
  unfold get_comments_of_video. intros H.
  destruct (comments_loop fuel up (CStr vid) max None [] 0%Z w)
    as [[[l|e] w1]|] eqn:E; [| |discriminate].
  - injection H as <- _.
    destruct (ClientFacts.comments_loop_shape _ _ _ _ _ _ _ _ _ _ [] E
                eq_refl) as (its & ->). eauto.
  - injection H as <- _. now exists [].
Qed.

Section Harvested.

Variable fuel : nat.
Variable eng : engine.
Variable up : upstream.
Variable to_dates : list cell -> outcome (list cell).

Hypothesis to_dates_total : forall col,
  exists out, to_dates col = Return out /\ length out = length col.

Lemma process_video_data_returns items :
  exists df,
    process_video_data to_dates (Some (map video_details items)) = Return df.
Proof.
  destruct items as [|it items]; [now exists empty_frame|].
  destruct (to_dates_total
              (map (fun it => CStr (vi_publishedAt it)) (it :: items)))
    as (dates & Hd & Hl).
  rewrite length_map in Hl.
  eexists. apply (process_video_data_of_items to_dates (it :: items) dates);
    [discriminate|exact Hd|exact Hl].
Qed.

Lemma process_comment_data_returns (cs : list (string * thread_item)) :
  exists df,
    process_comment_data to_dates
      (Some (map (fun p => comment_info (CStr (fst p)) (snd p)) cs))
    = Return df.
Proof.
  destruct cs as [|p cs]; [now exists empty_frame|].
  destruct (to_dates_total
              (map (fun p => CStr (ti_publishedAt (snd p))) (p :: cs)))
    as (dates & Hd & Hl).
  rewrite length_map in Hl.
  eexists. apply (process_comment_data_of_items to_dates (p :: cs) dates);
    [discriminate|exact Hd|exact Hl].
Qed.

Lemma insert_channel_step_returns data :
  returns (fun _ => True) (insert_channel_step eng data).
Proof.
  unfold insert_channel_step. destruct (empty _); [now apply returns_ret|].
  apply returns_write. intros s. eexists. reflexivity.
Qed.

Lemma fill_videos_returns cid data :
  harvested_entry data ->
  returns harvested_entry (fill_videos fuel up cid data).
Proof.
  intros (c & items & cs & ->). unfold fill_videos.
  destruct (_ && _); [|apply returns_ret; now exists c, items, cs].
  eapply returns_bind; [apply returns_st_show|intros _ _].
  eapply returns_bind;
    [apply (returns_lift (fun _ => True) _ (CStr (ci_uploads c)));
       [reflexivity|exact I]|intros pid _].
  eapply returns_bind with (P1 := fun _ => True).
  { apply returns_api_paged. auto. }
  intros ids _.
  eapply returns_bind
    with (P1 := fun l => exists items', l = map video_details items').
  { apply returns_api. intros w.
    destruct (get_video_details_calls up ids w) as [_ ->].
    rewrite ClientFacts.batches_records_items. eauto. }
  intros l (items' & ->).
  eapply returns_bind; [apply returns_store_entry|intros _ _].
  apply returns_ret. now exists c, items', cs.
Qed.

Lemma insert_videos_step_returns data :
  harvested_entry data ->
  returns (fun _ => True) (insert_videos_step eng to_dates data).
Proof.
  intros (c & items & cs & ->). unfold insert_videos_step.
  destruct (process_video_data_returns items) as (df & Hdf).
  eapply returns_bind;
    [apply (returns_lift (fun _ => True) _ df); [exact Hdf|exact I]|].
  intros df' _. destruct (empty df'); [now apply returns_ret|].
  apply returns_write. intros s. eexists. reflexivity.
Qed.

Lemma fetch_comments_returns cid vids : forall data,
  harvested_entry data ->
  returns harvested_entry
    (fetch_comments fuel up cid data (map video_details vids)).
Proof.
  induction vids as [|it vids IH]; intros data Hd;
    cbn [map fetch_comments]; [now apply returns_ret|].
  destruct Hd as (c & items & cs & ->).
  eapply returns_bind
    with (P1 := fun v => v = CStr (vi_id it)).
  { now apply (returns_lift _ _ (CStr (vi_id it))). }
  intros v ->.
  eapply returns_bind
    with (P1 := fun r => exists its,
                  r = Return (map (comment_info (CStr (vi_id it))) its)).
  { apply returns_api_paged. intros w r w'.
    apply get_comments_of_video_shape. }
  intros r (its & ->).
  eapply returns_bind
    with (P1 := fun l => l = map (comment_info (CStr (vi_id it))) its).
  { now apply (returns_lift _ _ (map (comment_info (CStr (vi_id it))) its)). }
  intros l ->.
  assert (Hd : harvested_entry
                 (mkStaged (s_channel_info (consistent_entry c items cs))
                    (s_videos (consistent_entry c items cs))
                    (s_comments (consistent_entry c items cs)
                     ++ map (comment_info (CStr (vi_id it))) its))).
  { exists c, items, (cs ++ map (pair (vi_id it)) its).
    unfold consistent_entry. cbn [s_channel_info s_videos s_comments].
    now rewrite map_app, map_map. }
  eapply returns_bind; [apply returns_store_entry|intros _ _].
  now apply IH.
Qed.

Lemma fill_comments_returns cid data :
  harvested_entry data ->
  returns harvested_entry (fill_comments fuel up cid data).
Proof.
  intros Hd. unfold fill_comments.
  destruct (_ && _); [|now apply returns_ret].
  eapply returns_bind; [apply returns_st_show|intros _ _].
  eapply returns_bind.
  { destruct Hd as (c & items & cs & ->).
    apply fetch_comments_returns. now exists c, items, cs. }
  intros data' Hd'.
  eapply returns_bind; [apply returns_store_entry|intros _ _].
  now apply returns_ret.
Qed.

Lemma insert_comments_step_returns data :
  harvested_entry data ->
  returns (fun _ => True) (insert_comments_step eng to_dates data).
Proof.
  intros (c & items & cs & ->). unfold insert_comments_step.
  destruct (process_comment_data_returns cs) as (df & Hdf).
  eapply returns_bind;
    [apply (returns_lift (fun _ => True) _ df); [exact Hdf|exact I]|].
  intros df' _. destruct (empty df'); [now apply returns_ret|].
  apply returns_write. intros s. eexists. reflexivity.
Qed.

Lemma migrate_channel_returns cid data :
  harvested_entry data ->
  returns (fun _ => True) (migrate_channel fuel eng up to_dates cid data).
Proof.
  intros Hd. unfold migrate_channel.
  eapply returns_bind with (P1 := fun _ => True).
  { destruct Hd as (c & items & cs & ->).
    now apply (returns_lift _ _ (CStr (ci_title c))). }
  intros _ _.
  eapply returns_bind; [apply returns_st_show|intros _ _].
  eapply returns_bind; [apply insert_channel_step_returns|intros _ _].
  eapply returns_bind; [now apply fill_videos_returns|intros d1 Hd1].
  eapply returns_bind; [now apply insert_videos_step_returns|intros _ _].
  eapply returns_bind; [now apply fill_comments_returns|intros d2 Hd2].
  now apply insert_comments_step_returns.
Qed.

Lemma for_channels_returns items :
  Forall (fun kv => harvested_entry (snd kv)) items ->
  returns (fun _ => True) (for_channels fuel eng up to_dates items).
Proof.
  induction 1 as [|[cid data] items Hd _ IH]; cbn [for_channels].
  - now apply returns_ret.
  - eapply returns_bind; [now apply migrate_channel_returns|].
    intros _ _. exact IH.
Qed.

End Harvested.

(** *** Steps that come to an end *)

Lemma total_ret {A} (a : A) : total (ret a).
Proof. intros s. now eexists _, _. Qed.

Lemma total_lift {A} (o : outcome A) : total (lift o).
Proof. intros s. now eexists _, _. Qed.

Lemma total_bind {A B} (m : M A) (f : A -> M B) :
  total m -> (forall a, total (f a)) -> total (mbind m f).
Proof.
  intros Hm Hf s. unfold mbind. destruct (Hm s) as ([a|e] & s1 & ->).
  - apply Hf.
  - now eexists _, _.
Qed.

Lemma total_st_show d : total (st_show d).
Proof. intros s. now eexists _, _. Qed.

Lemma total_gateway f : total (gateway f).
Proof.
  intros s. unfold gateway. destruct (f (store s, out s)). now eexists _, _.
Qed.

Lemma total_write f (count : Z -> M unit) n :
  (forall s, exists s', count n s = Some (Return tt, s')) ->
  total (mbind (gateway f) (fun _ => count n)).
Proof.
  intros Hc. apply total_bind; [apply total_gateway|].
  intros _ s. destruct (Hc s) as (s1 & ->). now eexists _, _.
Qed.

Lemma total_bind_ret {A B} (a : A) (f : A -> M B) :
  total (f a) -> total (mbind (ret a) f).
Proof. intros H s. exact (H s). Qed.

Lemma migrate_channel_total fuel eng up to_dates cid data :
  s_videos data <> [] -> s_comments data <> [] ->
  total (migrate_channel fuel eng up to_dates cid data).
Proof.
  intros Hv Hc. unfold migrate_channel.
  apply total_bind; [apply total_lift|intros _].
  apply total_bind; [apply total_st_show|intros _].
  apply total_bind.
  { unfold insert_channel_step. destruct (empty _); [apply total_ret|].
    apply total_write. intros s. eexists. reflexivity. }
  intros _.
  assert (Ev : fill_videos fuel up cid data = ret data).
  { unfold fill_videos. destruct (s_videos data); [contradiction|].
    reflexivity. }
  assert (Ec : fill_comments fuel up cid data = ret data).
  { unfold fill_comments. destruct (s_comments data); [contradiction|].
    reflexivity. }
  rewrite Ev. apply total_bind_ret.
  apply total_bind.
  { unfold insert_videos_step. apply total_bind; [apply total_lift|].
    intros df. destruct (empty df); [apply total_ret|].
    apply total_write. intros s. eexists. reflexivity. }
  intros _. rewrite Ec. apply total_bind_ret.
  unfold insert_comments_step. apply total_bind; [apply total_lift|].
  intros df. destruct (empty df); [apply total_ret|].
  apply total_write. intros s. eexists. reflexivity.
Qed.

Lemma for_channels_total fuel eng up to_dates items :
  complete items -> total (for_channels fuel eng up to_dates items).
Proof.
  induction 1 as [|[cid data] items [Hv Hc] _ IH]; cbn [for_channels].
  - apply total_ret.
  - apply total_bind; [now apply migrate_channel_total|intros _; exact IH].
Qed.



(** *** The staging collection after a run *)

Lemma keeps_keys_bind {A B} (m : M A) (f : A -> M B) :
  keeps_keys m -> (forall a, keeps_keys (f a)) -> keeps_keys (mbind m f).
Proof.
  intros Hm Hf s r s' H. unfold mbind in H.
  destruct (m s) as [[[a|e] s1]|] eqn:E; [| |discriminate].
  - rewrite (Hf a _ _ _ H). eapply Hm; eauto.
  - injection H as <- <-. eapply Hm; eauto.
Qed.

Lemma keeps_keys_quiet {A} (m : M A) :
  (forall s r s', m s = Some (r, s') ->
     collected_channels_data s' = collected_channels_data s) ->
  keeps_keys m.
Proof. intros H s r s' E. now rewrite (H _ _ _ E). Qed.

Lemma keeps_keys_ret {A} (a : A) : keeps_keys (ret a).
Proof. apply keeps_keys_quiet. intros s r s' E. now injection E as <- <-. Qed.

Lemma keeps_keys_lift {A} (o : outcome A) : keeps_keys (lift o).
Proof. apply keeps_keys_quiet. intros s r s' E. now injection E as <- <-. Qed.

Lemma keeps_keys_st_show d : keeps_keys (st_show d).
Proof. apply keeps_keys_quiet. intros s r s' E. now injection E as <- <-. Qed.

Lemma keeps_keys_api {A} (f : world -> A * world) : keeps_keys (api f).
Proof.
  apply keeps_keys_quiet. intros s r s' E. unfold api in E.
  destruct (f (out s)). now injection E as <- <-.
Qed.

Lemma keeps_keys_api_paged {A} (f : world -> option (A * world)) :
  keeps_keys (api_paged f).
Proof.
  apply keeps_keys_quiet. intros s r s' E. unfold api_paged in E.
  destruct (f (out s)) as [[a w]|]; [|discriminate]. now injection E as <- <-.
Qed.

Lemma keeps_keys_gateway f : keeps_keys (gateway f).
Proof.
  apply keeps_keys_quiet. intros s r s' E. unfold gateway in E.
  destruct (f (store s, out s)). now injection E as <- <-.
Qed.

Lemma keeps_keys_store_entry cid data : keeps_keys (store_entry cid data).
Proof.
  intros s r s' E. injection E as <- <-. cbn. rewrite map_map.
  apply map_ext. intros [k d]. cbn. now destruct (String.eqb k cid).
Qed.

Lemma keeps_keys_write f (count : Z -> M unit) n :
  (forall s, exists s', count n s = Some (Return tt, s') /\
                        collected_channels_data s'
                        = collected_channels_data s) ->
  keeps_keys (mbind (gateway f) (fun _ => count n)).
Proof.
  intros Hc. apply keeps_keys_bind; [apply keeps_keys_gateway|].
  intros _. apply keeps_keys_quiet. intros s r s' E.
  destruct (Hc s) as (s1 & E1 & Hs). rewrite E1 in E.
  now injection E as <- <-.
Qed.

Create HintDb keys.

#[local] Hint Resolve keeps_keys_ret keeps_keys_lift keeps_keys_st_show
  keeps_keys_api keeps_keys_api_paged keeps_keys_gateway
  keeps_keys_store_entry : keys.

Lemma fetch_comments_keeps_keys fuel up cid vids : forall d,
  keeps_keys (fetch_comments fuel up cid d vids).
Proof.
  induction vids as [|v vids IH]; intros d; cbn [fetch_comments].
  - apply keeps_keys_ret.
  - repeat (apply keeps_keys_bind; [auto with keys|intros]). apply IH.
Qed.

Lemma migrate_channel_keeps_keys fuel eng up to_dates cid data :
  keeps_keys (migrate_channel fuel eng up to_dates cid data).
Proof.
  unfold migrate_channel.
  apply keeps_keys_bind; [auto with keys|intros _].
  apply keeps_keys_bind; [auto with keys|intros _].
  apply keeps_keys_bind.
  { unfold insert_channel_step. destruct (empty _); [apply keeps_keys_ret|].
    apply keeps_keys_write. intros s. eexists. split; reflexivity. }
  intros _. apply keeps_keys_bind.
  { unfold fill_videos. destruct (_ && _); [|apply keeps_keys_ret].
    repeat (apply keeps_keys_bind; [auto with keys|intros]).
    apply keeps_keys_ret. }
  intros d1. apply keeps_keys_bind.
  { unfold insert_videos_step.
    apply keeps_keys_bind; [auto with keys|intros df].
    destruct (empty df); [apply keeps_keys_ret|].
    apply keeps_keys_write. intros s. eexists. split; reflexivity. }
  intros _. apply keeps_keys_bind.
  { unfold fill_comments. destruct (_ && _); [|apply keeps_keys_ret].
    apply keeps_keys_bind; [auto with keys|intros _].
    apply keeps_keys_bind; [apply fetch_comments_keeps_keys|intros d2].
    apply keeps_keys_bind; [auto with keys|intros _]. apply keeps_keys_ret. }
  intros d2. unfold insert_comments_step.
  apply keeps_keys_bind; [auto with keys|intros df].
  destruct (empty df); [apply keeps_keys_ret|].
  apply keeps_keys_write. intros s. eexists. split; reflexivity.
Qed.

Lemma for_channels_keeps_keys fuel eng up to_dates items :
  keeps_keys (for_channels fuel eng up to_dates items).
Proof.
  induction items as [|[cid data] items IH]; cbn [for_channels].
  - apply keeps_keys_ret.
  - apply keeps_keys_bind;
      [apply migrate_channel_keeps_keys|intros _; exact IH].
Qed.

(** X16.  The staging collection after a run of the migration: cleared
    when the run ends normally; when the run is stopped by an exception,
    every staged channel is still staged, under its key and in place,
    and the warehouse keeps every row it held, with what was written
    before the exception. *)
Theorem migrate_clears_or_keeps_staging (fuel : nat) (eng : engine)
  (up : upstream) (to_dates : list cell -> outcome (list cell))
  (s s' : session) (r : outcome unit) :
  migrate fuel eng up to_dates s = Some (r, s') ->
  stores_more (store s) (store s') /\
  match r with
  | Return _ => collected_channels_data s' = []
  | Raise _ =>
      map fst (collected_channels_data s')
      = map fst (collected_channels_data s)
  end.
Proof.
  intros H. apply migrate_unfold in H as (r1 & s1 & H1 & _ & Hs & Hraise & Hret).
  split.
  - rewrite Hs.
    exact (for_channels_stores_more fuel eng up to_dates (store s) _ _ _ _ H1
             (stores_more_refl _)).
  - destruct r1 as [[]|e].
    + destruct (Hret eq_refl) as [-> Hc]. exact Hc.
    + destruct (Hraise e eq_refl) as [-> Hc]. rewrite Hc.
      exact (for_channels_keeps_keys fuel eng up to_dates _ _ _ _ H1).
Qed.

Lemma migrate_clears_or_keeps_staging_witness :
  exists s',
    migrate 5 Examples.accepting Examples.small_upstream iso_dates
      (Examples.fresh_session Scenarios.undated_staged)
    = Some (Raise (KeyError "published_date"), s') /\
    map fst (collected_channels_data s') = ["UC1"] /\
    map ch_channel_id (channels (store s')) = ["UC1"].
Proof.
  destruct (migrate 5 Examples.accepting Examples.small_upstream iso_dates
              (Examples.fresh_session Scenarios.undated_staged))
    as [[r s']|] eqn:E; [|vm_compute in E; discriminate E].
  destruct (migrate_clears_or_keeps_staging _ _ _ _ _ _ _ E) as [_ Hk].
  vm_compute in E. injection E as <- <-.
  eexists. split; [reflexivity|]. split; [exact Hk|reflexivity].
Defined.

End MigrationFacts.
(** ** What a migration does is blind to the warehouse *)

Module BlindFacts.
Import Frame FrameFacts Transformer Api ApiFacts Warehouse WarehouseFacts
  App AppFacts Runs.
Local Open Scope list_scope.
Local Open Scope nat_scope.

Lemma same_run_refl s : same_run s s.
Proof. repeat split. Qed.

Lemma blind_ret {A} (a : A) : blind (ret a) (ret a).
Proof. intros s1 s2 H. split; [reflexivity|exact H]. Qed.

Lemma blind_lift {A} (o : outcome A) : blind (lift o) (lift o).
Proof. intros s1 s2 H. split; [reflexivity|exact H]. Qed.

Lemma blind_bind {A B} (m1 m2 : M A) (f1 f2 : A -> M B) :
  blind m1 m2 -> (forall a, blind (f1 a) (f2 a)) ->
  blind (mbind m1 f1) (mbind m2 f2).
Proof.
  intros Hm Hf s1 s2 H. specialize (Hm s1 s2 H). unfold mbind, same_end in *.
  destruct (m1 s1) as [[[a1|e1] s1']|], (m2 s2) as [[[a2|e2] s2']|];
    try contradiction; try (destruct Hm; discriminate); auto.
  - destruct Hm as [E Hs]. injection E as <-. exact (Hf a1 s1' s2' Hs).
  - destruct Hm as [E Hs]. injection E as <-. now split.
Qed.

Lemma blind_st_show d1 d2 : blind (st_show d1) (st_show d2).
Proof.
  intros s1 s2 (Hc & Hl & H1 & H2 & H3). split; [reflexivity|].
  repeat split; auto.
Qed.

Lemma blind_store_entry cid data :
  blind (store_entry cid data) (store_entry cid data).
Proof.
  intros s1 s2 (Hc & Hl & H1 & H2 & H3). split; [reflexivity|].
  repeat split; cbn; auto. now rewrite Hc.
Qed.

Lemma blind_count_channels n : blind (count_channels n) (count_channels n).
Proof.
  intros s1 s2 (Hc & Hl & H1 & H2 & H3). split; [reflexivity|].
  repeat split; cbn; auto. now rewrite H1.
Qed.

Lemma blind_count_videos n : blind (count_videos n) (count_videos n).
Proof.
  intros s1 s2 (Hc & Hl & H1 & H2 & H3). split; [reflexivity|].
  repeat split; cbn; auto. now rewrite H2.
Qed.

Lemma blind_count_comments n : blind (count_comments n) (count_comments n).
Proof.
  intros s1 s2 (Hc & Hl & H1 & H2 & H3). split; [reflexivity|].
  repeat split; cbn; auto. now rewrite H3.
Qed.

Lemma blind_api {A} (f : world -> A * world) :
  (forall w1 w2, calls w1 = calls w2 ->
     fst (f w1) = fst (f w2) /\ calls (snd (f w1)) = calls (snd (f w2))) ->
  blind (api f) (api f).
Proof.
  intros Hf s1 s2 (Hc & Hl & H1 & H2 & H3). unfold api, same_end.
  destruct (Hf _ _ Hl) as [Ha Hw].
  destruct (f (out s1)) as [a1 w1], (f (out s2)) as [a2 w2]. cbn in *.
  subst a2. split; [reflexivity|]. repeat split; auto.
Qed.

Lemma blind_api_paged {A} (f : world -> option (A * world)) :
  (forall w1 w2, calls w1 = calls w2 ->
     match f w1, f w2 with
     | Some (a1, w1'), Some (a2, w2') => a1 = a2 /\ calls w1' = calls w2'
     | None, None => True
     | _, _ => False
     end) ->
  blind (api_paged f) (api_paged f).
Proof.
  intros Hf s1 s2 (Hc & Hl & H1 & H2 & H3). unfold api_paged, same_end.
  specialize (Hf _ _ Hl).
  destruct (f (out s1)) as [[a1 w1]|], (f (out s2)) as [[a2 w2]|];
    try contradiction; auto.
  destruct Hf as [-> Hw]. split; [reflexivity|]. repeat split; auto.
Qed.

Lemma blind_gateway f1 f2 :
  (forall t1 t2 w1 w2, calls w1 = calls w2 ->
     calls (snd (f1 (t1, w1))) = calls (snd (f2 (t2, w2)))) ->
  blind (gateway f1) (gateway f2).
Proof.
  intros Hf s1 s2 (Hc & Hl & H1 & H2 & H3). unfold gateway, same_end.
  specialize (Hf (store s1) (store s2) _ _ Hl).
  destruct (f1 (store s1, out s1)) as [t1 w1],
           (f2 (store s2, out s2)) as [t2 w2]. cbn in *.
  split; [reflexivity|]. repeat split; auto.
Qed.

(** *** The API client reads the log of calls only *)

Lemma playlist_loop_calls_only up pid fuel : forall tok ids w1 w2,
  calls w1 = calls w2 ->
  match playlist_loop fuel up pid tok ids w1,
        playlist_loop fuel up pid tok ids w2 with
  | Some (r1, w1'), Some (r2, w2') => r1 = r2 /\ calls w1' = calls w2'
  | None, None => True
  | _, _ => False
  end.
Proof.
  induction fuel as [|fuel IH]; intros tok ids w1 w2 H; cbn [playlist_loop];
    [exact I|].
  rewrite H.
  destruct (playlistItems_list up (length (calls w2)) pid tok)
    as [[items next]|e].
  - destruct (no_token next).
    + split; [reflexivity|]. simpl. now rewrite H.
    + apply IH. simpl. now rewrite H.
  - split; [reflexivity|]. simpl. now rewrite H.
Qed.

Lemma get_playlist_video_ids_calls_only fuel up pid w1 w2 :
  calls w1 = calls w2 ->
  match get_playlist_video_ids fuel up pid w1,
        get_playlist_video_ids fuel up pid w2 with
  | Some (a1, w1'), Some (a2, w2') => a1 = a2 /\ calls w1' = calls w2'
  | None, None => True
  | _, _ => False
  end.
Proof.
  intros H. unfold get_playlist_video_ids.
  pose proof (playlist_loop_calls_only up pid fuel None [] w1 w2 H) as L.
  destruct (playlist_loop fuel up pid None [] w1) as [[r1 w1']|],
           (playlist_loop fuel up pid None [] w2) as [[r2 w2']|];
    try contradiction; auto.
  destruct L as [<- Hw]. destruct r1 as [ids|e]; [auto|].
  destruct e; auto.
Qed.

Lemma comments_loop_calls_only up vid max fuel : forall tok cl c w1 w2,
  calls w1 = calls w2 ->
  match comments_loop fuel up vid max tok cl c w1,
        comments_loop fuel up vid max tok cl c w2 with
  | Some (r1, w1'), Some (r2, w2') => r1 = r2 /\ calls w1' = calls w2'
  | None, None => True
  | _, _ => False
  end.
Proof.
  induction fuel as [|fuel IH]; intros tok cl c w1 w2 H;
    cbn [comments_loop]; (destruct (c <? max)%Z; [|auto]); [exact I|].
  rewrite H.
  destruct (commentThreads_list up (length (calls w2)) vid _ tok)
    as [[items next]|e].
  - destruct (page_items vid max items cl c) as [cl' c'].
    destruct (no_token next).
    + split; [reflexivity|]. simpl. now rewrite H.
    + apply IH. simpl. now rewrite H.
  - split; [reflexivity|]. simpl. now rewrite H.
Qed.

Lemma get_comments_of_video_calls_only fuel up vid max w1 w2 :
  calls w1 = calls w2 ->
  match get_comments_of_video fuel up vid max w1,
        get_comments_of_video fuel up vid max w2 with
  | Some (a1, w1'), Some (a2, w2') => a1 = a2 /\ calls w1' = calls w2'
  | None, None => True
  | _, _ => False
  end.
Proof.
  intros H. unfold get_comments_of_video.
  pose proof (comments_loop_calls_only up vid max fuel None [] 0%Z w1 w2 H)
    as L.
  destruct (comments_loop fuel up vid max None [] 0%Z w1) as [[r1 w1']|],
           (comments_loop fuel up vid max None [] 0%Z w2) as [[r2 w2']|];
    try contradiction; auto.
  destruct L as [<- Hw]. destruct r1 as [l|e]; auto.
Qed.

Lemma get_video_details_calls_only up ids w1 w2 :
  calls w1 = calls w2 ->
  fst (get_video_details up ids w1) = fst (get_video_details up ids w2) /\
  calls (snd (get_video_details up ids w1))
  = calls (snd (get_video_details up ids w2)).
Proof.
  intros H.
  destruct (get_video_details_calls up ids w1) as [C1 R1].
  destruct (get_video_details_calls up ids w2) as [C2 R2].
  now rewrite C1, C2, R1, R2, H.
Qed.

Section TwoEngines.

Variable fuel : nat.
Variables eng1 eng2 : engine.
Variable up : upstream.
Variable to_dates : list cell -> outcome (list cell).

Lemma fetch_comments_blind cid vids : forall d,
  blind (fetch_comments fuel up cid d vids)
    (fetch_comments fuel up cid d vids).
Proof.
  induction vids as [|v vids IH]; intros d; cbn [fetch_comments].
  - apply blind_ret.
  - apply blind_bind; [apply blind_lift|intros vid].
    apply blind_bind.
    { apply blind_api_paged. apply get_comments_of_video_calls_only. }
    intros r. apply blind_bind; [apply blind_lift|intros l].
    apply blind_bind; [apply blind_store_entry|intros _]. apply IH.
Qed.

Lemma migrate_channel_blind cid data :
  blind (migrate_channel fuel eng1 up to_dates cid data)
    (migrate_channel fuel eng2 up to_dates cid data).
Proof.
  unfold migrate_channel.
  apply blind_bind; [apply blind_lift|intros _].
  apply blind_bind; [apply blind_st_show|intros _].
  apply blind_bind.
  { unfold insert_channel_step. destruct (empty _); [apply blind_ret|].
    apply blind_bind; [|intros _; apply blind_count_channels].
    apply blind_gateway. intros t1 t2 w1 w2 H.
    now rewrite !insert_channel_data_calls, H. }
  intros _. apply blind_bind.
  { unfold fill_videos. destruct (_ && _); [|apply blind_ret].
    apply blind_bind; [apply blind_st_show|intros _].
    apply blind_bind; [apply blind_lift|intros pid].
    apply blind_bind.
    { apply blind_api_paged. apply get_playlist_video_ids_calls_only. }
    intros ids. apply blind_bind.
    { apply blind_api. apply get_video_details_calls_only. }
    intros l. apply blind_bind; [apply blind_store_entry|intros _].
    apply blind_ret. }
  intros d1. apply blind_bind.
  { unfold insert_videos_step. apply blind_bind; [apply blind_lift|intros df].
    destruct (empty df); [apply blind_ret|].
    apply blind_bind; [|intros _; apply blind_count_videos].
    apply blind_gateway. intros t1 t2 w1 w2 H.
    now rewrite !insert_video_data_calls, H. }
  intros _. apply blind_bind.
  { unfold fill_comments. destruct (_ && _); [|apply blind_ret].
    apply blind_bind; [apply blind_st_show|intros _].
    apply blind_bind; [apply fetch_comments_blind|intros d2].
    apply blind_bind; [apply blind_store_entry|intros _]. apply blind_ret. }
  intros d2. unfold insert_comments_step.
  apply blind_bind; [apply blind_lift|intros df].
  destruct (empty df); [apply blind_ret|].
  apply blind_bind; [|intros _; apply blind_count_comments].
  apply blind_gateway. intros t1 t2 w1 w2 H.
  now rewrite !insert_comment_data_calls, H.
Qed.

Lemma for_channels_blind items :
  blind (for_channels fuel eng1 up to_dates items)
    (for_channels fuel eng2 up to_dates items).
Proof.
  induction items as [|[cid data] items IH]; cbn [for_channels].
  - apply blind_ret.
  - apply blind_bind; [apply migrate_channel_blind|intros _; exact IH].
Qed.

End TwoEngines.

(** X17.  What a migration fetches, stages, counts and ends with does
    not depend on the warehouse.  Two runs from states that differ in
    the warehouse only, against two engines that may behave in any way,
    make the same calls, end with the same result or the same exception,
    leave the same staging collection and report the same three totals:
    the totals count the rows sent, stored or not. *)
Theorem migrate_blind_to_warehouse (fuel : nat) (eng1 eng2 : engine)
  (up : upstream) (to_dates : list cell -> outcome (list cell))
  (s1 s2 : session) :
  same_run s1 s2 ->
  same_end (migrate fuel eng1 up to_dates s1)
    (migrate fuel eng2 up to_dates s2).
Proof.
  intros (Hc & Hl & _). unfold migrate. rewrite Hc.
  match goal with
  | |- same_end (?m1 ?i1) (?m2 ?i2) => assert (B : blind m1 m2)
  end.
  { apply blind_bind; [apply for_channels_blind|intros _].
    repeat (apply blind_bind; [apply blind_st_show|intros _]).
    apply blind_bind; [|intros _; apply blind_st_show].
    intros s1' s2' (Hc' & Hl' & H1 & H2 & H3). split; [reflexivity|].
    repeat split; auto. }
  apply B. repeat split; auto.
Qed.

Lemma migrate_blind_to_warehouse_witness :
  exists s1' s2',
    migrate 5 Examples.accepting Examples.small_upstream iso_dates
      (Examples.fresh_session Examples.one_channel_staged)
    = Some (Return tt, s1') /\
    migrate 5 Examples.unreachable Examples.small_upstream iso_dates
      (Examples.fresh_session Examples.one_channel_staged)
    = Some (Return tt, s2') /\
    same_run s1' s2' /\
    total_channels_migrated s2' = 1%Z /\ total_videos_migrated s2' = 1%Z /\
    total_comments_migrated s2' = 1%Z /\
    store s2' = Examples.empty_store.
Proof.
  pose proof (migrate_blind_to_warehouse 5 Examples.accepting
                Examples.unreachable Examples.small_upstream iso_dates
                (Examples.fresh_session Examples.one_channel_staged)
                (Examples.fresh_session Examples.one_channel_staged)
                (same_run_refl _)) as H.
  destruct (migrate 5 Examples.accepting _ _ _) as [[r1 s1']|] eqn:E1;
    [|vm_compute in E1; discriminate E1].
  destruct (migrate 5 Examples.unreachable _ _ _) as [[r2 s2']|] eqn:E2;
    [|vm_compute in E2; discriminate E2].
  destruct H as [Hr Hs].
  vm_compute in E1. injection E1 as <- <-.
  vm_compute in E2. injection E2 as <- <-.
  eexists _, _. repeat split.
Defined.

End BlindFacts.

(** ** The total of the channels migrated *)

Module CountFacts.
Import Frame FrameFacts Transformer Api Warehouse App AppFacts Runs.
Local Open Scope list_scope.
Local Open Scope Z_scope.

Lemma adds_bind {A B} n1 n2 (m : M A) (f : A -> M B) :
  adds_channels n1 m -> (forall a, adds_channels n2 (f a)) ->
  adds_channels (n1 + n2) (mbind m f).
Proof.
  intros Hm Hf s b s' H. unfold mbind in H.
  destruct (m s) as [[[a|e] s1]|] eqn:E; try discriminate.
  rewrite (Hf a _ _ _ H), (Hm _ _ _ E). lia.
Qed.

Lemma adds_quiet {A} (m : M A) :
  (forall s r s', m s = Some (r, s') ->
     total_channels_migrated s' = total_channels_migrated s) ->
  adds_channels 0 m.
Proof. intros H s a s' E. rewrite (H _ _ _ E). lia. Qed.

Lemma adds_ret {A} (a : A) : adds_channels 0 (ret a).
Proof. apply adds_quiet. intros s r s' E. now injection E as <- <-. Qed.

Lemma adds_lift {A} (o : outcome A) : adds_channels 0 (lift o).
Proof. apply adds_quiet. intros s r s' E. now injection E as <- <-. Qed.

Lemma adds_st_show d : adds_channels 0 (st_show d).
Proof. apply adds_quiet. intros s r s' E. now injection E as <- <-. Qed.

Lemma adds_store_entry cid data : adds_channels 0 (store_entry cid data).
Proof. apply adds_quiet. intros s r s' E. now injection E as <- <-. Qed.

Lemma adds_api {A} (f : world -> A * world) : adds_channels 0 (api f).
Proof.
  apply adds_quiet. intros s r s' E. unfold api in E.
  destruct (f (out s)). now injection E as <- <-.
Qed.

Lemma adds_api_paged {A} (f : world -> option (A * world)) :
  adds_channels 0 (api_paged f).
Proof.
  apply adds_quiet. intros s r s' E. unfold api_paged in E.
  destruct (f (out s)) as [[a w]|]; [|discriminate]. now injection E as <- <-.
Qed.

Lemma adds_gateway f : adds_channels 0 (gateway f).
Proof.
  apply adds_quiet. intros s r s' E. unfold gateway in E.
  destruct (f (store s, out s)). now injection E as <- <-.
Qed.

Lemma adds_count_channels n : adds_channels n (count_channels n).
Proof. intros s a s' E. injection E as _ <-. reflexivity. Qed.

Lemma adds_count_videos n : adds_channels 0 (count_videos n).
Proof. apply adds_quiet. intros s r s' E. now injection E as <- <-. Qed.

Lemma adds_count_comments n : adds_channels 0 (count_comments n).
Proof. apply adds_quiet. intros s r s' E. now injection E as <- <-. Qed.

Create HintDb adds.

#[local] Hint Resolve adds_ret adds_lift adds_st_show adds_store_entry
  adds_api adds_api_paged adds_gateway adds_count_videos
  adds_count_comments : adds.

Lemma adds_zero {A B} (m : M A) (f : A -> M B) :
  adds_channels 0 m -> (forall a, adds_channels 0 (f a)) ->
  adds_channels 0 (mbind m f).
Proof. intros Hm Hf. change 0 with (0 + 0). now apply adds_bind. Qed.

Lemma fetch_comments_adds fuel up cid vids : forall d,
  adds_channels 0 (fetch_comments fuel up cid d vids).
Proof.
  induction vids as [|v vids IH]; intros d; cbn [fetch_comments].
  - apply adds_ret.
  - repeat (apply adds_zero; [auto with adds|intros]). apply IH.
Qed.

Lemma one_row_frame kv (d : record) :
  empty (pd_DataFrame [kv :: d]) = false /\ len (pd_DataFrame [kv :: d]) = 1.
Proof.
  split; [|reflexivity]. unfold empty, pd_DataFrame. cbn [columns rows map].
  destruct (columns_of [kv :: d]) eqn:E; [|reflexivity].
  exfalso. destruct kv as [k v].
  assert (H : In k (columns_of [(k, v) :: d])).
  { apply TransformerErrors.columns_of_In. exists ((k, v) :: d).
    split; [now left|]. simpl. now rewrite String.eqb_refl. }
  now rewrite E in H.
Qed.

Lemma migrate_channel_adds fuel eng up to_dates cid data :
  adds_channels 1 (migrate_channel fuel eng up to_dates cid data).
Proof.
  unfold migrate_channel.
  destruct (s_channel_info data) as [|kv d] eqn:Ei.
  { intros s a s' H. discriminate H. }
  change 1 with (0 + (0 + (1 + (0 + (0 + (0 + 0)))))).
  apply adds_bind; [auto with adds|intros _].
  apply adds_bind; [auto with adds|intros _].
  apply adds_bind.
  { unfold insert_channel_step. rewrite Ei.
    change (process_channel_data (Some (kv :: d)))
      with (pd_DataFrame [kv :: d]).
    destruct (one_row_frame kv d) as [-> ->].
    change 1 with (0 + 1). apply adds_bind; [auto with adds|intros _].
    apply adds_count_channels. }
  intros _. apply adds_bind.
  { unfold fill_videos. destruct (_ && _); [|apply adds_ret].
    repeat (apply adds_zero; [auto with adds|intros]). apply adds_ret. }
  intros d1. apply adds_bind.
  { unfold insert_videos_step. apply adds_zero; [auto with adds|intros df].
    destruct (empty df); [apply adds_ret|].
    apply adds_zero; auto with adds. }
  intros _. apply adds_bind.
  { unfold fill_comments. destruct (_ && _); [|apply adds_ret].
    apply adds_zero; [auto with adds|intros _].
    apply adds_zero; [apply fetch_comments_adds|intros d2].
    apply adds_zero; [auto with adds|intros _]. apply adds_ret. }
  intros d2. unfold insert_comments_step.
  apply adds_zero; [auto with adds|intros df].
  destruct (empty df); [apply adds_ret|].
  apply adds_zero; auto with adds.
Qed.

Lemma for_channels_adds fuel eng up to_dates items :
  adds_channels (Z.of_nat (length items))
    (for_channels fuel eng up to_dates items).
Proof.
  induction items as [|[cid data] items IH]; cbn [for_channels].
  - apply adds_ret.
  - replace (Z.of_nat (length ((cid, data) :: items)))
      with (1 + Z.of_nat (length items)) by (simpl length; lia).
    apply adds_bind; [apply migrate_channel_adds|intros _; exact IH].
Qed.

(** X18.  The total of channels a migration reports is the number of
    channels that were staged, whatever became of their rows: whenever
    the run ends normally, with any engine and any upstream,
    [total_channels_migrated] is the size the staging collection had. *)
Theorem migrate_counts_staged_channels (fuel : nat) (eng : engine)
  (up : upstream) (to_dates : list cell -> outcome (list cell))
  (s s' : session) :
  migrate fuel eng up to_dates s = Some (Return tt, s') ->
  total_channels_migrated s'
  = Z.of_nat (length (collected_channels_data s)).
Proof.
  unfold migrate. intros H. unfold mbind at 1 in H.
  destruct (for_channels fuel eng up to_dates (collected_channels_data s) _)
    as [[[[]|e] s1]|] eqn:E; try discriminate.
  apply for_channels_adds in E. cbn [total_channels_migrated] in E.
  cbv [mbind st_show with_out with_staging] in H.
  injection H as <-. cbn. exact E.
Qed.

Lemma migrate_counts_staged_channels_witness :
  exists s',
    migrate 5 Examples.unreachable Examples.small_upstream iso_dates
      (Examples.fresh_session Examples.one_channel_staged)
    = Some (Return tt, s') /\
    total_channels_migrated s' = 1 /\ channels (store s') = [].
Proof.
  destruct (migrate 5 Examples.unreachable Examples.small_upstream iso_dates
              (Examples.fresh_session Examples.one_channel_staged))
    as [[[[]|e] s']|] eqn:E; try (vm_compute in E; discriminate E).
  exists s'. split; [reflexivity|]. split.
  - exact (migrate_counts_staged_channels _ _ _ _ _ _ E).
  - vm_compute in E. now injection E as <-.
Defined.

End CountFacts.

(** ** The Data Collection page *)

Module CollectFacts.
Import Frame FrameFacts Transformer Api ApiFacts Warehouse WarehouseFacts
  RowFacts App AppFacts Collect Runs.
Local Open Scope list_scope.
Local Open Scope nat_scope.

(** *** The page reads the upstream and never writes to the warehouse *)

Lemma logs_api_calls {A} (m : M A) :
  logs (Forall api_call) (fun _ => True) m ->
  forall B (f : A -> M B),
  (forall a, logs (Forall api_call) (fun _ => True) (f a)) ->
  logs (Forall api_call) (fun _ => True) (mbind m f).
Proof.
  intros Hm B f Hf.
  eapply logs_bind with (Q1 := Forall api_call) (Q2 := Forall api_call)
                        (P1 := fun _ => True).
  - exact Hm.
  - intros a _. apply Hf.
  - auto.
  - intros c1 c2 H1 H2. apply Forall_app. auto.
Qed.

Lemma logs_quiet_step {A} (m : M A) :
  (forall s r s', m s = Some (r, s') -> out s' = out s) ->
  logs (Forall api_call) (fun _ => True) m.
Proof.
  intros H. apply logs_quiet; [constructor|].
  intros s r s' E. rewrite (H _ _ _ E). auto.
Qed.

Lemma get_staging_quiet s r s' :
  get_staging s = Some (r, s') -> s' = s.
Proof. intros E. now injection E as _ <-. Qed.

Lemma add_entry_quiet k data s r s' :
  add_entry k data s = Some (r, s') -> out s' = out s /\ store s' = store s.
Proof. intros E. injection E as _ <-. auto. Qed.

Lemma update_entry_quiet k f s r s' :
  update_entry k f s = Some (r, s') -> out s' = out s /\ store s' = store s.
Proof.
  unfold update_entry. destruct (mem k _); intros E; injection E as _ <-; auto.
Qed.

Lemma get_channel_details_calls up id w :
  calls (snd (get_channel_details up id w)) = calls w ++ [ChannelsList id].
Proof.
  unfold get_channel_details.
  destruct (channels_list up (length (calls w)) id) as [[|c rest]|e];
    try reflexivity. now destruct e.
Qed.

Create HintDb reads.

Lemma logs_reads_ret {A} (a : A) :
  logs (Forall api_call) (fun _ => True) (ret a).
Proof. apply logs_ret; [constructor|exact I]. Qed.

Lemma logs_reads_lift {A} (o : outcome A) :
  logs (Forall api_call) (fun _ => True) (lift o).
Proof. apply logs_lift; [constructor|auto]. Qed.

Lemma logs_reads_show d :
  logs (Forall api_call) (fun _ => True) (st_show d).
Proof. apply logs_st_show. constructor. Qed.

Lemma logs_reads_get_staging :
  logs (Forall api_call) (fun _ => True) get_staging.
Proof.
  apply logs_quiet_step. intros s r s' E.
  now rewrite (get_staging_quiet _ _ _ E).
Qed.

Lemma logs_reads_add_entry k data :
  logs (Forall api_call) (fun _ => True) (add_entry k data).
Proof.
  apply logs_quiet_step. intros s r s' E. now apply add_entry_quiet in E.
Qed.

Lemma logs_reads_update_entry k f :
  logs (Forall api_call) (fun _ => True) (update_entry k f).
Proof.
  apply logs_quiet_step. intros s r s' E. now apply update_entry_quiet in E.
Qed.

Lemma logs_reads_channel up id :
  logs (Forall api_call) (fun _ => True) (api (get_channel_details up id)).
Proof.
  apply logs_api. intros w a w' E. exists [ChannelsList id].
  pose proof (get_channel_details_calls up id w) as H. rewrite E in H.
  split; [exact H|]. split; [|exact I]. repeat constructor.
Qed.

Lemma logs_reads_playlist fuel up pid :
  logs (Forall api_call) (fun _ => True)
    (api_paged (get_playlist_video_ids fuel up pid)).
Proof.
  apply logs_api_paged. intros w a w' E.
  destruct (get_playlist_video_ids_calls _ _ _ _ _ _ E) as (cs & Hc & Ha).
  eauto.
Qed.

Lemma logs_reads_videos up ids :
  logs (Forall api_call) (fun _ => True) (api (get_video_details up ids)).
Proof.
  apply logs_api. intros w a w' E.
  destruct (get_video_details_calls up ids w) as [Hc _]. rewrite E in Hc.
  eexists. split; [exact Hc|]. split; [|exact I].
  apply Forall_forall. intros c Hin.
  apply in_map_iff in Hin as (b & <- & _). exact I.
Qed.

Lemma logs_reads_comments fuel up vid max :
  logs (Forall api_call) (fun _ => True)
    (api_paged (get_comments_of_video fuel up vid max)).
Proof.
  apply logs_api_paged. intros w a w' E.
  destruct (get_comments_of_video_calls _ _ _ _ _ _ _ E)
    as (_ & cs & Hc & Ha).
  eauto.
Qed.

#[local] Hint Resolve logs_reads_ret logs_reads_lift logs_reads_show
  logs_reads_get_staging logs_reads_add_entry logs_reads_update_entry
  logs_reads_channel logs_reads_playlist logs_reads_videos
  logs_reads_comments : reads.

#[local] Hint Resolve keeps_ret keeps_lift keeps_st_show keeps_api
  keeps_api_paged : reads.

Lemma keeps_get_staging I : keeps I get_staging.
Proof.
  apply keeps_quiet. intros s r s' E. now rewrite (get_staging_quiet _ _ _ E).
Qed.

Lemma keeps_add_entry I k data : keeps I (add_entry k data).
Proof. apply keeps_quiet. intros s r s' E. now apply add_entry_quiet in E. Qed.

Lemma keeps_update_entry I k f : keeps I (update_entry k f).
Proof.
  apply keeps_quiet. intros s r s' E. now apply update_entry_quiet in E.
Qed.

#[local] Hint Resolve keeps_get_staging keeps_add_entry keeps_update_entry
  : reads.

Ltac bind_with tac :=
  first [ apply logs_api_calls; [tac|intros]
        | apply keeps_bind; [tac|intros] ].

Ltac reads_step := bind_with ltac:(solve [auto with reads]).

Section Page.

Variable fuel : nat.
Variable up : upstream.

Lemma fetch_all_comments_reads vids : forall acc,
  logs (Forall api_call) (fun _ => True) (fetch_all_comments fuel up vids acc).
Proof.
  induction vids as [|v vids IH]; intros acc; cbn [fetch_all_comments].
  - auto with reads.
  - repeat reads_step. apply IH.
Qed.

Lemma fetch_all_comments_keeps I vids : forall acc,
  keeps I (fetch_all_comments fuel up vids acc).
Proof.
  induction vids as [|v vids IH]; intros acc; cbn [fetch_all_comments].
  - auto with reads.
  - repeat reads_step. apply IH.
Qed.

Lemma data_collection_reads ui :
  logs (Forall api_call) (fun _ => True) (data_collection fuel up ui).
Proof.
  unfold data_collection. apply logs_api_calls.
  - unfold fetch_channel_data. destruct (fetch_button ui); [|auto with reads].
    destruct (channel_id_input ui) as [|c0 k]; [auto with reads|].
    bind_with ltac:(solve [auto with reads]).
    match goal with a : option record |- _ =>
      destruct a as [[|kv d]|]; try solve [auto with reads] end.
    repeat reads_step.
    bind_with ltac:(destruct (mem _ _); [reads_step|]; auto with reads).
    reads_step. destruct (videos_box ui); [|auto with reads].
    unfold fetch_videos_now. repeat reads_step.
    destruct (truthy _); [|auto with reads].
    repeat reads_step. destruct (comments_box ui); [|auto with reads].
    bind_with ltac:(apply fetch_all_comments_reads).
    reads_step. auto with reads.
  - intros _. unfold show_collected. repeat reads_step.
    destruct (truthy _); [|auto with reads].
    reads_step. destruct (_ <=? _)%Z; auto with reads.
Qed.

Lemma data_collection_keeps I ui : keeps I (data_collection fuel up ui).
Proof.
  unfold data_collection. apply keeps_bind.
  - unfold fetch_channel_data. destruct (fetch_button ui); [|auto with reads].
    destruct (channel_id_input ui) as [|c0 k]; [auto with reads|].
    bind_with ltac:(solve [auto with reads]).
    match goal with a : option record |- _ =>
      destruct a as [[|kv d]|]; try solve [auto with reads] end.
    repeat reads_step.
    bind_with ltac:(destruct (mem _ _); [reads_step|]; auto with reads).
    reads_step. destruct (videos_box ui); [|auto with reads].
    unfold fetch_videos_now. repeat reads_step.
    destruct (truthy _); [|auto with reads].
    repeat reads_step. destruct (comments_box ui); [|auto with reads].
    bind_with ltac:(apply fetch_all_comments_keeps).
    reads_step. auto with reads.
  - intros _. unfold show_collected. repeat reads_step.
    destruct (truthy _); [|auto with reads].
    reads_step. destruct (_ <=? _)%Z; auto with reads.
Qed.

End Page.

(** X19.  The Data Collection page never writes to the warehouse: on
    every run of the page that comes to an end, normally or with an
    exception, whatever the widgets return and whatever the upstream
    sends, the store is left as it was and every call that leaves the
    program is a call of the video API. *)
Theorem data_collection_reads_only (fuel : nat) (up : upstream)
  (ui : widgets) (s s' : session) (r : outcome unit) :
  data_collection fuel up ui s = Some (r, s') ->
  store s' = store s /\
  exists cs, calls (out s') = calls (out s) ++ cs /\ Forall api_call cs.
Proof.
  intros H. split.
  - symmetry.
    exact (data_collection_keeps fuel up (fun t => store s = t) ui _ _ _ H
             eq_refl).
  - destruct (data_collection_reads fuel up ui _ _ _ H) as (cs & Hc & Ha & _).
    eauto.
Qed.

Lemma data_collection_reads_only_witness :
  exists s',
    data_collection 3 Scenarios.two_channels
      (mkWidgets "UC2" true false false)
      (mkSession Examples.one_channel_staged Examples.loaded_store
         Examples.nothing_yet 0 0 0)
    = Some (Return tt, s') /\
    store s' = Examples.loaded_store /\
    calls (out s') = [ChannelsList (CStr "UC2")].
Proof.
  destruct (data_collection 3 Scenarios.two_channels
              (mkWidgets "UC2" true false false)
              (mkSession Examples.one_channel_staged Examples.loaded_store
                 Examples.nothing_yet 0 0 0))
    as [[r s']|] eqn:E; [|vm_compute in E; discriminate E].
  destruct (data_collection_reads_only _ _ _ _ _ _ E) as [Hs _].
  vm_compute in E. injection E as <- <-.
  eexists. split; [reflexivity|]. split; [exact Hs|reflexivity].
Defined.

(** *** The page keeps the staging collection well formed *)

Lemma triple_bind {A B} P (m : M A) Q1 (f : A -> M B) Q2 :
  triple P m Q1 -> (forall a, triple (Q1 a) (f a) Q2) ->
  triple P (mbind m f) Q2.
Proof.
  intros Hm Hf s r s' HP H. unfold mbind in H.
  destruct (m s) as [[[a|e] s1]|] eqn:E; [| |discriminate].
  - destruct (Hm _ _ _ HP E) as (a' & Ea & HQ). injection Ea as <-.
    exact (Hf a _ _ _ HQ H).
  - destruct (Hm _ _ _ HP E) as (a' & Ea & _). discriminate.
Qed.

Lemma triple_weaken {A} (P P' : session -> Prop) (m : M A)
  (Q Q' : A -> session -> Prop) :
  (forall s, P' s -> P s) -> (forall a s, Q a s -> Q' a s) ->
  triple P m Q -> triple P' m Q'.
Proof.
  intros HP HQ Hm s r s' Hs H.
  destruct (Hm _ _ _ (HP _ Hs) H) as (a & -> & Ha). eauto.
Qed.

(** A step that returns and leaves the staging collection alone. *)
Lemma triple_quiet {A} (J : staging -> Prop) (R : A -> Prop) (m : M A) :
  (forall s r s', m s = Some (r, s') ->
     collected_channels_data s' = collected_channels_data s /\
     exists a, r = Return a /\ R a) ->
  triple (fun s => J (collected_channels_data s)) m
    (fun a s => J (collected_channels_data s) /\ R a).
Proof.
  intros Hm s r s' Hs H. destruct (Hm _ _ _ H) as (Hc & a & -> & HR).
  exists a. rewrite Hc. auto.
Qed.

Lemma triple_ret {A} J (a : A) :
  triple (fun s => J (collected_channels_data s)) (ret a)
    (fun x s => J (collected_channels_data s) /\ x = a).
Proof.
  apply triple_quiet. intros s r s' E. injection E as <- <-. eauto.
Qed.

Lemma triple_lift {A} J (o : outcome A) a :
  o = Return a ->
  triple (fun s => J (collected_channels_data s)) (lift o)
    (fun x s => J (collected_channels_data s) /\ x = a).
Proof.
  intros ->. apply triple_quiet. intros s r s' E. injection E as <- <-. eauto.
Qed.

Lemma triple_show J d :
  triple (fun s => J (collected_channels_data s)) (st_show d)
    (fun _ s => J (collected_channels_data s) /\ True).
Proof.
  apply triple_quiet. intros s r s' E. injection E as <- <-. eauto.
Qed.

Lemma triple_api {A} J (R : A -> Prop) (f : world -> A * world) :
  (forall w, R (fst (f w))) ->
  triple (fun s => J (collected_channels_data s)) (api f)
    (fun a s => J (collected_channels_data s) /\ R a).
Proof.
  intros Hf. apply triple_quiet. intros s r s' E. unfold api in E.
  specialize (Hf (out s)). destruct (f (out s)) as [a w].
  injection E as <- <-. eauto.
Qed.

Lemma triple_api_paged {A} J (R : A -> Prop)
  (f : world -> option (A * world)) :
  (forall w a w', f w = Some (a, w') -> R a) ->
  triple (fun s => J (collected_channels_data s)) (api_paged f)
    (fun a s => J (collected_channels_data s) /\ R a).
Proof.
  intros Hf. apply triple_quiet. intros s r s' E. unfold api_paged in E.
  destruct (f (out s)) as [[a w]|] eqn:Ef; [|discriminate].
  injection E as <- <-. eauto.
Qed.

Lemma triple_get_staging J :
  triple (fun s => J (collected_channels_data s)) get_staging
    (fun c s => J (collected_channels_data s) /\
                c = collected_channels_data s).
Proof.
  intros s r s' Hs E. injection E as <- <-. eauto.
Qed.

Lemma triple_assume {A} (X : Prop) (P : session -> Prop) (m : M A) Q :
  (X -> triple P m Q) -> triple (fun s => P s /\ X) m Q.
Proof. intros H s r s' [HP HX]. exact (H HX s r s' HP). Qed.

(** The last step of a sequence: its result is dropped. *)
Lemma triple_last {A} (J : staging -> Prop) (m : M A) (R : A -> Prop)
  (Q : A -> session -> Prop) :
  triple (fun s => J (collected_channels_data s)) m
    (fun a s => J (collected_channels_data s) /\ R a) ->
  (forall a s, J (collected_channels_data s) -> Q a s) ->
  triple (fun s => J (collected_channels_data s)) m Q.
Proof.
  intros Hm HQ s r s' Hs H. destruct (Hm _ _ _ Hs H) as (a & -> & HJ & _).
  eauto.
Qed.

Lemma map_fst_update (k : string) (f : staged -> staged) (c : staging) :
  map fst (map (fun kv : string * staged =>
                  if String.eqb (fst kv) k then (fst kv, f (snd kv)) else kv)
             c)
  = map fst c.
Proof.
  rewrite map_map. apply map_ext. intros [k' d]. cbn.
  now destruct (String.eqb k' k).
Qed.

Lemma harvested_update (k : string) (f : staged -> staged) (c : staging) :
  (forall d, harvested_entry d -> harvested_entry (f d)) ->
  harvested c ->
  harvested (map (fun kv : string * staged =>
                    if String.eqb (fst kv) k then (fst kv, f (snd kv))
                    else kv) c).
Proof.
  intros Hf [Hnd Hall]. split; [now rewrite map_fst_update|].
  apply Forall_forall. intros kv Hin.
  apply in_map_iff in Hin as ([k' d] & <- & Hin).
  rewrite Forall_forall in Hall. specialize (Hall _ Hin). cbn in *.
  destruct (String.eqb k' k); cbn; auto.
Qed.

Lemma update_entry_staged k keys f :
  (forall d, harvested_entry d -> harvested_entry (f d)) ->
  triple (fun s => staged_under k keys (collected_channels_data s))
    (update_entry k f)
    (fun _ s => staged_under k keys (collected_channels_data s) /\ True).
Proof.
  intros Hf s r s' (Hh & Hm & Hk) E.
  unfold update_entry in E.
  rewrite Hm in E. injection E as <- <-. exists tt. split; [reflexivity|].
  split; [|exact I]. cbn [collected_channels_data with_staging].
  split; [|split].
  - now apply harvested_update.
  - now rewrite map_fst_update.
  - now rewrite map_fst_update.
Qed.

Lemma harvested_infos c :
  harvested c ->
  exists cs, map (fun kv => s_channel_info (snd kv)) c = map channel_info cs
             /\ length cs = length c.
Proof.
  intros [_ H].
  induction H as [|kv c' (ci & items & cs0 & Hd) Hall (cs & IH & L)].
  - now exists [].
  - exists (ci :: cs). cbn. now rewrite IH, L, Hd.
Qed.

Lemma show_collected_harvested J :
  (forall c, J c -> harvested c) ->
  triple (fun s => J (collected_channels_data s)) show_collected
    (fun _ s => J (collected_channels_data s)).
Proof.
  intros HJ. unfold show_collected.
  eapply triple_bind; [apply (triple_show J)|intros u].
  apply triple_assume. intros _.
  eapply triple_bind; [apply (triple_get_staging J)|].
  intros c. cbn beta.
  intros s r s' [HJs ->] H.
  destruct (collected_channels_data s) as [|kv0 c0] eqn:Ec.
  - cbn [truthy] in H. injection H as <- <-. exists tt. cbn. now rewrite Ec.
  - cbn [truthy] in H.
    destruct (harvested_infos _ (HJ _ HJs)) as (cs & Hi & Hl).
    rewrite Hi in H.
    rewrite (frame_of_channel_infos cs) in H
      by (destruct cs; [discriminate Hl|discriminate]).
    unfold mbind, lift, select in H. cbn [columns forallb] in H.
    change (mem "channel_name" Channel_columns) with true in H.
    change (mem "subscribers" Channel_columns) with true in H.
    change (mem "total_videos" Channel_columns) with true in H.
    cbn [andb] in H.
    destruct (10 <=? Z.of_nat (length (kv0 :: c0)))%Z;
      injection H as <- <-; exists tt; cbn; now rewrite Ec.
Qed.

Lemma harvested_add k c (ci : channel_item) :
  harvested c -> mem k (map fst c) = false ->
  harvested (c ++ [(k, mkStaged (channel_info ci) [] [])]).
Proof.
  intros [Hnd Hall] Hm. apply mem_false in Hm. split.
  - rewrite map_app. apply NoDup_app; [exact Hnd|repeat constructor; simpl; tauto|].
    simpl. intros k' Hk' [<-|[]]. contradiction.
  - apply Forall_app. split; [exact Hall|]. repeat constructor.
    now exists ci, [], [].
Qed.

Section Staging.

Variable fuel : nat.
Variable up : upstream.

Lemma fetch_all_comments_shape J vids :
  forall acc : list (string * thread_item),
  triple (fun s => J (collected_channels_data s))
    (fetch_all_comments fuel up (map video_details vids)
       (map (fun p => comment_info (CStr (fst p)) (snd p)) acc))
    (fun l s => J (collected_channels_data s) /\
                exists cs,
                  l = map (fun p => comment_info (CStr (fst p)) (snd p)) cs).
Proof.
  induction vids as [|it vids IH]; intros acc; cbn [map fetch_all_comments].
  - intros s r s' Hs E. injection E as <- <-. eauto.
  - eapply triple_bind.
    { now apply (triple_lift J _ (CStr (vi_id it))). }
    intros v. apply triple_assume. intros ->.
    eapply triple_bind.
    { apply (triple_api_paged J
               (fun r => exists its,
                  r = Return (map (comment_info (CStr (vi_id it))) its))).
      intros w r w'. apply MigrationFacts.get_comments_of_video_shape. }
    intros r. apply triple_assume. intros (its & ->).
    eapply triple_bind.
    { now apply (triple_lift J _
                   (map (comment_info (CStr (vi_id it))) its)). }
    intros l. apply triple_assume. intros ->.
    replace (map (fun p => comment_info (CStr (fst p)) (snd p)) acc
             ++ map (comment_info (CStr (vi_id it))) its)
      with (map (fun p => comment_info (CStr (fst p)) (snd p))
              (acc ++ map (pair (vi_id it)) its))
      by (now rewrite map_app, map_map).
    apply IH.
Qed.

Lemma fetch_videos_now_staged ui keys (ci : channel_item) :
  triple
    (fun s => staged_under (channel_id_input ui) keys
                (collected_channels_data s))
    (fetch_videos_now fuel up ui (channel_info ci))
    (fun _ s => staged_under (channel_id_input ui) keys
                  (collected_channels_data s)).
Proof.
  set (J := staged_under (channel_id_input ui) keys).
  unfold fetch_videos_now.
  eapply triple_bind.
  { now apply (triple_lift J _ (CStr (ci_title ci))). }
  intros v0. apply triple_assume. intros _.
  eapply triple_bind.
  { now apply (triple_lift J _ (CStr (ci_uploads ci))). }
  intros pid. apply triple_assume. intros _.
  eapply triple_bind.
  { apply (triple_api_paged J (fun _ => True)). auto. }
  intros ids. apply triple_assume. intros _.
  eapply triple_bind.
  { now apply (triple_lift J _ (CStr (ci_title ci))). }
  intros v1. apply triple_assume. intros _.
  eapply triple_bind; [apply (triple_show J)|].
  intros u0. apply triple_assume. intros _.
  destruct (truthy ids).
  2:{ eapply triple_last; [apply (triple_show J)|auto]. }
  eapply triple_bind.
  { apply (triple_api J
             (fun l => exists items, l = map video_details items)).
    intros w. destruct (get_video_details_calls up ids w) as [_ ->].
    rewrite ClientFacts.batches_records_items. eauto. }
  intros l. apply triple_assume. intros (items & ->).
  eapply triple_bind.
  { apply (update_entry_staged (channel_id_input ui) keys).
    intros d (c & its & cs & ->). now exists c, items, cs. }
  intros u1. apply triple_assume. intros _.
  eapply triple_bind; [apply (triple_show J)|].
  intros u2. apply triple_assume. intros _.
  destruct (comments_box ui).
  2:{ eapply triple_last; [apply (triple_ret J)|auto]. }
  eapply triple_bind.
  { apply (fetch_all_comments_shape J items []). }
  intros all. apply triple_assume. intros (cs & ->).
  eapply triple_bind.
  { apply (update_entry_staged (channel_id_input ui) keys).
    intros d (c & its & cs0 & ->). now exists c, its, cs. }
  intros u3. apply triple_assume. intros _.
  eapply triple_last; [apply (triple_show J)|auto].
Qed.

Lemma fetch_channel_data_staged ui keys :
  triple
    (fun s => harvested (collected_channels_data s) /\
              map fst (collected_channels_data s) = keys)
    (fetch_channel_data fuel up ui)
    (fun _ s => harvested (collected_channels_data s) /\
                (map fst (collected_channels_data s) = keys \/
                 map fst (collected_channels_data s)
                 = keys ++ [channel_id_input ui])).
Proof.
  set (J := fun c : staging => harvested c /\ map fst c = keys).
  change (triple (fun s => J (collected_channels_data s))
            (fetch_channel_data fuel up ui)
            (fun _ s => harvested (collected_channels_data s) /\
                (map fst (collected_channels_data s) = keys \/
                 map fst (collected_channels_data s)
                 = keys ++ [channel_id_input ui]))).
  assert (Same : forall (u : unit) s, J (collected_channels_data s) ->
            harvested (collected_channels_data s) /\
            (map fst (collected_channels_data s) = keys \/
             map fst (collected_channels_data s)
             = keys ++ [channel_id_input ui])).
  { intros u s [Hh Hk]. auto. }
  unfold fetch_channel_data.
  destruct (fetch_button ui).
  2:{ eapply triple_last; [apply (triple_ret J)|exact Same]. }
  destruct (channel_id_input ui) as [|c0 k0] eqn:Ek.
  { eapply triple_last; [apply (triple_show J)|exact Same]. }
  rewrite <- Ek in *. set (k := channel_id_input ui) in *.
  eapply triple_bind.
  { apply (triple_api J
             (fun o => o = None \/ exists ci, o = Some (channel_info ci))).
    intros w. unfold get_channel_details.
    destruct (channels_list up _ _) as [[|ci rest]|e]; cbn; eauto.
    destruct e; auto. }
  intros o. apply triple_assume. intros [->|(ci & ->)].
  { eapply triple_last; [apply (triple_show J)|exact Same]. }
  change (channel_info ci) with
    (("channel_id", CStr (ci_id ci)) :: tl (channel_info ci)).
  cbv iota beta.
  change (("channel_id", CStr (ci_id ci)) :: tl (channel_info ci))
    with (channel_info ci).
  eapply triple_bind.
  { now apply (triple_lift J _ (CStr (ci_title ci))). }
  intros v0. apply triple_assume. intros _.
  eapply triple_bind; [apply (triple_show J)|].
  intros u0. apply triple_assume. intros _.
  eapply triple_bind; [apply (triple_get_staging J)|].
  intros c.
  set (keys' := if mem k keys then keys else keys ++ [k]).
  eapply triple_bind
    with (Q1 := fun _ s => staged_under k keys' (collected_channels_data s)).
  { intros s r s' [[Hh Hk] ->] H. rewrite Hk in H. unfold keys'.
    destruct (mem k keys) eqn:Em.
    - assert (St : staged_under k keys (collected_channels_data s))
        by (repeat split; try apply Hh; auto; now rewrite Hk).
      clear Hh Hk. revert s r s' St H.
      change (triple
                (fun s => staged_under k keys (collected_channels_data s))
                (mbind (st_show (st_info "Channel already in temporary collection. Updating details."))
                   (fun _ => update_entry k
                      (fun data => mkStaged (channel_info ci) (s_videos data)
                                     (s_comments data))))
                (fun _ s => staged_under k keys (collected_channels_data s))).
      eapply triple_bind; [apply (triple_show (staged_under k keys))|].
      intros u1. apply triple_assume. intros _.
      eapply triple_last; [apply (update_entry_staged k keys)|auto].
      intros d (c1 & its & cs & ->). now exists ci, its, cs.
    - injection H as <- <-. exists tt. split; [reflexivity|].
      cbn [collected_channels_data with_staging].
      split; [apply harvested_add; [exact Hh|now rewrite Hk]|].
      rewrite map_app, Hk. cbn. split; [|reflexivity].
      apply mem_In. apply in_app_iff. right. now left. }
  intros u1.
  assert (Out : forall (u : unit) s,
            staged_under k keys' (collected_channels_data s) ->
            harvested (collected_channels_data s) /\
            (map fst (collected_channels_data s) = keys \/
             map fst (collected_channels_data s) = keys ++ [k])).
  { intros u s (Hh & _ & Hk). split; [exact Hh|]. unfold keys' in Hk.
    destruct (mem k keys); auto. }
  eapply triple_bind.
  { now apply (triple_lift (staged_under k keys') _ (CStr (ci_title ci))). }
  intros v1. apply triple_assume. intros _.
  destruct (videos_box ui).
  - eapply triple_weaken;
      [| |apply (fetch_videos_now_staged ui keys' ci)]; [auto|exact Out].
  - eapply triple_last; [apply (triple_ret (staged_under k keys'))|exact Out].
Qed.

End Staging.

(** X20.  On a staging collection that the page built, a run of the
    Data Collection page that comes to an end ends without an exception
    and keeps the collection well formed: one entry per key, each made of a channel record, video
    records and comment records of the API client.  No staged channel is
    removed, and at most one key is added: the channel id typed in.  The
    empty collection the script starts with is well formed. *)
Theorem data_collection_keeps_harvested (fuel : nat) (up : upstream)
  (ui : widgets) (s s' : session) (r : outcome unit) :
  harvested (collected_channels_data s) ->
  data_collection fuel up ui s = Some (r, s') ->
  r = Return tt /\
  harvested (collected_channels_data s') /\
  (map fst (collected_channels_data s') = map fst (collected_channels_data s)
   \/ map fst (collected_channels_data s')
      = map fst (collected_channels_data s) ++ [channel_id_input ui]).
Proof.
  intros Hh H.
  set (keys := map fst (collected_channels_data s)) in *.
  set (J := fun c : staging =>
              harvested c /\
              (map fst c = keys \/ map fst c = keys ++ [channel_id_input ui])).
  assert (T : triple
                (fun s => harvested (collected_channels_data s) /\
                          map fst (collected_channels_data s) = keys)
                (data_collection fuel up ui)
                (fun _ s => J (collected_channels_data s))).
  { unfold data_collection. eapply triple_bind.
    - apply fetch_channel_data_staged.
    - intros u. apply (show_collected_harvested J).
      intros c [Hc _]. exact Hc. }
  destruct (T s r s' (conj Hh eq_refl) H) as ([] & -> & Hj & Hk).
  auto.
Qed.

Lemma data_collection_keeps_harvested_witness :
  exists s',
    data_collection 3 Scenarios.two_channels
      (mkWidgets "UC2" true true true)
      (Examples.fresh_session Examples.one_channel_staged)
    = Some (Return tt, s') /\
    harvested (collected_channels_data s') /\
    map fst (collected_channels_data s') = ["UC1"; "UC2"].
Proof.
  destruct (data_collection 3 Scenarios.two_channels
              (mkWidgets "UC2" true true true)
              (Examples.fresh_session Examples.one_channel_staged))
    as [[r s']|] eqn:E; [|vm_compute in E; discriminate E].
  assert (H0 : harvested
                 (collected_channels_data
                    (Examples.fresh_session Examples.one_channel_staged))).
  { split; cbn.
    - constructor; [simpl; tauto|constructor].
    - repeat constructor.
      exists Examples.UC1, [Examples.v1], [("v1", Examples.t1)].
      reflexivity. }
  destruct (data_collection_keeps_harvested _ _ _ _ _ _ H0 E)
    as (-> & Hh & _).
  exists s'. split; [reflexivity|]. split; [exact Hh|].
  vm_compute in E. now injection E as <-.
Defined.

(** *** What a fetch stages *)

Lemma entry_None k (c : staging) :
  mem k (map fst c) = false -> entry k c = None.
Proof.
  unfold entry. induction c as [|[k' d] c IH]; cbn; [reflexivity|].
  rewrite String.eqb_sym. destruct (String.eqb k' k); cbn; [discriminate|].
  exact IH.
Qed.

Lemma entry_add k k' d (c : staging) :
  entry k' (c ++ [(k, d)])
  = match entry k' c with
    | Some old => Some old
    | None => if String.eqb k k' then Some d else None
    end.
Proof.
  unfold entry. induction c as [|[k0 d0] c IH]; cbn.
  - now destruct (String.eqb k k').
  - destruct (String.eqb k0 k'); [reflexivity|exact IH].
Qed.

Lemma entry_update k k' (f : staged -> staged) (c : staging) :
  entry k' (map (fun kv : string * staged =>
                   if String.eqb (fst kv) k then (fst kv, f (snd kv)) else kv)
              c)
  = match entry k' c with
    | Some old => Some (if String.eqb k' k then f old else old)
    | None => None
    end.
Proof.
  unfold entry. induction c as [|[k0 d0] c IH]; cbn; [reflexivity|].
  destruct (String.eqb_spec k0 k) as [->|Hk0]; cbn.
  - destruct (String.eqb_spec k k') as [->|Hk]; cbn.
    + now rewrite String.eqb_refl.
    + exact IH.
  - destruct (String.eqb_spec k0 k') as [->|Hk]; cbn; [|exact IH].
    destruct (String.eqb_spec k' k); [contradiction|reflexivity].
Qed.

Lemma mem_entry k (c : staging) :
  mem k (map fst c) = true -> exists old, entry k c = Some old.
Proof.
  unfold entry. induction c as [|[k' d] c IH]; cbn; [discriminate|].
  rewrite String.eqb_sym. destruct (String.eqb k' k); cbn; eauto.
Qed.

(** X21.  What pressing "Fetch Channel Data" with both boxes unchecked
    does to the staging collection.  With no id typed in, nothing is
    fetched and nothing changes.  When the upstream sends no channel or
    raises, the collection is left as it was and two errors are shown,
    one by the API client and one by the page.  When the upstream sends
    a channel, its record is staged under the id typed in: a channel
    that was already staged keeps its staged videos and comments, a new
    one starts with none, and every other entry is left as it was. *)
Theorem fetch_channel_data_stages (fuel : nat) (up : upstream)
  (ui : widgets) (s : session) :
  fetch_button ui = true ->
  videos_box ui = false ->
  let k := channel_id_input ui in
  let answer := channels_list up (length (calls (out s))) (CStr k) in
  (k = "" ->
   fetch_channel_data fuel up ui s
   = Some (Return tt,
           with_out (show (st_warning "Please enter a YouTube Channel ID to fetch data.")
                       (out s)) s)) /\
  (k <> "" -> (answer = Return [] \/ exists e, answer = Raise e) ->
   exists s' d,
     fetch_channel_data fuel up ui s = Some (Return tt, s') /\
     collected_channels_data s' = collected_channels_data s /\
     calls (out s') = calls (out s) ++ [ChannelsList (CStr k)] /\
     shown (out s')
     = shown (out s) ++ [st_error d;
                         st_error "Could not fetch channel details."]) /\
  (forall ci rest,
     k <> "" -> answer = Return (ci :: rest) ->
     exists s',
       fetch_channel_data fuel up ui s = Some (Return tt, s') /\
       entry k (collected_channels_data s')
       = Some (match entry k (collected_channels_data s) with
               | Some old =>
                   mkStaged (channel_info ci) (s_videos old) (s_comments old)
               | None => mkStaged (channel_info ci) [] []
               end) /\
       forall k', k' <> k ->
         entry k' (collected_channels_data s')
         = entry k' (collected_channels_data s)).
Proof.
  intros Hb Hv k answer. subst answer. unfold fetch_channel_data.
  rewrite Hb. fold k. split; [|split].
  - intros ->. reflexivity.
  - intros Hk Ha. destruct k as [|c0 k0] eqn:Ek; [congruence|].
    unfold mbind, api, get_channel_details.
    destruct Ha as [->|(e & ->)].
    + eexists _, _. split; [reflexivity|]. cbn. rewrite <- app_assoc.
      repeat split; reflexivity.
    + destruct e; eexists _, _; (split; [reflexivity|]); cbn;
        rewrite <- app_assoc; repeat split; reflexivity.
  - intros ci rest Hk Ha. destruct k as [|c0 k0] eqn:Ek; [congruence|].
    rewrite <- Ek in *. clear Ek Hk.
    unfold mbind at 1. unfold api, get_channel_details. rewrite Ha.
    rewrite Hv.
    cbv [mbind lift getitem lookup channel_info String.eqb Ascii.eqb
         Bool.eqb st_show get_staging ret].
    cbn [collected_channels_data with_out].
    destruct (mem k (map fst (collected_channels_data s))) eqn:Em.
    + cbv [update_entry]. cbn [collected_channels_data with_out]. rewrite Em.
      eexists. split; [reflexivity|].
      cbn [collected_channels_data with_staging with_out].
      destruct (mem_entry _ _ Em) as (old & Eo).
      pose proof (fun k' =>
        entry_update k k'
          (fun d => mkStaged (channel_info ci) (s_videos d) (s_comments d))
          (collected_channels_data s)) as U.
      cbv beta delta [channel_info] in U. split.
      * rewrite (U k), Eo, String.eqb_refl. reflexivity.
      * intros k' Hk'. rewrite (U k').
        destruct (entry k' (collected_channels_data s)); [|reflexivity].
        now destruct (String.eqb_spec k' k).
    + cbv [add_entry]. eexists. split; [reflexivity|].
      cbn [collected_channels_data with_staging with_out].
      rewrite !entry_add, (entry_None _ _ Em), String.eqb_refl.
      split; [reflexivity|]. intros k' Hk'. rewrite entry_add.
      destruct (entry k' (collected_channels_data s)); [reflexivity|].
      destruct (String.eqb_spec k k'); [congruence|reflexivity].
Qed.

Lemma fetch_channel_data_stages_witness :
  exists s',
    fetch_channel_data 3 Scenarios.two_channels
      (mkWidgets "UC1" true false false)
      (Examples.fresh_session Examples.one_channel_staged)
    = Some (Return tt, s') /\
    entry "UC1" (collected_channels_data s')
    = Some (mkStaged (channel_info Examples.UC1)
              [video_details Examples.v1]
              [comment_info (CStr "v1") Examples.t1]).
Proof.
  destruct (fetch_channel_data_stages 3 Scenarios.two_channels
              (mkWidgets "UC1" true false false)
              (Examples.fresh_session Examples.one_channel_staged)
              eq_refl eq_refl) as (_ & _ & H).
  destruct (H Examples.UC1 [] ltac:(discriminate) eq_refl) as (s' & E & He & _).
  exists s'. split; [exact E|exact He].
Defined.

End CollectFacts.

(** ** The generated query of the Data Analysis page *)

Module AnalysisFacts.
Import Frame Api App Analysis.

Lemma prefix_refl_app n b : prefix n (n ++ b) = true.
Proof.
  induction n as [|c n IH]; simpl; [now destruct b|].
  destruct (ascii_dec c c); [exact IH|contradiction].
Qed.

Lemma contains_here needle hay :
  prefix needle hay = true -> contains needle hay = true.
Proof. intros H. destruct hay; cbn [contains]; rewrite H; reflexivity. Qed.

Lemma contains_app_r needle a b :
  contains needle b = true -> contains needle (a ++ b) = true.
Proof.
  intros H. induction a as [|c a IH]; simpl; [exact H|].
  rewrite IH. apply orb_true_r.
Qed.

Lemma contains_middle needle a b : contains needle (a ++ needle ++ b) = true.
Proof. apply contains_app_r, contains_here, prefix_refl_app. Qed.

Lemma truthy_str_Some id : id <> "" -> truthy_str (Some id) = true.
Proof. destruct id; [congruence|reflexivity]. Qed.

(** The clause the filter writes. *)
Lemma channel_filter_clause query name id :
  is_all_channels name = false -> id <> "" ->
  exists pre post,
    channel_filter query name (Some id)
    = pre ++ (alias_of (upper query) ++ ".channel_id = '" ++ id ++ "'")
          ++ post.
Proof.
  intros Hn Hi. unfold channel_filter.
  rewrite Hn, (truthy_str_Some id Hi). cbn [negb andb].
  set (alias := alias_of (upper query)).
  destruct (negb _).
  - exists (strip (slice_to query
              (if contains "GROUP BY" (upper query)
               then find "GROUP BY" (upper query)
               else if contains "ORDER BY" (upper query)
                    then find "ORDER BY" (upper query) else -1))
            ++ " WHERE ").
    eexists. rewrite !DurationFacts.append_assoc. reflexivity.
  - destruct (contains "WHERE" (upper query)).
    + exists (query ++ " AND "), "". now rewrite !DurationFacts.append_assoc.
    + exists (query ++ " WHERE "), "". now rewrite !DurationFacts.append_assoc.
Qed.

(** X22.  The alias in the filter of the generated query.  For each
    of the ten predefined queries, once a channel with a non-empty id is
    selected the generated query holds the clause
    [<alias>.channel_id = '<id>'], the id copied as it is, where the alias is [V] when the query reads
    "FROM Videos V" and does not join "Channels C", and [C] otherwise.
    Nine of the ten predefined queries declare the alias their clause
    names; "Total likes and dislikes for each video and video names"
    reads "FROM Videos" with no alias, so its clause names [C], which
    the query declares nowhere. *)
Theorem channel_filter_alias (description query : string) :
  In (description, query) analysis_queries ->
  let alias := alias_of (upper query) in
  (forall name id,
     is_all_channels name = false -> id <> "" ->
     contains (alias ++ ".channel_id = '" ++ id ++ "'")
       (channel_filter query name (Some id)) = true) /\
  (declares alias (upper query) = true <->
   description <> "Total likes and dislikes for each video and video names").
Proof.
  intros Hin. cbn zeta. split.
  - intros name id Hn Hi.
    destruct (channel_filter_clause query name id Hn Hi) as (pre & post & ->).
    apply contains_middle.
  - unfold analysis_queries in Hin. cbn [In] in Hin.
    repeat (destruct Hin as [Hin|Hin];
            [injection Hin as <- <-; vm_compute;
             first [ split; [intros _ H; discriminate H|intros _; reflexivity]
                   | split; [intros H; discriminate H
                            |intros H; exfalso; apply H; reflexivity] ]|]).
    contradiction.
Qed.

Lemma channel_filter_alias_witness :
  declares (alias_of (upper q_likes_dislikes)) (upper q_likes_dislikes)
  = false /\
  contains "C.channel_id = 'UC1'"
    (channel_filter q_likes_dislikes (Some "First channel") (Some "UC1"))
  = true.
Proof.
  destruct (channel_filter_alias
              "Total likes and dislikes for each video and video names"
              q_likes_dislikes) as [Hc Hd].
  - cbn. tauto.
  - split.
    + destruct (declares _ _); [|reflexivity].
      exfalso. now apply (proj1 Hd).
    + apply (Hc (Some "First channel") "UC1"); [reflexivity|discriminate].
Defined.

(** *** Where the filter is put *)

Lemma upper_app a b : upper (a ++ b) = upper a ++ upper b.
Proof. induction a as [|c a IH]; simpl; [reflexivity|now rewrite IH]. Qed.

Lemma prefix_app needle x y :
  prefix needle x = true -> prefix needle (x ++ y) = true.
Proof.
  revert x. induction needle as [|c n IH]; intros x H;
    [now destruct (x ++ y)|].
  destruct x as [|d x]; [discriminate|]. simpl in *.
  destruct (ascii_dec c d); [now apply IH|discriminate].
Qed.

Lemma contains_app_l needle a b :
  contains needle a = true -> contains needle (a ++ b) = true.
Proof.
  induction a as [|c a IH]; cbn [contains append]; intros H.
  - rewrite orb_false_r in H. apply contains_here.
    now apply (prefix_app needle "" b).
  - apply orb_true_iff in H as [H|H].
    + apply (prefix_app needle (String c a) b) in H.
      cbn [append] in H. now rewrite H.
    + rewrite (IH H). apply orb_true_r.
Qed.

Lemma find_none sub s : contains sub s = false -> find sub s = -1.
Proof.
  induction s as [|c s IH]; cbn [contains find]; intros H;
    apply orb_false_iff in H as [Hp Hc]; rewrite Hp; [reflexivity|].
  now rewrite (IH Hc).
Qed.

(** [find] splits a text at the first place its argument starts. *)
Lemma find_split sub s :
  sub <> "" -> contains sub s = true ->
  exists a b,
    s = a ++ b /\ find sub s = Z.of_nat (String.length a) /\
    prefix sub b = true /\ contains sub a = false.
Proof.
  intros Hs. induction s as [|c s IH]; cbn [contains find]; intros H.
  - rewrite orb_false_r in H. destruct sub; [congruence|discriminate].
  - destruct (prefix sub (String c s)) eqn:Ep.
    + exists "", (String c s). repeat split; auto.
      destruct sub; [congruence|reflexivity].
    + cbn [orb] in H. destruct (IH H) as (a & b & -> & Hf & Hb & Ha).
      exists (String c a), b. rewrite Hf.
      assert (E : (Z.of_nat (String.length a) =? -1) = false) by lia.
      rewrite E. repeat split; auto.
      * cbn [String.length]. lia.
      * cbn [contains]. rewrite Ha, orb_false_r.
        destruct (prefix sub (String c a)) eqn:Ep'; [|reflexivity].
        apply (prefix_app sub (String c a) b) in Ep'.
        cbn [append] in Ep'. congruence.
Qed.

Lemma substring_app_l a b : substring 0 (String.length a) (a ++ b) = a.
Proof.
  induction a as [|c a IH]; simpl; [now destruct b|now rewrite IH].
Qed.

Lemma substring_all s : substring 0 (String.length s) s = s.
Proof. induction s as [|c s IH]; simpl; [reflexivity|now rewrite IH]. Qed.

Lemma substring_app_r a b n :
  substring (String.length a) n (a ++ b) = substring 0 n b.
Proof. induction a as [|c a IH]; simpl; [reflexivity|exact IH]. Qed.

Lemma length_app a b :
  String.length (a ++ b) = (String.length a + String.length b)%nat.
Proof. induction a as [|c a IH]; simpl; [reflexivity|now rewrite IH]. Qed.

Lemma slices a b :
  slice_to (a ++ b) (Z.of_nat (String.length a)) = a /\
  slice_from (a ++ b) (Z.of_nat (String.length a)) = b.
Proof.
  unfold slice_to, slice_from. rewrite Nat2Z.id. split.
  - apply substring_app_l.
  - rewrite substring_app_r, length_app.
    replace (String.length a + String.length b - String.length a)%nat
      with (String.length b) by lia.
    apply substring_all.
Qed.

Lemma upper_length s : String.length (upper s) = String.length s.
Proof. induction s as [|c s IH]; simpl; [reflexivity|now rewrite IH]. Qed.

(** A text whose upper-case form starts with [kw] starts with a text
    whose upper-case form is [kw]. *)
Lemma prefix_upper kw : forall b,
  prefix kw (upper b) = true -> exists k t, b = k ++ t /\ upper k = kw.
Proof.
  induction kw as [|x kw IH]; intros b H.
  - now exists "", b.
  - destruct b as [|c b]; [discriminate|]. cbn [upper prefix] in H.
    destruct (ascii_dec x (upper_char c)) as [->|]; [|discriminate].
    destruct (IH b H) as (k & t & -> & <-).
    now exists (String c k), t.
Qed.

Lemma isspace_upper_char c :
  isspace (upper_char c) = false -> isspace c = false.
Proof.
  unfold upper_char. cbv zeta.
  destruct ((97 <=? nat_of_ascii c)%nat && (nat_of_ascii c <=? 122)%nat)
    eqn:E; [|auto].
  intros _. apply andb_true_iff in E as [E1 E2].
  apply Nat.leb_le in E1, E2. unfold isspace. cbv zeta.
  repeat match goal with
         | |- context [(?a <=? ?b)%nat] =>
             destruct (Nat.leb_spec a b); cbn [andb orb]
         | |- context [(?a =? ?b)%nat] =>
             destruct (Nat.eqb_spec a b); cbn [andb orb]
         end; try reflexivity; lia.
Qed.

Lemma starts_nonspace_upper k :
  starts_nonspace (upper k) = true -> starts_nonspace k = true.
Proof.
  destruct k as [|c k]; [auto|]. cbn [upper starts_nonspace].
  intros H. apply negb_true_iff in H. apply negb_true_iff.
  now apply isspace_upper_char.
Qed.

Lemma ends_nonspace_upper k :
  ends_nonspace (upper k) = true -> ends_nonspace k = true.
Proof.
  induction k as [|c k IH]; [auto|]. cbn [upper ends_nonspace].
  destruct k as [|d k]; cbn [upper] in *.
  - intros H. apply negb_true_iff in H. apply negb_true_iff.
    now apply isspace_upper_char.
  - exact IH.
Qed.

Lemma rstrip_nonempty k : ends_nonspace k = true -> rstrip k = k.
Proof.
  induction k as [|c k IH]; [discriminate|]. cbn [ends_nonspace rstrip].
  destruct k as [|d k].
  - intros H. cbn [rstrip]. apply negb_true_iff in H. now rewrite H.
  - intros H. now rewrite (IH H).
Qed.

Lemma rstrip_app k t :
  ends_nonspace k = true -> rstrip (k ++ t) = k ++ rstrip t.
Proof.
  induction k as [|c k IH]; [discriminate|]. cbn [ends_nonspace].
  destruct k as [|d k].
  - intros H. cbn [append rstrip]. apply negb_true_iff in H. rewrite H.
    now destruct (rstrip t).
  - intros H. change (String c (String d k) ++ t)
      with (String c (String d k ++ t)).
    cbn [rstrip]. rewrite (IH H). reflexivity.
Qed.

Lemma strip_app k t :
  starts_nonspace k = true -> ends_nonspace k = true ->
  strip (k ++ t) = k ++ rstrip t.
Proof.
  intros Hs He. unfold strip. rewrite (rstrip_app k t He).
  destruct k as [|c k]; [discriminate|]. cbn [append lstrip].
  cbn [starts_nonspace] in Hs. apply negb_true_iff in Hs. now rewrite Hs.
Qed.

Lemma lstrip_suffix s : exists p, s = p ++ lstrip s.
Proof.
  induction s as [|c s (p & IH)]; [now exists ""|]. cbn [lstrip].
  destruct (isspace c).
  - exists (String c p). cbn. now rewrite <- IH.
  - now exists "".
Qed.

Lemma rstrip_prefix s : exists q, s = rstrip s ++ q.
Proof.
  induction s as [|c s (q & IH)]; [now exists ""|]. cbn [rstrip].
  destruct (rstrip s) as [|d t] eqn:E.
  - destruct (isspace c).
    + exists (String c s). reflexivity.
    + exists s. reflexivity.
  - exists q. cbn [append] in *. congruence.
Qed.

(** What [strip] leaves is a part of the text. *)
Lemma contains_strip needle s :
  contains needle (upper (strip s)) = true ->
  contains needle (upper s) = true.
Proof.
  intros H. unfold strip in H.
  destruct (rstrip_prefix s) as (q & Hq).
  destruct (lstrip_suffix (rstrip s)) as (p & Hp).
  rewrite Hq, Hp, !upper_app.
  now apply contains_app_l, contains_app_r.
Qed.

(** Cutting a text where its upper-case form is cut. *)
Lemma upper_split ua ub : forall q,
  upper q = ua ++ ub ->
  let a := substring 0 (String.length ua) q in
  let b := substring (String.length ua)
             (String.length q - String.length ua) q in
  q = a ++ b /\ upper a = ua /\ upper b = ub.
Proof.
  induction ua as [|x ua IH]; intros q H; cbv zeta.
  - cbn [String.length append] in *. rewrite Nat.sub_0_r, substring_all.
    replace (substring 0 0 q) with "" by now destruct q.
    auto.
  - destruct q as [|c q]; [discriminate|]. cbn [upper append] in H.
    injection H as Hc H. destruct (IH q H) as (Hq & Ha & Hb).
    cbn [String.length substring Nat.sub append upper].
    rewrite <- Hq, Ha, Hb, Hc. auto.
Qed.

Lemma channel_filter_grouped query name id kw :
  is_all_channels name = false -> id <> "" ->
  grouping (upper query) = Some kw ->
  exists pre post,
    channel_filter query name (Some id)
    = pre ++ " WHERE "
          ++ (alias_of (upper query) ++ ".channel_id = '" ++ id ++ "'")
          ++ " " ++ post /\
    prefix kw (upper post) = true /\
    contains kw (upper pre) = false /\
    (contains "WHERE" (upper query) = false ->
     contains "WHERE" (upper pre) = false).
Proof.
  intros Hn Hi Hg. unfold channel_filter.
  rewrite Hn, (truthy_str_Some id Hi). cbn [negb andb]. cbv zeta.
  assert (K : (if contains "GROUP BY" (upper query)
               then find "GROUP BY" (upper query)
               else if contains "ORDER BY" (upper query)
                    then find "ORDER BY" (upper query) else -1)
              = find kw (upper query) /\
              contains kw (upper query) = true /\
              starts_nonspace kw = true /\ ends_nonspace kw = true /\
              kw <> "").
  { unfold grouping in Hg.
    destruct (contains "GROUP BY" (upper query)) eqn:Eg.
    - injection Hg as <-. repeat split; auto. discriminate.
    - destruct (contains "ORDER BY" (upper query)) eqn:Eo; [|discriminate].
      injection Hg as <-. repeat split; auto. discriminate. }
  destruct K as (Hi' & Hc & Hs & He & Hne). rewrite Hi'.
  destruct (find_split kw (upper query) Hne Hc)
    as (ua & ub & Hq & Hf & Hb & Ha).
  rewrite Hf.
  assert (L : negb (Z.of_nat (String.length ua) =? -1) = true).
  { apply negb_true_iff. lia. }
  rewrite L.
  set (a := substring 0 (String.length ua) query).
  set (b := substring (String.length ua)
              (String.length query - String.length ua) query).
  assert (Hab : query = a ++ b /\ upper a = ua /\ upper b = ub).
  { exact (upper_split ua ub query Hq). }
  destruct Hab as (Hquery & Hua & Hub).
  assert (Sl : slice_to query (Z.of_nat (String.length ua)) = a /\
               slice_from query (Z.of_nat (String.length ua)) = b).
  { unfold slice_to, slice_from. now rewrite Nat2Z.id. }
  destruct Sl as [-> ->].
  exists (strip a), (strip b).
  split; [now rewrite !DurationFacts.append_assoc|].
  rewrite <- Hub in Hb. destruct (prefix_upper kw b Hb) as (k & t & Hkt & Hk).
  assert (Sb : strip b = k ++ rstrip t).
  { rewrite Hkt. apply strip_app.
    - apply starts_nonspace_upper. now rewrite Hk.
    - apply ends_nonspace_upper. now rewrite Hk. }
  split; [|split].
  - rewrite Sb, upper_app, Hk. apply prefix_refl_app.
  - destruct (contains kw (upper (strip a))) eqn:E; [|reflexivity].
    apply contains_strip in E. rewrite Hua in E. congruence.
  - intros Hw. destruct (contains "WHERE" (upper (strip a))) eqn:E;
      [|reflexivity].
    apply contains_strip in E. rewrite Hquery, upper_app in Hw.
    now rewrite (contains_app_l _ _ _ E) in Hw.
Qed.

Lemma channel_filter_appended query name id :
  is_all_channels name = false -> id <> "" ->
  grouping (upper query) = None ->
  channel_filter query name (Some id)
  = query ++ (if contains "WHERE" (upper query) then " AND " else " WHERE ")
          ++ alias_of (upper query) ++ ".channel_id = '" ++ id ++ "'".
Proof.
  intros Hn Hi Hg. unfold channel_filter.
  rewrite Hn, (truthy_str_Some id Hi). cbn [negb andb]. cbv zeta.
  unfold grouping in Hg.
  destruct (contains "GROUP BY" (upper query)); [discriminate|].
  destruct (contains "ORDER BY" (upper query)); [discriminate|].
  cbn [Z.eqb negb Pos.eqb].
  now destruct (contains "WHERE" (upper query)).
Qed.

Lemma grouped_queries_have_no_where description query :
  In (description, query) analysis_queries ->
  grouping (upper query) <> None ->
  contains "WHERE" (upper query) = false.
Proof.
  unfold analysis_queries. cbn [In]. intros Hin.
  repeat (destruct Hin as [Hin|Hin];
          [injection Hin as <- <-; vm_compute;
           first [reflexivity|intros H; exfalso; now apply H]|]).
  contradiction.
Qed.

(** X23. With a channel picked, each of the ten queries gets one WHERE
    clause on the channel id: when the query has a GROUP BY, or else an
    ORDER BY, the clause stands immediately before the first one, and no
    WHERE and no such keyword comes before it; otherwise the clause is
    appended to the whole text, after AND when the query has a WHERE and
    after WHERE when it has none. *)
Theorem channel_filter_placement description query name id :
  In (description, query) analysis_queries ->
  is_all_channels name = false -> id <> "" ->
  let clause := alias_of (upper query) ++ ".channel_id = '" ++ id ++ "'" in
  match grouping (upper query) with
  | Some kw =>
      exists pre post,
        channel_filter query name (Some id)
        = pre ++ " WHERE " ++ clause ++ " " ++ post /\
        prefix kw (upper post) = true /\
        contains kw (upper pre) = false /\
        contains "WHERE" (upper pre) = false
  | None =>
      channel_filter query name (Some id)
      = query
        ++ (if contains "WHERE" (upper query) then " AND " else " WHERE ")
        ++ clause
  end.
Proof.
  intros Hin Hn Hi clause. subst clause.
  pose proof (grouped_queries_have_no_where description query Hin) as W.
  destruct (grouping (upper query)) as [kw|] eqn:G.
  - destruct (channel_filter_grouped query name id kw Hn Hi G)
      as (pre & post & E & P & C & Wh).
    exists pre, post. repeat split; auto. apply Wh, W. discriminate.
  - now apply channel_filter_appended.
Qed.

Lemma channel_filter_placement_witness :
  exists pre post,
    channel_filter q_views_per_channel (Some "First channel") (Some "UC1")
    = pre ++ " WHERE " ++ ("C" ++ ".channel_id = '" ++ "UC1" ++ "'")
          ++ " " ++ post /\
    prefix "GROUP BY" (upper post) = true /\
    contains "GROUP BY" (upper pre) = false /\
    contains "WHERE" (upper pre) = false.
Proof.
  refine (channel_filter_placement
            "Total views per channel and channel names"
            q_views_per_channel (Some "First channel") "UC1" _ _ _).
  - cbn. tauto.
  - reflexivity.
  - discriminate.
Defined.

(** *** The choice of a channel *)

Lemma key_eqb_eq a b : key_eqb a b = true <-> a = b.
Proof.
  destruct a as [x|], b as [y|]; cbn; try (split; congruence).
  rewrite String.eqb_eq. split; congruence.
Qed.

Lemma key_eqb_refl a : key_eqb a a = true.
Proof. now apply key_eqb_eq. Qed.

Lemma dict_get_set k k' v d :
  dict_get k (dict_set k' v d)
  = if key_eqb k k' then Some v else dict_get k d.
Proof.
  induction d as [|[k0 v0] d IH]; cbn [dict_set dict_get]; [reflexivity|].
  destruct (key_eqb k' k0) eqn:E0; cbn [dict_get].
  - apply key_eqb_eq in E0. subst k0. now destruct (key_eqb k k').
  - destruct (key_eqb k k0) eqn:E1.
    + destruct (key_eqb k k') eqn:E2; [|reflexivity].
      apply key_eqb_eq in E1, E2. subst. now rewrite key_eqb_refl in E0.
    + exact IH.
Qed.

Lemma find_last {A} (p : A -> bool) l x :
  List.find p (l ++ [x])
  = match List.find p l with
    | Some y => Some y
    | None => if p x then Some x else None
    end.
Proof.
  induction l as [|y l IH]; cbn [List.find app]; [reflexivity|].
  now destruct (p y).
Qed.

(** Looking a name up in the dictionary of the rows. *)
Lemma dict_get_rows k rows : forall d,
  dict_get k (fold_left (fun d ch => dict_set (fst ch) (snd ch) d) rows d)
  = match List.find (fun r => key_eqb k (fst r)) (rev rows) with
    | Some r => Some (snd r)
    | None => dict_get k d
    end.
Proof.
  induction rows as [|r rows IH]; intros d; cbn [fold_left rev List.find];
    [reflexivity|].
  rewrite IH, find_last, dict_get_set.
  destruct (List.find (fun r => key_eqb k (fst r)) (rev rows));
    [reflexivity|].
  now destruct (key_eqb k (fst r)).
Qed.

Lemma dict_get_channel_names_map k rows :
  dict_get k (channel_names_map rows) = id_of_last k rows.
Proof.
  unfold channel_names_map, id_of_last, name_row. rewrite dict_get_rows.
  unfold name_row.
  destruct (List.find (fun r : option string * string => key_eqb k (fst r))
              (rev rows)); reflexivity.
Qed.

Lemma dict_set_keys k v d x :
  In x (map fst (dict_set k v d)) -> x = k \/ In x (map fst d).
Proof.
  induction d as [|[k0 v0] d IH]; cbn [dict_set map fst In].
  - intros [<-|[]]. now left.
  - destruct (key_eqb k k0); cbn [map fst In]; [tauto|].
    intros [H|H]; [tauto|]. destruct (IH H); tauto.
Qed.

Lemma channel_names_map_keys rows x :
  In x (map fst (channel_names_map rows)) -> In x (map fst rows).
Proof.
  unfold channel_names_map.
  assert (G : forall d,
            In x (map fst (fold_left
                             (fun d ch => dict_set (fst ch) (snd ch) d)
                             rows d)) ->
            In x (map fst rows) \/ In x (map fst d)).
  { induction rows as [|r rows IH]; intros d H; cbn [fold_left] in H.
    - now right.
    - destruct (IH _ H) as [H'|H']; [left; now right|].
      apply dict_set_keys in H' as [->|H']; [left; now left|now right]. }
  intros H. destruct (G [] H) as [H'|[]]. exact H'.
Qed.

Lemma insert_sorted_In x y l : In x (insert_sorted y l) -> x = y \/ In x l.
Proof.
  induction l as [|z l IH]; cbn [insert_sorted].
  - intros [<-|[]]. now left.
  - destruct (String.leb y z); cbn [In]; [intuition congruence|].
    intros [H|H]; [tauto|]. destruct (IH H); tauto.
Qed.

Lemma sorted_In x l : In x (fold_right insert_sorted [] l) -> In x l.
Proof.
  induction l as [|y l IH]; cbn [fold_right]; [auto|].
  intros H. apply insert_sorted_In in H as [->|H]; [now left|right; auto].
Qed.

Lemma strings_of_Some keys : forall l,
  strings_of keys = Some l -> keys = map Some l.
Proof.
  induction keys as [|[s|] keys IH]; intros l H; cbn [strings_of] in H.
  - now injection H as <-.
  - destruct (strings_of keys) as [l'|]; [|discriminate].
    injection H as <-. cbn [map]. now rewrite (IH l' eq_refl).
  - discriminate.
Qed.

Lemma sorted_keys_In keys names x :
  sorted_keys keys = Return names -> In x names -> In x keys.
Proof.
  unfold sorted_keys. intros H Hx.
  destruct keys as [|k [|k' keys]]; try (injection H as <-; exact Hx).
  destruct (strings_of (k :: k' :: keys)) as [l|] eqn:E; [|discriminate].
  injection H as <-. rewrite (strings_of_Some _ _ E).
  apply in_map_iff in Hx as (s & <- & Hs). apply in_map, sorted_In, Hs.
Qed.

Lemma select_channel_cases rows choice w sel w' :
  select_channel rows choice w = (Return sel, w') ->
  selected_channel_id sel = id_of_last (selected_channel_name sel) rows /\
  (selected_channel_name sel = Some "All Channels" \/
   In (selected_channel_name sel) (map fst rows)).
Proof.
  unfold select_channel. destruct (truthy rows) eqn:T.
  - cbv zeta.
    destruct (sorted_keys (map fst (channel_names_map rows)))
      as [names|e] eqn:S; [|discriminate].
    intros H. injection H as <- <-.
    cbn [selected_channel_id selected_channel_name]. split.
    + apply dict_get_channel_names_map.
    + destruct (nth_in_or_default choice (Some "All Channels" :: names)
                  (Some "All Channels")) as [[H|H]|H]; auto.
      right. apply channel_names_map_keys.
      exact (sorted_keys_In _ _ _ S H).
  - intros H. injection H as <- <-.
    destruct rows; [|discriminate]. split; [reflexivity|now left].
Qed.

(** X24. The select box of the channels gives the name "All Channels"
    or the name of a stored channel, and with it the id of the last of
    the rows that bear this name: of several channels with one name only
    the last one read can be filtered on. *)
Theorem select_channel_takes_last rows choice w sel w' :
  select_channel rows choice w = (Return sel, w') ->
  selected_channel_id sel = id_of_last (selected_channel_name sel) rows /\
  (selected_channel_name sel = Some "All Channels" \/
   In (selected_channel_name sel) (map fst rows)).
Proof. apply select_channel_cases. Qed.

Lemma select_channel_takes_last_witness :
  select_channel Scenarios.namesakes 1 Examples.nothing_yet
  = (Return (mkSelection (Some "Same name") (Some "UC2")),
     Examples.nothing_yet) /\
  Some "UC2" = id_of_last (Some "Same name") Scenarios.namesakes.
Proof.
  split; [reflexivity|].
  exact (proj1 (select_channel_takes_last Scenarios.namesakes 1
                  Examples.nothing_yet
                  (mkSelection (Some "Same name") (Some "UC2"))
                  Examples.nothing_yet eq_refl)).
Defined.

Lemma id_of_last_In name rows id :
  id_of_last name rows = Some id -> In (name, id) rows.
Proof.
  unfold id_of_last. intros H.
  destruct (List.find (fun r => key_eqb name (fst r)) (rev rows))
    as [[k v]|] eqn:F; [|discriminate].
  injection H as <-. apply find_some in F as [Hin Hk].
  apply key_eqb_eq in Hk. cbn [fst] in Hk. subst k.
  now apply in_rev.
Qed.

Lemma channel_filter_off query name id :
  is_all_channels name = true \/ truthy_str id = false ->
  channel_filter query name id = query.
Proof.
  unfold channel_filter. destruct id as [id|]; [|reflexivity].
  intros [->| ->]; [reflexivity|]. now rewrite andb_false_r.
Qed.

(** X25. Whatever is stored and whatever is picked, the query the
    analysis page generates is one of its ten texts, unchanged, or one
    of them filtered on the id of a stored channel whose name is not
    "All Channels"; when the channels cannot be read it is unchanged. *)
Theorem generated_query_is_predefined all channel_choice query_choice w
  text w' :
  generated_query all channel_choice query_choice w = (Return text, w') ->
  exists description full_query,
    In (description, full_query) analysis_queries /\
    (text = full_query \/
     exists rows name id,
       all = Return rows /\ In (name, id) rows /\
       name <> Some "All Channels" /\ id <> "" /\
       text = channel_filter full_query name (Some id)).
Proof.
  unfold generated_query.
  destruct (get_all_channel_names all w) as [all_channels w1] eqn:G.
  destruct (select_channel all_channels channel_choice w1)
    as [[sel|e] w2] eqn:S; [|discriminate].
  destruct (List.find _ analysis_queries) as [[d full_query]|] eqn:F;
    [|discriminate].
  intros H. injection H as <- <-.
  exists d, full_query. split; [exact (proj1 (find_some _ _ F))|].
  destruct (select_channel_cases _ _ _ _ _ S) as [Hid _].
  destruct (is_all_channels (selected_channel_name sel)) eqn:A;
    [left; apply channel_filter_off; now left|].
  destruct (truthy_str (selected_channel_id sel)) eqn:T;
    [|left; apply channel_filter_off; now right].
  destruct (selected_channel_id sel) as [id|] eqn:I; [|discriminate].
  symmetry in Hid. apply id_of_last_In in Hid.
  destruct all as [rows|e]; cbn [get_all_channel_names] in G;
    injection G as <- <-; [|destruct Hid].
  right. exists rows, (selected_channel_name sel), id.
  repeat split; auto.
  - intros E. rewrite E in A. discriminate.
  - intros ->. discriminate.
Qed.

Lemma generated_query_is_predefined_witness :
  exists description full_query,
    In (description, full_query) analysis_queries /\
    (channel_filter q_most_videos (Some "Same name") (Some "UC2")
     = full_query \/
     exists rows name id,
       Return Scenarios.namesakes = Return rows /\ In (name, id) rows /\
       name <> Some "All Channels" /\ id <> "" /\
       channel_filter q_most_videos (Some "Same name") (Some "UC2")
       = channel_filter full_query name (Some id)).
Proof.
  exact (generated_query_is_predefined (Return Scenarios.namesakes) 1 1
           Examples.nothing_yet _ Examples.nothing_yet eq_refl).
Defined.

End AnalysisFacts.

